(** * WAVM: the LLVM IR emitter and the S-expression parser

    A shallow embedding of [Source/Runtime/LLVMEmitIR.cpp] (the per-function
    emitter, [LLVMJIT::EmitFunctionContext]) and of
    [Source/Core/SExpressions.cpp] (the text-format parser, [SExp::parse]),
    followed by the properties of the specification that concern them.

    The emitter is embedded as state-passing functions over a record that
    mirrors [EmitFunctionContext]; the LLVM objects it manipulates through
    [llvm::IRBuilder] (instructions, basic blocks, phi nodes) are kept in a
    store indexed by identifiers, so that the sharing of [llvm::PHINode*]
    between the control stack and the branch-target stack is kept.  The
    emitted IR is given meaning by an interpreter that follows the LLVM
    language reference for the instructions the emitter uses. *)

From Stdlib Require Import ZArith Lia.
From stdpp Require Import base option list gmap strings.

(** ** IR: WebAssembly value and function types ([namespace IR]) *)

Module IR.

Inductive ValueType := any | i32 | i64 | f32 | f64 | v128.

#[global] Instance ValueType_eq_dec : EqDecision ValueType.
Proof. solve_decision. Defined.

Definition TypeTuple := list ValueType.

(** [FunctionType(results, params)]: the constructor takes the results first. *)
Record FunctionType := mkFunctionType { results : TypeTuple; params : TypeTuple }.

#[global] Instance FunctionType_eq_dec : EqDecision FunctionType.
Proof. solve_decision. Defined.

Definition getTypeBitWidth (type : ValueType) : Z :=
  match type with
  | i32 | f32 => 32
  | i64 | f64 => 64
  | v128 => 128
  | any => 0
  end.

End IR.

(** ** The LLVM objects the emitter creates *)

Module LLVM.

Inductive Type_ :=
| VoidTy
| IntegerTy (bits : Z)
| FloatTy
| DoubleTy
| VectorTy (lanes : nat) (element : Type_)
| PointerTy (pointee : Type_)
| TableElementTy
| LandingPadTy
| AggregateTy.

Definition isVectorTy (t : Type_) : bool :=
  match t with VectorTy _ _ => true | _ => false end.

Definition getPointerTo (t : Type_) : Type_ := PointerTy t.

Definition getPointerElementType (t : Type_) : Type_ :=
  match t with PointerTy e => e | _ => VoidTy end.

(** The callee of a call or invoke instruction. *)
Inductive Callee :=
| RuntimeIntrinsic (name : string)
| LLVMIntrinsic (name : string)
| ModuleFunction (name : string)
| FunctionDefinition (functionDefIndex : nat)
| ImportedFunction (functionIndex : nat).

(** [llvm::Value*]: constants are identified by their contents, arguments by
    their position and instructions by the identifier they were created
    with. *)
Inductive Value :=
| ConstantInt (bits : Z) (value : Z)
| ConstantFP (type : Type_) (pattern : Z)
| ConstantPointer (address : Z) (type : Type_)
| ConstantVector (elements : list Z)
| Argument (index : nat) (type : Type_)
| InstValue (id : nat) (type : Type_)
| MetadataAsValue (text : string).

Inductive CastOps :=
| Trunc | ZExt | SExt | FPToUI | FPToSI | UIToFP | SIToFP | FPTrunc | FPExt
| PtrToInt | IntToPtr | BitCast.

Inductive BinaryOps :=
| Add | Sub | Mul | UDiv | SDiv | URem | SRem | Shl | LShr | AShr | And | Or | Xor
| FAdd | FSub | FMul | FDiv.

Inductive Predicate :=
| ICMP_EQ | ICMP_NE | ICMP_UGT | ICMP_UGE | ICMP_ULT | ICMP_ULE
| ICMP_SGT | ICMP_SGE | ICMP_SLT | ICMP_SLE
| FCMP_OEQ | FCMP_OGT | FCMP_OGE | FCMP_OLT | FCMP_OLE | FCMP_UNO | FCMP_UNE.

Inductive RMWBinOp := Xchg | RMWAdd | RMWSub | RMWAnd | RMWOr | RMWXor.

Inductive AtomicOrdering := NotAtomic | SequentiallyConsistent.

Inductive BranchWeights := likelyFalseBranchWeights | likelyTrueBranchWeights.

Inductive Instruction :=
| CastInst (op : CastOps) (operand : Value) (destType : Type_)
| BinaryOperator (op : BinaryOps) (left right : Value)
| UnaryNeg (operand : Value) | UnaryNot (operand : Value) | UnaryFNeg (operand : Value)
| CmpInst (predicate : Predicate) (left right : Value)
| SelectInst (condition trueValue falseValue : Value)
| PHINode (type : Type_) (incoming : list (Value * nat))
| AllocaInst (type : Type_) (arraySize : option Value) (name : string)
| LoadInst (pointer : Value) (alignment : Z) (isVolatile : bool) (ordering : AtomicOrdering)
| StoreInst (value pointer : Value) (alignment : Z) (isVolatile : bool)
            (ordering : AtomicOrdering)
| GetElementPtrInst (pointer : Value) (indices : list Value)
| AtomicCmpXchgInst (pointer expected replacement : Value) (isVolatile : bool)
| AtomicRMWInst (op : RMWBinOp) (pointer value : Value) (isVolatile : bool)
| ExtractValueInst (aggregate : Value) (index : nat)
| ExtractElementInst (vector : Value) (index : Z)
| InsertElementInst (vector element : Value) (index : Z)
| VectorSplat (lanes : nat) (element : Value)
| ShuffleVectorInst (left right : Value) (mask : list Z)
| LandingPadInst (clauses : list Value)
| CallInst (callee : Callee) (calleeValue : option Value) (arguments : list Value)
| InvokeInst (callee : Callee) (calleeValue : option Value) (normalDest unwindDest : nat)
             (arguments : list Value)
| BranchInst (dest : nat)
| CondBranchInst (condition : Value) (ifTrue ifFalse : nat) (weights : option BranchWeights)
| SwitchInst (index : Value) (defaultDest : nat) (cases : list (Z * nat))
| ReturnInst (values : list Value)
| UnreachableInst.

Record BasicBlock := mkBasicBlock { bbName : string; bbInstructions : list nat }.

(** The function under construction together with the [llvm::IRBuilder]
    insertion point.  Instructions and blocks are never deallocated:
    [eraseFromParent] only unlinks an instruction from its block. *)
Record Function := mkFunction {
  instructions : gmap nat Instruction;
  basicBlocks : gmap nat BasicBlock;
  blockOrder : list nat;
  nextInstruction : nat;
  nextBasicBlock : nat;
  insertBlock : option nat
}.

Definition emptyFunction : Function :=
  mkFunction ∅ ∅ [] 0 0 None.

(** [llvm::BasicBlock::Create(context, name, function)]: a new block appended
    to the function's block list. *)
Definition BasicBlock_Create (name : string) (f : Function) : nat * Function :=
  let b := nextBasicBlock f in
  (b, mkFunction (instructions f) (<[b := mkBasicBlock name []]> (basicBlocks f))
        (blockOrder f ++ [b]) (nextInstruction f) (S b) (insertBlock f)).

Definition GetInsertBlock (f : Function) : option nat := insertBlock f.

Definition SetInsertPoint (b : nat) (f : Function) : Function :=
  mkFunction (instructions f) (basicBlocks f) (blockOrder f)
    (nextInstruction f) (nextBasicBlock f) (Some b).

Definition appendToBlock (id : nat) (bb : BasicBlock) : BasicBlock :=
  mkBasicBlock (bbName bb) (bbInstructions bb ++ [id]).

(** [IRBuilder::Insert]: the instruction is appended to the insertion block
    (when there is one) and identified by a fresh number. *)
Definition Insert (i : Instruction) (f : Function) : nat * Function :=
  let id := nextInstruction f in
  (id, mkFunction (<[id := i]> (instructions f))
         (match insertBlock f with
          | Some b => alter (appendToBlock id) b (basicBlocks f)
          | None => basicBlocks f
          end)
         (blockOrder f) (S id) (nextBasicBlock f) (insertBlock f)).

(** [block->moveAfter(other)]: only the layout order changes. *)
Definition moveAfter (b after : nat) (f : Function) : Function :=
  let without := filter (λ x, x ≠ b) (blockOrder f) in
  let order :=
    foldr (λ x acc, if decide (x = after) then x :: b :: acc else x :: acc) [] without in
  mkFunction (instructions f) (basicBlocks f) order
    (nextInstruction f) (nextBasicBlock f) (insertBlock f).

Definition addIncomingTo (value : Value) (block : nat) (i : Instruction) : Instruction :=
  match i with
  | PHINode t incoming => PHINode t (incoming ++ [(value, block)])
  | other => other
  end.

Definition setInstruction (id : nat) (i : Instruction) (f : Function) : Function :=
  mkFunction (<[id := i]> (instructions f)) (basicBlocks f) (blockOrder f)
    (nextInstruction f) (nextBasicBlock f) (insertBlock f).

Definition alterInstruction (g : Instruction → Instruction) (id : nat) (f : Function)
  : Function :=
  mkFunction (alter g id (instructions f)) (basicBlocks f) (blockOrder f)
    (nextInstruction f) (nextBasicBlock f) (insertBlock f).

Definition getNumIncomingValues (id : nat) (f : Function) : nat :=
  match instructions f !! id with
  | Some (PHINode _ incoming) => length incoming
  | _ => 0
  end.

(** [instruction->eraseFromParent()]. *)
Definition eraseFromParent (id : nat) (f : Function) : Function :=
  mkFunction (instructions f)
    ((λ bb, mkBasicBlock (bbName bb) (filter (λ x, x ≠ id) (bbInstructions bb)))
       <$> basicBlocks f)
    (blockOrder f) (nextInstruction f) (nextBasicBlock f) (insertBlock f).

Definition getType (v : Value) : Type_ :=
  match v with
  | ConstantInt bits _ => IntegerTy bits
  | ConstantFP t _ => t
  | ConstantPointer _ t => t
  | ConstantVector es => VectorTy (length es) (IntegerTy 64)
  | Argument _ t => t
  | InstValue _ t => t
  | MetadataAsValue _ => VoidTy
  end.

End LLVM.

(** ** Meaning of the emitted IR

    Run-time values are bit patterns: an integer of [bits] bits is kept as
    its unsigned representative, a float or double as its IEEE-754 pattern.
    The instructions follow the LLVM language reference: division by zero
    and signed division overflow are undefined behaviour, an out-of-range
    float-to-integer conversion or an oversized shift yields poison, and
    branching on poison is undefined behaviour. *)

Module Sem.
Import LLVM.

#[local] Open Scope Z_scope.

Inductive Pointer := StackSlot (id : nat) | Address (address : Z).

#[warnings="-register-all"]
Inductive RVal :=
| RInt (bits : Z) (value : Z)
| RFloat (pattern : Z)
| RDouble (pattern : Z)
| RVector (pattern : Z)
| RPointer (p : Pointer)
| RAggregate (fields : list RVal)
| RPoison.

Definition wrap (bits z : Z) : Z := z mod 2 ^ bits.

Definition signed (bits z : Z) : Z :=
  if z <? 2 ^ (bits - 1) then z else z - 2 ^ bits.

(** *** IEEE-754 binary interchange formats *)

Record FloatFormat := mkFloatFormat { mantissaBits : Z; exponentBits : Z }.

Definition binary32 := mkFloatFormat 23 8.
Definition binary64 := mkFloatFormat 52 11.

(** Every finite number of a format is an integer multiple of its smallest
    subnormal, [2 ^ - scaleExponent]; [FFinite q] stands for
    [q * 2 ^ - scaleExponent]. *)
Definition scaleExponent (fmt : FloatFormat) : Z :=
  2 ^ (exponentBits fmt - 1) + mantissaBits fmt - 2.

Inductive FloatClass :=
| FNaN
| FInf (negative : bool)
| FFinite (scaled : Z).

Definition decodeFloat (fmt : FloatFormat) (pattern : Z) : FloatClass :=
  let m := pattern mod 2 ^ mantissaBits fmt in
  let e := (pattern / 2 ^ mantissaBits fmt) mod 2 ^ exponentBits fmt in
  let s := Z.odd (pattern / 2 ^ (mantissaBits fmt + exponentBits fmt)) in
  if e =? 2 ^ exponentBits fmt - 1 then (if m =? 0 then FInf s else FNaN)
  else
    let magnitude := if e =? 0 then m else (2 ^ mantissaBits fmt + m) * 2 ^ (e - 1) in
    FFinite (if s then - magnitude else magnitude).

Definition isNaN (c : FloatClass) : bool :=
  match c with FNaN => true | _ => false end.

(** Ordered comparison; [None] when one operand is a NaN. *)
Definition compareFloat (a b : FloatClass) : option comparison :=
  match a, b with
  | FNaN, _ | _, FNaN => None
  | FFinite x, FFinite y => Some (x ?= y)
  | FInf s, FInf s' => Some (if bool_eq s s' then Eq else if s then Lt else Gt)
  | FInf s, FFinite _ => Some (if s then Lt else Gt)
  | FFinite _, FInf s => Some (if s then Gt else Lt)
  end.

(** The pattern of the number nearest to the integer [z] (ties to even), as
    a C++ compiler computes it for a literal such as [2147483648.0f] and for
    a conversion such as [F32(INT32_MAX)]. *)
Definition encodeInteger (fmt : FloatFormat) (z : Z) : Z :=
  let p := mantissaBits fmt + 1 in
  let bias := 2 ^ (exponentBits fmt - 1) - 1 in
  let signBit := if z <? 0 then 2 ^ (mantissaBits fmt + exponentBits fmt) else 0 in
  let a := Z.abs z in
  if a =? 0 then 0
  else
    let n := Z.log2 a + 1 in
    let rounded :=
      if n <=? p then a
      else
        let k := n - p in
        let q := a / 2 ^ k in
        let r := a mod 2 ^ k in
        let half := 2 ^ (k - 1) in
        (if (half <? r) || ((r =? half) && Z.odd q) then q + 1 else q) * 2 ^ k in
    let e := Z.log2 rounded in
    if 2 ^ exponentBits fmt - 1 <=? e + bias
    then signBit + (2 ^ exponentBits fmt - 1) * 2 ^ mantissaBits fmt
    else
      let significand :=
        if e <=? mantissaBits fmt then rounded * 2 ^ (mantissaBits fmt - e)
        else rounded / 2 ^ (e - mantissaBits fmt) in
      signBit + (e + bias) * 2 ^ mantissaBits fmt + (significand - 2 ^ mantissaBits fmt).

(** *** Machine state *)

Inductive AccessKind := ReadAccess | WriteAccess | ReadWriteAccess.

Record Access := mkAccess { accessKind : AccessKind; accessAddress : Z; accessBytes : Z }.

Record Env := mkEnv {
  registers : gmap nat RVal;
  arguments : list RVal;
  slots : gmap nat RVal;
  memory : Z → Z;
  accesses : list Access
}.

Definition setRegister (id : nat) (v : RVal) (env : Env) : Env :=
  mkEnv (<[id := v]> (registers env)) (arguments env) (slots env) (memory env)
    (accesses env).

Definition evalValue (env : Env) (v : Value) : option RVal :=
  match v with
  | ConstantInt bits z => Some (RInt bits z)
  | ConstantFP FloatTy pattern => Some (RFloat pattern)
  | ConstantFP DoubleTy pattern => Some (RDouble pattern)
  | ConstantFP _ _ => None
  | ConstantPointer a _ => Some (RPointer (Address a))
  | ConstantVector _ => None
  | Argument i _ => arguments env !! i
  | InstValue id _ => registers env !! id
  | MetadataAsValue _ => None
  end.

Definition boolValue (b : bool) : RVal := RInt 1 (if b then 1 else 0).

Inductive Result :=
| Value_ (v : RVal)
| UndefinedBehaviour
| NotModelled.

Definition evalBinary (op : BinaryOps) (l r : RVal) : Result :=
  match l, r with
  | RPoison, _ | _, RPoison =>
      match op, r with
      | (UDiv | SDiv | URem | SRem), (RPoison | RInt _ 0) => UndefinedBehaviour
      | _, _ => Value_ RPoison
      end
  | RInt bits x, RInt bits' y =>
      if negb (bits =? bits') then NotModelled
      else
        match op with
        | Add => Value_ (RInt bits (wrap bits (x + y)))
        | Sub => Value_ (RInt bits (wrap bits (x - y)))
        | Mul => Value_ (RInt bits (wrap bits (x * y)))
        | UDiv => if y =? 0 then UndefinedBehaviour else Value_ (RInt bits (x / y))
        | URem => if y =? 0 then UndefinedBehaviour else Value_ (RInt bits (x mod y))
        | SDiv =>
            if y =? 0 then UndefinedBehaviour
            else if (signed bits x =? - 2 ^ (bits - 1)) && (signed bits y =? -1)
            then UndefinedBehaviour
            else Value_ (RInt bits (wrap bits (Z.quot (signed bits x) (signed bits y))))
        | SRem =>
            if y =? 0 then UndefinedBehaviour
            else if (signed bits x =? - 2 ^ (bits - 1)) && (signed bits y =? -1)
            then UndefinedBehaviour
            else Value_ (RInt bits (wrap bits (Z.rem (signed bits x) (signed bits y))))
        | Shl =>
            if bits <=? y then Value_ RPoison
            else Value_ (RInt bits (wrap bits (Z.shiftl x y)))
        | LShr =>
            if bits <=? y then Value_ RPoison else Value_ (RInt bits (Z.shiftr x y))
        | AShr =>
            if bits <=? y then Value_ RPoison
            else Value_ (RInt bits (wrap bits (Z.shiftr (signed bits x) y)))
        | And => Value_ (RInt bits (Z.land x y))
        | Or => Value_ (RInt bits (Z.lor x y))
        | Xor => Value_ (RInt bits (Z.lxor x y))
        | FAdd | FSub | FMul | FDiv => NotModelled
        end
  | _, _ => NotModelled
  end.

Definition evalICmp (p : Predicate) (bits x y : Z) : option bool :=
  match p with
  | ICMP_EQ => Some (x =? y)
  | ICMP_NE => Some (negb (x =? y))
  | ICMP_UGT => Some (y <? x)
  | ICMP_UGE => Some (y <=? x)
  | ICMP_ULT => Some (x <? y)
  | ICMP_ULE => Some (x <=? y)
  | ICMP_SGT => Some (signed bits y <? signed bits x)
  | ICMP_SGE => Some (signed bits y <=? signed bits x)
  | ICMP_SLT => Some (signed bits x <? signed bits y)
  | ICMP_SLE => Some (signed bits x <=? signed bits y)
  | _ => None
  end.

Definition evalFCmp (p : Predicate) (a b : FloatClass) : option bool :=
  let c := compareFloat a b in
  match p with
  | FCMP_OEQ => Some (match c with Some Eq => true | _ => false end)
  | FCMP_OGT => Some (match c with Some Gt => true | _ => false end)
  | FCMP_OGE => Some (match c with Some Gt | Some Eq => true | _ => false end)
  | FCMP_OLT => Some (match c with Some Lt => true | _ => false end)
  | FCMP_OLE => Some (match c with Some Lt | Some Eq => true | _ => false end)
  | FCMP_UNO => Some (match c with None => true | _ => false end)
  | FCMP_UNE => Some (match c with Some Eq => false | _ => true end)
  | _ => None
  end.

Definition evalCmp (p : Predicate) (l r : RVal) : Result :=
  match l, r with
  | RPoison, _ | _, RPoison => Value_ RPoison
  | RInt bits x, RInt bits' y =>
      if negb (bits =? bits') then NotModelled
      else match evalICmp p bits x y with
           | Some b => Value_ (boolValue b)
           | None => NotModelled
           end
  | RFloat x, RFloat y =>
      match evalFCmp p (decodeFloat binary32 x) (decodeFloat binary32 y) with
      | Some b => Value_ (boolValue b)
      | None => NotModelled
      end
  | RDouble x, RDouble y =>
      match evalFCmp p (decodeFloat binary64 x) (decodeFloat binary64 y) with
      | Some b => Value_ (boolValue b)
      | None => NotModelled
      end
  | _, _ => NotModelled
  end.

(** [fptosi] and [fptoui]: the operand is rounded towards zero; the result is
    poison when the rounded value does not fit the destination. *)
Definition evalFPToInt (isSigned : bool) (fmt : FloatFormat) (pattern bits : Z) : RVal :=
  match decodeFloat fmt pattern with
  | FFinite q =>
      let t := Z.quot q (2 ^ scaleExponent fmt) in
      let lo := if isSigned then - 2 ^ (bits - 1) else 0 in
      let hi := if isSigned then 2 ^ (bits - 1) else 2 ^ bits in
      if (lo <=? t) && (t <? hi) then RInt bits (wrap bits t) else RPoison
  | _ => RPoison
  end.

Definition evalCast (op : CastOps) (v : RVal) (dest : Type_) : Result :=
  match op, v, dest with
  | _, RPoison, _ => Value_ RPoison
  | ZExt, RInt _ x, IntegerTy bits' => Value_ (RInt bits' x)
  | SExt, RInt bits x, IntegerTy bits' => Value_ (RInt bits' (wrap bits' (signed bits x)))
  | Trunc, RInt _ x, IntegerTy bits' => Value_ (RInt bits' (wrap bits' x))
  | FPToSI, RFloat p, IntegerTy bits' => Value_ (evalFPToInt true binary32 p bits')
  | FPToSI, RDouble p, IntegerTy bits' => Value_ (evalFPToInt true binary64 p bits')
  | FPToUI, RFloat p, IntegerTy bits' => Value_ (evalFPToInt false binary32 p bits')
  | FPToUI, RDouble p, IntegerTy bits' => Value_ (evalFPToInt false binary64 p bits')
  | BitCast, RInt 32 x, FloatTy => Value_ (RFloat x)
  | BitCast, RInt 64 x, DoubleTy => Value_ (RDouble x)
  | BitCast, RFloat x, IntegerTy 32 => Value_ (RInt 32 x)
  | BitCast, RDouble x, IntegerTy 64 => Value_ (RInt 64 x)
  | BitCast, RPointer p, PointerTy _ => Value_ (RPointer p)
  | PtrToInt, RPointer (Address a), IntegerTy bits' => Value_ (RInt bits' (wrap bits' a))
  | IntToPtr, RInt _ x, PointerTy _ => Value_ (RPointer (Address x))
  | _, _, _ => NotModelled
  end.

Definition evalSelect (c t f : RVal) : Result :=
  match c with
  | RPoison => Value_ RPoison
  | RInt 1 x => Value_ (if x =? 0 then f else t)
  | _ => NotModelled
  end.

(** *** Memory *)

Definition sizeInBytes (t : Type_) : option Z :=
  match t with
  | IntegerTy bits => Some ((bits + 7) / 8)
  | FloatTy => Some 4
  | DoubleTy => Some 8
  | VectorTy 2 (IntegerTy 64) => Some 16
  | _ => None
  end.

Fixpoint readBytes (mem : Z → Z) (a : Z) (n : nat) : Z :=
  match n with
  | O => 0
  | S n' => mem a mod 256 + 256 * readBytes mem (a + 1) n'
  end.

Fixpoint writeBytes (mem : Z → Z) (a : Z) (n : nat) (x : Z) : Z → Z :=
  match n with
  | O => mem
  | S n' =>
      writeBytes (λ a', if a' =? a then x mod 256 else mem a') (a + 1) n' (x / 256)
  end.

Definition valueOfBytes (t : Type_) (x : Z) : option RVal :=
  match t with
  | IntegerTy bits => Some (RInt bits (wrap bits x))
  | FloatTy => Some (RFloat x)
  | DoubleTy => Some (RDouble x)
  | VectorTy 2 (IntegerTy 64) => Some (RVector x)
  | _ => None
  end.

Definition bytesOfValue (v : RVal) : option (Z * Z) :=
  match v with
  | RInt bits x => Some ((bits + 7) / 8, x)
  | RFloat x => Some (4, x)
  | RDouble x => Some (8, x)
  | RVector x => Some (16, x)
  | _ => None
  end.

Definition logAccess (k : AccessKind) (a n : Z) (env : Env) : Env :=
  mkEnv (registers env) (arguments env) (slots env) (memory env)
    (accesses env ++ [mkAccess k a n]).

Definition setMemory (mem : Z → Z) (env : Env) : Env :=
  mkEnv (registers env) (arguments env) (slots env) mem (accesses env).

Definition setSlot (id : nat) (v : RVal) (env : Env) : Env :=
  mkEnv (registers env) (arguments env) (<[id := v]> (slots env)) (memory env)
    (accesses env).

(** [getelementptr] on a byte pointer: the index is a signed offset. *)
Definition evalByteGEP (base index : RVal) : Result :=
  match base, index with
  | RPoison, _ | _, RPoison => Value_ RPoison
  | RPointer (Address a), RInt bits i => Value_ (RPointer (Address (a + signed bits i)))
  | _, _ => NotModelled
  end.

End Sem.

(** *** Execution of basic blocks *)

Module Exec.
Import LLVM Sem.

Inductive Outcome :=
| Fallthrough (block : nat) (env : Env)
| Returned (values : list RVal) (env : Env)
| Trapped (intrinsic : string) (arguments : list RVal) (env : Env)
| Undefined
| Unsupported
| OutOfFuel.

Inductive Step :=
| Next (env : Env)
| Jump (target : nat) (env : Env)
| Stop (o : Outcome).

(** The runtime intrinsics that are declared non-returning: entering one ends
    the execution of the generated code with the trap it stands for. *)
Definition isTrapIntrinsic (name : string) : bool :=
  bool_decide (name ∈ ["unreachableTrap"; "divideByZeroOrIntegerOverflowTrap";
                        "invalidFloatOperationTrap"; "misalignedAtomicTrap";
                        "indirectCallSignatureMismatch"; "throwException"]%string).

Definition evalValues (env : Env) (vs : list Value) : option (list RVal) :=
  mapM (evalValue env) vs.

Definition stepResult (id : nat) (env : Env) (r : Result) : Step :=
  match r with
  | Value_ v => Next (setRegister id v env)
  | UndefinedBehaviour => Stop Undefined
  | NotModelled => Stop Unsupported
  end.

Definition stepCall (env : Env) (callee : Callee) (args : list Value) : Step :=
  match callee with
  | RuntimeIntrinsic name =>
      if isTrapIntrinsic name
      then match evalValues env args with
           | Some vs => Stop (Trapped name vs env)
           | None => Stop Undefined
           end
      else Stop Unsupported
  | _ => Stop Unsupported
  end.

Definition stepLoad (id : nat) (env : Env) (pointer : Value) : Step :=
  match evalValue env pointer with
  | Some (RPointer (StackSlot a)) =>
      match slots env !! a with
      | Some v => Next (setRegister id v env)
      | None => Stop Undefined
      end
  | Some (RPointer (Address a)) =>
      let t := getPointerElementType (getType pointer) in
      match sizeInBytes t with
      | Some n =>
          match valueOfBytes t (readBytes (memory env) a (Z.to_nat n)) with
          | Some v => Next (setRegister id v (logAccess ReadAccess a n env))
          | None => Stop Unsupported
          end
      | None => Stop Unsupported
      end
  | Some RPoison => Stop Undefined
  | Some _ => Stop Unsupported
  | None => Stop Undefined
  end.

Definition stepStore (env : Env) (value pointer : Value) : Step :=
  match evalValue env value, evalValue env pointer with
  | Some v, Some (RPointer (StackSlot a)) => Next (setSlot a v env)
  | Some v, Some (RPointer (Address a)) =>
      match bytesOfValue v with
      | Some (n, x) =>
          Next (setMemory (writeBytes (memory env) a (Z.to_nat n) x)
                  (logAccess WriteAccess a n env))
      | None => Stop Unsupported
      end
  | Some _, Some RPoison => Stop Undefined
  | Some _, Some _ => Stop Unsupported
  | _, _ => Stop Undefined
  end.

Definition applyRMW (op : RMWBinOp) (bits old v : Z) : Z :=
  match op with
  | Xchg => v
  | RMWAdd => wrap bits (old + v)
  | RMWSub => wrap bits (old - v)
  | RMWAnd => Z.land old v
  | RMWOr => Z.lor old v
  | RMWXor => Z.lxor old v
  end.

Definition stepAtomicRMW (id : nat) (env : Env) (op : RMWBinOp) (pointer value : Value)
  : Step :=
  match evalValue env pointer, evalValue env value with
  | Some (RPointer (Address a)), Some (RInt bits v) =>
      let n := ((bits + 7) / 8)%Z in
      let old := wrap bits (readBytes (memory env) a (Z.to_nat n)) in
      Next (setRegister id (RInt bits old)
              (setMemory (writeBytes (memory env) a (Z.to_nat n) (applyRMW op bits old v))
                 (logAccess ReadWriteAccess a n env)))
  | Some RPoison, Some _ => Stop Undefined
  | Some _, Some _ => Stop Unsupported
  | _, _ => Stop Undefined
  end.

Definition stepAtomicCmpXchg (id : nat) (env : Env) (pointer expected replacement : Value)
  : Step :=
  match evalValue env pointer, evalValue env expected, evalValue env replacement with
  | Some (RPointer (Address a)), Some (RInt bits e), Some (RInt bits' v) =>
      let n := ((bits + 7) / 8)%Z in
      let old := wrap bits (readBytes (memory env) a (Z.to_nat n)) in
      let success := (old =? e)%Z in
      Next (setRegister id (RAggregate [RInt bits old; boolValue success])
              (setMemory
                 (if success then writeBytes (memory env) a (Z.to_nat n) v else memory env)
                 (logAccess ReadWriteAccess a n env)))
  | Some RPoison, Some _, Some _ => Stop Undefined
  | Some _, Some _, Some _ => Stop Unsupported
  | _, _, _ => Stop Undefined
  end.

Definition stepExtractValue (id : nat) (env : Env) (aggregate : Value) (index : nat)
  : Step :=
  match evalValue env aggregate with
  | Some (RAggregate fields) =>
      match fields !! index with
      | Some v => Next (setRegister id v env)
      | None => Stop Undefined
      end
  | Some RPoison => Next (setRegister id RPoison env)
  | Some _ => Stop Unsupported
  | None => Stop Undefined
  end.

Definition evalOperand (env : Env) (v : Value) (k : RVal → Step) : Step :=
  match evalValue env v with
  | Some x => k x
  | None => Stop Undefined
  end.

Definition step (env : Env) (id : nat) (i : Instruction) : Step :=
  match i with
  | CastInst op v t =>
      evalOperand env v (λ x, stepResult id env (evalCast op x t))
  | BinaryOperator op l r =>
      evalOperand env l (λ x, evalOperand env r (λ y,
        stepResult id env (evalBinary op x y)))
  | CmpInst p l r =>
      evalOperand env l (λ x, evalOperand env r (λ y,
        stepResult id env (evalCmp p x y)))
  | SelectInst c t f =>
      evalOperand env c (λ x, evalOperand env t (λ y, evalOperand env f (λ z,
        stepResult id env (evalSelect x y z))))
  | AllocaInst _ None _ => Next (setRegister id (RPointer (StackSlot id)) env)
  | LoadInst p _ _ _ => stepLoad id env p
  | StoreInst v p _ _ _ => stepStore env v p
  | AtomicCmpXchgInst p e r _ => stepAtomicCmpXchg id env p e r
  | AtomicRMWInst op p v _ => stepAtomicRMW id env op p v
  | ExtractValueInst a index => stepExtractValue id env a index
  | GetElementPtrInst p [index] =>
      evalOperand env p (λ x, evalOperand env index (λ y,
        stepResult id env (evalByteGEP x y)))
  | CallInst callee _ args => stepCall env callee args
  | InvokeInst callee _ _ _ args => stepCall env callee args
  | BranchInst dest => Jump dest env
  | CondBranchInst c t f _ =>
      match evalValue env c with
      | Some (RInt 1 x) => Jump (if (x =? 0)%Z then f else t) env
      | Some RPoison | None => Stop Undefined
      | Some _ => Stop Unsupported
      end
  | ReturnInst vs =>
      match evalValues env vs with
      | Some xs => Stop (Returned xs env)
      | None => Stop Undefined
      end
  | UnreachableInst => Stop Undefined
  | PHINode _ _ => Stop Undefined
  | _ => Stop Unsupported
  end.

Fixpoint execInstructions (f : Function) (jump : nat → Env → Outcome)
    (current : nat) (env : Env) (pc : list nat) : Outcome :=
  match pc with
  | [] => Fallthrough current env
  | id :: rest =>
      match instructions f !! id with
      | None => Undefined
      | Some i =>
          match step env id i with
          | Next env' => execInstructions f jump current env' rest
          | Jump target env' => jump target env'
          | Stop o => o
          end
      end
  end.

(** The value a phi node takes when control arrives from [pred]. *)
Fixpoint incomingValue (pred : nat) (incoming : list (Value * nat)) : option Value :=
  match incoming with
  | [] => None
  | (v, b) :: rest => if Nat.eqb b pred then Some v else incomingValue pred rest
  end.

(** On entry to a block its leading phi nodes are evaluated together, in
    the environment of the predecessor. *)
Fixpoint enterPHIs (f : Function) (pred : nat) (old : Env) (env : Env) (pc : list nat)
  : option (Env * list nat) :=
  match pc with
  | [] => Some (env, [])
  | id :: rest =>
      match instructions f !! id with
      | Some (PHINode _ incoming) =>
          match incomingValue pred incoming with
          | Some v =>
              match evalValue old v with
              | Some x => enterPHIs f pred old (setRegister id x env) rest
              | None => None
              end
          | None => None
          end
      | _ => Some (env, pc)
      end
  end.

Fixpoint execFrom (f : Function) (fuel : nat) (current : nat) (env : Env) (pc : list nat)
  : Outcome :=
  execInstructions f
    (λ target env',
       match fuel with
       | O => OutOfFuel
       | S fuel' =>
           match basicBlocks f !! target with
           | Some bb =>
               match enterPHIs f current env' env' (bbInstructions bb) with
               | Some (env'', pc') => execFrom f fuel' target env'' pc'
               | None => Undefined
               end
           | None => Undefined
           end
       end)
    current env pc.

End Exec.

(** ** LLVMJIT: the per-function emitter *)

Module LLVMJIT.
Import IR LLVM.

Definition llvmI1Type := IntegerTy 1.
Definition llvmI8Type := IntegerTy 8.
Definition llvmI16Type := IntegerTy 16.
Definition llvmI32Type := IntegerTy 32.
Definition llvmI64Type := IntegerTy 64.
Definition llvmF32Type := FloatTy.
Definition llvmF64Type := DoubleTy.
Definition llvmI8PtrType := PointerTy (IntegerTy 8).
Definition llvmI64x2Type := VectorTy 2 (IntegerTy 64).

Definition INT32_MIN : Z := - 2 ^ 31.
Definition INT32_MAX : Z := 2 ^ 31 - 1.
Definition UINT32_MAX : Z := 2 ^ 32 - 1.
Definition INT64_MIN : Z := - 2 ^ 63.
Definition INT64_MAX : Z := 2 ^ 63 - 1.
Definition UINT64_MAX : Z := 2 ^ 64 - 1.

(** Modelled from the spec: [asLLVMType], [typedZeroConstants] and the
    [emitLiteral] overloads are declared in LLVMJIT.h, which is not under
    src/; "each declared local (initialised to the typed zero constant)". *)
Definition asLLVMType (type : ValueType) : Type_ :=
  match type with
  | i32 => llvmI32Type
  | i64 => llvmI64Type
  | f32 => llvmF32Type
  | f64 => llvmF64Type
  | v128 => llvmI64x2Type
  | any => VoidTy
  end.

Definition typedZeroConstants (type : ValueType) : Value :=
  match type with
  | i32 => ConstantInt 32 0
  | i64 => ConstantInt 64 0
  | f32 => ConstantFP FloatTy 0
  | f64 => ConstantFP DoubleTy 0
  | v128 => ConstantVector [0; 0]%Z
  | any => ConstantPointer 0 VoidTy
  end.

(** [emitLiteral] on an integer of [bits] bits ([U8], [U32], [I32], [U64],
    [I64], [bool]): the constant holds the two's complement pattern. *)
Definition emitLiteral (bits : Z) (value : Z) : Value :=
  ConstantInt bits (value mod 2 ^ bits).

(** [emitLiteral] on an [F32] or [F64] whose value is the integer [value]. *)
Definition emitLiteralF32 (value : Z) : Value :=
  ConstantFP FloatTy (Sem.encodeInteger Sem.binary32 value).

Definition emitLiteralF64 (value : Z) : Value :=
  ConstantFP DoubleTy (Sem.encodeInteger Sem.binary64 value).

Module CallingConvention.
Inductive t := wasm | intrinsic | intrinsicWithContextSwitch | c.
End CallingConvention.

Record FunctionInstance := mkFunctionInstance {
  functionInstanceType : FunctionType;
  callingConvention : CallingConvention.t;
  nativeFunction : Z
}.

Record GlobalInstance := mkGlobalInstance {
  globalValueType : ValueType;
  isMutable : bool;
  mutableDataOffset : Z;
  initialValue : Z;
  initialValueAddress : Z
}.

Record ExceptionTypeInstance := mkExceptionTypeInstance {
  exceptionParams : TypeTuple;
  exceptionTypeInstanceAddress : Z
}.

(** What the emitter reads of [Module], [ModuleInstance] and the
    compartment's intrinsic exports. *)
Record EmitModuleContext := mkEmitModuleContext {
  types : list FunctionType;
  numFunctionImports : nat;
  functions : list FunctionInstance;
  functionDefTypes : list nat;
  globals : list GlobalInstance;
  exceptionTypeInstances : list ExceptionTypeInstance;
  defaultMemoryId : Z;
  wavmIntrinsics : string → option FunctionInstance
}.

Module ControlContext.
Inductive Type_ := function | block | ifThen | ifElse | loop | try_ | catch_.
End ControlContext.

Record ControlContext := mkControlContext {
  type : ControlContext.Type_;
  endBlock : nat;
  endPHIs : list Value;
  elseBlock : option nat;
  elseArgs : list Value;
  resultTypes : TypeTuple;
  outerStackSize : nat;
  outerBranchTargetStackSize : nat;
  isReachable : bool
}.

Module BranchTarget.
Record t := mk {
  params : TypeTuple;
  block : nat;
  phis : list Value
}.
End BranchTarget.

Record TryContext := mkTryContext { unwindToBlock : nat }.

Record CatchContext := mkCatchContext {
  landingPadInst : Value;
  nextHandlerBlock : nat;
  exceptionTypeInstance : Value;
  exceptionPointer : Value
}.

(** [EmitFunctionContext].  Each [std::vector] that the emitter uses as a
    stack is a list whose head is the vector's [back()]: [stack.size()] is
    the length, [stack\[stack.size() - offset - 1\]] is the element at
    position [offset], and [controlStack\[0\]] is the last element. *)
Record EmitFunctionContext := mkEmitFunctionContext {
  moduleContext : EmitModuleContext;
  functionType : FunctionType;
  branchTables : list (list nat);
  nonParameterLocalTypes : list ValueType;
  llvmFunction : Function;
  localPointers : list Value;
  controlStack : list ControlContext;
  branchTargetStack : list BranchTarget.t;
  stack : list Value;
  tryStack : list TryContext;
  catchStack : list CatchContext;
  memoryBasePointerVariable : Value;
  tableBasePointerVariable : Value;
  contextPointerVariable : Value
}.

Definition set_llvmFunction (f : Function) (s : EmitFunctionContext) :=
  mkEmitFunctionContext (moduleContext s) (functionType s) (branchTables s)
    (nonParameterLocalTypes s) f (localPointers s) (controlStack s)
    (branchTargetStack s) (stack s) (tryStack s) (catchStack s)
    (memoryBasePointerVariable s) (tableBasePointerVariable s) (contextPointerVariable s).

Definition set_localPointers (l : list Value) (s : EmitFunctionContext) :=
  mkEmitFunctionContext (moduleContext s) (functionType s) (branchTables s)
    (nonParameterLocalTypes s) (llvmFunction s) l (controlStack s)
    (branchTargetStack s) (stack s) (tryStack s) (catchStack s)
    (memoryBasePointerVariable s) (tableBasePointerVariable s) (contextPointerVariable s).

Definition set_controlStack (l : list ControlContext) (s : EmitFunctionContext) :=
  mkEmitFunctionContext (moduleContext s) (functionType s) (branchTables s)
    (nonParameterLocalTypes s) (llvmFunction s) (localPointers s) l
    (branchTargetStack s) (stack s) (tryStack s) (catchStack s)
    (memoryBasePointerVariable s) (tableBasePointerVariable s) (contextPointerVariable s).

Definition set_branchTargetStack (l : list BranchTarget.t) (s : EmitFunctionContext) :=
  mkEmitFunctionContext (moduleContext s) (functionType s) (branchTables s)
    (nonParameterLocalTypes s) (llvmFunction s) (localPointers s) (controlStack s)
    l (stack s) (tryStack s) (catchStack s)
    (memoryBasePointerVariable s) (tableBasePointerVariable s) (contextPointerVariable s).

Definition set_stack (l : list Value) (s : EmitFunctionContext) :=
  mkEmitFunctionContext (moduleContext s) (functionType s) (branchTables s)
    (nonParameterLocalTypes s) (llvmFunction s) (localPointers s) (controlStack s)
    (branchTargetStack s) l (tryStack s) (catchStack s)
    (memoryBasePointerVariable s) (tableBasePointerVariable s) (contextPointerVariable s).

Definition set_tryStack (l : list TryContext) (s : EmitFunctionContext) :=
  mkEmitFunctionContext (moduleContext s) (functionType s) (branchTables s)
    (nonParameterLocalTypes s) (llvmFunction s) (localPointers s) (controlStack s)
    (branchTargetStack s) (stack s) l (catchStack s)
    (memoryBasePointerVariable s) (tableBasePointerVariable s) (contextPointerVariable s).

Definition set_catchStack (l : list CatchContext) (s : EmitFunctionContext) :=
  mkEmitFunctionContext (moduleContext s) (functionType s) (branchTables s)
    (nonParameterLocalTypes s) (llvmFunction s) (localPointers s) (controlStack s)
    (branchTargetStack s) (stack s) (tryStack s) l
    (memoryBasePointerVariable s) (tableBasePointerVariable s) (contextPointerVariable s).

Definition set_pointerVariables (memoryBase tableBase context : Value)
    (s : EmitFunctionContext) :=
  mkEmitFunctionContext (moduleContext s) (functionType s) (branchTables s)
    (nonParameterLocalTypes s) (llvmFunction s) (localPointers s) (controlStack s)
    (branchTargetStack s) (stack s) (tryStack s) (catchStack s)
    memoryBase tableBase context.

(** *** The emitter monad

    A handler either completes with a new context or stops: on a failed
    [wavmAssert] or [errorUnless] (the checks are taken as enabled, as in a
    debug build), on [Errors::unreachable], or where the C++ would have
    undefined behaviour (reading past the end of a vector). *)

Inductive EmitError :=
| wavmAssertFailure
| errorUnlessFailure
| unreachableError
| undefinedBehavior.

Inductive EmitResult (A : Type) :=
| Emitted (a : A) (s : EmitFunctionContext)
| Failed (e : EmitError).

Arguments Emitted {A} a s.
Arguments Failed {A} e.

Definition Emit (A : Type) : Type := EmitFunctionContext → EmitResult A.

#[global] Instance Emit_ret : MRet Emit := λ A a s, Emitted a s.

#[global] Instance Emit_bind : MBind Emit := λ A B k m s,
  match m s with
  | Emitted a s' => k a s'
  | Failed e => Failed e
  end.

Definition get : Emit EmitFunctionContext := λ s, Emitted s s.
Definition modify (g : EmitFunctionContext → EmitFunctionContext) : Emit unit :=
  λ s, Emitted tt (g s).
Definition fail {A} (e : EmitError) : Emit A := λ _, Failed e.

Definition wavmAssert (condition : bool) : Emit unit :=
  if condition then mret tt else fail wavmAssertFailure.

Definition errorUnless (condition : bool) : Emit unit :=
  if condition then mret tt else fail errorUnlessFailure.

(** A value read through an index or iterator that must be in range. *)
Definition defined {A} (o : option A) : Emit A :=
  match o with
  | Some a => mret a
  | None => fail undefinedBehavior
  end.

(** Subtraction of two [Uptr]s (64 bits), with its wrap-around. *)
Definition Uptr_sub (a b : nat) : Z := ((Z.of_nat a - Z.of_nat b) mod 2 ^ 64)%Z.

(** *** [irBuilder]

    The builder inserts every instruction it is asked for: it does not fold
    an operation on constants into a constant, and it does not elide a cast to
    the type the value already has.  Either would leave the value computed
    unchanged. *)

Definition irBuilder {A} (g : Function → A * Function) : Emit A :=
  λ s, let '(a, f) := g (llvmFunction s) in Emitted a (set_llvmFunction f s).

Definition irBuilder_ (g : Function → Function) : Emit unit :=
  modify (λ s, set_llvmFunction (g (llvmFunction s)) s).

Definition Create (i : Instruction) (t : Type_) : Emit Value :=
  irBuilder (λ f, let '(id, f') := Insert i f in (InstValue id t, f')).

Definition createBasicBlock (name : string) : Emit nat :=
  irBuilder (BasicBlock_Create name).

Definition GetInsertBlock : Emit (option nat) :=
  s ← get; mret (LLVM.GetInsertBlock (llvmFunction s)).

(** The block an instruction is being inserted in, where the C++ passes
    [irBuilder.GetInsertBlock()] on as a block that must exist. *)
Definition currentBlock : Emit nat := b ← GetInsertBlock; defined b.

Definition SetInsertPoint (b : nat) : Emit unit := irBuilder_ (LLVM.SetInsertPoint b).

Definition CreateICmpEQ l r := Create (CmpInst ICMP_EQ l r) llvmI1Type.
Definition CreateICmpNE l r := Create (CmpInst ICMP_NE l r) llvmI1Type.
Definition CreateFCmp p l r := Create (CmpInst p l r) llvmI1Type.
Definition CreateBinary op l r := Create (BinaryOperator op l r) (getType l).
Definition CreateAnd := CreateBinary And.
Definition CreateOr := CreateBinary Or.
Definition CreateAdd := CreateBinary Add.
Definition CreateSub := CreateBinary Sub.
Definition CreateSDiv := CreateBinary SDiv.
Definition CreateSRem := CreateBinary SRem.
Definition CreateUDiv := CreateBinary UDiv.
Definition CreateURem := CreateBinary URem.
Definition CreateCast op v t := Create (CastInst op v t) t.
Definition CreateSelect c t f := Create (SelectInst c t f) (getType t).
Definition CreateBr dest : Emit unit := Create (BranchInst dest) VoidTy ;; mret tt.
Definition CreateCondBr c t f w : Emit unit :=
  Create (CondBranchInst c t f w) VoidTy ;; mret tt.
Definition CreateUnreachable : Emit unit := Create UnreachableInst VoidTy ;; mret tt.
Definition CreatePHI (t : Type_) : Emit Value := Create (PHINode t []) t.
Definition CreateLoad (pointer : Value) : Emit Value :=
  Create (LoadInst pointer 0 false NotAtomic) (getPointerElementType (getType pointer)).
Definition CreateInBoundsGEP (pointer : Value) (indices : list Value) : Emit Value :=
  Create (GetElementPtrInst pointer indices) (getType pointer).
Definition CreatePointerCast (v : Value) (t : Type_) : Emit Value := CreateCast BitCast v t.
Definition CreateBitCast (v : Value) (t : Type_) : Emit Value := CreateCast BitCast v t.

(** [phi->addIncoming(value, block)]. *)
Definition addIncoming (phi value : Value) (block : nat) : Emit unit :=
  match phi with
  | InstValue id _ => irBuilder_ (alterInstruction (addIncomingTo value block) id)
  | _ => fail undefinedBehavior
  end.

(** *** Operand stack manipulation *)

Definition outerStackSizeOfInnermost (s : EmitFunctionContext) : nat :=
  match controlStack s with
  | c :: _ => outerStackSize c
  | [] => 0
  end.

Definition pop : Emit Value :=
  s ← get;
  wavmAssert (bool_decide
    (1 ≤ Uptr_sub (length (stack s)) (outerStackSizeOfInnermost s))%Z) ;;
  match stack s with
  | result :: rest => modify (set_stack rest) ;; mret result
  | [] => fail undefinedBehavior
  end.

(** [popMultiple(outValues, num)]: the values come out in the order they
    were pushed. *)
Definition popMultiple (num : nat) : Emit (list Value) :=
  s ← get;
  wavmAssert (bool_decide
    (Z.of_nat num ≤ Uptr_sub (length (stack s)) (outerStackSizeOfInnermost s))%Z) ;;
  if decide (num ≤ length (stack s))
  then modify (set_stack (drop num (stack s))) ;; mret (reverse (take num (stack s)))
  else fail undefinedBehavior.

Definition getValueFromTop (offset : nat) : Emit Value :=
  s ← get; defined (stack s !! offset).

Definition push (value : Value) : Emit unit :=
  modify (λ s, set_stack (value :: stack s) s).

Fixpoint pushMultiple (values : list Value) : Emit unit :=
  match values with
  | [] => mret tt
  | value :: rest => push value ;; pushMultiple rest
  end.

(** [coerceToCanonicalType]: vectors are bitcast to the canonical vector
    type. *)
Definition coerceToCanonicalType (value : Value) : Emit Value :=
  if isVectorTy (getType value) then CreateBitCast value llvmI64x2Type
  else mret value.

Definition coerceI32ToBool (i32Value : Value) : Emit Value :=
  CreateICmpNE i32Value (typedZeroConstants i32).

Definition zext (value : Value) (t : Type_) : Emit Value := CreateCast ZExt value t.
Definition sext (value : Value) (t : Type_) : Emit Value := CreateCast SExt value t.
Definition trunc (value : Value) (t : Type_) : Emit Value := CreateCast Trunc value t.
Definition identity (value : Value) (t : Type_) : Emit Value := mret value.

Definition coerceBoolToI32 (boolValue : Value) : Emit Value := zext boolValue llvmI32Type.


(** *** Calls to runtime intrinsics *)

Definition getInnermostUnwindToBlock : Emit (option nat) :=
  s ← get;
  mret (match tryStack s with
        | t :: _ => Some (unwindToBlock t)
        | [] => None
        end).

Fixpoint extractResults (returnValue : Value) (index : nat) (types : TypeTuple)
  : Emit (list Value) :=
  match types with
  | [] => mret []
  | t :: rest =>
      v ← Create (ExtractValueInst returnValue index) (asLLVMType t);
      vs ← extractResults returnValue (S index) rest;
      mret (v :: vs)
  end.

(** Modelled from the spec: [EmitContext::emitCallOrInvoke] is defined in
    LLVMJIT.h, which is not under src/: "emit a call (or invoke, if inside a
    [try], targeting the innermost unwind block), push results".  An invoke
    continues in a new block; one value is returned per result type. *)
Definition emitCallOrInvoke (callee : Callee) (calleeValue : option Value)
    (args : list Value) (calleeType : FunctionType) (cc : CallingConvention.t)
    (unwindTo : option nat) : Emit (list Value) :=
  let returnType :=
    match results calleeType with
    | [] => VoidTy
    | [t] => asLLVMType t
    | _ => AggregateTy
    end in
  returnValue ←
    match unwindTo with
    | None => Create (CallInst callee calleeValue args) returnType
    | Some unwind =>
        returnBlock ← createBasicBlock "invokeReturn";
        v ← Create (InvokeInst callee calleeValue returnBlock unwind args) returnType;
        SetInsertPoint returnBlock ;;
        mret v
    end;
  match results calleeType with
  | [] => mret []
  | [_] => mret [returnValue]
  | ts => extractResults returnValue 0 ts
  end.

(** Emits a call to a WAVM intrinsic function. *)
Definition emitRuntimeIntrinsic (intrinsicName : string) (intrinsicType : FunctionType)
    (args : list Value) : Emit (list Value) :=
  s ← get;
  match wavmIntrinsics (moduleContext s) intrinsicName with
  | None => fail wavmAssertFailure
  | Some intrinsicFunction =>
      wavmAssert (bool_decide (functionInstanceType intrinsicFunction = intrinsicType)) ;;
      let intrinsicFunctionPointer :=
        ConstantPointer (nativeFunction intrinsicFunction) (PointerTy VoidTy) in
      unwindTo ← getInnermostUnwindToBlock;
      emitCallOrInvoke (RuntimeIntrinsic intrinsicName) (Some intrinsicFunctionPointer)
        args intrinsicType (callingConvention intrinsicFunction) unwindTo
  end.

(** A helper function to emit a conditional call to a non-returning
    intrinsic function. *)
Definition emitConditionalTrapIntrinsic (booleanCondition : Value)
    (intrinsicName : string) (intrinsicType : FunctionType) (args : list Value)
  : Emit unit :=
  trueBlock ← createBasicBlock (intrinsicName +:+ "Trap");
  endBlock ← createBasicBlock (intrinsicName +:+ "Skip");
  CreateCondBr booleanCondition trueBlock endBlock (Some likelyFalseBranchWeights) ;;
  SetInsertPoint trueBlock ;;
  emitRuntimeIntrinsic intrinsicName intrinsicType args ;;
  CreateUnreachable ;;
  SetInsertPoint endBlock.

(** Traps a divide-by-zero. *)
Definition trapDivideByZero (type : ValueType) (divisor : Value) : Emit unit :=
  condition ← CreateICmpEQ divisor (typedZeroConstants type);
  emitConditionalTrapIntrinsic condition "divideByZeroOrIntegerOverflowTrap"
    (mkFunctionType [] []) [].

(** Traps on (x / 0) or (INT_MIN / -1). *)
Definition trapDivideByZeroOrIntegerOverflow (type : ValueType) (left right : Value)
  : Emit unit :=
  isMin ← CreateICmpEQ left
    (match type with i32 => emitLiteral 32 INT32_MIN | _ => emitLiteral 64 INT64_MIN end);
  isMinusOne ← CreateICmpEQ right
    (match type with i32 => emitLiteral 32 (-1) | _ => emitLiteral 64 (-1) end);
  isOverflow ← CreateAnd isMin isMinusOne;
  isZero ← CreateICmpEQ right (typedZeroConstants type);
  condition ← CreateOr isOverflow isZero;
  emitConditionalTrapIntrinsic condition "divideByZeroOrIntegerOverflowTrap"
    (mkFunctionType [] []) [].

(** *** Numeric operator macros *)

Definition EMIT_BINARY_OP (type : ValueType)
    (emitCode : ValueType → Value → Value → Emit Value) : Emit unit :=
  right ← pop;
  left ← pop;
  result ← emitCode type left right;
  push result.

Definition EMIT_UNARY_OP (type : ValueType)
    (emitCode : ValueType → Value → Emit Value) : Emit unit :=
  operand ← pop;
  result ← emitCode type operand;
  push result.

(** *** Int operators *)

Definition emitSRem (type : ValueType) (left right : Value) : Emit Value :=
  trapDivideByZero type right ;;
  preOverflowBlock ← currentBlock;
  noOverflowBlock ← createBasicBlock "sremNoOverflow";
  endBlock ← createBasicBlock "sremEnd";
  leftNotMin ← CreateICmpNE left
    (match type with i32 => emitLiteral 32 INT32_MIN | _ => emitLiteral 64 INT64_MIN end);
  rightNotMinusOne ← CreateICmpNE right
    (match type with i32 => emitLiteral 32 (-1) | _ => emitLiteral 64 (-1) end);
  noOverflow ← CreateOr leftNotMin rightNotMinusOne;
  CreateCondBr noOverflow noOverflowBlock endBlock (Some likelyTrueBranchWeights) ;;
  SetInsertPoint noOverflowBlock ;;
  noOverflowValue ← CreateSRem left right;
  CreateBr endBlock ;;
  SetInsertPoint endBlock ;;
  phi ← CreatePHI (asLLVMType type);
  addIncoming phi (typedZeroConstants type) preOverflowBlock ;;
  addIncoming phi noOverflowValue noOverflowBlock ;;
  mret phi.

Definition div_s (type : ValueType) (left right : Value) : Emit Value :=
  trapDivideByZeroOrIntegerOverflow type left right ;;
  CreateSDiv left right.

Definition i32_div_s : Emit unit := EMIT_BINARY_OP i32 div_s.
Definition i64_div_s : Emit unit := EMIT_BINARY_OP i64 div_s.
Definition i32_rem_s : Emit unit := EMIT_BINARY_OP i32 emitSRem.
Definition i64_rem_s : Emit unit := EMIT_BINARY_OP i64 emitSRem.
Definition i32_div_u : Emit unit :=
  EMIT_BINARY_OP i32 (λ type left right, trapDivideByZero type right ;; CreateUDiv left right).
Definition i64_div_u : Emit unit :=
  EMIT_BINARY_OP i64 (λ type left right, trapDivideByZero type right ;; CreateUDiv left right).
Definition i32_rem_u : Emit unit :=
  EMIT_BINARY_OP i32 (λ type left right, trapDivideByZero type right ;; CreateURem left right).
Definition i64_rem_u : Emit unit :=
  EMIT_BINARY_OP i64 (λ type left right, trapDivideByZero type right ;; CreateURem left right).

(** *** Load/store operators *)

Record LoadOrStoreImm := mkLoadOrStoreImm { alignmentLog2 : Z; offset : Z }.

(** Bounds checks and converts a memory operation I32 address operand to a
    LLVM pointer ([offset] is a [U32]). *)
Definition coerceByteIndexToPointer (byteIndex : Value) (offset : Z) (memoryType : Type_)
  : Emit Value :=
  byteIndex ← zext byteIndex llvmI64Type;
  byteIndex ←
    (if decide (offset = 0%Z)
     then mret byteIndex
     else offset64 ← zext (emitLiteral 32 offset) llvmI64Type;
          CreateAdd byteIndex offset64);
  s ← get;
  memoryBase ← CreateLoad (memoryBasePointerVariable s);
  bytePointer ← CreateInBoundsGEP memoryBase [byteIndex];
  CreatePointerCast bytePointer (getPointerTo memoryType).

Definition setLoadAttributes (alignment : Z) (isVolatile : bool) (ordering : AtomicOrdering)
    (i : Instruction) : Instruction :=
  match i with
  | LoadInst p _ _ _ => LoadInst p alignment isVolatile ordering
  | other => other
  end.

Definition setStoreAttributes (alignment : Z) (isVolatile : bool)
    (ordering : AtomicOrdering) (i : Instruction) : Instruction :=
  match i with
  | StoreInst v p _ _ _ => StoreInst v p alignment isVolatile ordering
  | other => other
  end.

Definition alterValue (g : Instruction → Instruction) (v : Value) : Emit unit :=
  match v with
  | InstValue id _ => irBuilder_ (alterInstruction g id)
  | _ => fail undefinedBehavior
  end.

Definition CreateStore (value pointer : Value) : Emit Value :=
  Create (StoreInst value pointer 0 false NotAtomic) VoidTy.

Definition EMIT_LOAD_OP (valueTypeId : ValueType) (llvmMemoryType : Type_)
    (naturalAlignmentLog2 : Z) (conversionOp : Value → Type_ → Emit Value)
    (imm : LoadOrStoreImm) : Emit unit :=
  byteIndex ← pop;
  pointer ← coerceByteIndexToPointer byteIndex (offset imm) llvmMemoryType;
  load ← CreateLoad pointer;
  alterValue (setLoadAttributes (Z.shiftl 1 (alignmentLog2 imm)) true NotAtomic) load ;;
  result ← conversionOp load (asLLVMType valueTypeId);
  push result.

Definition EMIT_STORE_OP (valueTypeId : ValueType) (llvmMemoryType : Value → Type_)
    (naturalAlignmentLog2 : Z) (conversionOp : Value → Type_ → Emit Value)
    (imm : LoadOrStoreImm) : Emit unit :=
  value ← pop;
  byteIndex ← pop;
  pointer ← coerceByteIndexToPointer byteIndex (offset imm) (llvmMemoryType value);
  memoryValue ← conversionOp value (llvmMemoryType value);
  store ← CreateStore memoryValue pointer;
  alterValue (setStoreAttributes (Z.shiftl 1 (alignmentLog2 imm)) true NotAtomic) store.

(** *** Atomic operators *)

Definition trapIfMisalignedAtomic (address : Value) (naturalAlignmentLog2 : Z)
  : Emit unit :=
  if decide (0 < naturalAlignmentLog2)%Z
  then
    lowBits ← CreateAnd address (emitLiteral 32 (Z.shiftl 1 naturalAlignmentLog2 - 1));
    condition ← CreateICmpNE (typedZeroConstants i32) lowBits;
    emitConditionalTrapIntrinsic condition "misalignedAtomicTrap"
      (mkFunctionType [] [i32]) [address]
  else mret tt.

Definition EMIT_ATOMIC_LOAD_OP (valueTypeId : ValueType) (llvmMemoryType : Type_)
    (naturalAlignmentLog2 : Z) (conversionOp : Value → Type_ → Emit Value)
    (imm : LoadOrStoreImm) : Emit unit :=
  byteIndex ← pop;
  trapIfMisalignedAtomic byteIndex naturalAlignmentLog2 ;;
  pointer ← coerceByteIndexToPointer byteIndex (offset imm) llvmMemoryType;
  load ← CreateLoad pointer;
  alterValue (setLoadAttributes (Z.shiftl 1 (alignmentLog2 imm)) true
                SequentiallyConsistent) load ;;
  result ← conversionOp load (asLLVMType valueTypeId);
  push result.

Definition EMIT_ATOMIC_STORE_OP (valueTypeId : ValueType) (llvmMemoryType : Type_)
    (naturalAlignmentLog2 : Z) (conversionOp : Value → Type_ → Emit Value)
    (imm : LoadOrStoreImm) : Emit unit :=
  value ← pop;
  byteIndex ← pop;
  trapIfMisalignedAtomic byteIndex naturalAlignmentLog2 ;;
  pointer ← coerceByteIndexToPointer byteIndex (offset imm) llvmMemoryType;
  memoryValue ← conversionOp value llvmMemoryType;
  store ← CreateStore memoryValue pointer;
  alterValue (setStoreAttributes (Z.shiftl 1 (alignmentLog2 imm)) true
                SequentiallyConsistent) store.

Definition EMIT_ATOMIC_CMPXCHG (valueTypeId : ValueType) (llvmMemoryType : Type_)
    (naturalAlignmentLog2 : Z)
    (memoryToValueConversion valueToMemoryConversion : Value → Type_ → Emit Value)
    (imm : LoadOrStoreImm) : Emit unit :=
  replacement ← pop;
  replacementValue ← valueToMemoryConversion replacement llvmMemoryType;
  expected ← pop;
  expectedValue ← valueToMemoryConversion expected llvmMemoryType;
  byteIndex ← pop;
  trapIfMisalignedAtomic byteIndex naturalAlignmentLog2 ;;
  pointer ← coerceByteIndexToPointer byteIndex (offset imm) llvmMemoryType;
  atomicCmpXchg ←
    Create (AtomicCmpXchgInst pointer expectedValue replacementValue true) AggregateTy;
  previousValue ← Create (ExtractValueInst atomicCmpXchg 0) llvmMemoryType;
  result ← memoryToValueConversion previousValue (asLLVMType valueTypeId);
  push result.

Definition EMIT_ATOMIC_RMW (valueTypeId : ValueType) (rmwOpId : RMWBinOp)
    (llvmMemoryType : Type_) (naturalAlignmentLog2 : Z)
    (memoryToValueConversion valueToMemoryConversion : Value → Type_ → Emit Value)
    (imm : LoadOrStoreImm) : Emit unit :=
  operand ← pop;
  value ← valueToMemoryConversion operand llvmMemoryType;
  byteIndex ← pop;
  trapIfMisalignedAtomic byteIndex naturalAlignmentLog2 ;;
  pointer ← coerceByteIndexToPointer byteIndex (offset imm) llvmMemoryType;
  atomicRMW ← Create (AtomicRMWInst rmwOpId pointer value true) llvmMemoryType;
  result ← memoryToValueConversion atomicRMW (asLLVMType valueTypeId);
  push result.

(** *** The memory operators

    The instantiations of the load, store and atomic macros, as data: the
    conversion functions the macros are instantiated with, the macro and its
    arguments for each operator, and the operator's handler. *)

Module ConversionOp.
Inductive t := identity_ | sext_ | zext_ | trunc_.
End ConversionOp.

Definition conversion (op : ConversionOp.t) : Value → Type_ → Emit Value :=
  match op with
  | ConversionOp.identity_ => identity
  | ConversionOp.sext_ => sext
  | ConversionOp.zext_ => zext
  | ConversionOp.trunc_ => trunc
  end.

(** The memory type of a store is [None] where the macro is given
    [value->getType()]. *)
Inductive MemoryOperator :=
| LOAD_OP (valueTypeId : ValueType) (llvmMemoryType : Type_) (naturalAlignmentLog2 : Z)
    (conversionOp : ConversionOp.t)
| STORE_OP (valueTypeId : ValueType) (llvmMemoryType : option Type_)
    (naturalAlignmentLog2 : Z) (conversionOp : ConversionOp.t)
| ATOMIC_LOAD_OP (valueTypeId : ValueType) (llvmMemoryType : Type_)
    (naturalAlignmentLog2 : Z) (conversionOp : ConversionOp.t)
| ATOMIC_STORE_OP (valueTypeId : ValueType) (llvmMemoryType : Type_)
    (naturalAlignmentLog2 : Z) (conversionOp : ConversionOp.t)
| ATOMIC_CMPXCHG (valueTypeId : ValueType) (llvmMemoryType : Type_)
    (naturalAlignmentLog2 : Z)
    (memoryToValueConversion valueToMemoryConversion : ConversionOp.t)
| ATOMIC_RMW (valueTypeId : ValueType) (rmwOpId : RMWBinOp) (llvmMemoryType : Type_)
    (naturalAlignmentLog2 : Z)
    (memoryToValueConversion valueToMemoryConversion : ConversionOp.t).

Definition emitMemoryOperator (op : MemoryOperator) : LoadOrStoreImm → Emit unit :=
  match op with
  | LOAD_OP valueTypeId llvmMemoryType naturalAlignmentLog2 conversionOp =>
      EMIT_LOAD_OP valueTypeId llvmMemoryType naturalAlignmentLog2 (conversion conversionOp)
  | STORE_OP valueTypeId llvmMemoryType naturalAlignmentLog2 conversionOp =>
      EMIT_STORE_OP valueTypeId
        (λ value, match llvmMemoryType with Some t => t | None => getType value end)
        naturalAlignmentLog2 (conversion conversionOp)
  | ATOMIC_LOAD_OP valueTypeId llvmMemoryType naturalAlignmentLog2 conversionOp =>
      EMIT_ATOMIC_LOAD_OP valueTypeId llvmMemoryType naturalAlignmentLog2
        (conversion conversionOp)
  | ATOMIC_STORE_OP valueTypeId llvmMemoryType naturalAlignmentLog2 conversionOp =>
      EMIT_ATOMIC_STORE_OP valueTypeId llvmMemoryType naturalAlignmentLog2
        (conversion conversionOp)
  | ATOMIC_CMPXCHG valueTypeId llvmMemoryType naturalAlignmentLog2 memoryToValueConversion
      valueToMemoryConversion =>
      EMIT_ATOMIC_CMPXCHG valueTypeId llvmMemoryType naturalAlignmentLog2
        (conversion memoryToValueConversion) (conversion valueToMemoryConversion)
  | ATOMIC_RMW valueTypeId rmwOpId llvmMemoryType naturalAlignmentLog2
      memoryToValueConversion valueToMemoryConversion =>
      EMIT_ATOMIC_RMW valueTypeId rmwOpId llvmMemoryType naturalAlignmentLog2
        (conversion memoryToValueConversion) (conversion valueToMemoryConversion)
  end.

Definition memoryOperators : list (string * MemoryOperator) :=
  [
   ("i32.load8_s", LOAD_OP i32 llvmI8Type 0 ConversionOp.sext_);
   ("i32.load8_u", LOAD_OP i32 llvmI8Type 0 ConversionOp.zext_);
   ("i32.load16_s", LOAD_OP i32 llvmI16Type 1 ConversionOp.sext_);
   ("i32.load16_u", LOAD_OP i32 llvmI16Type 1 ConversionOp.zext_);
   ("i64.load8_s", LOAD_OP i64 llvmI8Type 0 ConversionOp.sext_);
   ("i64.load8_u", LOAD_OP i64 llvmI8Type 0 ConversionOp.zext_);
   ("i64.load16_s", LOAD_OP i64 llvmI16Type 1 ConversionOp.sext_);
   ("i64.load16_u", LOAD_OP i64 llvmI16Type 1 ConversionOp.zext_);
   ("i64.load32_s", LOAD_OP i64 llvmI32Type 2 ConversionOp.sext_);
   ("i64.load32_u", LOAD_OP i64 llvmI32Type 2 ConversionOp.zext_);
   ("i32.load", LOAD_OP i32 llvmI32Type 2 ConversionOp.identity_);
   ("i64.load", LOAD_OP i64 llvmI64Type 3 ConversionOp.identity_);
   ("f32.load", LOAD_OP f32 llvmF32Type 2 ConversionOp.identity_);
   ("f64.load", LOAD_OP f64 llvmF64Type 3 ConversionOp.identity_);
   ("i32.store8", STORE_OP i32 (Some llvmI8Type) 0 ConversionOp.trunc_);
   ("i64.store8", STORE_OP i64 (Some llvmI8Type) 0 ConversionOp.trunc_);
   ("i32.store16", STORE_OP i32 (Some llvmI16Type) 1 ConversionOp.trunc_);
   ("i64.store16", STORE_OP i64 (Some llvmI16Type) 1 ConversionOp.trunc_);
   ("i32.store", STORE_OP i32 (Some llvmI32Type) 2 ConversionOp.trunc_);
   ("i64.store32", STORE_OP i64 (Some llvmI32Type) 2 ConversionOp.trunc_);
   ("i64.store", STORE_OP i64 (Some llvmI64Type) 3 ConversionOp.identity_);
   ("f32.store", STORE_OP f32 (Some llvmF32Type) 2 ConversionOp.identity_);
   ("f64.store", STORE_OP f64 (Some llvmF64Type) 3 ConversionOp.identity_);
   ("v128.store", STORE_OP v128 (None) 4 ConversionOp.identity_);
   ("v128.load", LOAD_OP v128 llvmI64x2Type 4 ConversionOp.identity_);
   ("i32.atomic_load", ATOMIC_LOAD_OP i32 llvmI32Type 2 ConversionOp.identity_);
   ("i64.atomic_load", ATOMIC_LOAD_OP i64 llvmI64Type 3 ConversionOp.identity_);
   ("i32.atomic_load8_s", ATOMIC_LOAD_OP i32 llvmI8Type 0 ConversionOp.sext_);
   ("i32.atomic_load8_u", ATOMIC_LOAD_OP i32 llvmI8Type 0 ConversionOp.zext_);
   ("i32.atomic_load16_s", ATOMIC_LOAD_OP i32 llvmI16Type 1 ConversionOp.sext_);
   ("i32.atomic_load16_u", ATOMIC_LOAD_OP i32 llvmI16Type 1 ConversionOp.zext_);
   ("i64.atomic_load8_s", ATOMIC_LOAD_OP i64 llvmI8Type 0 ConversionOp.sext_);
   ("i64.atomic_load8_u", ATOMIC_LOAD_OP i64 llvmI8Type 0 ConversionOp.zext_);
   ("i64.atomic_load16_s", ATOMIC_LOAD_OP i64 llvmI16Type 1 ConversionOp.sext_);
   ("i64.atomic_load16_u", ATOMIC_LOAD_OP i64 llvmI16Type 1 ConversionOp.zext_);
   ("i64.atomic_load32_s", ATOMIC_LOAD_OP i64 llvmI32Type 2 ConversionOp.sext_);
   ("i64.atomic_load32_u", ATOMIC_LOAD_OP i64 llvmI32Type 2 ConversionOp.zext_);
   ("i32.atomic_store", ATOMIC_STORE_OP i32 llvmI32Type 2 ConversionOp.identity_);
   ("i64.atomic_store", ATOMIC_STORE_OP i64 llvmI64Type 3 ConversionOp.identity_);
   ("i32.atomic_store8", ATOMIC_STORE_OP i32 llvmI8Type 0 ConversionOp.trunc_);
   ("i32.atomic_store16", ATOMIC_STORE_OP i32 llvmI16Type 1 ConversionOp.trunc_);
   ("i64.atomic_store8", ATOMIC_STORE_OP i64 llvmI8Type 0 ConversionOp.trunc_);
   ("i64.atomic_store16", ATOMIC_STORE_OP i64 llvmI16Type 1 ConversionOp.trunc_);
   ("i64.atomic_store32", ATOMIC_STORE_OP i64 llvmI32Type 2 ConversionOp.trunc_);
   ("i32.atomic_rmw8_u_cmpxchg", ATOMIC_CMPXCHG i32 llvmI8Type 0 ConversionOp.zext_ ConversionOp.trunc_);
   ("i32.atomic_rmw16_u_cmpxchg", ATOMIC_CMPXCHG i32 llvmI16Type 1 ConversionOp.zext_ ConversionOp.trunc_);
   ("i32.atomic_rmw_cmpxchg", ATOMIC_CMPXCHG i32 llvmI32Type 2 ConversionOp.identity_ ConversionOp.identity_);
   ("i64.atomic_rmw8_u_cmpxchg", ATOMIC_CMPXCHG i64 llvmI8Type 0 ConversionOp.zext_ ConversionOp.trunc_);
   ("i64.atomic_rmw16_u_cmpxchg", ATOMIC_CMPXCHG i64 llvmI16Type 1 ConversionOp.zext_ ConversionOp.trunc_);
   ("i64.atomic_rmw32_u_cmpxchg", ATOMIC_CMPXCHG i64 llvmI32Type 2 ConversionOp.zext_ ConversionOp.trunc_);
   ("i64.atomic_rmw_cmpxchg", ATOMIC_CMPXCHG i64 llvmI64Type 3 ConversionOp.identity_ ConversionOp.identity_);
   ("i32.atomic_rmw8_u_xchg", ATOMIC_RMW i32 Xchg llvmI8Type 0 ConversionOp.zext_ ConversionOp.trunc_);
   ("i32.atomic_rmw16_u_xchg", ATOMIC_RMW i32 Xchg llvmI16Type 1 ConversionOp.zext_ ConversionOp.trunc_);
   ("i32.atomic_rmw_xchg", ATOMIC_RMW i32 Xchg llvmI32Type 2 ConversionOp.identity_ ConversionOp.identity_);
   ("i64.atomic_rmw8_u_xchg", ATOMIC_RMW i64 Xchg llvmI8Type 0 ConversionOp.zext_ ConversionOp.trunc_);
   ("i64.atomic_rmw16_u_xchg", ATOMIC_RMW i64 Xchg llvmI16Type 1 ConversionOp.zext_ ConversionOp.trunc_);
   ("i64.atomic_rmw32_u_xchg", ATOMIC_RMW i64 Xchg llvmI32Type 2 ConversionOp.zext_ ConversionOp.trunc_);
   ("i64.atomic_rmw_xchg", ATOMIC_RMW i64 Xchg llvmI64Type 3 ConversionOp.identity_ ConversionOp.identity_);
   ("i32.atomic_rmw8_u_add", ATOMIC_RMW i32 RMWAdd llvmI8Type 0 ConversionOp.zext_ ConversionOp.trunc_);
   ("i32.atomic_rmw16_u_add", ATOMIC_RMW i32 RMWAdd llvmI16Type 1 ConversionOp.zext_ ConversionOp.trunc_);
   ("i32.atomic_rmw_add", ATOMIC_RMW i32 RMWAdd llvmI32Type 2 ConversionOp.identity_ ConversionOp.identity_);
   ("i64.atomic_rmw8_u_add", ATOMIC_RMW i64 RMWAdd llvmI8Type 0 ConversionOp.zext_ ConversionOp.trunc_);
   ("i64.atomic_rmw16_u_add", ATOMIC_RMW i64 RMWAdd llvmI16Type 1 ConversionOp.zext_ ConversionOp.trunc_);
   ("i64.atomic_rmw32_u_add", ATOMIC_RMW i64 RMWAdd llvmI32Type 2 ConversionOp.zext_ ConversionOp.trunc_);
   ("i64.atomic_rmw_add", ATOMIC_RMW i64 RMWAdd llvmI64Type 3 ConversionOp.identity_ ConversionOp.identity_);
   ("i32.atomic_rmw8_u_sub", ATOMIC_RMW i32 RMWSub llvmI8Type 0 ConversionOp.zext_ ConversionOp.trunc_);
   ("i32.atomic_rmw16_u_sub", ATOMIC_RMW i32 RMWSub llvmI16Type 1 ConversionOp.zext_ ConversionOp.trunc_);
   ("i32.atomic_rmw_sub", ATOMIC_RMW i32 RMWSub llvmI32Type 2 ConversionOp.identity_ ConversionOp.identity_);
   ("i64.atomic_rmw8_u_sub", ATOMIC_RMW i64 RMWSub llvmI8Type 0 ConversionOp.zext_ ConversionOp.trunc_);
   ("i64.atomic_rmw16_u_sub", ATOMIC_RMW i64 RMWSub llvmI16Type 1 ConversionOp.zext_ ConversionOp.trunc_);
   ("i64.atomic_rmw32_u_sub", ATOMIC_RMW i64 RMWSub llvmI32Type 2 ConversionOp.zext_ ConversionOp.trunc_);
   ("i64.atomic_rmw_sub", ATOMIC_RMW i64 RMWSub llvmI64Type 3 ConversionOp.identity_ ConversionOp.identity_);
   ("i32.atomic_rmw8_u_and", ATOMIC_RMW i32 RMWAnd llvmI8Type 0 ConversionOp.zext_ ConversionOp.trunc_);
   ("i32.atomic_rmw16_u_and", ATOMIC_RMW i32 RMWAnd llvmI16Type 1 ConversionOp.zext_ ConversionOp.trunc_);
   ("i32.atomic_rmw_and", ATOMIC_RMW i32 RMWAnd llvmI32Type 2 ConversionOp.identity_ ConversionOp.identity_);
   ("i64.atomic_rmw8_u_and", ATOMIC_RMW i64 RMWAnd llvmI8Type 0 ConversionOp.zext_ ConversionOp.trunc_);
   ("i64.atomic_rmw16_u_and", ATOMIC_RMW i64 RMWAnd llvmI16Type 1 ConversionOp.zext_ ConversionOp.trunc_);
   ("i64.atomic_rmw32_u_and", ATOMIC_RMW i64 RMWAnd llvmI32Type 2 ConversionOp.zext_ ConversionOp.trunc_);
   ("i64.atomic_rmw_and", ATOMIC_RMW i64 RMWAnd llvmI64Type 3 ConversionOp.identity_ ConversionOp.identity_);
   ("i32.atomic_rmw8_u_or", ATOMIC_RMW i32 RMWOr llvmI8Type 0 ConversionOp.zext_ ConversionOp.trunc_);
   ("i32.atomic_rmw16_u_or", ATOMIC_RMW i32 RMWOr llvmI16Type 1 ConversionOp.zext_ ConversionOp.trunc_);
   ("i32.atomic_rmw_or", ATOMIC_RMW i32 RMWOr llvmI32Type 2 ConversionOp.identity_ ConversionOp.identity_);
   ("i64.atomic_rmw8_u_or", ATOMIC_RMW i64 RMWOr llvmI8Type 0 ConversionOp.zext_ ConversionOp.trunc_);
   ("i64.atomic_rmw16_u_or", ATOMIC_RMW i64 RMWOr llvmI16Type 1 ConversionOp.zext_ ConversionOp.trunc_);
   ("i64.atomic_rmw32_u_or", ATOMIC_RMW i64 RMWOr llvmI32Type 2 ConversionOp.zext_ ConversionOp.trunc_);
   ("i64.atomic_rmw_or", ATOMIC_RMW i64 RMWOr llvmI64Type 3 ConversionOp.identity_ ConversionOp.identity_);
   ("i32.atomic_rmw8_u_xor", ATOMIC_RMW i32 RMWXor llvmI8Type 0 ConversionOp.zext_ ConversionOp.trunc_);
   ("i32.atomic_rmw16_u_xor", ATOMIC_RMW i32 RMWXor llvmI16Type 1 ConversionOp.zext_ ConversionOp.trunc_);
   ("i32.atomic_rmw_xor", ATOMIC_RMW i32 RMWXor llvmI32Type 2 ConversionOp.identity_ ConversionOp.identity_);
   ("i64.atomic_rmw8_u_xor", ATOMIC_RMW i64 RMWXor llvmI8Type 0 ConversionOp.zext_ ConversionOp.trunc_);
   ("i64.atomic_rmw16_u_xor", ATOMIC_RMW i64 RMWXor llvmI16Type 1 ConversionOp.zext_ ConversionOp.trunc_);
   ("i64.atomic_rmw32_u_xor", ATOMIC_RMW i64 RMWXor llvmI32Type 2 ConversionOp.zext_ ConversionOp.trunc_);
   ("i64.atomic_rmw_xor", ATOMIC_RMW i64 RMWXor llvmI64Type 3 ConversionOp.identity_ ConversionOp.identity_)
  ]%string.

(** *** Float to integer truncation *)

(** The [Float] template parameter of [emitTruncFloatToInt] and
    [emitTruncFloatToIntSat]. *)
Inductive Float := F32 | F64.

(** [emitLiteral] on a [Float] whose value is the integer [value]: the
    bounds the emitter passes are written [-2147483904.0f], [F32(INT32_MAX)]
    and the like. *)
Definition emitLiteralFloat (float : Float) (value : Z) : Value :=
  match float with
  | F32 => emitLiteralF32 value
  | F64 => emitLiteralF64 value
  end.

Definition emitTruncFloatToInt (float : Float) (destType : ValueType) (isSigned : bool)
    (minBounds maxBounds : Z) (operand : Value) : Emit Value :=
  nanBlock ← createBasicBlock "FPToInt_nan";
  notNaNBlock ← createBasicBlock "FPToInt_notNaN";
  overflowBlock ← createBasicBlock "FPToInt_overflow";
  noOverflowBlock ← createBasicBlock "FPToInt_noOverflow";
  isNaN ← CreateFCmp FCMP_UNO operand operand;
  CreateCondBr isNaN nanBlock notNaNBlock (Some likelyFalseBranchWeights) ;;
  SetInsertPoint nanBlock ;;
  emitRuntimeIntrinsic "invalidFloatOperationTrap" (mkFunctionType [] []) [] ;;
  CreateUnreachable ;;
  SetInsertPoint notNaNBlock ;;
  aboveMax ← CreateFCmp FCMP_OGE operand (emitLiteralFloat float maxBounds);
  belowMin ← CreateFCmp FCMP_OLE operand (emitLiteralFloat float minBounds);
  isOverflow ← CreateOr aboveMax belowMin;
  CreateCondBr isOverflow overflowBlock noOverflowBlock (Some likelyFalseBranchWeights) ;;
  SetInsertPoint overflowBlock ;;
  emitRuntimeIntrinsic "divideByZeroOrIntegerOverflowTrap" (mkFunctionType [] []) [] ;;
  CreateUnreachable ;;
  SetInsertPoint noOverflowBlock ;;
  if isSigned then CreateCast FPToSI operand (asLLVMType destType)
  else CreateCast FPToUI operand (asLLVMType destType).

(** We want the widest floating point bounds that can't be truncated to an
    integer. *)
Definition i32_trunc_s_f32 : Emit unit :=
  EMIT_UNARY_OP i32 (λ type operand,
    emitTruncFloatToInt F32 type true (-2147483904) 2147483648 operand).
Definition i32_trunc_s_f64 : Emit unit :=
  EMIT_UNARY_OP i32 (λ type operand,
    emitTruncFloatToInt F64 type true (-2147483649) 2147483648 operand).
Definition i32_trunc_u_f32 : Emit unit :=
  EMIT_UNARY_OP i32 (λ type operand,
    emitTruncFloatToInt F32 type false (-1) 4294967296 operand).
Definition i32_trunc_u_f64 : Emit unit :=
  EMIT_UNARY_OP i32 (λ type operand,
    emitTruncFloatToInt F64 type false (-1) 4294967296 operand).
Definition i64_trunc_s_f32 : Emit unit :=
  EMIT_UNARY_OP i64 (λ type operand,
    emitTruncFloatToInt F32 type true (-9223373136366403584) 9223372036854775808 operand).
Definition i64_trunc_s_f64 : Emit unit :=
  EMIT_UNARY_OP i64 (λ type operand,
    emitTruncFloatToInt F64 type true (-9223372036854777856) 9223372036854775808 operand).
Definition i64_trunc_u_f32 : Emit unit :=
  EMIT_UNARY_OP i64 (λ type operand,
    emitTruncFloatToInt F32 type false (-1) 18446744073709551616 operand).
Definition i64_trunc_u_f64 : Emit unit :=
  EMIT_UNARY_OP i64 (λ type operand,
    emitTruncFloatToInt F64 type false (-1) 18446744073709551616 operand).

(** [emitTruncFloatToIntSat<Int, Float>]: [destBits] is the width of [Int]
    and of [destType]; the float bounds are given by the integers they are
    converted from. *)
Definition emitTruncFloatToIntSat (float : Float) (destBits : Z) (isSigned : bool)
    (minFloatBounds maxFloatBounds minIntBounds maxIntBounds : Z) (operand : Value)
  : Emit Value :=
  result ← (if isSigned then CreateCast FPToSI operand (IntegerTy destBits)
            else CreateCast FPToUI operand (IntegerTy destBits));
  aboveMax ← CreateFCmp FCMP_OGE operand (emitLiteralFloat float maxFloatBounds);
  result ← CreateSelect aboveMax (emitLiteral destBits maxIntBounds) result;
  belowMin ← CreateFCmp FCMP_OLE operand (emitLiteralFloat float minFloatBounds);
  result ← CreateSelect belowMin (emitLiteral destBits minIntBounds) result;
  isNaN ← CreateFCmp FCMP_UNO operand operand;
  CreateSelect isNaN (emitLiteral destBits 0) result.

Definition i32_trunc_s_sat_f32 : Emit unit :=
  EMIT_UNARY_OP i32 (λ type operand,
    emitTruncFloatToIntSat F32 32 true INT32_MIN INT32_MAX INT32_MIN INT32_MAX operand).
Definition i32_trunc_s_sat_f64 : Emit unit :=
  EMIT_UNARY_OP i32 (λ type operand,
    emitTruncFloatToIntSat F64 32 true INT32_MIN INT32_MAX INT32_MIN INT32_MAX operand).
Definition i32_trunc_u_sat_f32 : Emit unit :=
  EMIT_UNARY_OP i32 (λ type operand,
    emitTruncFloatToIntSat F32 32 false 0 UINT32_MAX 0 UINT32_MAX operand).
Definition i32_trunc_u_sat_f64 : Emit unit :=
  EMIT_UNARY_OP i32 (λ type operand,
    emitTruncFloatToIntSat F64 32 false 0 UINT32_MAX 0 UINT32_MAX operand).
Definition i64_trunc_s_sat_f32 : Emit unit :=
  EMIT_UNARY_OP i64 (λ type operand,
    emitTruncFloatToIntSat F32 64 true INT64_MIN INT64_MAX INT64_MIN INT64_MAX operand).
Definition i64_trunc_s_sat_f64 : Emit unit :=
  EMIT_UNARY_OP i64 (λ type operand,
    emitTruncFloatToIntSat F64 64 true INT64_MIN INT64_MAX INT64_MIN INT64_MAX operand).
Definition i64_trunc_u_sat_f32 : Emit unit :=
  EMIT_UNARY_OP i64 (λ type operand,
    emitTruncFloatToIntSat F32 64 false 0 UINT64_MAX 0 UINT64_MAX operand).
Definition i64_trunc_u_sat_f64 : Emit unit :=
  EMIT_UNARY_OP i64 (λ type operand,
    emitTruncFloatToIntSat F64 64 false 0 UINT64_MAX 0 UINT64_MAX operand).

(** *** Control structure operators *)

(** Modelled from the spec: [IndexedBlockType] and [resolveBlockType] are
    declared in IR/Types.h and IR/Module.h, which are not under src/: a block
    type is no parameters or result, one result, or the index of a function
    type of the module. *)
Inductive IndexedBlockType :=
| noParametersOrResult
| oneResult (resultType : ValueType)
| functionTypeIndex (index : nat).

Record ControlStructureImm := mkControlStructureImm { blockTypeOf : IndexedBlockType }.

Definition resolveBlockType (imm : ControlStructureImm) : Emit FunctionType :=
  match blockTypeOf imm with
  | noParametersOrResult => mret (mkFunctionType [] [])
  | oneResult resultType => mret (mkFunctionType [resultType] [])
  | functionTypeIndex index => s ← get; defined (types (moduleContext s) !! index)
  end.

(** [for(Iptr index = n - 1; index >= 0; --index)]. *)
Fixpoint forDownFrom (n : nat) (body : nat → Emit unit) : Emit unit :=
  match n with
  | O => mret tt
  | S index => body index ;; forDownFrom index body
  end.

(** [for(Uptr index = first; index < first + count; ++index)]. *)
Fixpoint forUpFrom (first count : nat) (body : nat → Emit unit) : Emit unit :=
  match count with
  | O => mret tt
  | S count' => body first ;; forUpFrom (S first) count' body
  end.

Fixpoint createPHIsOfTypes (type : TypeTuple) : Emit (list Value) :=
  match type with
  | [] => mret []
  | t :: rest =>
      phi ← CreatePHI (asLLVMType t);
      phis ← createPHIsOfTypes rest;
      mret (phi :: phis)
  end.

(** Creates a PHI node for the argument of branches to a basic block. *)
Definition createPHIs (basicBlock : nat) (type : TypeTuple) : Emit (list Value) :=
  originalBlock ← GetInsertBlock;
  SetInsertPoint basicBlock ;;
  result ← createPHIsOfTypes type;
  match originalBlock with
  | Some b => SetInsertPoint b
  | None => mret tt
  end ;;
  mret result.

Definition pushControlStack (type : ControlContext.Type_) (resultTypes : TypeTuple)
    (endBlock : nat) (endPHIs : list Value) (elseBlock : option nat)
    (elseArgs : list Value) : Emit unit :=
  s ← get;
  match controlStack s with
  | current :: _ => errorUnless (isReachable current)
  | [] => mret tt
  end ;;
  modify (λ s,
    set_controlStack
      (mkControlContext type endBlock endPHIs elseBlock elseArgs resultTypes
         (length (stack s)) (length (branchTargetStack s)) true
       :: controlStack s) s).

Definition pushBranchTarget (branchArgumentType : TypeTuple) (branchTargetBlock : nat)
    (branchTargetPHIs : list Value) : Emit unit :=
  modify (λ s,
    set_branchTargetStack
      (BranchTarget.mk branchArgumentType branchTargetBlock branchTargetPHIs
       :: branchTargetStack s) s).

(** [controlStack.back()]. *)
Definition currentControlContext : Emit ControlContext :=
  s ← get; defined (head (controlStack s)).

(** An assignment through the reference [controlStack.back()]. *)
Definition modifyCurrentContext (g : ControlContext → ControlContext) : Emit unit :=
  s ← get;
  match controlStack s with
  | current :: outer => modify (set_controlStack (g current :: outer))
  | [] => fail undefinedBehavior
  end.

Definition branchToEndOfControlContext : Emit unit :=
  currentContext ← currentControlContext;
  (if isReachable currentContext
   then
     (* If the control context expects a result, take it from the operand stack
        and add it to the control context's end PHI. *)
     forDownFrom (length (resultTypes currentContext)) (λ resultIndex,
       result ← pop;
       phi ← defined (endPHIs currentContext !! resultIndex);
       value ← coerceToCanonicalType result;
       insertBlock ← currentBlock;
       addIncoming phi value insertBlock) ;;
     (* Branch to the control context's end. *)
     CreateBr (endBlock currentContext)
   else mret tt) ;;
  s ← get;
  wavmAssert (bool_decide (length (stack s) = outerStackSize currentContext)).

Definition block (imm : ControlStructureImm) : Emit unit :=
  blockType ← resolveBlockType imm;
  endBlock ← createBasicBlock "blockEnd";
  endPHIs ← createPHIs endBlock (results blockType);
  blockArgs ← popMultiple (length (params blockType));
  pushControlStack ControlContext.block (results blockType) endBlock endPHIs None [] ;;
  pushBranchTarget (results blockType) endBlock endPHIs ;;
  pushMultiple blockArgs.

Definition loop (imm : ControlStructureImm) : Emit unit :=
  blockType ← resolveBlockType imm;
  loopEntryBlock ← GetInsertBlock;
  loopBodyBlock ← createBasicBlock "loopBody";
  endBlock ← createBasicBlock "loopEnd";
  parameterPHIs ← createPHIs loopBodyBlock (params blockType);
  endPHIs ← createPHIs endBlock (results blockType);
  CreateBr loopBodyBlock ;;
  SetInsertPoint loopBodyBlock ;;
  forDownFrom (length (params blockType)) (λ elementIndex,
    phi ← defined (parameterPHIs !! elementIndex);
    value ← pop;
    entry ← defined loopEntryBlock;
    addIncoming phi value entry) ;;
  pushControlStack ControlContext.loop (results blockType) endBlock endPHIs None [] ;;
  pushBranchTarget (params blockType) loopBodyBlock parameterPHIs ;;
  pushMultiple parameterPHIs.

Definition if_ (imm : ControlStructureImm) : Emit unit :=
  blockType ← resolveBlockType imm;
  thenBlock ← createBasicBlock "ifThen";
  elseBlock ← createBasicBlock "ifElse";
  endBlock ← createBasicBlock "ifElseEnd";
  endPHIs ← createPHIs endBlock (results blockType);
  condition ← pop;
  conditionBool ← coerceI32ToBool condition;
  CreateCondBr conditionBool thenBlock elseBlock None ;;
  s ← get;
  wavmAssert (bool_decide (length (params blockType) ≤ length (stack s))) ;;
  args ← popMultiple (length (params blockType));
  SetInsertPoint thenBlock ;;
  pushControlStack ControlContext.ifThen (results blockType) endBlock endPHIs
    (Some elseBlock) args ;;
  pushBranchTarget (results blockType) endBlock endPHIs ;;
  pushMultiple args.

Definition moveAfterInsertBlock (b : nat) : Emit unit :=
  insertBlock ← currentBlock;
  irBuilder_ (moveAfter b insertBlock).

(** A size used as a condition, as in [wavmAssert(controlStack.size())]. *)
Definition nonZero (size : nat) : bool := negb (size =? 0)%nat.

Definition else_ : Emit unit :=
  s ← get;
  wavmAssert (nonZero (length (controlStack s))) ;;
  branchToEndOfControlContext ;;
  currentContext ← currentControlContext;
  match elseBlock currentContext with
  | None => fail wavmAssertFailure
  | Some elseBlock =>
      wavmAssert match type currentContext with
                 | ControlContext.ifThen => true
                 | _ => false
                 end ;;
      moveAfterInsertBlock elseBlock ;;
      SetInsertPoint elseBlock ;;
      pushMultiple (elseArgs currentContext) ;;
      modifyCurrentContext (λ c,
        mkControlContext ControlContext.ifElse (endBlock c) (endPHIs c) None (elseArgs c)
          (resultTypes c) (outerStackSize c) (outerBranchTargetStackSize c) true)
  end.

(** Modelled from the spec: [loadFromUntypedPointer] is declared in LLVMJIT.h,
    which is not under src/: the pointer is cast to a pointer to the value
    type and loaded from. *)
Definition loadFromUntypedPointer (pointer : Value) (valueType : Type_) : Emit Value :=
  typedPointer ← CreatePointerCast pointer (PointerTy valueType);
  CreateLoad typedPointer.

(** Modelled from the spec: [offsetof(ExceptionData, arguments)]; the
    structure is declared in RuntimePrivate.h, which is not under src/. *)
Definition offsetofExceptionDataArguments : Z := 16.

Definition CreatePtrToInt (v : Value) (t : Type_) : Emit Value := CreateCast PtrToInt v t.

Definition emitThrow (exceptionTypeInstanceI64 argumentsPointerI64 : Value)
    (isUserException : bool) : Emit unit :=
  emitRuntimeIntrinsic "throwException" (mkFunctionType [] [i64; i64; i32])
    [exceptionTypeInstanceI64; argumentsPointerI64;
     emitLiteral 32 (if isUserException then 1 else 0)] ;;
  mret tt.

Definition endTry : Emit unit :=
  s ← get;
  wavmAssert (nonZero (length (tryStack s))) ;;
  modify (λ s, set_tryStack (tail (tryStack s)) s) ;;
  s ← get;
  match catchStack s with
  | _ :: rest => modify (set_catchStack rest)
  | [] => fail undefinedBehavior
  end.

Definition endCatch : Emit unit :=
  s ← get;
  wavmAssert (nonZero (length (catchStack s))) ;;
  catchContext ← defined (head (catchStack s));
  SetInsertPoint (nextHandlerBlock catchContext) ;;
  exceptionTypeInstanceI64 ← loadFromUntypedPointer (exceptionPointer catchContext) llvmI64Type;
  argumentsPointer ← CreateInBoundsGEP (exceptionPointer catchContext)
                       [emitLiteral 32 offsetofExceptionDataArguments];
  argumentsPointerI64 ← CreatePtrToInt argumentsPointer llvmI64Type;
  emitThrow exceptionTypeInstanceI64 argumentsPointerI64 false ;;
  CreateUnreachable ;;
  modify (λ s, set_catchStack (tail (catchStack s)) s).

Definition getNumIncomingValues (phi : Value) : Emit nat :=
  match phi with
  | InstValue id _ => s ← get; mret (LLVM.getNumIncomingValues id (llvmFunction s))
  | _ => fail undefinedBehavior
  end.

Definition eraseFromParent (phi : Value) : Emit unit :=
  match phi with
  | InstValue id _ => irBuilder_ (LLVM.eraseFromParent id)
  | _ => fail undefinedBehavior
  end.

(** [vector.resize(size)] where [size] is at most the current size. *)
Definition resize {A} (size : nat) (l : list A) : list A := drop (length l - size) l.

Definition end_ : Emit unit :=
  s ← get;
  wavmAssert (nonZero (length (controlStack s))) ;;
  branchToEndOfControlContext ;;
  currentContext ← currentControlContext;
  match elseBlock currentContext with
  | Some elseBlock =>
      (* If this is the end of an if without an else clause, create a dummy else
         clause. *)
      moveAfterInsertBlock elseBlock ;;
      SetInsertPoint elseBlock ;;
      CreateBr (endBlock currentContext) ;;
      (* Add the if arguments to the end PHIs as if they just passed through the
         absent else block. *)
      wavmAssert (length (elseArgs currentContext) =? length (endPHIs currentContext))%nat ;;
      forUpFrom 0 (length (elseArgs currentContext)) (λ argIndex,
        phi ← defined (endPHIs currentContext !! argIndex);
        argument ← defined (elseArgs currentContext !! argIndex);
        addIncoming phi argument elseBlock)
  | None => mret tt
  end ;;
  match type currentContext with
  | ControlContext.try_ => endTry
  | ControlContext.catch_ => endCatch
  | _ => mret tt
  end ;;
  (* Switch the IR emitter to the end block. *)
  moveAfterInsertBlock (endBlock currentContext) ;;
  SetInsertPoint (endBlock currentContext) ;;
  (if nonZero (length (endPHIs currentContext))
   then
     (* If the control context yields results, take the PHIs that merges all the
        control flow to the end and push their values onto the operand stack. *)
     wavmAssert (length (endPHIs currentContext) =? length (resultTypes currentContext))%nat ;;
     forUpFrom 0 (length (endPHIs currentContext)) (λ elementIndex,
       phi ← defined (endPHIs currentContext !! elementIndex);
       numIncomingValues ← getNumIncomingValues phi;
       if nonZero numIncomingValues
       then push phi
       else
         (* If there weren't any incoming values for the end PHI, remove it and
            push a dummy value. *)
         eraseFromParent phi ;;
         resultType ← defined (resultTypes currentContext !! elementIndex);
         push (typedZeroConstants resultType))
   else mret tt) ;;
  (* Pop and branch targets introduced by this control context. *)
  s ← get;
  wavmAssert (outerBranchTargetStackSize currentContext <=? length (branchTargetStack s))%nat ;;
  modify (λ s,
    set_branchTargetStack
      (resize (outerBranchTargetStackSize currentContext) (branchTargetStack s)) s) ;;
  (* Pop this control context. *)
  modify (λ s, set_controlStack (tail (controlStack s)) s).

(** *** Control flow operators *)

Record BranchImm := mkBranchImm { targetDepth : nat }.

Record BranchTableImm := mkBranchTableImm {
  defaultTargetDepth : nat;
  branchTableIndex : nat
}.

Definition getBranchTargetByDepth (depth : nat) : Emit BranchTarget.t :=
  s ← get;
  wavmAssert (depth <? length (branchTargetStack s))%nat ;;
  defined (branchTargetStack s !! depth).

(** This is called after unconditional control flow to indicate that operators
    following it are unreachable until the control stack is popped. *)
Definition enterUnreachable : Emit unit :=
  s ← get;
  current ← defined (head (controlStack s));
  (* Unwind the operand stack to the outer control context. *)
  wavmAssert (outerStackSize current <=? length (stack s))%nat ;;
  modify (set_stack (resize (outerStackSize current) (stack s))) ;;
  (* Mark the current control context as unreachable. *)
  modifyCurrentContext (λ c,
    mkControlContext (type c) (endBlock c) (endPHIs c) (elseBlock c) (elseArgs c)
      (resultTypes c) (outerStackSize c) (outerBranchTargetStackSize c) false).

Definition br_if (imm : BranchImm) : Emit unit :=
  (* Pop the condition from operand stack. *)
  condition ← pop;
  target ← getBranchTargetByDepth (targetDepth imm);
  wavmAssert (length (BranchTarget.params target) =? length (BranchTarget.phis target))%nat ;;
  forUpFrom 0 (length (BranchTarget.params target)) (λ argIndex,
    (* Take the branch target operands from the stack (without popping them) and
       add them to the target's incoming value PHIs. *)
    argument ← getValueFromTop (length (BranchTarget.params target) - argIndex - 1);
    phi ← defined (BranchTarget.phis target !! argIndex);
    value ← coerceToCanonicalType argument;
    insertBlock ← currentBlock;
    addIncoming phi value insertBlock) ;;
  (* Create a new basic block for the case where the branch is not taken. *)
  falseBlock ← createBasicBlock "br_ifElse";
  (* Emit a conditional branch to either the falseBlock or the target block. *)
  conditionBool ← coerceI32ToBool condition;
  CreateCondBr conditionBool (BranchTarget.block target) falseBlock None ;;
  (* Resume emitting instructions in the falseBlock. *)
  SetInsertPoint falseBlock.

Definition br (imm : BranchImm) : Emit unit :=
  target ← getBranchTargetByDepth (targetDepth imm);
  wavmAssert (length (BranchTarget.params target) =? length (BranchTarget.phis target))%nat ;;
  (* Pop the branch target operands from the stack and add them to the target's
     incoming value PHIs. *)
  forDownFrom (length (BranchTarget.params target)) (λ argIndex,
    argument ← pop;
    phi ← defined (BranchTarget.phis target !! argIndex);
    value ← coerceToCanonicalType argument;
    insertBlock ← currentBlock;
    addIncoming phi value insertBlock) ;;
  (* Branch to the target block. *)
  CreateBr (BranchTarget.block target) ;;
  enterUnreachable.

Definition CreateSwitch (index : Value) (defaultDest : nat) : Emit Value :=
  Create (SwitchInst index defaultDest []) VoidTy.

Definition addCaseTo (onValue : Z) (dest : nat) (i : Instruction) : Instruction :=
  match i with
  | SwitchInst index defaultDest cases => SwitchInst index defaultDest (cases ++ [(onValue, dest)])
  | other => other
  end.

(** [llvmSwitch->addCase(onValue, dest)]. *)
Definition addCase (llvmSwitch : Value) (onValue : Z) (dest : nat) : Emit unit :=
  match llvmSwitch with
  | InstValue id _ => irBuilder_ (alterInstruction (addCaseTo onValue dest) id)
  | _ => fail undefinedBehavior
  end.

Definition br_table (imm : BranchTableImm) : Emit unit :=
  (* Pop the table index from the operand stack. *)
  index ← pop;
  (* Look up the default branch target, and assume its argument type applies to
     all targets. *)
  defaultTarget ← getBranchTargetByDepth (defaultTargetDepth imm);
  (* Pop the branch arguments from the stack. *)
  let numArgs := length (BranchTarget.params defaultTarget) in
  args ← popMultiple numArgs;
  (* Add the branch arguments to the default target's parameter PHI nodes. *)
  forUpFrom 0 numArgs (λ argIndex,
    phi ← defined (BranchTarget.phis defaultTarget !! argIndex);
    argument ← defined (args !! argIndex);
    value ← coerceToCanonicalType argument;
    insertBlock ← currentBlock;
    addIncoming phi value insertBlock) ;;
  (* Create a LLVM switch instruction. *)
  s ← get;
  wavmAssert (branchTableIndex imm <? length (branchTables s))%nat ;;
  targetDepths ← defined (branchTables s !! branchTableIndex imm);
  llvmSwitch ← CreateSwitch index (BranchTarget.block defaultTarget);
  forUpFrom 0 (length targetDepths) (λ targetIndex,
    depth ← defined (targetDepths !! targetIndex);
    target ← getBranchTargetByDepth depth;
    (* Add this target to the switch instruction. *)
    addCase llvmSwitch (Z.of_nat targetIndex mod 2 ^ 32) (BranchTarget.block target) ;;
    (* Add the branch arguments to the PHI nodes for the branch target's
       parameters. *)
    wavmAssert (length (BranchTarget.phis target) =? numArgs)%nat ;;
    forUpFrom 0 numArgs (λ argIndex,
      phi ← defined (BranchTarget.phis target !! argIndex);
      argument ← defined (args !! argIndex);
      value ← coerceToCanonicalType argument;
      insertBlock ← currentBlock;
      addIncoming phi value insertBlock)) ;;
  enterUnreachable.

(** [controlStack[0]]: the function's own control context. *)
Definition outermostControlContext : Emit ControlContext :=
  s ← get; defined (last (controlStack s)).

Definition return_ : Emit unit :=
  s ← get;
  (* Pop the branch target operands from the stack and add them to the target's
     incoming value PHIs. *)
  forDownFrom (length (results (functionType s))) (λ argIndex,
    argument ← pop;
    outermost ← outermostControlContext;
    phi ← defined (endPHIs outermost !! argIndex);
    value ← coerceToCanonicalType argument;
    insertBlock ← currentBlock;
    addIncoming phi value insertBlock) ;;
  (* Branch to the return block. *)
  outermost ← outermostControlContext;
  CreateBr (endBlock outermost) ;;
  enterUnreachable.

Definition unreachable : Emit unit :=
  (* Call an intrinsic that causes a trap, and insert the LLVM unreachable
     terminator. *)
  emitRuntimeIntrinsic "unreachableTrap" (mkFunctionType [] []) [] ;;
  CreateUnreachable ;;
  enterUnreachable.

(** *** Polymorphic operators *)

(** [stack.pop_back()], with no assertion. *)
Definition drop_ : Emit unit :=
  s ← get;
  match stack s with
  | _ :: rest => modify (set_stack rest)
  | [] => fail undefinedBehavior
  end.

Definition select : Emit unit :=
  condition ← pop;
  falseValue ← pop;
  trueValue ← pop;
  conditionBool ← coerceI32ToBool condition;
  result ← CreateSelect conditionBool trueValue falseValue;
  push result.

(** *** More int operators *)

Definition CreateMul := CreateBinary Mul.
Definition CreateXor := CreateBinary Xor.
Definition CreateShl := CreateBinary Shl.
Definition CreateLShr := CreateBinary LShr.
Definition CreateAShr := CreateBinary AShr.
Definition CreateICmp (p : Predicate) l r := Create (CmpInst p l r) llvmI1Type.
Definition CreateICmpSLT := CreateICmp ICMP_SLT.
Definition CreateICmpULT := CreateICmp ICMP_ULT.
Definition CreateICmpSLE := CreateICmp ICMP_SLE.
Definition CreateICmpULE := CreateICmp ICMP_ULE.
Definition CreateICmpSGT := CreateICmp ICMP_SGT.
Definition CreateICmpUGT := CreateICmp ICMP_UGT.
Definition CreateICmpSGE := CreateICmp ICMP_SGE.
Definition CreateICmpUGE := CreateICmp ICMP_UGE.

(** The shift count is masked with the bit width minus one, a [U8] literal
    zero-extended to the type of the operands. *)
Definition emitShiftCountMask (type : ValueType) (shiftCount : Value) : Emit Value :=
  bitsMinusOne ← zext (emitLiteral 8 (getTypeBitWidth type - 1)) (asLLVMType type);
  CreateAnd shiftCount bitsMinusOne.

(** C++ leaves open which of the two arguments of a call is evaluated first:
    the two shifts of a rotation, with the masks of their counts, are emitted
    in one order or the other. *)
Inductive EvaluationOrder := firstArgumentFirst | secondArgumentFirst.

Definition evaluateArguments {A B} (order : EvaluationOrder) (first : Emit A)
    (second : Emit B) : Emit (A * B) :=
  match order with
  | firstArgumentFirst => a ← first; b ← second; mret (a, b)
  | secondArgumentFirst => b ← second; a ← first; mret (a, b)
  end.

(** The bit width comes from [getTypeBitWidth], whose result is a [U8]
    (IR/Types.h, which is not under src/): its literal is zero-extended to the
    type of the operands, like the one of [emitShiftCountMask]. *)
Definition emitRotl (order : EvaluationOrder) (type : ValueType) (left right : Value)
  : Emit Value :=
  bitWidth ← zext (emitLiteral 8 (getTypeBitWidth type)) (asLLVMType type);
  bitWidthMinusRight ← CreateSub bitWidth right;
  shifted ← evaluateArguments order
    (count ← emitShiftCountMask type right; CreateShl left count)
    (count ← emitShiftCountMask type bitWidthMinusRight; CreateLShr left count);
  CreateOr shifted.1 shifted.2.

Definition emitRotr (order : EvaluationOrder) (type : ValueType) (left right : Value)
  : Emit Value :=
  bitWidth ← zext (emitLiteral 8 (getTypeBitWidth type)) (asLLVMType type);
  bitWidthMinusRight ← CreateSub bitWidth right;
  shifted ← evaluateArguments order
    (count ← emitShiftCountMask type bitWidthMinusRight; CreateShl left count)
    (count ← emitShiftCountMask type right; CreateLShr left count);
  CreateOr shifted.1 shifted.2.

Definition i32_add : Emit unit :=
  EMIT_BINARY_OP i32 (λ type left right, CreateAdd left right).
Definition i64_add : Emit unit :=
  EMIT_BINARY_OP i64 (λ type left right, CreateAdd left right).
Definition i32_sub : Emit unit :=
  EMIT_BINARY_OP i32 (λ type left right, CreateSub left right).
Definition i64_sub : Emit unit :=
  EMIT_BINARY_OP i64 (λ type left right, CreateSub left right).
Definition i32_mul : Emit unit :=
  EMIT_BINARY_OP i32 (λ type left right, CreateMul left right).
Definition i64_mul : Emit unit :=
  EMIT_BINARY_OP i64 (λ type left right, CreateMul left right).
Definition i32_and : Emit unit :=
  EMIT_BINARY_OP i32 (λ type left right, CreateAnd left right).
Definition i64_and : Emit unit :=
  EMIT_BINARY_OP i64 (λ type left right, CreateAnd left right).
Definition i32_or : Emit unit :=
  EMIT_BINARY_OP i32 (λ type left right, CreateOr left right).
Definition i64_or : Emit unit :=
  EMIT_BINARY_OP i64 (λ type left right, CreateOr left right).
Definition i32_xor : Emit unit :=
  EMIT_BINARY_OP i32 (λ type left right, CreateXor left right).
Definition i64_xor : Emit unit :=
  EMIT_BINARY_OP i64 (λ type left right, CreateXor left right).

Definition i32_rotr (order : EvaluationOrder) : Emit unit :=
  EMIT_BINARY_OP i32 (emitRotr order).
Definition i64_rotr (order : EvaluationOrder) : Emit unit :=
  EMIT_BINARY_OP i64 (emitRotr order).
Definition i32_rotl (order : EvaluationOrder) : Emit unit :=
  EMIT_BINARY_OP i32 (emitRotl order).
Definition i64_rotl (order : EvaluationOrder) : Emit unit :=
  EMIT_BINARY_OP i64 (emitRotl order).

(** The shift amount operand is masked to the word size. *)
Definition i32_shl : Emit unit :=
  EMIT_BINARY_OP i32 (λ type left right, count ← emitShiftCountMask type right; CreateShl left count).
Definition i64_shl : Emit unit :=
  EMIT_BINARY_OP i64 (λ type left right, count ← emitShiftCountMask type right; CreateShl left count).
Definition i32_shr_s : Emit unit :=
  EMIT_BINARY_OP i32 (λ type left right, count ← emitShiftCountMask type right; CreateAShr left count).
Definition i64_shr_s : Emit unit :=
  EMIT_BINARY_OP i64 (λ type left right, count ← emitShiftCountMask type right; CreateAShr left count).
Definition i32_shr_u : Emit unit :=
  EMIT_BINARY_OP i32 (λ type left right, count ← emitShiftCountMask type right; CreateLShr left count).
Definition i64_shr_u : Emit unit :=
  EMIT_BINARY_OP i64 (λ type left right, count ← emitShiftCountMask type right; CreateLShr left count).

Definition i32_eq : Emit unit :=
  EMIT_BINARY_OP i32 (λ type left right, result ← CreateICmpEQ left right; coerceBoolToI32 result).
Definition i64_eq : Emit unit :=
  EMIT_BINARY_OP i64 (λ type left right, result ← CreateICmpEQ left right; coerceBoolToI32 result).
Definition i32_ne : Emit unit :=
  EMIT_BINARY_OP i32 (λ type left right, result ← CreateICmpNE left right; coerceBoolToI32 result).
Definition i64_ne : Emit unit :=
  EMIT_BINARY_OP i64 (λ type left right, result ← CreateICmpNE left right; coerceBoolToI32 result).
Definition i32_lt_s : Emit unit :=
  EMIT_BINARY_OP i32 (λ type left right, result ← CreateICmpSLT left right; coerceBoolToI32 result).
Definition i64_lt_s : Emit unit :=
  EMIT_BINARY_OP i64 (λ type left right, result ← CreateICmpSLT left right; coerceBoolToI32 result).
Definition i32_lt_u : Emit unit :=
  EMIT_BINARY_OP i32 (λ type left right, result ← CreateICmpULT left right; coerceBoolToI32 result).
Definition i64_lt_u : Emit unit :=
  EMIT_BINARY_OP i64 (λ type left right, result ← CreateICmpULT left right; coerceBoolToI32 result).
Definition i32_le_s : Emit unit :=
  EMIT_BINARY_OP i32 (λ type left right, result ← CreateICmpSLE left right; coerceBoolToI32 result).
Definition i64_le_s : Emit unit :=
  EMIT_BINARY_OP i64 (λ type left right, result ← CreateICmpSLE left right; coerceBoolToI32 result).
Definition i32_le_u : Emit unit :=
  EMIT_BINARY_OP i32 (λ type left right, result ← CreateICmpULE left right; coerceBoolToI32 result).
Definition i64_le_u : Emit unit :=
  EMIT_BINARY_OP i64 (λ type left right, result ← CreateICmpULE left right; coerceBoolToI32 result).
Definition i32_gt_s : Emit unit :=
  EMIT_BINARY_OP i32 (λ type left right, result ← CreateICmpSGT left right; coerceBoolToI32 result).
Definition i64_gt_s : Emit unit :=
  EMIT_BINARY_OP i64 (λ type left right, result ← CreateICmpSGT left right; coerceBoolToI32 result).
Definition i32_gt_u : Emit unit :=
  EMIT_BINARY_OP i32 (λ type left right, result ← CreateICmpUGT left right; coerceBoolToI32 result).
Definition i64_gt_u : Emit unit :=
  EMIT_BINARY_OP i64 (λ type left right, result ← CreateICmpUGT left right; coerceBoolToI32 result).
Definition i32_ge_s : Emit unit :=
  EMIT_BINARY_OP i32 (λ type left right, result ← CreateICmpSGE left right; coerceBoolToI32 result).
Definition i64_ge_s : Emit unit :=
  EMIT_BINARY_OP i64 (λ type left right, result ← CreateICmpSGE left right; coerceBoolToI32 result).
Definition i32_ge_u : Emit unit :=
  EMIT_BINARY_OP i32 (λ type left right, result ← CreateICmpUGE left right; coerceBoolToI32 result).
Definition i64_ge_u : Emit unit :=
  EMIT_BINARY_OP i64 (λ type left right, result ← CreateICmpUGE left right; coerceBoolToI32 result).

Definition i32_eqz : Emit unit :=
  EMIT_UNARY_OP i32 (λ type operand,
    result ← CreateICmpEQ operand (typedZeroConstants type); coerceBoolToI32 result).
Definition i64_eqz : Emit unit :=
  EMIT_UNARY_OP i64 (λ type operand,
    result ← CreateICmpEQ operand (typedZeroConstants type); coerceBoolToI32 result).

(** *** Conversions between the integer types, and reinterpretations *)

Definition i32_wrap_i64 : Emit unit :=
  EMIT_UNARY_OP i32 (λ type operand, trunc operand llvmI32Type).
Definition i64_extend_s_i32 : Emit unit :=
  EMIT_UNARY_OP i64 (λ type operand, sext operand llvmI64Type).
Definition i64_extend_u_i32 : Emit unit :=
  EMIT_UNARY_OP i64 (λ type operand, zext operand llvmI64Type).

Definition f32_reinterpret_i32 : Emit unit :=
  EMIT_UNARY_OP f32 (λ type operand, CreateBitCast operand llvmF32Type).
Definition f64_reinterpret_i64 : Emit unit :=
  EMIT_UNARY_OP f64 (λ type operand, CreateBitCast operand llvmF64Type).
Definition i32_reinterpret_f32 : Emit unit :=
  EMIT_UNARY_OP i32 (λ type operand, CreateBitCast operand llvmI32Type).
Definition i64_reinterpret_f64 : Emit unit :=
  EMIT_UNARY_OP i64 (λ type operand, CreateBitCast operand llvmI64Type).

(** *** Local operators *)

Record GetOrSetVariableImm := mkGetOrSetVariableImm { variableIndex : nat }.

Definition get_local (imm : GetOrSetVariableImm) : Emit unit :=
  s ← get;
  wavmAssert (variableIndex imm <? length (localPointers s))%nat ;;
  pointer ← defined (localPointers s !! variableIndex imm);
  value ← CreateLoad pointer;
  push value.

Definition set_local (imm : GetOrSetVariableImm) : Emit unit :=
  s ← get;
  wavmAssert (variableIndex imm <? length (localPointers s))%nat ;;
  operand ← pop;
  pointer ← defined (localPointers s !! variableIndex imm);
  value ← CreateBitCast operand (getPointerElementType (getType pointer));
  CreateStore value pointer ;;
  mret tt.

Definition tee_local (imm : GetOrSetVariableImm) : Emit unit :=
  s ← get;
  wavmAssert (variableIndex imm <? length (localPointers s))%nat ;;
  operand ← getValueFromTop 0;
  pointer ← defined (localPointers s !! variableIndex imm);
  value ← CreateBitCast operand (getPointerElementType (getType pointer));
  CreateStore value pointer ;;
  mret tt.

(** *** A concrete emitter context

    The runtime intrinsics of the "Runtime intrinsic contract", and a context
    positioned in the entry block of a function whose operands are already
    on the operand stack. *)

Definition exampleIntrinsics (name : string) : option FunctionInstance :=
  let intrinsicFunction results params address :=
    Some (mkFunctionInstance (mkFunctionType results params)
            CallingConvention.intrinsic address) in
  if decide (name = "unreachableTrap") then intrinsicFunction [] [] 4096%Z
  else if decide (name = "divideByZeroOrIntegerOverflowTrap")
  then intrinsicFunction [] [] 4112%Z
  else if decide (name = "invalidFloatOperationTrap") then intrinsicFunction [] [] 4128%Z
  else if decide (name = "misalignedAtomicTrap") then intrinsicFunction [] [i32] 4144%Z
  else if decide (name = "indirectCallSignatureMismatch")
  then intrinsicFunction [] [i32; i64] 4160%Z
  else if decide (name = "growMemory") then intrinsicFunction [i32] [i32; i64] 4176%Z
  else if decide (name = "currentMemory") then intrinsicFunction [i32] [i64] 4192%Z
  else if decide (name = "throwException")
  then intrinsicFunction [] [i64; i64; i32] 4208%Z
  else None.

Definition exampleModuleContext : EmitModuleContext :=
  mkEmitModuleContext [] 0 [] [] [] [] 0 exampleIntrinsics.

Definition exampleFunction : Function :=
  mkFunction (<[0 := AllocaInst llvmI8PtrType None "memoryBase"]> ∅)
    (<[1 := mkBasicBlock "entry" [0]]> (<[0 := mkBasicBlock "return" []]> ∅))
    [0; 1] 1 2 (Some 1).

Definition exampleContext (functionType : FunctionType) (operands : list Value)
  : EmitFunctionContext :=
  mkEmitFunctionContext exampleModuleContext functionType [] []
    exampleFunction []
    [mkControlContext ControlContext.function 0 [] None [] (results functionType) 0 0 true]
    [BranchTarget.mk (results functionType) 0 []]
    operands [] []
    (InstValue 0 (PointerTy llvmI8PtrType)) (ConstantPointer 0 (PointerTy llvmI8PtrType))
    (ConstantPointer 0 (PointerTy llvmI8PtrType)).

Definition exampleEnv (arguments : list Sem.RVal) (memoryBase : Z) : Sem.Env :=
  Sem.mkEnv (<[0 := Sem.RPointer (Sem.StackSlot 0)]> ∅) arguments
    (<[0 := Sem.RPointer (Sem.Address memoryBase)]> ∅) (λ _, 0%Z) [].

(** The context after entering a [block] that yields an [i32], with
    [operands] pushed inside the block. *)
Definition exampleBlockContext (operands : list Value) : EmitFunctionContext :=
  match block (mkControlStructureImm (oneResult i32))
          (exampleContext (mkFunctionType [i32] [i32; i32]) []) with
  | Emitted _ s => set_stack operands s
  | Failed _ => exampleContext (mkFunctionType [i32] [i32; i32]) []
  end.

(** A context whose module has the function type [(i32) -> i32] at index 0,
    with [operands] on the operand stack. *)
Definition exampleTypedContext (operands : list Value) : EmitFunctionContext :=
  mkEmitFunctionContext
    (mkEmitModuleContext [mkFunctionType [i32] [i32]] 0 [] [] [] [] 0 exampleIntrinsics)
    (mkFunctionType [i32] [i32]) [] []
    exampleFunction []
    [mkControlContext ControlContext.function 0 [] None [] [i32] 0 0 true]
    [BranchTarget.mk [i32] 0 []]
    operands [] []
    (InstValue 0 (PointerTy llvmI8PtrType)) (ConstantPointer 0 (PointerTy llvmI8PtrType))
    (ConstantPointer 0 (PointerTy llvmI8PtrType)).

(** A context of a function that returns an [i32] through the PHI node of its
    return block, with [operands] on the operand stack. *)
Definition exampleReturnContext (operands : list Value) : EmitFunctionContext :=
  mkEmitFunctionContext exampleModuleContext (mkFunctionType [i32] [i32]) [] []
    (mkFunction
       (<[1 := PHINode llvmI32Type []]>
          (<[0 := AllocaInst llvmI8PtrType None "memoryBase"]> ∅))
       (<[1 := mkBasicBlock "entry" [0]]> (<[0 := mkBasicBlock "return" [1]]> ∅))
       [0; 1] 2 2 (Some 1))
    []
    [mkControlContext ControlContext.function 0 [InstValue 1 llvmI32Type] None [] [i32] 0 0
       true]
    [BranchTarget.mk [i32] 0 [InstValue 1 llvmI32Type]]
    operands [] []
    (InstValue 0 (PointerTy llvmI8PtrType)) (ConstantPointer 0 (PointerTy llvmI8PtrType))
    (ConstantPointer 0 (PointerTy llvmI8PtrType)).

(** The context after entering an [if] of type [(i32) -> i32] on the
    condition [Argument 1], with the argument [Argument 0] on the stack. *)
Definition exampleIfContext : EmitFunctionContext :=
  match if_ (mkControlStructureImm (functionTypeIndex 0))
          (exampleTypedContext [Argument 1 llvmI32Type; Argument 0 llvmI32Type]) with
  | Emitted _ s => s
  | Failed _ => exampleTypedContext []
  end.

(** The context after an [unreachable] inside a [block] that yields an
    [i32]: nothing has branched to the end of the block. *)
Definition exampleUnreachableContext : EmitFunctionContext :=
  match unreachable (exampleBlockContext []) with
  | Emitted _ s => s
  | Failed _ => exampleBlockContext []
  end.

End LLVMJIT.

(** * The S-expression parser (Source/Core/SExpressions.cpp) *)

Module SExp.

Import Stdlib.Strings.Ascii Stdlib.Strings.String.
Local Open Scope char_scope.

(** The characters the parser names.  A C string ends at its first NUL; a
    NUL inside the input is read as the end of the input, as the code does. *)
Definition NUL : ascii := "000".
Definition tab : ascii := "009".
Definition newline : ascii := "010".
Definition carriageReturn : ascii := "013".
Definition quote : ascii := "034".
Definition apostrophe : ascii := "039".
Definition backslash : ascii := "092".

(** Modelled from the spec: [Core::TextFileLocus] is declared in Core.h, which
    is not under src/: the location of a character, as counts of the newlines,
    tabs and other characters before it, all zero at the start. *)
Record TextFileLocus := mkTextFileLocus { newlines : nat; tabs : nat; characters : nat }.

Record FatalParseException := mkFatalParseException {
  fatalLocus : TextFileLocus;
  message : string
}.

Record StreamState := mkStreamState { next : string; locus : TextFileLocus }.

(** The outcome of a parsing function: it returns, throws a
    [FatalParseException], has undefined behaviour, or is still running when
    the fuel is spent. *)
Inductive Outcome (A : Type) :=
| Returned (a : A) (state : StreamState)
| Thrown (e : FatalParseException)
| Undefined
| OutOfFuel.

Arguments Returned {A} a state.
Arguments Thrown {A} e.
Arguments Undefined {A}.
Arguments OutOfFuel {A}.

Definition Parser (A : Type) : Type := StreamState → Outcome A.

#[global] Instance Parser_ret : MRet Parser := λ A a state, Returned a state.

#[global] Instance Parser_bind : MBind Parser := λ A B k m state,
  match m state with
  | Returned a state' => k a state'
  | Thrown e => Thrown e
  | Undefined => Undefined
  | OutOfFuel => OutOfFuel
  end.

Definition getState : Parser StreamState := λ state, Returned state state.
Definition setState (state : StreamState) : Parser unit := λ _, Returned tt state.
Definition getLocus : Parser TextFileLocus := λ state, Returned (locus state) state.
Definition throw {A} (locus : TextFileLocus) (message : string) : Parser A :=
  λ _, Thrown (mkFatalParseException locus message).
Definition undefined {A} : Parser A := λ _, Undefined.
Definition outOfFuel {A} : Parser A := λ _, OutOfFuel.

Definition peek : Parser ascii := λ state,
  Returned (match next state with
            | String c _ => c
            | EmptyString => NUL
            end) state.

Definition advance : Parser unit := λ state,
  let l := locus state in
  match next state with
  | EmptyString => Thrown (mkFatalParseException l "unexpected end of file")
  | String c rest =>
      if c =? NUL then Thrown (mkFatalParseException l "unexpected end of file")
      else if c =? newline
      then Returned tt (mkStreamState rest (mkTextFileLocus (S (newlines l)) 0 0))
      else if c =? tab
      then Returned tt (mkStreamState rest
                          (mkTextFileLocus (newlines l) (S (tabs l)) (characters l)))
      else Returned tt (mkStreamState rest
                          (mkTextFileLocus (newlines l) (tabs l) (S (characters l))))
  end.

Definition consume : Parser ascii :=
  result ← peek; advance ;; mret result.

(** [advanceToPtr(newNext)], where [newNext] is [count] characters ahead. *)
Fixpoint advanceToPtr (count : nat) : Parser unit :=
  match count with
  | O => mret tt
  | S count' => advance ;; advanceToPtr count'
  end.

(** The number of characters left, which bounds the iterations of a loop that
    advances in each of them. *)
Definition remaining : Parser nat := λ state, Returned (String.length (next state)) state.

(** The loop of [advancePastNext]; [parenthesesDepth] is a [uint32]. *)
Fixpoint advancePastNextLoop (fuel : nat) (c : ascii) (parenthesesDepth : N) : Parser bool :=
  match fuel with
  | O => outOfFuel
  | S fuel' =>
      nextChar ← peek;
      if nextChar =? NUL then mret false
      else if (nextChar =? c) && (parenthesesDepth =? 0)%N then advance ;; mret true
      else if nextChar =? "("
      then advance ;; advancePastNextLoop fuel' c ((parenthesesDepth + 1) mod 2 ^ 32)%N
      else if nextChar =? ")"
      then if (parenthesesDepth =? 0)%N then mret false
           else advance ;; advancePastNextLoop fuel' c (parenthesesDepth - 1)%N
      else advance ;; advancePastNextLoop fuel' c parenthesesDepth
  end.

(** Tries to skip to the next instance of a character, excluding instances
    between nested parentheses. *)
Definition advancePastNext (c : ascii) : Parser bool :=
  n ← remaining; advancePastNextLoop (S n) c 0.

Definition inRange (low high c : ascii) : bool :=
  (nat_of_ascii low <=? nat_of_ascii c)%nat && (nat_of_ascii c <=? nat_of_ascii high)%nat.

Definition isWhitespace (c : ascii) : bool :=
  (c =? " ") || (c =? tab) || (c =? carriageReturn) || (c =? newline).

Definition isDigit (c : ascii) : bool := inRange "0" "9" c.

Definition isSymbolCharacter (c : ascii) : bool :=
  negb (isWhitespace c) && negb (c =? "(") && negb (c =? ")") && negb (c =? ";")
  && negb (c =? quote) && negb (c =? "=").

Definition parseHexit (c : ascii) : option Z :=
  if inRange "0" "9" c then Some (Z.of_nat (nat_of_ascii c) - 48)%Z
  else if inRange "a" "f" c then Some (Z.of_nat (nat_of_ascii c) - 97 + 10)%Z
  else if inRange "A" "F" c then Some (Z.of_nat (nat_of_ascii c) - 65 + 10)%Z
  else None.

(** *** Nodes

    Modelled from the spec: [Node], [NodeType] and the components of the
    floating point formats are declared in SExpressions.h and Floats.h, which
    are not under src/: "a tagged-node tree with variants subtree, attribute,
    symbol, string, signed-int, unsigned-int, float, error".  The siblings of a
    node are a list; a floating point value is the fields of its format, or
    the value the C library read from a text. *)

Inductive Float64 :=
| F64Components (sign : bool) (exponent significand : Z)
| F64Strtod (isNegative : bool) (subject : string).

Inductive Float32 :=
| F32Components (sign : bool) (exponent significand : Z)
| F32OfFloat64 (f64 : Float64).

(** An assignment to the bit fields: 11 and 52 bits, 8 and 23 bits. *)
Definition setF64Components (sign : bool) (exponent significand : Z) : Float64 :=
  F64Components sign (exponent mod 2 ^ 11) (significand mod 2 ^ 52).

Definition setF32Components (sign : bool) (exponent significand : Z) : Float32 :=
  F32Components sign (exponent mod 2 ^ 8) (significand mod 2 ^ 23).

#[warnings="-register-all"]
Inductive Node :=
| Tree (startLocus endLocus : TextFileLocus) (children : list Node)
| Attribute (startLocus endLocus : TextFileLocus) (symbolNode : Node) (value : option Node)
| Symbol (startLocus endLocus : TextFileLocus) (symbol : nat)
| UnindexedSymbol (startLocus endLocus : TextFileLocus) (string : string)
| String_ (startLocus endLocus : TextFileLocus) (string : string)
| Error (startLocus : TextFileLocus) (error : string)
| SignedInt (startLocus endLocus : TextFileLocus) (i64 : Z)
| UnsignedInt (startLocus endLocus : TextFileLocus) (i64 : Z)
| Float (startLocus endLocus : TextFileLocus) (f64 : Float64) (f32 : Float32).

Definition startLocusOf (node : Node) : TextFileLocus :=
  match node with
  | Tree l _ _ | Attribute l _ _ _ | Symbol l _ _ | UnindexedSymbol l _ _
  | String_ l _ _ | Error l _ | SignedInt l _ _ | UnsignedInt l _ _ | Float l _ _ _ => l
  end.

Definition SymbolIndexMap : Type := string → option nat.

Definition createError (locus : TextFileLocus) (message : string) : Node :=
  Error locus message.

(** *** Strings *)

(** The character read from an escape code, if it is one.  After a two-digit
    code the stream is left at the second digit. *)
Definition parseCharEscapeCode : Parser (option ascii) :=
  c ← peek;
  if c =? "n" then mret (Some newline)
  else if c =? "t" then mret (Some tab)
  else if c =? backslash then mret (Some backslash)
  else if c =? apostrophe then mret (Some apostrophe)
  else if c =? quote then mret (Some quote)
  else
    match parseHexit c with
    | None => mret None
    | Some firstValue =>
        advance ;;
        c' ← peek;
        match parseHexit c' with
        | None => mret None
        | Some secondValue =>
            mret (Some (ascii_of_nat (Z.to_nat ((firstValue * 16 + secondValue) mod 256))))
        end
    end.

Definition parseChar (c : ascii) : Parser bool :=
  c' ← peek;
  if negb (c' =? c) then mret false else consume ;; mret true.

Definition appendChar (text : string) (c : ascii) : string :=
  (text ++ String c EmptyString)%string.

Fixpoint parseQuotedStringLoop (fuel : nat) (text : string) : Parser Node :=
  match fuel with
  | O => outOfFuel
  | S fuel' =>
      nextChar ← peek;
      if (nextChar =? newline) || (nextChar =? NUL)
      then
        locus ← getLocus;
        advancePastNext quote ;;
        mret (createError locus "unexpected newline or end of file in quoted string")
      else if nextChar =? backslash
      then
        advance ;;
        escaped ← parseCharEscapeCode;
        match escaped with
        | None =>
            locus ← getLocus;
            advancePastNext quote ;;
            mret (createError locus "invalid escape code in quoted string")
        | Some escapedChar =>
            advance ;;
            parseQuotedStringLoop fuel' (appendChar text escapedChar)
        end
      else
        advance ;;
        if nextChar =? quote
        then locus ← getLocus; mret (String_ locus locus text)
        else parseQuotedStringLoop fuel' (appendChar text nextChar)
  end.

Definition parseQuotedString : Parser Node :=
  advance ;;
  n ← remaining;
  parseQuotedStringLoop (S n) EmptyString.

(** *** Numbers *)

Fixpoint parseKeywordFrom (savedState : StreamState) (keyword : string) : Parser bool :=
  match keyword with
  | EmptyString => mret true
  | String k keyword' =>
      c ← consume;
      if negb (c =? k) then setState savedState ;; mret false
      else parseKeywordFrom savedState keyword'
  end.

Definition parseKeyword (keyword : string) : Parser bool :=
  savedState ← getState;
  parseKeywordFrom savedState keyword.

Definition UINT64_MAX : Z := 2 ^ 64 - 1.

(** The loop of [parseHexInteger]: the number of characters matched and the
    value in [outValue]. *)
Fixpoint parseHexIntegerLoop (fuel : nat) (savedState : StreamState) (outValue : Z)
    (numMatchedCharacters : Z) : Parser (Z * Z) :=
  match fuel with
  | O => outOfFuel
  | S fuel' =>
      c ← peek;
      match parseHexit c with
      | None => mret (numMatchedCharacters, outValue)
      | Some hexit =>
          consume ;;
          if (UINT64_MAX / 16 <? outValue)%Z
          then setState savedState ;; mret (0%Z, outValue)
          else parseHexIntegerLoop fuel' savedState (outValue * 16 + hexit)%Z
                 (numMatchedCharacters + 1)%Z
      end
  end.

Definition parseHexInteger : Parser (Z * Z) :=
  savedState ← getState;
  n ← remaining;
  parseHexIntegerLoop (S n) savedState 0 0.

(** **** The C library's conversions

    [strtoull] and [strtod] are the C library's.  They are modelled after the
    C standard: white space is skipped, a sign is optional, and the longest
    prefix of the expected form is consumed; when there is none, nothing is.
    The value [strtod] reads is represented by the text it has consumed. *)

Definition isspace (c : ascii) : bool :=
  (c =? " ") || inRange tab carriageReturn c.

Fixpoint dropString (n : nat) (text : string) : string :=
  match n, text with
  | S n', String _ rest => dropString n' rest
  | _, _ => text
  end.

Fixpoint takeString (n : nat) (text : string) : string :=
  match n, text with
  | S n', String c rest => String c (takeString n' rest)
  | _, _ => EmptyString
  end.

(** The length of the longest prefix whose characters satisfy [p]. *)
Fixpoint span (p : ascii → bool) (text : string) : nat :=
  match text with
  | String c rest => if p c then S (span p rest) else O
  | EmptyString => O
  end.

Definition isSign (c : ascii) : bool := (c =? "+") || (c =? "-").

Definition signLength (text : string) : nat :=
  match text with
  | String c _ => if isSign c then 1 else 0
  | EmptyString => 0
  end.

Definition isHexDigit (c : ascii) : bool :=
  match parseHexit c with Some _ => true | None => false end.

Definition isOctalDigit (c : ascii) : bool := inRange "0" "7" c.

Definition toLower (c : ascii) : ascii :=
  if inRange "A" "Z" c then ascii_of_nat (nat_of_ascii c + 32) else c.

(** Whether [text] starts with [keyword] (in lower case), ignoring case. *)
Fixpoint startsWithIgnoringCase (keyword text : string) : bool :=
  match keyword, text with
  | EmptyString, _ => true
  | String k keyword', String c text' =>
      (toLower c =? k) && startsWithIgnoringCase keyword' text'
  | String _ _, EmptyString => false
  end.

Definition startsWithHexPrefix (text : string) : bool :=
  match text with
  | String z (String x _) => (z =? "0") && (toLower x =? "x")
  | _ => false
  end.

(** The value of the digits of [text] in [base], and whether it exceeds an
    [unsigned long long]. *)
Fixpoint digitsValue (base : Z) (text : string) (value : Z) : Z :=
  match text with
  | String c rest =>
      match parseHexit c with
      | Some digit => digitsValue base rest (value * base + digit)
      | None => value
      end
  | EmptyString => value
  end.

Record Strtoull := mkStrtoull { ullValue : Z; ullLength : nat; ullRange : bool }.

(** [strtoull(text, &end, base)] for a [base] of 0 or 10: the value, the
    number of characters up to [end], and whether [errno] is [ERANGE]. *)
Definition strtoull (text : string) (base : Z) : Strtoull :=
  let spaces := span isspace text in
  let afterSpaces := dropString spaces text in
  let sign := signLength afterSpaces in
  let isNegative :=
    match afterSpaces with String c _ => c =? "-" | EmptyString => false end in
  let body := dropString sign afterSpaces in
  let hexDigits := span isHexDigit (dropString 2 body) in
  let '(prefix, digits, radix) :=
    if (base =? 0)%Z && startsWithHexPrefix body && (0 <? hexDigits)%nat
    then (2, hexDigits, 16%Z)
    else if (base =? 0)%Z && match body with String c _ => c =? "0" | _ => false end
    then (0, span isOctalDigit body, 8%Z)
    else (0, span isDigit body, 10%Z) in
  if (digits =? 0)%nat then mkStrtoull 0 0 false
  else
    let magnitude := digitsValue radix (takeString digits (dropString prefix body)) 0 in
    let length := (spaces + sign + prefix + digits)%nat in
    if (UINT64_MAX <? magnitude)%Z then mkStrtoull UINT64_MAX length true
    else mkStrtoull (if isNegative then (- magnitude) mod 2 ^ 64 else magnitude)%Z
           length false.

(** The length of an exponent part: [marker], an optional sign and digits;
    zero if there is no digit. *)
Definition exponentLength (marker : ascii) (text : string) : nat :=
  match text with
  | String c rest =>
      if toLower c =? marker
      then
        let sign := signLength rest in
        let digits := span isDigit (dropString sign rest) in
        if (digits =? 0)%nat then 0 else (1 + sign + digits)%nat
      else 0
  | EmptyString => 0
  end.

(** The length of a mantissa: digits that may contain one radix character;
    zero if there is no digit. *)
Definition mantissaLength (digit : ascii → bool) (text : string) : nat :=
  let integer := span digit text in
  match dropString integer text with
  | String "." rest =>
      let fraction := span digit rest in
      if (integer + fraction =? 0)%nat then 0 else (integer + 1 + fraction)%nat
  | _ => integer
  end.

Definition isNaNCharacter (c : ascii) : bool :=
  isDigit c || inRange "a" "z" (toLower c) || (c =? "_").

(** The number of characters of the number at the start of [text], after
    white space and sign. *)
Definition strtodBodyLength (text : string) : nat :=
  if startsWithIgnoringCase "infinity" text then 8
  else if startsWithIgnoringCase "inf" text then 3
  else if startsWithIgnoringCase "nan" text
  then
    match dropString 3 text with
    | String "(" rest =>
        let sequence := span isNaNCharacter rest in
        match dropString sequence rest with
        | String ")" _ => (3 + 1 + sequence + 1)%nat
        | _ => 3
        end
    | _ => 3
    end
  else
    let hexMantissa := mantissaLength isHexDigit (dropString 2 text) in
    if startsWithHexPrefix text && (0 <? hexMantissa)%nat
    then (2 + hexMantissa + exponentLength "p" (dropString (2 + hexMantissa) text))%nat
    else
      let mantissa := mantissaLength isDigit text in
      if (mantissa =? 0)%nat then 0
      else (mantissa + exponentLength "e" (dropString mantissa text))%nat.

(** [strtod(text, &end)]: the number of characters up to [end]. *)
Definition strtodLength (text : string) : nat :=
  let spaces := span isspace text in
  let afterSpaces := dropString spaces text in
  let sign := signLength afterSpaces in
  let body := strtodBodyLength (dropString sign afterSpaces) in
  if (body =? 0)%nat then 0 else (spaces + sign + body)%nat.

Definition parseDecimalInteger : Parser (option Z) :=
  state ← getState;
  let result := strtoull (next state) 10 in
  if (ullLength result =? 0)%nat then mret None
  else if ullRange result then mret None
  else advanceToPtr (ullLength result) ;; mret (Some (ullValue result)).

(** The value of a 64-bit pattern read as an [int64]. *)
Definition asInt64 (x : Z) : Z := if (x <? 2 ^ 63)%Z then x else (x - 2 ^ 64)%Z.

(** [isNegative ? -(int64)x : x], as a 64-bit pattern.  [(int64)x] is the
    least [int64] at [x = 2^63]; negating it overflows the signed type, for
    which C++ defines no result. *)
Definition negateIf (isNegative : bool) (x : Z) : Parser Z :=
  if isNegative
  then if (asInt64 x =? - 2 ^ 63)%Z then undefined else mret ((- x) mod 2 ^ 64)%Z
  else mret x.

Definition parseNaN (startLocus : TextFileLocus) (isNegative : bool) : Parser Node :=
  let node (significand64 significand32 : Z) : Parser Node :=
    endLocus ← getLocus;
    mret (Float startLocus endLocus
            (setF64Components isNegative 2047 significand64)
            (setF32Components isNegative 255 significand32)) in
  c ← peek;
  if c =? "("
  then
    consume ;;
    matched ← parseKeyword "0x";
    if negb matched
    then
      advancePastNext ")" ;;
      locus ← getLocus;
      mret (createError locus "expected hexadecimal NaN significand")
    else
      '(numMatchedCharacters, significandBits) ← parseHexInteger;
      if (numMatchedCharacters =? 0)%Z
      then locus ← getLocus; mret (createError locus "expected hexadecimal NaN significand")
      else if (significandBits =? 0)%Z
      then locus ← getLocus; mret (createError locus "NaN significand must be non-zero")
      else
        c' ← consume;
        if negb (c' =? ")")
        then locus ← getLocus; mret (createError locus "expected ')'")
        else node significandBits significandBits
  else node (2 ^ 51)%Z (2 ^ 22)%Z.

Definition parseInfinity (startLocus : TextFileLocus) (isNegative : bool) : Parser Node :=
  (* Floating point infinite is represented by max exponent with a zero
     significand. *)
  endLocus ← getLocus;
  mret (Float startLocus endLocus
          (setF64Components isNegative 2047 0) (setF32Components isNegative 255 0)).

Definition parseHexNumber (startLocus : TextFileLocus) (isNegative : bool) : Parser Node :=
  '(numIntegerHexits, integerPart) ← parseHexInteger;
  if (numIntegerHexits =? 0)%Z
  then locus ← getLocus; mret (createError locus "expected hex digits")
  else
    hasDecimalPoint ← parseKeyword ".";
    fractionalPart ←
      (if hasDecimalPoint : bool
       then
         (* Shift the fractional part so the MSB is in the MSB of the float64
            significand. *)
         '(numFractionalHexits, fractionalPart) ← parseHexInteger;
         let shift := ((52 - numFractionalHexits * 4) mod 2 ^ 64)%Z in
         if (64 <=? shift)%Z then undefined
         else mret ((Z.shiftl fractionalPart shift) mod 2 ^ 64)%Z
       else mret 0%Z);
    hasExponent ← (lower ← parseKeyword "p"; if lower : bool then mret true else parseKeyword "P");
    exponentOrError ←
      (if hasExponent : bool
       then
         (* Parse an optional exponent sign. *)
         c ← peek;
         isExponentNegative ←
           (if (c =? "-") || (c =? "+") then c' ← consume; mret (c' =? "-") else mret false);
         (* Parse a decimal exponent. *)
         unsignedExponent ← parseDecimalInteger;
         match unsignedExponent with
         | None =>
             locus ← getLocus; mret (inr (createError locus "expected exponent decimal"))
         | Some unsignedExponent =>
             exponent ← negateIf isExponentNegative unsignedExponent;
             let exponent := asInt64 exponent in
             if (exponent <? -1022)%Z || (1023 <? exponent)%Z
             then locus ← getLocus;
                  mret (inr (createError locus "exponent must be between -1022 and +1023"))
             else mret (inl exponent)
         end
       else mret (inl 0%Z));
    match exponentOrError with
    | inr error => mret error
    | inl exponent =>
        (* If there wasn't a fractional part, or exponent, or negative zero,
           then just create an integer node. *)
        if (fractionalPart =? 0)%Z && (exponent =? 0)%Z
           && negb (isNegative && (integerPart =? 0)%Z && (hasDecimalPoint || hasExponent))
        then
          i64 ← negateIf isNegative integerPart;
          locus ← getLocus;
          mret ((if isNegative then SignedInt else UnsignedInt) locus locus i64)
        else
          let encode (exponent : Z) : Parser Node :=
            (* Encode the float and create a node for it. *)
            let f64 := setF64Components isNegative (exponent + 1023) fractionalPart in
            locus ← getLocus;
            mret (Float locus locus f64 (F32OfFloat64 f64)) in
          if (integerPart =? 0)%Z
          then
            if (fractionalPart =? 0)%Z
            then
              (* If both the integer and fractional part are zero, just return
                 zero. *)
              locus ← getLocus;
              mret (Float locus locus (setF64Components isNegative 0 0)
                      (setF32Components isNegative 0 0))
            else if negb (exponent =? -1022)%Z
            then mret (createError startLocus
                         "exponent on subnormal hexadecimal float must be -1022")
            else
              (* For subnormals, change the encoded exponent to -1023. *)
              encode (-1023)%Z
          else if negb (integerPart =? 1)%Z
          then mret (createError startLocus
                       "hexadecimal float must start with 0x1. or 0x0.")
          else encode exponent
    end.

Definition parseNumber : Parser Node :=
  startLocus ← getLocus;
  (* Parse the sign. *)
  c ← peek;
  isNegative ←
    (if (c =? "-") || (c =? "+") then c' ← consume; mret (c' =? "-") else mret false);
  (* Handle nan, infinity, and hexadecimal numbers. *)
  isNaN ← parseKeyword "nan";
  if isNaN : bool then parseNaN startLocus isNegative
  else
    isInfinity ← parseKeyword "infinity";
    if isInfinity : bool then parseInfinity startLocus isNegative
    else
      isHex ← (lower ← parseKeyword "0x"; if lower : bool then mret true else parseKeyword "0X");
      if isHex : bool then parseHexNumber startLocus isNegative
      else
        (* For decimals, just use the std float parsing code. *)
        state ← getState;
        let f64End := strtodLength (next state) in
        let i64 := strtoull (next state) 0 in
        let i64End := ullLength i64 in
        (* Between the float and the integer parser, use whichever consumed
           more input, favoring integers if they're equal. *)
        if (i64End <? f64End)%nat
        then
          advanceToPtr f64End ;;
          locus ← getLocus;
          let f64 := F64Strtod isNegative (takeString f64End (next state)) in
          mret (Float locus locus f64 (F32OfFloat64 f64))
        else
          advanceToPtr i64End ;;
          locus ← getLocus;
          i64 ← negateIf isNegative (ullValue i64);
          mret ((if isNegative then SignedInt else UnsignedInt) locus locus i64).

(** *** Symbols and nodes *)

Definition parseAttribute (parseNode : Parser (option Node)) (symbolNode : Node)
  : Parser Node :=
  consume ;;
  value ← parseNode;
  endLocus ← getLocus;
  mret (Attribute (startLocusOf symbolNode) endLocus symbolNode value).

(** The [do ... while(isSymbolCharacter(state.peek()))] loop of
    [parseSymbol]. *)
Fixpoint parseSymbolLoop (fuel : nat) (text : string) : Parser string :=
  match fuel with
  | O => outOfFuel
  | S fuel' =>
      c ← peek;
      advance ;;
      c' ← peek;
      if isSymbolCharacter c' then parseSymbolLoop fuel' (appendChar text c)
      else mret (appendChar text c)
  end.

Definition parseSymbol (symbolIndexMap : SymbolIndexMap) (parseNode : Parser (option Node))
  : Parser Node :=
  startLocus ← getLocus;
  n ← remaining;
  text ← parseSymbolLoop (S n) EmptyString;
  (* If the symbol is nan or infinity, parse it as a number. *)
  if (text =? "nan")%string then parseNaN startLocus false
  else if (text =? "infinity")%string then parseInfinity startLocus false
  else
    (* Look up the symbol string in the index map. *)
    endLocus ← getLocus;
    let symbolNode :=
      match symbolIndexMap text with
      | None => UnindexedSymbol startLocus endLocus text
      | Some symbol => Symbol startLocus endLocus symbol
      end in
    (* If the symbol is followed by an equals sign, parse an attribute. *)
    c ← peek;
    if c =? "=" then parseAttribute parseNode symbolNode else mret symbolNode.

(** [while(state.peek() != '\n' && state.peek() != 0) state.advance();] *)
Fixpoint skipLine (fuel : nat) : Parser unit :=
  match fuel with
  | O => outOfFuel
  | S fuel' =>
      c ← peek;
      if negb (c =? newline) && negb (c =? NUL) then advance ;; skipLine fuel'
      else mret tt
  end.

(** The [do ... while(state.peek() != ')')] loop of a block comment. *)
Fixpoint skipBlockComment (fuel : nat) : Parser unit :=
  match fuel with
  | O => outOfFuel
  | S fuel' =>
      found ← advancePastNext ";";
      if negb found
      then locus ← getLocus; throw locus "reached end of file while parsing block comment"
      else
        c ← peek;
        if negb (c =? ")") then skipBlockComment fuel' else mret tt
  end.

Definition foundCharacter (prefix : string) (c : ascii) : string :=
  (prefix ++ String c (String apostrophe EmptyString))%string.

(** [parseNode] and [parseNodeSequence]; the fuel bounds the iterations of
    their loops and the depth of their recursion together.  A null node is
    [None]. *)
Fixpoint parseNode (symbolIndexMap : SymbolIndexMap) (fuel : nat) : Parser (option Node) :=
  match fuel with
  | O => outOfFuel
  | S fuel' =>
      nextChar ← peek;
      if nextChar =? NUL then mret None
      else if isWhitespace nextChar
      then
        (* Skip whitespace. *)
        advance ;; parseNode symbolIndexMap fuel'
      else if nextChar =? ";"
      then
        (* Parse a line comment. *)
        advance ;;
        c ← peek;
        if negb (c =? ";")
        then locus ← getLocus;
             throw locus (foundCharacter "expected ';' following ';' but found '" nextChar)
        else n ← remaining; skipLine (S n) ;; parseNode symbolIndexMap fuel'
      else if nextChar =? "("
      then
        advance ;;
        c ← peek;
        if c =? ";"
        then
          (* Parse a block comment. *)
          n ← remaining;
          skipBlockComment (S n) ;;
          advance ;;
          parseNode symbolIndexMap fuel'
        else
          (* Recursively parse child nodes. *)
          startLocus ← getLocus;
          children ← parseNodeSequence symbolIndexMap fuel';
          c' ← peek;
          if negb (c' =? ")")
          then locus ← getLocus;
               throw locus
                 (foundCharacter
                    "expected ')' following S-expression child nodes but found '" nextChar)
          else
            advance ;;
            endLocus ← getLocus;
            mret (Some (Tree startLocus endLocus children))
      else if nextChar =? quote
      then
        (* Parse a quoted symbol. *)
        node ← parseQuotedString; mret (Some node)
      else if isDigit nextChar || (nextChar =? "+") || (nextChar =? "-") || (nextChar =? ".")
      then
        (* Parse a number. *)
        node ← parseNumber; mret (Some node)
      else if isSymbolCharacter nextChar
      then
        (* Parse a symbol. *)
        node ← parseSymbol symbolIndexMap (parseNode symbolIndexMap fuel'); mret (Some node)
      else mret None
  end
with parseNodeSequence (symbolIndexMap : SymbolIndexMap) (fuel : nat) : Parser (list Node) :=
  match fuel with
  | O => outOfFuel
  | S fuel' =>
      node ← parseNode symbolIndexMap fuel';
      match node with
      | None => mret []
      | Some node =>
          siblings ← parseNodeSequence symbolIndexMap fuel';
          mret (node :: siblings)
      end
  end.

(** [parse]: the root nodes, or the error node made from a fatal
    exception. *)
Definition parse (fuel : nat) (text : string) (symbolIndexMap : SymbolIndexMap)
  : Outcome (list Node) :=
  let state := mkStreamState text (mkTextFileLocus 0 0 0) in
  match parseNodeSequence symbolIndexMap fuel state with
  | Returned firstRootNode state' => Returned firstRootNode state'
  | Thrown exception =>
      Returned [createError (fatalLocus exception) (message exception)] state
  | Undefined => Undefined
  | OutOfFuel => OutOfFuel
  end.

(** *** Printing strings *)

Definition nibbleToHexChar (value : Z) : ascii :=
  if (value <? 10)%Z then ascii_of_nat (Z.to_nat (48 + value))
  else ascii_of_nat (Z.to_nat (97 + value - 10)).

(** One character of [escapeString].  A [char] is signed: the characters from
    128 on are negative, so below [0x20]; the nibbles are those of its byte. *)
Definition escapeCharacter (c : ascii) : string :=
  let byte := Z.of_nat (nat_of_ascii c) in
  if c =? backslash then String backslash (String backslash EmptyString)
  else if c =? quote then String backslash (String quote EmptyString)
  else if c =? newline then String backslash (String "n" EmptyString)
  else if (byte <? 32)%Z || (126 <? byte)%Z
  then String backslash
         (String (nibbleToHexChar (Z.shiftr (Z.land byte 240) 4))
            (String (nibbleToHexChar (Z.shiftr (Z.land byte 15) 0)) EmptyString))
  else String c EmptyString.

(** [escapeString(string, numChars)] for the [numChars] characters of
    [text]. *)
Fixpoint escapeString (text : string) : string :=
  match text with
  | EmptyString => EmptyString
  | String c rest => (escapeCharacter c ++ escapeString rest)%string
  end.
End SExp.

(** * Properties *)

Import IR LLVM Sem Exec LLVMJIT.

(** ** Symbolic emission and execution *)

Lemma Uptr_sub_ge (a b k : nat) :
  b + k ≤ a → (Z.of_nat a < 2 ^ 64)%Z → (Z.of_nat k ≤ Uptr_sub a b)%Z.
Proof.
  intros H1 H2. unfold Uptr_sub. rewrite Z.mod_small; lia.
Qed.

(** Unfolds the emitter down to the operations on the instruction and block
    stores, which stay folded. *)
Declare Reduction emit_red :=
  cbv beta iota zeta delta
    [mbind Emit_bind mret Emit_ret get modify fail wavmAssert errorUnless defined
     irBuilder irBuilder_ Create createBasicBlock LLVMJIT.GetInsertBlock
     LLVM.GetInsertBlock currentBlock LLVMJIT.SetInsertPoint LLVM.SetInsertPoint
     BasicBlock_Create Insert
     CreateICmpEQ CreateICmpNE CreateFCmp CreateBinary CreateAnd CreateOr CreateAdd CreateSub
     CreateSDiv CreateSRem CreateUDiv CreateURem CreateCast CreateSelect CreateBr CreateCondBr
     CreateUnreachable CreatePHI CreateLoad CreateStore CreateInBoundsGEP CreatePointerCast
     CreateBitCast addIncoming alterInstruction alterValue
     pop popMultiple push pushMultiple getValueFromTop outerStackSizeOfInnermost
     zext sext trunc identity
     getInnermostUnwindToBlock emitCallOrInvoke emitRuntimeIntrinsic extractResults
     emitConditionalTrapIntrinsic trapDivideByZero trapDivideByZeroOrIntegerOverflow
     EMIT_BINARY_OP EMIT_UNARY_OP emitSRem div_s
     coerceByteIndexToPointer trapIfMisalignedAtomic
     EMIT_LOAD_OP EMIT_STORE_OP EMIT_ATOMIC_LOAD_OP EMIT_ATOMIC_STORE_OP
     EMIT_ATOMIC_CMPXCHG EMIT_ATOMIC_RMW
     emitTruncFloatToInt emitTruncFloatToIntSat emitLiteralFloat emitLiteralF32
     emitLiteralF64
     typedZeroConstants asLLVMType
     llvmI1Type llvmI8Type llvmI16Type llvmI32Type llvmI64Type llvmF32Type llvmF64Type
     set_llvmFunction set_stack set_controlStack
     moduleContext functionType branchTables nonParameterLocalTypes llvmFunction localPointers
     controlStack branchTargetStack stack tryStack catchStack
     memoryBasePointerVariable tableBasePointerVariable contextPointerVariable
     instructions basicBlocks blockOrder nextInstruction nextBasicBlock insertBlock
     results IR.params unwindToBlock outerStackSize offset alignmentLog2].

Ltac emit_unfold :=
  match goal with |- ?g => let g' := eval emit_red in g in change g' end.

Tactic Notation "emit_unfold" "in" hyp(H) :=
  let t := type of H in let t' := eval emit_red in t in change t' in H.

(** A value that was created before the instruction numbered [n]. *)
Definition definedBefore (n : nat) (v : Value) : Prop :=
  match v with InstValue id _ => id < n | _ => True end.

Lemma evalValue_setRegister env id x v :
  definedBefore id v → evalValue (setRegister id x env) v = evalValue env v.
Proof.
  destruct v; simpl; try done. intros H. apply lookup_insert_ne. lia.
Qed.

Lemma definedBefore_mono n m v : definedBefore n v → n ≤ m → definedBefore m v.
Proof. destruct v; simpl; lia. Qed.

Lemma execFrom_eq f fuel current env pc :
  execFrom f fuel current env pc =
  execInstructions f
    (λ target env',
       match fuel with
       | O => OutOfFuel
       | S fuel' =>
           match basicBlocks f !! target with
           | Some bb =>
               match enterPHIs f current env' env' (bbInstructions bb) with
               | Some (env'', pc') => execFrom f fuel' target env'' pc'
               | None => Undefined
               end
           | None => Undefined
           end
       end)
    current env pc.
Proof. destruct fuel; reflexivity. Qed.

Lemma exec_cons f jump current env id rest i :
  instructions f !! id = Some i →
  execInstructions f jump current env (id :: rest) =
  match step env id i with
  | Next env' => execInstructions f jump current env' rest
  | Jump target env' => jump target env'
  | Stop o => o
  end.
Proof. intros H. simpl. rewrite H. reflexivity. Qed.

Definition isPHI (i : Instruction) : bool :=
  match i with PHINode _ _ => true | _ => false end.

Lemma enterPHIs_done f pred old env id rest i :
  instructions f !! id = Some i → isPHI i = false →
  enterPHIs f pred old env (id :: rest) = Some (env, id :: rest).
Proof. intros H1 H2. simpl. rewrite H1. destruct i; try done. Qed.



Lemma step_cast env id op v t x y :
  evalValue env v = Some x → evalCast op x t = Value_ y →
  step env id (CastInst op v t) = Next (setRegister id y env).
Proof. intros H1 H2. simpl. unfold evalOperand. rewrite H1, H2. reflexivity. Qed.

Lemma step_binary env id op l r x y z :
  evalValue env l = Some x → evalValue env r = Some y → evalBinary op x y = Value_ z →
  step env id (BinaryOperator op l r) = Next (setRegister id z env).
Proof.
  intros H1 H2 H3. simpl. unfold evalOperand. rewrite H1, H2, H3. reflexivity.
Qed.

Lemma step_cmp env id p l r x y z :
  evalValue env l = Some x → evalValue env r = Some y → evalCmp p x y = Value_ z →
  step env id (CmpInst p l r) = Next (setRegister id z env).
Proof.
  intros H1 H2 H3. simpl. unfold evalOperand. rewrite H1, H2, H3. reflexivity.
Qed.

Lemma step_select env id c t f x y z r :
  evalValue env c = Some x → evalValue env t = Some y → evalValue env f = Some z →
  evalSelect x y z = Value_ r →
  step env id (SelectInst c t f) = Next (setRegister id r env).
Proof.
  intros H1 H2 H3 H4. simpl. unfold evalOperand. rewrite H1, H2, H3, H4. reflexivity.
Qed.

Lemma step_condbr env id c t f w x :
  evalValue env c = Some (RInt 1 x) →
  step env id (CondBranchInst c t f w) = Jump (if (x =? 0)%Z then f else t) env.
Proof. intros H. simpl. rewrite H. reflexivity. Qed.

Lemma step_trap_call env id name cv :
  isTrapIntrinsic name = true →
  step env id (CallInst (RuntimeIntrinsic name) cv []) = Stop (Trapped name [] env).
Proof. intros H. simpl. unfold stepCall. rewrite H. reflexivity. Qed.

Lemma step_trap_invoke env id name cv b u :
  isTrapIntrinsic name = true →
  step env id (InvokeInst (RuntimeIntrinsic name) cv b u []) = Stop (Trapped name [] env).
Proof. intros H. simpl. unfold stepCall. rewrite H. reflexivity. Qed.

(** Computes the constants [emitLiteral bits value] of the goal. *)
Ltac norm_literals :=
  repeat match goal with
  | |- context [emitLiteral ?b ?v] =>
      let c := eval vm_compute in (emitLiteral b v) in change (emitLiteral b v) with c
  end.

Lemma exec_nil f jump current env :
  execInstructions f jump current env [] = Fallthrough current env.
Proof. reflexivity. Qed.



Ltac map_lookup :=
  repeat first
    [ rewrite lookup_insert_eq
    | rewrite lookup_insert_ne by lia
    | rewrite lookup_alter_eq
    | rewrite lookup_alter_ne by lia ].

(** Proves [evalValue env v = Some x] for a constant, for an operand created
    before the emitted code, or for a register the emitted code has set. *)
Ltac solve_eval :=
  first
    [ reflexivity
    | rewrite ?evalValue_setRegister
        by (eapply definedBefore_mono; [eassumption | lia]); eassumption
    | cbv beta iota delta [evalValue setRegister registers]; map_lookup; reflexivity ].

(** Looks an emitted instruction up in the function [f']. *)
Ltac solve_inst f' :=
  subst f'; cbv beta iota delta [instructions basicBlocks]; map_lookup;
  cbv beta iota delta [fmap option_fmap option_map addIncomingTo app setLoadAttributes
                       setStoreAttributes];
  reflexivity.


(** What the code emitted for one operator does when it is run: it calls a
    non-returning runtime intrinsic, or it reaches the point where the code
    of the next operator is inserted, with [result] holding [expected]. *)
Definition TrapsOrYields (o : Outcome) (trap : option string) (result : Value)
    (expected : RVal) : Prop :=
  match trap with
  | Some name => ∃ env, o = Trapped name [] env
  | None => ∃ b env, o = Fallthrough b env ∧ evalValue env result = Some expected
  end.

(** The emitter is positioned at the end of block [b0], whose contents so
    far are [B0]. *)
Definition EmitsInto (s : EmitFunctionContext) (b0 : nat) (B0 : BasicBlock) : Prop :=
  insertBlock (llvmFunction s) = Some b0 ∧
  basicBlocks (llvmFunction s) !! b0 = Some B0 ∧
  b0 < nextBasicBlock (llvmFunction s).

(** The operand stack holds [operands] (the last pushed first) above [rest],
    all of them pushed within the innermost control context. *)
Definition HoldsOperands (s : EmitFunctionContext) (operands rest : list Value) : Prop :=
  stack s = operands ++ rest ∧
  outerStackSizeOfInnermost s + length operands ≤ length (stack s) ∧
  (Z.of_nat (length (stack s)) < 2 ^ 64)%Z ∧
  Forall (definedBefore (nextInstruction (llvmFunction s))) operands.

(** The code appended to block [b0] between two emitter states. *)
Definition AppendedTo (s s' : EmitFunctionContext) (b0 : nat) (B0 : BasicBlock)
    (code : list nat) : Prop :=
  basicBlocks (llvmFunction s') !! b0
  = Some (mkBasicBlock (bbName B0) (bbInstructions B0 ++ code)).

Definition HasIntrinsic (s : EmitFunctionContext) (name : string) (type : FunctionType)
  : Prop :=
  ∃ intrinsicFunction,
    wavmIntrinsics (moduleContext s) name = Some intrinsicFunction ∧
    functionInstanceType intrinsicFunction = type.




(** Opens an emitter context into its fields and rewrites the hypotheses
    about where it emits and what its operand stack holds. *)
Ltac open_context s Hinto Hops :=
  let mc := fresh "mc" in let ft := fresh "ft" in let bts := fresh "bts" in
  let npl := fresh "npl" in let insts := fresh "insts" in let blocks := fresh "blocks" in
  let order := fresh "order" in let n := fresh "n" in let nb := fresh "nb" in
  let ib := fresh "ib" in let lp := fresh "lp" in let cs := fresh "cs" in
  let bt := fresh "bt" in let st := fresh "st" in let ts := fresh "ts" in
  let cts := fresh "cts" in let mb := fresh "mb" in let tb := fresh "tb" in
  let cp := fresh "cp" in
  destruct s as [mc ft bts npl [insts blocks order n nb ib] lp cs bt st ts cts mb tb cp];
  destruct Hinto as (Hins & Hb0 & Hb0lt);
  destruct Hops as (Hstack & Hdepth & Hsize & Hdefined);
  cbn [llvmFunction stack moduleContext insertBlock basicBlocks nextBasicBlock
       nextInstruction app length] in *;
  subst st ib;
  emit_unfold in Hdepth; simpl length in Hdepth; simpl length in Hsize.

(** Discharges the [wavmAssert] of a [pop]. *)
Ltac emit_pop :=
  rewrite bool_decide_eq_true_2 by (apply (Uptr_sub_ge _ _ 1); cbn; lia); emit_unfold.

(** Discharges the assertions of [emitRuntimeIntrinsic name]. *)
Ltac emit_intrinsic Hwavm Htype :=
  rewrite Hwavm; emit_unfold; rewrite Htype;
  rewrite bool_decide_eq_true_2 by reflexivity; emit_unfold.

(** Closes the goals about the emitter's result and leaves the execution of
    the code appended to the insertion block, in the function [f']. *)
Ltac emitted_code Hb0 :=
  eexists _, _, _; split; [reflexivity|]; split; [reflexivity|];
  unfold AppendedTo; emit_unfold; split;
  [ map_lookup; rewrite Hb0; unfold appendToBlock;
    cbn [fmap option_fmap option_map bbName bbInstructions];
    rewrite <- ?app_assoc; reflexivity | ];
  match goal with |- context [execFrom ?f _ _ _ _] => set (f' := f) end;
  simpl app; rewrite execFrom_eq.

(** Follows a jump into a block of the function, whose leading instruction
    is not a phi node. *)
Ltac enter_block f' :=
  match goal with
  | |- context [basicBlocks ?f !! ?b] =>
      let H := fresh "Hblock" in
      eassert (H : basicBlocks f !! b = Some _)
        by (subst f'; cbv beta iota delta [basicBlocks]; map_lookup;
            cbv beta iota delta [fmap option_fmap option_map appendToBlock
                                 bbName bbInstructions app];
            reflexivity);
      rewrite H; cbn [bbInstructions]; clear H
  end.

Ltac exec_cmp f' :=
  erewrite exec_cons by solve_inst f';
  erewrite step_cmp; [ | solve_eval | solve_eval | reflexivity].

Ltac exec_binary f' :=
  erewrite exec_cons by solve_inst f';
  erewrite step_binary; [ | solve_eval | solve_eval | reflexivity].

Ltac exec_cast f' :=
  erewrite exec_cons by solve_inst f';
  erewrite step_cast; [ | solve_eval | reflexivity].

Ltac exec_select f' :=
  erewrite exec_cons by solve_inst f';
  erewrite step_select; [ | solve_eval | solve_eval | solve_eval | reflexivity].

Ltac exec_condbr f' :=
  erewrite exec_cons by solve_inst f';
  erewrite step_condbr by solve_eval.

Ltac exec_trap f' :=
  erewrite exec_cons by solve_inst f';
  first [ erewrite step_trap_call by reflexivity
        | erewrite step_trap_invoke by reflexivity ].

(** Decides a branch condition made of constants. *)
Ltac decide_branch :=
  cbv beta iota;
  repeat match goal with
  | |- context [(?a =? 0)%Z] =>
      let v := eval vm_compute in (a =? 0)%Z in
      match v with
      | true => change (a =? 0)%Z with true
      | false => change (a =? 0)%Z with false
      end
  end; cbv beta iota.

(** ** Signed division and remainder *)





(** ** Float to integer truncation *)

Definition floatFormat (float : Float) : FloatFormat :=
  match float with F32 => binary32 | F64 => binary64 end.

Definition floatValue (float : Float) (pattern : Z) : RVal :=
  match float with F32 => RFloat pattern | F64 => RDouble pattern end.

Definition floatLe (a b : FloatClass) : bool :=
  match compareFloat a b with Some Lt | Some Eq => true | _ => false end.

Definition floatGe (a b : FloatClass) : bool :=
  match compareFloat a b with Some Gt | Some Eq => true | _ => false end.

(** The number an integer bound denotes once it is converted to the float
    format, as the emitter does before it passes it on. *)
Definition floatBound (float : Float) (bound : Z) : FloatClass :=
  decodeFloat (floatFormat float) (encodeInteger (floatFormat float) bound).

(** Saturating truncation, as the specification words it. *)
Definition saturate (float : Float) (destBits : Z) (isSigned : bool)
    (minFloatBounds maxFloatBounds minIntBounds maxIntBounds : Z) (pattern : Z) : RVal :=
  let x := decodeFloat (floatFormat float) pattern in
  if isNaN x then RInt destBits 0
  else if floatLe x (floatBound float minFloatBounds)
  then RInt destBits (minIntBounds `mod` 2 ^ destBits)
  else if floatGe x (floatBound float maxFloatBounds)
  then RInt destBits (maxIntBounds `mod` 2 ^ destBits)
  else evalFPToInt isSigned (floatFormat float) pattern destBits.

Lemma isNaN_compare x : 
  match compareFloat x x with None => true | _ => false end = isNaN x.
Proof. destruct x as [|[]|]; simpl; try done. Qed.

(** Whatever its parameters, [emitTruncFloatToIntSat] emits straight-line
    code that runs to its end and yields the cascade of selects
    [saturate]. *)
Lemma emitTruncFloatToIntSat_cascade (float : Float) (type : ValueType) (destBits : Z)
    (isSigned : bool) (minFloatBounds maxFloatBounds minIntBounds maxIntBounds : Z)
    (s : EmitFunctionContext) (operand : Value) (rest : list Value)
    (b0 : nat) (B0 : BasicBlock) (env : Env) (pattern : Z) (fuel : nat) :
  HoldsOperands s [operand] rest →
  EmitsInto s b0 B0 →
  evalValue env operand = Some (floatValue float pattern) →
  ∃ s' result code,
    EMIT_UNARY_OP type (λ type operand,
      emitTruncFloatToIntSat float destBits isSigned minFloatBounds maxFloatBounds
        minIntBounds maxIntBounds operand) s = Emitted tt s' ∧
    stack s' = result :: rest ∧
    AppendedTo s s' b0 B0 code ∧
    TrapsOrYields (execFrom (llvmFunction s') fuel b0 env code) None result
      (saturate float destBits isSigned minFloatBounds maxFloatBounds
         minIntBounds maxIntBounds pattern).
Proof.
  intros Hops Hinto Hoperand.
  open_context s Hinto Hops.
  apply Forall_cons in Hdefined as [Hdefined _].
  emit_unfold. emit_pop.
  destruct isSigned, float; cbn [floatValue] in Hoperand; emit_unfold.
  all: emitted_code Hb0.
  all: exec_cast f'; exec_cmp f'; exec_select f'; exec_cmp f'; exec_select f';
       exec_cmp f'; exec_select f'.
  all: rewrite exec_nil; eexists _, _; split; [reflexivity|].
  all: cbv beta iota delta [evalValue setRegister registers]; map_lookup.
  all: unfold saturate, floatLe, floatGe, floatBound, floatFormat, emitLiteral.
  all: rewrite isNaN_compare.
  all: destruct (isNaN _); [reflexivity|].
  all: repeat match goal with
       | |- context [compareFloat ?a ?b] => destruct (compareFloat a b) as [[]|]
       end; reflexivity.
Qed.

(** The value of a finite number rounded towards zero. *)
Definition truncateFloat (fmt : FloatFormat) (x : FloatClass) : Z :=
  match x with
  | FFinite q => Z.quot q (2 ^ scaleExponent fmt)
  | _ => 0
  end.

Lemma evalFPToInt_in_range (isSigned : bool) fmt pattern bits q :
  decodeFloat fmt pattern = FFinite q →
  ((if isSigned then - 2 ^ (bits - 1) else 0) <= Z.quot q (2 ^ scaleExponent fmt)
   < (if isSigned then 2 ^ (bits - 1) else 2 ^ bits))%Z →
  evalFPToInt isSigned fmt pattern bits
  = RInt bits (wrap bits (Z.quot q (2 ^ scaleExponent fmt))).
Proof.
  intros E [H1 H2]. unfold evalFPToInt. rewrite E.
  rewrite (proj2 (Z.leb_le _ _) H1), (proj2 (Z.ltb_lt _ _) H2). reflexivity.
Qed.

(** The eight saturating truncations, each with the format of its operand,
    the width of its result and whether the result is signed. *)
Inductive IsSaturatingTruncation : Emit unit → Float → Z → bool → Prop :=
| is_i32_trunc_s_sat_f32 : IsSaturatingTruncation i32_trunc_s_sat_f32 F32 32 true
| is_i32_trunc_s_sat_f64 : IsSaturatingTruncation i32_trunc_s_sat_f64 F64 32 true
| is_i32_trunc_u_sat_f32 : IsSaturatingTruncation i32_trunc_u_sat_f32 F32 32 false
| is_i32_trunc_u_sat_f64 : IsSaturatingTruncation i32_trunc_u_sat_f64 F64 32 false
| is_i64_trunc_s_sat_f32 : IsSaturatingTruncation i64_trunc_s_sat_f32 F32 64 true
| is_i64_trunc_s_sat_f64 : IsSaturatingTruncation i64_trunc_s_sat_f64 F64 64 true
| is_i64_trunc_u_sat_f32 : IsSaturatingTruncation i64_trunc_u_sat_f32 F32 64 false
| is_i64_trunc_u_sat_f64 : IsSaturatingTruncation i64_trunc_u_sat_f64 F64 64 false.

(** The least and the greatest integer of a type of [bits] bits. *)
Definition minInteger (bits : Z) (isSigned : bool) : Z :=
  if isSigned then - 2 ^ (bits - 1) else 0.
Definition maxInteger (bits : Z) (isSigned : bool) : Z :=
  if isSigned then 2 ^ (bits - 1) - 1 else 2 ^ bits - 1.

(** The integer a saturating truncation yields on the number [x]. *)
Definition saturated (float : Float) (bits : Z) (isSigned : bool) (x : FloatClass) : Z :=
  if isNaN x then 0
  else if floatLe x (floatBound float (minInteger bits isSigned))
  then minInteger bits isSigned
  else if floatGe x (floatBound float (maxInteger bits isSigned))
  then maxInteger bits isSigned
  else truncateFloat (floatFormat float) x.

Lemma truncation_between (q P L H : Z) :
  (0 < P)%Z → (L <= 0 < H)%Z → (L * P < q < H * P)%Z →
  (L <= Z.quot q P < H)%Z.
Proof.
  intros HP HLH [Hlo Hhi].
  destruct (Z.le_gt_cases 0 q) as [Hq|Hq].
  - rewrite Z.quot_div_nonneg by lia.
    pose proof (Z.div_pos q P Hq HP).
    assert (q / P < H)%Z by (apply Z.div_lt_upper_bound; nia). lia.
  - replace q with (- - q)%Z at 1 2 by lia. rewrite Z.quot_opp_l by lia.
    rewrite Z.quot_div_nonneg by lia.
    pose proof (Z.div_pos (- q) P ltac:(lia) HP).
    assert ((- q) / P < - L + 1)%Z by (apply Z.div_lt_upper_bound; nia). lia.
Qed.

(** The float bounds of the eight operators: the integer bounds rounded to
    the format, which leaves the least integers as they are and the
    greatest ones as they are or one higher. *)
Lemma saturating_bounds op float bits isSigned :
  IsSaturatingTruncation op float bits isSigned →
  ∃ H,
    floatBound float (minInteger bits isSigned)
    = FFinite (minInteger bits isSigned * 2 ^ scaleExponent (floatFormat float)) ∧
    floatBound float (maxInteger bits isSigned)
    = FFinite (H * 2 ^ scaleExponent (floatFormat float)) ∧
    (maxInteger bits isSigned <= H <= maxInteger bits isSigned + 1)%Z ∧
    (bits = 32 ∨ bits = 64)%Z.
Proof.
  intros [];
    [ exists (2 ^ 31)%Z | exists (2 ^ 31 - 1)%Z | exists (2 ^ 32)%Z | exists (2 ^ 32 - 1)%Z
    | exists (2 ^ 63)%Z | exists (2 ^ 63)%Z | exists (2 ^ 64)%Z | exists (2 ^ 64)%Z ].
  all: split; [vm_compute; reflexivity |].
  all: split; [vm_compute; reflexivity |].
  all: split; [vm_compute; split; discriminate | lia].
Qed.

(** Between the bounds the conversion is defined, and the cascade of
    selects computes [saturated]. *)
Lemma saturate_saturated op float bits isSigned pattern :
  IsSaturatingTruncation op float bits isSigned →
  let x := decodeFloat (floatFormat float) pattern in
  saturate float bits isSigned (minInteger bits isSigned) (maxInteger bits isSigned)
    (minInteger bits isSigned) (maxInteger bits isSigned) pattern
  = RInt bits (wrap bits (saturated float bits isSigned x)) ∧
  (isNaN x = false →
   floatLe x (floatBound float (minInteger bits isSigned)) = false →
   floatGe x (floatBound float (maxInteger bits isSigned)) = false →
   evalFPToInt isSigned (floatFormat float) pattern bits
   = RInt bits (wrap bits (truncateFloat (floatFormat float) x)) ∧
   (minInteger bits isSigned <= truncateFloat (floatFormat float) x
    <= maxInteger bits isSigned)%Z).
Proof.
  intros Hop x.
  destruct (saturating_bounds _ _ _ _ Hop) as (H & Hmin & Hmax & HH & Hbits).
  assert (isNaN x = false →
          floatLe x (floatBound float (minInteger bits isSigned)) = false →
          floatGe x (floatBound float (maxInteger bits isSigned)) = false →
          evalFPToInt isSigned (floatFormat float) pattern bits
          = RInt bits (wrap bits (truncateFloat (floatFormat float) x)) ∧
          (minInteger bits isSigned <= truncateFloat (floatFormat float) x
           <= maxInteger bits isSigned)%Z) as Hbetween.
  { rewrite Hmin, Hmax. unfold floatLe, floatGe. subst x.
    destruct (decodeFloat (floatFormat float) pattern) as [|negative|q] eqn:Ex;
      [discriminate | destruct negative; discriminate |].
    intros _. cbn [compareFloat truncateFloat].
    set (P := (2 ^ scaleExponent (floatFormat float))%Z) in *.
    assert (0 < P)%Z as HP by (subst P; destruct float; vm_compute; reflexivity).
    destruct (Z.compare_spec q (minInteger bits isSigned * P)); try discriminate.
    destruct (Z.compare_spec q (H * P)); try discriminate.
    intros _ _.
    assert (minInteger bits isSigned <= 0 < H)%Z as Hsigns.
    { unfold minInteger, maxInteger in *. destruct isSigned, Hbits; subst bits; lia. }
    pose proof (truncation_between q P _ _ HP Hsigns ltac:(lia)) as Ht.
    split; [| lia].
    apply (evalFPToInt_in_range isSigned _ _ _ q Ex). fold P.
    unfold minInteger, maxInteger in *.
    destruct isSigned, Hbits; subst bits; cbn [Z.sub Z.pos_sub Z.succ_double Z.pred_double
      Z.double Pos.pred_double Z.opp] in *; lia. }
  split; [| exact Hbetween].
  unfold saturate, saturated. fold x.
  destruct (isNaN x) eqn:Enan; [reflexivity |].
  destruct (floatLe x _) eqn:Ele; [reflexivity |].
  destruct (floatGe x _) eqn:Ege; [reflexivity |].
  apply Hbetween; reflexivity.
Qed.

(** C5. Each of the eight saturating float-to-int truncations emits
    straight-line code that never traps: on every operand the code runs to
    its end and the result pushed holds 0 when the operand is a NaN, the
    least integer of the destination type when the operand is less than or
    equal to that integer converted to the float format, the greatest
    integer of the destination type when the operand is greater than or
    equal to that integer converted to the float format, and otherwise the
    operand rounded towards zero, which is what the conversion instruction
    gives and lies within the destination type. *)
Theorem trunc_sat_never_traps (operator : Emit unit) (float : Float) (bits : Z)
    (isSigned : bool) (s : EmitFunctionContext) (operand : Value) (rest : list Value)
    (b0 : nat) (B0 : BasicBlock) (env : Env) (pattern : Z) (fuel : nat) :
  let x := decodeFloat (floatFormat float) pattern in
  IsSaturatingTruncation operator float bits isSigned →
  HoldsOperands s [operand] rest →
  EmitsInto s b0 B0 →
  evalValue env operand = Some (floatValue float pattern) →
  (∃ s' result code,
     operator s = Emitted tt s' ∧
     stack s' = result :: rest ∧
     AppendedTo s s' b0 B0 code ∧
     TrapsOrYields (execFrom (llvmFunction s') fuel b0 env code) None result
       (RInt bits (wrap bits (saturated float bits isSigned x)))) ∧
  (isNaN x = false →
   floatLe x (floatBound float (minInteger bits isSigned)) = false →
   floatGe x (floatBound float (maxInteger bits isSigned)) = false →
   evalFPToInt isSigned (floatFormat float) pattern bits
   = RInt bits (wrap bits (truncateFloat (floatFormat float) x)) ∧
   (minInteger bits isSigned <= truncateFloat (floatFormat float) x
    <= maxInteger bits isSigned)%Z).
Proof.
  intros x Hop Hops Hinto Hoperand.
  destruct (saturate_saturated _ _ _ _ pattern Hop) as [Hsaturated Hbetween].
  split; [| exact Hbetween].
  fold x in Hsaturated. rewrite <- Hsaturated.
  destruct Hop.
  - exact (emitTruncFloatToIntSat_cascade F32 i32 32 true _ _ _ _ s operand rest b0 B0 env
             pattern fuel Hops Hinto Hoperand).
  - exact (emitTruncFloatToIntSat_cascade F64 i32 32 true _ _ _ _ s operand rest b0 B0 env
             pattern fuel Hops Hinto Hoperand).
  - exact (emitTruncFloatToIntSat_cascade F32 i32 32 false _ _ _ _ s operand rest b0 B0 env
             pattern fuel Hops Hinto Hoperand).
  - exact (emitTruncFloatToIntSat_cascade F64 i32 32 false _ _ _ _ s operand rest b0 B0 env
             pattern fuel Hops Hinto Hoperand).
  - exact (emitTruncFloatToIntSat_cascade F32 i64 64 true _ _ _ _ s operand rest b0 B0 env
             pattern fuel Hops Hinto Hoperand).
  - exact (emitTruncFloatToIntSat_cascade F64 i64 64 true _ _ _ _ s operand rest b0 B0 env
             pattern fuel Hops Hinto Hoperand).
  - exact (emitTruncFloatToIntSat_cascade F32 i64 64 false _ _ _ _ s operand rest b0 B0 env
             pattern fuel Hops Hinto Hoperand).
  - exact (emitTruncFloatToIntSat_cascade F64 i64 64 false _ _ _ _ s operand rest b0 B0 env
             pattern fuel Hops Hinto Hoperand).
Qed.

Lemma trunc_sat_never_traps_witness :
  (∃ s' result code,
     i32_trunc_u_sat_f32
       (exampleContext (mkFunctionType [i32] [f32]) [Argument 0 llvmF32Type])
     = Emitted tt s' ∧
     stack s' = [result] ∧
     AppendedTo (exampleContext (mkFunctionType [i32] [f32]) [Argument 0 llvmF32Type])
       s' 1 (mkBasicBlock "entry" [0]) code ∧
     TrapsOrYields
       (execFrom (llvmFunction s') 0 1
          (exampleEnv [RFloat (encodeInteger binary32 3000000000)] 65536) code)
       None result (RInt 32 3000000000)) ∧
  (∃ s' result code,
     i64_trunc_s_sat_f64
       (exampleContext (mkFunctionType [i64] [f64]) [Argument 0 llvmF64Type])
     = Emitted tt s' ∧
     stack s' = [result] ∧
     AppendedTo (exampleContext (mkFunctionType [i64] [f64]) [Argument 0 llvmF64Type])
       s' 1 (mkBasicBlock "entry" [0]) code ∧
     TrapsOrYields
       (execFrom (llvmFunction s') 0 1
          (exampleEnv [RDouble (encodeInteger binary64 (- 2 ^ 70))] 65536) code)
       None result (RInt 64 (2 ^ 63))).
Proof.
  split.
  - apply (trunc_sat_never_traps i32_trunc_u_sat_f32 F32 32 false
             (exampleContext (mkFunctionType [i32] [f32]) [Argument 0 llvmF32Type])
             (Argument 0 llvmF32Type) [] 1 (mkBasicBlock "entry" [0])
             (exampleEnv [RFloat (encodeInteger binary32 3000000000)] 65536)
             (encodeInteger binary32 3000000000) 0).
    + constructor.
    + repeat split; try (vm_compute; lia); repeat constructor.
    + repeat split; try (vm_compute; lia); vm_compute; reflexivity.
    + reflexivity.
  - apply (trunc_sat_never_traps i64_trunc_s_sat_f64 F64 64 true
             (exampleContext (mkFunctionType [i64] [f64]) [Argument 0 llvmF64Type])
             (Argument 0 llvmF64Type) [] 1 (mkBasicBlock "entry" [0])
             (exampleEnv [RDouble (encodeInteger binary64 (- 2 ^ 70))] 65536)
             (encodeInteger binary64 (- 2 ^ 70)) 0).
    + constructor.
    + repeat split; try (vm_compute; lia); repeat constructor.
    + repeat split; try (vm_compute; lia); vm_compute; reflexivity.
    + reflexivity.
Defined.

(** Which trap [i32.trunc_s_f32] takes on the operand [x], if any. *)
Definition i32_trunc_s_f32_trap (x : FloatClass) : option string :=
  if isNaN x then Some "invalidFloatOperationTrap"%string
  else if floatGe x (floatBound F32 2147483648) || floatLe x (floatBound F32 (-2147483904))
  then Some "divideByZeroOrIntegerOverflowTrap"%string
  else None.

Lemma binary32_magnitude_bounds (m e : Z) :
  (0 <= m < 2 ^ 23)%Z → (0 <= e < 2 ^ 8)%Z →
  let mag := if (e =? 0)%Z then m else ((2 ^ 23 + m) * 2 ^ (e - 1))%Z in
  (0 <= mag)%Z ∧
  ((mag < 2147483904 * 2 ^ 149)%Z → (0 <= mag `div` 2 ^ 149 <= 2147483648)%Z) ∧
  ((mag < 2147483648 * 2 ^ 149)%Z → (mag `div` 2 ^ 149 <= 2147483520)%Z).
Proof.
  intros Hm He mag. subst mag.
  destruct (Z.eqb_spec e 0) as [E0|E0].
  - pose proof (Z.div_mod m (2 ^ 149) ltac:(lia)) as D.
    pose proof (Z.mod_pos_bound m (2 ^ 149) ltac:(lia)) as B.
    change (2 ^ 23)%Z with 8388608%Z in *.
    change (2 ^ 149)%Z with 713623846352979940529142984724747568191373312%Z in *.
    lia.
  - assert (e <= 149 ∨ e = 150 ∨ e = 151 ∨ e = 152 ∨ e = 153 ∨ e = 154 ∨ e = 155
            ∨ e = 156 ∨ e = 157 ∨ e = 158 ∨ 159 <= e)%Z as Hcases by lia.
    destruct Hcases as [Hc|Hc]; [|repeat (destruct Hc as [Hc|Hc])].
    2-10: rewrite Hc in *;
      match goal with
      | |- context [((2 ^ 23 + ?x) * 2 ^ (?c - 1))%Z] =>
          pose proof (Z.div_mod ((2 ^ 23 + x) * 2 ^ (c - 1)) (2 ^ 149) ltac:(lia)) as D;
          pose proof (Z.mod_pos_bound ((2 ^ 23 + x) * 2 ^ (c - 1)) (2 ^ 149) ltac:(lia))
            as B;
          let v := eval vm_compute in (2 ^ (c - 1))%Z in
          change (2 ^ (c - 1))%Z with v in *
      end;
      change (2 ^ 23)%Z with 8388608%Z in *;
      change (2 ^ 149)%Z with 713623846352979940529142984724747568191373312%Z in *;
      lia.
    + assert (2 ^ (e - 1) <= 2 ^ 148)%Z by (apply Z.pow_le_mono_r; lia).
      assert (0 < 2 ^ (e - 1))%Z by (apply Z.pow_pos_nonneg; lia).
      assert ((2 ^ 23 + m) * 2 ^ (e - 1) <= (2 ^ 23 + m) * 2 ^ 148)%Z
        by (apply Z.mul_le_mono_nonneg_l; lia).
      pose proof (Z.div_mod ((2 ^ 23 + m) * 2 ^ (e - 1)) (2 ^ 149) ltac:(lia)) as D.
      pose proof (Z.mod_pos_bound ((2 ^ 23 + m) * 2 ^ (e - 1)) (2 ^ 149) ltac:(lia)) as B.
      change (2 ^ 23)%Z with 8388608%Z in *.
      change (2 ^ 148)%Z with 356811923176489970264571492362373784095686656%Z in *.
      change (2 ^ 149)%Z with 713623846352979940529142984724747568191373312%Z in *.
      lia.
    + assert (2 ^ 158 <= 2 ^ (e - 1))%Z by (apply Z.pow_le_mono_r; lia).
      assert ((2 ^ 23 + m) * 2 ^ 158 <= (2 ^ 23 + m) * 2 ^ (e - 1))%Z
        by (apply Z.mul_le_mono_nonneg_l; lia).
      change (2 ^ 23)%Z with 8388608%Z in *.
      change (2 ^ 158)%Z with
        365375409332725729550921208179070754913983135744%Z in *.
      change (2 ^ 149)%Z with 713623846352979940529142984724747568191373312%Z in *.
      lia.
Qed.

(** The floats strictly between the two bounds of [i32.trunc_s_f32] round
    towards zero to an integer of 32 bits, and to none above 2147483520:
    between 2147483520 and 2147483648 there is no [binary32] number. *)
Lemma binary32_truncation_bounds (pattern q : Z) :
  decodeFloat binary32 pattern = FFinite q →
  (q < 2147483648 * 2 ^ 149)%Z →
  (-2147483904 * 2 ^ 149 < q)%Z →
  (-2147483648 <= Z.quot q (2 ^ 149) <= 2147483520)%Z.
Proof.
  unfold decodeFloat. cbn [mantissaBits exponentBits binary32].
  set (m := (pattern `mod` 2 ^ 23)%Z).
  set (e := ((pattern `div` 2 ^ 23) `mod` 2 ^ 8)%Z).
  assert (Hm : (0 <= m < 2 ^ 23)%Z) by (apply Z.mod_pos_bound; lia).
  assert (He : (0 <= e < 2 ^ 8)%Z) by (apply Z.mod_pos_bound; lia).
  destruct (Z.eqb_spec e (2 ^ 8 - 1)) as [|Hne]; [destruct (m =? 0)%Z; discriminate|].
  destruct (binary32_magnitude_bounds m e Hm He) as (Hmag & Hneg & Hpos).
  set (mag := if (e =? 0)%Z then m else ((2 ^ 23 + m) * 2 ^ (e - 1))%Z) in *.
  intros [= <-] Hlt Hgt.
  destruct (Z.odd _).
  - rewrite Z.quot_opp_l by lia. rewrite Z.quot_div_nonneg by lia.
    specialize (Hneg ltac:(lia)). lia.
  - rewrite Z.quot_div_nonneg by lia.
    specialize (Hpos ltac:(lia)).
    pose proof (Z.div_pos mag (2 ^ 149) ltac:(lia) ltac:(lia)). lia.
Qed.

Lemma floatBound_F32_max :
  floatBound F32 2147483648 = FFinite (2147483648 * 2 ^ 149).
Proof. vm_compute. reflexivity. Qed.

Lemma floatBound_F32_min :
  floatBound F32 (-2147483904) = FFinite (-2147483904 * 2 ^ 149).
Proof. vm_compute. reflexivity. Qed.

Lemma evalCmp_float p x y :
  evalCmp p (RFloat x) (RFloat y)
  = match evalFCmp p (decodeFloat binary32 x) (decodeFloat binary32 y) with
    | Some b => Value_ (boolValue b)
    | None => NotModelled
    end.
Proof. reflexivity. Qed.

(** C3 (amended). For [i32.trunc_s_f32] the emitted code traps with
    [invalidFloatOperationTrap] when the operand is a NaN, traps with
    [divideByZeroOrIntegerOverflowTrap] when the operand is greater than or
    equal to 2147483648.0f or less than or equal to -2147483904.0f, and
    otherwise performs the conversion, which then rounds towards zero to an
    integer between [INT32_MIN] and 2147483520: no [binary32] number lies
    between 2147483520 and 2147483648, so no operand converts to
    [INT32_MAX]. *)
Theorem i32_trunc_s_f32_traps_or_converts (s : EmitFunctionContext) (operand : Value)
    (rest : list Value) (b0 : nat) (B0 : BasicBlock) (env : Env) (pattern : Z)
    (fuel : nat) :
  let x := decodeFloat binary32 pattern in
  HoldsOperands s [operand] rest →
  EmitsInto s b0 B0 →
  HasIntrinsic s "invalidFloatOperationTrap" (mkFunctionType [] []) →
  HasIntrinsic s "divideByZeroOrIntegerOverflowTrap" (mkFunctionType [] []) →
  evalValue env operand = Some (RFloat pattern) →
  match i32_trunc_s_f32_trap x with
  | Some _ => True
  | None => (INT32_MIN <= truncateFloat binary32 x <= 2147483520)%Z
  end ∧
  ∃ s' result code,
    i32_trunc_s_f32 s = Emitted tt s' ∧
    stack s' = result :: rest ∧
    AppendedTo s s' b0 B0 code ∧
    TrapsOrYields (execFrom (llvmFunction s') (S (S fuel)) b0 env code)
      (i32_trunc_s_f32_trap x) result (RInt 32 (wrap 32 (truncateFloat binary32 x))).
Proof.
  intros x Hops Hinto (fi1 & Hwavm1 & Hfi1) (fi2 & Hwavm2 & Hfi2) Hoperand.
  assert (Hrange : match i32_trunc_s_f32_trap x with
                   | Some _ => True
                   | None => (INT32_MIN <= truncateFloat binary32 x <= 2147483520)%Z
                   end).
  { unfold i32_trunc_s_f32_trap, floatGe, floatLe.
    rewrite floatBound_F32_max, floatBound_F32_min.
    destruct x as [|sg|q] eqn:Ex; [exact I | destruct sg; exact I |].
    cbn [isNaN compareFloat].
    destruct (Z.compare_spec q (2147483648 * 2 ^ 149)); [exact I | | exact I].
    destruct (Z.compare_spec q (-2147483904 * 2 ^ 149)); [exact I | exact I |].
    cbn [orb truncateFloat].
    apply (binary32_truncation_bounds pattern q Ex); lia. }
  split; [exact Hrange|]. clear Hrange.
  pose proof (binary32_truncation_bounds pattern) as Hbounds.
  subst x. unfold i32_trunc_s_f32_trap, floatGe, floatLe, floatBound, floatFormat.
  destruct (decodeFloat binary32 pattern) as [|sg|q] eqn:Ex.
  all: open_context s Hinto Hops.
  all: apply Forall_cons in Hdefined as [Hdefined _].
  all: unfold i32_trunc_s_f32.
  all: emit_unfold; emit_pop; emit_intrinsic Hwavm1 Hfi1.
  all: destruct ts as [|t ts]; emit_unfold; emit_intrinsic Hwavm2 Hfi2.
  all: emitted_code Hb0.
  all: repeat match goal with
       | |- context [decodeFloat ?f (encodeInteger ?g ?v)] =>
           let c := eval vm_compute in (decodeFloat f (encodeInteger g v)) in
           change (decodeFloat f (encodeInteger g v)) with c
       end.
  all: exec_cmp f'; exec_condbr f'.
  all: rewrite Ex; cbn [compareFloat isNaN bool_eq].
  all: destruct sg || idtac.
  all: decide_branch; enter_block f'.
  all: (erewrite enterPHIs_done; [ | solve_inst f' | reflexivity ]); rewrite execFrom_eq.
  all: try (exec_trap f'; eexists; reflexivity).
  all: exec_cmp f'; exec_cmp f'; exec_binary f'; exec_condbr f'.
  all: rewrite ?Ex.
  all: repeat match goal with
       | |- context [decodeFloat ?f (encodeInteger ?g ?v)] =>
           let c := eval vm_compute in (decodeFloat f (encodeInteger g v)) in
           change (decodeFloat f (encodeInteger g v)) with c
       end.
  all: cbn [compareFloat].
  all: repeat match goal with
       | |- context [(?a ?= ?b)%Z] => destruct (Z.compare_spec a b)
       end.
  all: try (exfalso; lia).
  all: cbn [orb]; decide_branch; enter_block f'.
  all: (erewrite enterPHIs_done; [ | solve_inst f' | reflexivity ]); rewrite execFrom_eq.
  all: try (exec_trap f'; eexists; reflexivity).
  all: erewrite exec_cons by solve_inst f'.
  all: erewrite step_cast; [ | solve_eval | reflexivity ].
  all: rewrite exec_nil; eexists _, _; split; [ reflexivity | ].
  all: cbv beta iota delta [evalValue setRegister registers]; map_lookup; f_equal.
  all: apply (evalFPToInt_in_range true binary32 _ _ q Ex).
  all: specialize (Hbounds q eq_refl ltac:(lia) ltac:(lia)).
  all: change (2 ^ scaleExponent binary32)%Z with (2 ^ 149)%Z; cbn [Z.sub]; lia.
Qed.

Lemma i32_trunc_s_f32_traps_or_converts_witness :
  ∃ s' result code,
    i32_trunc_s_f32 (exampleContext (mkFunctionType [i32] [f32]) [Argument 0 llvmF32Type])
    = Emitted tt s' ∧
    stack s' = [result] ∧
    AppendedTo (exampleContext (mkFunctionType [i32] [f32]) [Argument 0 llvmF32Type])
      s' 1 (mkBasicBlock "entry" [0]) code ∧
    TrapsOrYields
      (execFrom (llvmFunction s') 2 1 (exampleEnv [RFloat 1069547520] 65536) code)
      None result (RInt 32 1).
Proof.
  apply (i32_trunc_s_f32_traps_or_converts
           (exampleContext (mkFunctionType [i32] [f32]) [Argument 0 llvmF32Type])
           (Argument 0 llvmF32Type) [] 1 (mkBasicBlock "entry" [0])
           (exampleEnv [RFloat 1069547520] 65536) 1069547520 0).
  - repeat split; try (vm_compute; lia); repeat constructor.
  - repeat split; try (vm_compute; lia); vm_compute; reflexivity.
  - eexists; split; reflexivity.
  - eexists; split; reflexivity.
  - reflexivity.
Defined.

(** The literal [2147483647.0f] denotes the same [binary32] number as
    [2147483648.0f]: [INT32_MAX] is not representable. *)
Lemma literal_2147483647_is_2147483648 :
  encodeInteger binary32 2147483647 = encodeInteger binary32 2147483648.
Proof. vm_compute. reflexivity. Qed.

Lemma i32_trunc_s_f32_trap_at_2147483648 :
  i32_trunc_s_f32_trap (floatBound F32 2147483648)
  = Some "divideByZeroOrIntegerOverflowTrap"%string.
Proof. vm_compute. reflexivity. Qed.

Lemma i32_trunc_s_f32_largest_operand :
  i32_trunc_s_f32_trap (floatBound F32 2147483520) = None ∧
  truncateFloat binary32 (floatBound F32 2147483520) = 2147483520%Z.
Proof. vm_compute. split; reflexivity. Qed.

(** C3 as it is stated fails on the operand [2147483647.0f]: the emitted code
    does not convert it to [INT32_MAX], it traps. *)
Lemma i32_trunc_s_f32_INT32_MAX_counterexample :
  ¬ ∃ s' result code,
      i32_trunc_s_f32
        (exampleContext (mkFunctionType [i32] [f32]) [Argument 0 llvmF32Type])
      = Emitted tt s' ∧
      stack s' = [result] ∧
      AppendedTo (exampleContext (mkFunctionType [i32] [f32]) [Argument 0 llvmF32Type])
        s' 1 (mkBasicBlock "entry" [0]) code ∧
      TrapsOrYields
        (execFrom (llvmFunction s') 2 1
           (exampleEnv [RFloat (encodeInteger binary32 2147483647)] 65536) code)
        None result (RInt 32 (wrap 32 INT32_MAX)).
Proof.
  intros (s' & result & code & Hemit & Hstack & Hcode & b & env' & Hexec & _).
  vm_compute in Hemit. injection Hemit as <-.
  unfold AppendedTo in Hcode. vm_compute in Hcode. injection Hcode as <-.
  vm_compute in Hexec. discriminate Hexec.
Qed.

(** ** Effects of the control operators on the emitter state *)

Lemma run_bind {A B} (m : Emit A) (k : A → Emit B) s :
  (m ≫= k) s = match m s with Emitted a s' => k a s' | Failed e => Failed e end.
Proof. reflexivity. Qed.

(** Runs the emitter in the goal up to its next operation. *)
Ltac run :=
  repeat first
    [ rewrite run_bind
    | progress cbn beta iota delta [mret Emit_ret get defined wavmAssert] ].

Lemma getValueFromTop_run offset s v :
  stack s !! offset = Some v → getValueFromTop offset s = Emitted v s.
Proof. intros H. unfold getValueFromTop. run. rewrite H. reflexivity. Qed.

Lemma currentBlock_run s b :
  insertBlock (llvmFunction s) = Some b → currentBlock s = Emitted b s.
Proof.
  intros H. unfold currentBlock, LLVMJIT.GetInsertBlock, LLVM.GetInsertBlock. run.
  rewrite H. reflexivity.
Qed.

Lemma addIncoming_run id t v b s :
  addIncoming (InstValue id t) v b s
  = Emitted tt (set_llvmFunction (alterInstruction (addIncomingTo v b) id (llvmFunction s)) s).
Proof. reflexivity. Qed.

(** The incoming values [more] added to a PHI node. *)
Definition addIncomings (more : list (Value * nat)) (i : Instruction) : Instruction :=
  match i with
  | PHINode t incoming => PHINode t (incoming ++ more)
  | other => other
  end.

Lemma addIncomings_nil i : addIncomings [] i = i.
Proof. destruct i; simpl; rewrite ?app_nil_r; reflexivity. Qed.

Lemma addIncomings_app m1 m2 i :
  addIncomings m2 (addIncomings m1 i) = addIncomings (m1 ++ m2) i.
Proof. destruct i; simpl; rewrite ?app_assoc; reflexivity. Qed.

Lemma addIncomingTo_addIncomings v b i : addIncomingTo v b i = addIncomings [(v, b)] i.
Proof. destruct i; reflexivity. Qed.

(** [f'] has the instructions of [f], whose PHI nodes may have gained incoming
    values, and possibly more instructions. *)
Definition Grows (f f' : Function) : Prop :=
  nextInstruction f ≤ nextInstruction f' ∧
  ∀ id i, id < nextInstruction f → instructions f !! id = Some i →
    ∃ more, instructions f' !! id = Some (addIncomings more i).

Lemma Grows_refl f : Grows f f.
Proof.
  split; [lia |]. intros id i _ H. exists []. rewrite addIncomings_nil. exact H.
Qed.

Lemma Grows_trans f1 f2 f3 : Grows f1 f2 → Grows f2 f3 → Grows f1 f3.
Proof.
  intros [Hn1 H1] [Hn2 H2]. split; [lia |].
  intros id i Hid Hi. destruct (H1 id i Hid Hi) as [m1 Hm1].
  destruct (H2 id _ ltac:(lia) Hm1) as [m2 Hm2].
  exists (m1 ++ m2). rewrite <- addIncomings_app. exact Hm2.
Qed.

Lemma Grows_Insert i f : Grows f (Insert i f).2.
Proof.
  split; [simpl; lia |]. intros id j Hid Hj. exists [].
  rewrite addIncomings_nil. simpl. rewrite lookup_insert_ne by lia. exact Hj.
Qed.

Lemma Grows_addIncoming v b id f :
  Grows f (alterInstruction (addIncomingTo v b) id f).
Proof.
  split; [simpl; lia |]. intros id' j Hid Hj. simpl.
  destruct (decide (id = id')) as [->|Hne].
  - exists [(v, b)]. rewrite lookup_alter_eq, Hj. simpl.
    rewrite addIncomingTo_addIncomings. reflexivity.
  - exists []. rewrite lookup_alter_ne by done. rewrite addIncomings_nil. exact Hj.
Qed.

Lemma Grows_same_instructions f f' :
  instructions f' = instructions f → nextInstruction f' = nextInstruction f → Grows f f'.
Proof.
  intros Hi Hn. split; [lia |]. intros id j _ Hj. exists [].
  rewrite addIncomings_nil, Hi. exact Hj.
Qed.

(** [phi] is a PHI node of [f]. *)
Definition IsPHI (f : Function) (phi : Value) : Prop :=
  ∃ id t incoming, phi = InstValue id t ∧ id < nextInstruction f ∧
    instructions f !! id = Some (PHINode t incoming).

(** The PHI node [phi] of [f] has the incoming [value] from [block]. *)
Definition HasIncoming (f : Function) (phi value : Value) (block : nat) : Prop :=
  ∃ id t incoming, phi = InstValue id t ∧ id < nextInstruction f ∧
    instructions f !! id = Some (PHINode t incoming) ∧ (value, block) ∈ incoming.

(** [value] is [argument] coerced to its canonical type by instructions of
    [f]. *)
Definition CanonicalOf (f : Function) (argument value : Value) : Prop :=
  if isVectorTy (getType argument)
  then ∃ id, value = InstValue id llvmI64x2Type ∧ id < nextInstruction f ∧
         instructions f !! id = Some (CastInst BitCast argument llvmI64x2Type)
  else value = argument.

Lemma IsPHI_Grows f f' phi : Grows f f' → IsPHI f phi → IsPHI f' phi.
Proof.
  intros [Hn H] (id & t & incoming & -> & Hid & Hi).
  destruct (H id _ Hid Hi) as [more Hmore].
  exists id, t, (incoming ++ more). split; [done |]. split; [lia | exact Hmore].
Qed.

Lemma HasIncoming_Grows f f' phi v b : Grows f f' → HasIncoming f phi v b → HasIncoming f' phi v b.
Proof.
  intros [Hn H] (id & t & incoming & -> & Hid & Hi & Hin).
  destruct (H id _ Hid Hi) as [more Hmore].
  exists id, t, (incoming ++ more). split; [done |]. split; [lia |].
  split; [exact Hmore |]. apply elem_of_app. left. exact Hin.
Qed.

Lemma CanonicalOf_Grows f f' a v : Grows f f' → CanonicalOf f a v → CanonicalOf f' a v.
Proof.
  intros [Hn H]. unfold CanonicalOf. destruct (isVectorTy (getType a)); [| done].
  intros (id & -> & Hid & Hi). destruct (H id _ Hid Hi) as [more Hmore].
  exists id. split; [done |]. split; [lia | exact Hmore].
Qed.

Lemma coerceToCanonicalType_run argument s :
  ∃ value f', coerceToCanonicalType argument s = Emitted value (set_llvmFunction f' s) ∧
    Grows (llvmFunction s) f' ∧ insertBlock f' = insertBlock (llvmFunction s) ∧
    CanonicalOf f' argument value.
Proof.
  unfold coerceToCanonicalType, CanonicalOf.
  destruct (isVectorTy (getType argument)).
  - eexists _, _. split; [reflexivity |]. split; [apply Grows_Insert |].
    split; [reflexivity |]. eexists. split; [reflexivity |]. simpl. split; [lia |].
    apply lookup_insert_eq.
  - exists argument, (llvmFunction s). split; [destruct s; reflexivity |].
    split; [apply Grows_refl |]. done.
Qed.

Lemma set_llvmFunction_twice f f' s :
  set_llvmFunction f' (set_llvmFunction f s) = set_llvmFunction f' s.
Proof. reflexivity. Qed.

Lemma addIncoming_HasIncoming f phi v b :
  IsPHI f phi → ∃ id t, phi = InstValue id t ∧
    HasIncoming (alterInstruction (addIncomingTo v b) id f) phi v b.
Proof.
  intros (id & t & incoming & -> & Hid & Hi). exists id, t. split; [done |].
  exists id, t, (incoming ++ [(v, b)]). split; [done |]. split; [simpl; lia |].
  split.
  - simpl. rewrite lookup_alter_eq, Hi. reflexivity.
  - apply elem_of_app. right. apply list_elem_of_singleton. reflexivity.
Qed.

(** The loop of [br_if] over the branch arguments: every PHI node of the
    target gains the argument at its offset from the top of the stack, and
    only the function under construction changes. *)
Lemma br_if_arguments_run (params : TypeTuple) (phis : list Value) (b : nat) (count : nat) :
  ∀ (first : nat) (s : EmitFunctionContext),
  first + count = length params → length params = length phis →
  length params ≤ length (stack s) →
  insertBlock (llvmFunction s) = Some b →
  Forall (IsPHI (llvmFunction s)) phis →
  ∃ f',
    forUpFrom first count (λ argIndex,
      argument ← getValueFromTop (length params - argIndex - 1);
      phi ← defined (phis !! argIndex);
      value ← coerceToCanonicalType argument;
      insertBlock ← currentBlock;
      addIncoming phi value insertBlock) s = Emitted tt (set_llvmFunction f' s) ∧
    Grows (llvmFunction s) f' ∧ insertBlock f' = Some b ∧
    ∀ argIndex phi argument, first ≤ argIndex →
      phis !! argIndex = Some phi →
      stack s !! (length params - argIndex - 1) = Some argument →
      ∃ value, CanonicalOf f' argument value ∧ HasIncoming f' phi value b.
Proof.
  induction count as [|count IH]; intros first s Hcount Hlen Hstack Hb Hphis.
  - exists (llvmFunction s). split; [destruct s; reflexivity |].
    split; [apply Grows_refl |]. split; [exact Hb |].
    intros argIndex phi argument Hge Hphi _. apply lookup_lt_Some in Hphi. lia.
  - destruct (lookup_lt_is_Some_2 (stack s) (length params - first - 1)) as [argument Harg];
      [lia |].
    destruct (lookup_lt_is_Some_2 phis first) as [phi Hphi]; [lia |].
    destruct (coerceToCanonicalType_run argument s) as (value & f1 & Hrun1 & Hg1 & Hb1 & Hc1).
    assert (IsPHI f1 phi) as HisPHI.
    { eapply IsPHI_Grows; [exact Hg1 |]. eapply Forall_lookup_1; eassumption. }
    destruct (addIncoming_HasIncoming f1 phi value b HisPHI) as (id & t & -> & Hinc).
    set (f2 := alterInstruction (addIncomingTo value b) id f1) in *.
    assert (Grows (llvmFunction s) f2) as Hg2.
    { eapply Grows_trans; [exact Hg1 | apply Grows_addIncoming]. }
    destruct (IH (S first) (set_llvmFunction f2 s)) as (f' & Hrun & Hg & Hb' & Hall).
    + lia.
    + exact Hlen.
    + exact Hstack.
    + simpl. rewrite Hb1. exact Hb.
    + simpl. eapply Forall_impl; [exact Hphis |]. intros x. apply IsPHI_Grows. exact Hg2.
    + exists f'. split.
      * cbn [forUpFrom]. run. rewrite (getValueFromTop_run _ _ _ Harg). run.
        rewrite Hphi. run. rewrite Hrun1. run.
        rewrite (currentBlock_run _ b) by (simpl; congruence). run.
        rewrite addIncoming_run. run.
        exact Hrun.
      * split; [eapply Grows_trans; [exact Hg2 | exact Hg] |]. split; [exact Hb' |].
        intros argIndex phi' argument' Hge Hphi' Harg'.
        destruct (decide (argIndex = first)) as [->|Hne].
        -- rewrite Hphi in Hphi'. injection Hphi' as <-.
           rewrite Harg in Harg'. injection Harg' as <-.
           exists value. split.
           ++ eapply CanonicalOf_Grows; [exact Hg |].
              eapply CanonicalOf_Grows; [apply Grows_addIncoming | exact Hc1].
           ++ eapply HasIncoming_Grows; [exact Hg | exact Hinc].
        -- apply (Hall argIndex phi' argument'); [lia | exact Hphi' | exact Harg'].
Qed.

Lemma pop_run s v rest :
  stack s = v :: rest → outerStackSizeOfInnermost s + 1 ≤ length (stack s) →
  (Z.of_nat (length (stack s)) < 2 ^ 64)%Z →
  pop s = Emitted v (set_stack rest s).
Proof.
  intros Hs Hd Hmax. unfold pop. run.
  rewrite bool_decide_eq_true_2 by (apply (Uptr_sub_ge _ _ 1); lia).
  run. rewrite Hs. reflexivity.
Qed.

Lemma getBranchTargetByDepth_run depth s target :
  branchTargetStack s !! depth = Some target →
  getBranchTargetByDepth depth s = Emitted target s.
Proof.
  intros H. unfold getBranchTargetByDepth. run.
  pose proof (lookup_lt_Some _ _ _ H) as Hlt.
  apply Nat.ltb_lt in Hlt. rewrite Hlt. run. rewrite H. reflexivity.
Qed.

(** C6: [br_if] pops the condition and nothing else: the branch arguments are
    read at their offsets from the top of the stack, each becomes an incoming
    value (from the block being emitted) of the PHI node of the target at the
    same index, and they are still on the operand stack afterwards, which is
    one value shorter than before. *)
Theorem br_if_pops_only_the_condition (imm : BranchImm) (s : EmitFunctionContext)
    (condition : Value) (operands : list Value) (target : BranchTarget.t) (b : nat) :
  stack s = condition :: operands →
  outerStackSizeOfInnermost s + 1 ≤ length (stack s) →
  (Z.of_nat (length (stack s)) < 2 ^ 64)%Z →
  branchTargetStack s !! targetDepth imm = Some target →
  length (BranchTarget.params target) = length (BranchTarget.phis target) →
  length (BranchTarget.params target) ≤ length operands →
  insertBlock (llvmFunction s) = Some b →
  Forall (IsPHI (llvmFunction s)) (BranchTarget.phis target) →
  ∃ s', br_if imm s = Emitted tt s' ∧
    stack s = condition :: stack s' ∧
    length (stack s') + 1 = length (stack s) ∧
    controlStack s' = controlStack s ∧
    branchTargetStack s' = branchTargetStack s ∧
    ∀ argIndex phi argument,
      BranchTarget.phis target !! argIndex = Some phi →
      stack s' !! (length (BranchTarget.params target) - argIndex - 1) = Some argument →
      ∃ value,
        CanonicalOf (llvmFunction s') argument value ∧
        HasIncoming (llvmFunction s') phi value b.
Proof.
  intros Hs Hd Hmax Htarget Hlen Hargs Hb Hphis.
  destruct (br_if_arguments_run (BranchTarget.params target) (BranchTarget.phis target) b
              (length (BranchTarget.params target)) 0 (set_stack operands s))
    as (f' & Hrun & Hg & Hb' & Hall);
    [lia | exact Hlen | exact Hargs | exact Hb | exact Hphis |].
  eexists. split.
  - unfold br_if. run. rewrite (pop_run _ _ _ Hs Hd Hmax). run.
    rewrite (getBranchTargetByDepth_run _ _ target) by exact Htarget. run.
    rewrite Hlen, Nat.eqb_refl. run. rewrite <- Hlen. rewrite Hrun. run.
    reflexivity.
  - cbn. split; [rewrite Hs; reflexivity |]. split; [rewrite Hs; simpl; lia |].
    split; [reflexivity |]. split; [reflexivity |].
    assert (∀ g, nextInstruction f' ≤ nextInstruction g →
              (∀ id, id < nextInstruction f' → instructions g !! id = instructions f' !! id) →
              Grows f' g) as Hgrows.
    { intros g Hn Hsame. split; [exact Hn |]. intros id i Hid Hi. exists [].
      rewrite addIncomings_nil, Hsame by exact Hid. exact Hi. }
    intros argIndex phi argument Hphi Harg.
    destruct (Hall argIndex phi argument) as (value & Hc & Hi); [lia | exact Hphi | exact Harg |].
    exists value. split.
    + eapply CanonicalOf_Grows; [| exact Hc]. apply Hgrows; [simpl; lia |].
      intros id Hid. simpl. rewrite !lookup_insert_ne by lia. reflexivity.
    + eapply HasIncoming_Grows; [| exact Hi]. apply Hgrows; [simpl; lia |].
      intros id Hid. simpl. rewrite !lookup_insert_ne by lia. reflexivity.
Qed.

Lemma br_if_pops_only_the_condition_witness :
  ∃ s',
    br_if (mkBranchImm 0)
      (exampleBlockContext [Argument 1 llvmI32Type; Argument 0 llvmI32Type])
    = Emitted tt s' ∧
    stack (exampleBlockContext [Argument 1 llvmI32Type; Argument 0 llvmI32Type])
    = Argument 1 llvmI32Type :: stack s' ∧
    length (stack s') + 1
    = length (stack (exampleBlockContext [Argument 1 llvmI32Type; Argument 0 llvmI32Type])) ∧
    controlStack s'
    = controlStack (exampleBlockContext [Argument 1 llvmI32Type; Argument 0 llvmI32Type]) ∧
    branchTargetStack s'
    = branchTargetStack
        (exampleBlockContext [Argument 1 llvmI32Type; Argument 0 llvmI32Type]) ∧
    ∀ argIndex phi argument,
      [InstValue 1 llvmI32Type] !! argIndex = Some phi →
      stack s' !! (length [i32] - argIndex - 1) = Some argument →
      ∃ value,
        CanonicalOf (llvmFunction s') argument value ∧
        HasIncoming (llvmFunction s') phi value 1.
Proof.
  apply (br_if_pops_only_the_condition (mkBranchImm 0)
           (exampleBlockContext [Argument 1 llvmI32Type; Argument 0 llvmI32Type])
           (Argument 1 llvmI32Type) [Argument 0 llvmI32Type]
           (BranchTarget.mk [i32] 2 [InstValue 1 llvmI32Type]) 1).
  - reflexivity.
  - vm_compute. lia.
  - vm_compute. reflexivity.
  - reflexivity.
  - reflexivity.
  - simpl. lia.
  - reflexivity.
  - repeat constructor. exists 1, llvmI32Type, []. vm_compute. repeat split. lia.
Defined.

(** *** What the operations did when they completed *)

Lemma bind_Emitted {A B} (m : Emit A) (k : A → Emit B) s b s' :
  (m ≫= k) s = Emitted b s' → ∃ a s1, m s = Emitted a s1 ∧ k a s1 = Emitted b s'.
Proof.
  rewrite run_bind. destruct (m s) as [a s1|e]; [| discriminate].
  intros H. exists a, s1. split; [reflexivity | exact H].
Qed.

(** An emitter operation that leaves the operand, control and branch target
    stacks as they are. *)
Definition KeepsStacks {A} (m : Emit A) : Prop :=
  ∀ s a s', m s = Emitted a s' →
    stack s' = stack s ∧ controlStack s' = controlStack s ∧
    branchTargetStack s' = branchTargetStack s.

Lemma KeepsStacks_ret {A} (a : A) : KeepsStacks (mret a).
Proof. intros s a' s' H. injection H as _ <-. done. Qed.

Lemma KeepsStacks_bind {A B} (m : Emit A) (k : A → Emit B) :
  KeepsStacks m → (∀ a, KeepsStacks (k a)) → KeepsStacks (m ≫= k).
Proof.
  intros Hm Hk s b s' H. apply bind_Emitted in H as (a & s1 & H1 & H2).
  destruct (Hm _ _ _ H1) as (E1 & E2 & E3). destruct (Hk a _ _ _ H2) as (F1 & F2 & F3).
  repeat split; congruence.
Qed.

Lemma KeepsStacks_get : KeepsStacks get.
Proof. intros s a' s' H. inversion H. done. Qed.

Lemma KeepsStacks_fail {A} e : KeepsStacks (@fail A e).
Proof. intros s a s' H. discriminate. Qed.

Lemma KeepsStacks_wavmAssert c : KeepsStacks (wavmAssert c).
Proof. destruct c; [apply KeepsStacks_ret | apply KeepsStacks_fail]. Qed.

Lemma KeepsStacks_defined {A} (o : option A) : KeepsStacks (defined o).
Proof. destruct o; [apply KeepsStacks_ret | apply KeepsStacks_fail]. Qed.

Lemma KeepsStacks_irBuilder {A} (g : Function → A * Function) : KeepsStacks (irBuilder g).
Proof.
  intros s a s' H. unfold irBuilder in H. destruct (g (llvmFunction s)).
  injection H as _ <-. done.
Qed.

Lemma KeepsStacks_irBuilder_ g : KeepsStacks (irBuilder_ g).
Proof. intros s a s' H. cbv [irBuilder_ modify] in H. inversion H. done. Qed.

Lemma KeepsStacks_Create i t : KeepsStacks (Create i t).
Proof. apply KeepsStacks_irBuilder. Qed.

Lemma KeepsStacks_addIncoming phi v b : KeepsStacks (addIncoming phi v b).
Proof. destruct phi; try apply KeepsStacks_fail. apply KeepsStacks_irBuilder_. Qed.

Lemma KeepsStacks_forUpFrom count : ∀ first body,
  (∀ i, KeepsStacks (body i)) → KeepsStacks (forUpFrom first count body).
Proof.
  induction count as [|count IH]; intros first body Hbody; simpl.
  - apply KeepsStacks_ret.
  - apply KeepsStacks_bind; [apply Hbody | intros _; apply IH, Hbody].
Qed.

Lemma KeepsStacks_set_tryStack g :
  KeepsStacks (modify (λ s, set_tryStack (g s) s)).
Proof. intros s a s' H. cbv [irBuilder_ modify] in H. inversion H. done. Qed.

Lemma KeepsStacks_set_catchStack g :
  KeepsStacks (modify (λ s, set_catchStack (g s) s)).
Proof. intros s a s' H. cbv [irBuilder_ modify] in H. inversion H. done. Qed.

Lemma KeepsStacks_match_option {A B} (o : option A) (k : A → Emit B) (d : Emit B) :
  (∀ a, KeepsStacks (k a)) → KeepsStacks d →
  KeepsStacks (match o with Some a => k a | None => d end).
Proof. destruct o; auto. Qed.

Lemma KeepsStacks_if {A} (c : bool) (m1 m2 : Emit A) :
  KeepsStacks m1 → KeepsStacks m2 → KeepsStacks (if c then m1 else m2).
Proof. destruct c; auto. Qed.

Create HintDb keeps discriminated.
#[local] Hint Resolve KeepsStacks_ret KeepsStacks_get KeepsStacks_fail KeepsStacks_wavmAssert
  KeepsStacks_defined KeepsStacks_irBuilder KeepsStacks_irBuilder_ KeepsStacks_Create
  KeepsStacks_addIncoming KeepsStacks_set_tryStack KeepsStacks_set_catchStack : keeps.

(** Proves that an operation composed of the above keeps the stacks. *)
Ltac keeps :=
  repeat first
    [ apply KeepsStacks_bind; [| intros ?]
    | apply KeepsStacks_forUpFrom; intros ?
    | apply KeepsStacks_match_option; [intros ? |]
    | apply KeepsStacks_if
    | solve [auto with keeps]
    | match goal with |- KeepsStacks (match ?x with _ => _ end) => destruct x end
    | match goal with |- KeepsStacks (?f _ _ _ _) => unfold f
                    | |- KeepsStacks (?f _ _ _) => unfold f
                    | |- KeepsStacks (?f _ _) => unfold f
                    | |- KeepsStacks (?f _) => unfold f
                    | |- KeepsStacks ?f => unfold f end ].

Lemma KeepsStacks_CreateBr dest : KeepsStacks (CreateBr dest).
Proof. keeps. Qed.

Lemma KeepsStacks_moveAfterInsertBlock b : KeepsStacks (moveAfterInsertBlock b).
Proof. keeps. Qed.

Lemma KeepsStacks_SetInsertPoint b : KeepsStacks (LLVMJIT.SetInsertPoint b).
Proof. keeps. Qed.

Lemma KeepsStacks_endTry : KeepsStacks endTry.
Proof. keeps. Qed.

Lemma KeepsStacks_extractResults returnValue types :
  ∀ index, KeepsStacks (extractResults returnValue index types).
Proof.
  induction types as [|t types IH]; intros index; simpl.
  - apply KeepsStacks_ret.
  - apply KeepsStacks_bind; [apply KeepsStacks_Create | intros v].
    apply KeepsStacks_bind; [apply IH | intros vs; apply KeepsStacks_ret].
Qed.

#[local] Hint Resolve KeepsStacks_CreateBr KeepsStacks_moveAfterInsertBlock
  KeepsStacks_SetInsertPoint KeepsStacks_endTry KeepsStacks_extractResults : keeps.

Lemma KeepsStacks_emitRuntimeIntrinsic name type args :
  KeepsStacks (emitRuntimeIntrinsic name type args).
Proof. keeps. Qed.

Lemma KeepsStacks_endCatch : KeepsStacks endCatch.
Proof. keeps. Qed.

Lemma wavmAssert_Emitted c s a s' : wavmAssert c s = Emitted a s' → c = true ∧ s' = s.
Proof. destruct c; [| discriminate]. intros H. inversion H. done. Qed.

Lemma get_Emitted s a s' : get s = Emitted a s' → a = s ∧ s' = s.
Proof. intros H. inversion H. done. Qed.

Lemma defined_Emitted {A} (o : option A) s a s' :
  defined o s = Emitted a s' → o = Some a ∧ s' = s.
Proof. destruct o; [| discriminate]. intros H. inversion H. done. Qed.

Lemma modify_Emitted g s a s' : modify g s = Emitted a s' → s' = g s.
Proof. intros H. inversion H. done. Qed.

Lemma KeepsStacks_Emitted {A} (m : Emit A) s a s' :
  KeepsStacks m → m s = Emitted a s' →
  stack s' = stack s ∧ controlStack s' = controlStack s ∧
  branchTargetStack s' = branchTargetStack s.
Proof. intros H. apply H. Qed.

(** What a successful [pop] did. *)
Lemma pop_Emitted s v s' :
  pop s = Emitted v s' →
  stack s = v :: stack s' ∧ controlStack s' = controlStack s ∧
  branchTargetStack s' = branchTargetStack s.
Proof.
  unfold pop. intros H.
  apply bind_Emitted in H as (s0 & s1 & H0 & H). apply get_Emitted in H0 as [-> ->].
  apply bind_Emitted in H as (? & s1 & H0 & H). apply wavmAssert_Emitted in H0 as [_ ->].
  destruct (stack s) as [|result rest] eqn:Hs; [discriminate |].
  apply bind_Emitted in H as (? & s1 & H0 & H). apply modify_Emitted in H0 as ->.
  inversion H. subst. done.
Qed.

(** A loop that pops one value per iteration pops as many values as it has
    iterations. *)
Lemma forDownFrom_pops (rest : nat → Value → Emit unit) (n : nat) :
  (∀ i v, KeepsStacks (rest i v)) →
  ∀ s s', forDownFrom n (λ i, v ← pop; rest i v) s = Emitted tt s' →
    ∃ popped, stack s = popped ++ stack s' ∧ length popped = n ∧
      controlStack s' = controlStack s ∧ branchTargetStack s' = branchTargetStack s.
Proof.
  intros Hrest. induction n as [|n IH]; intros s s' H; simpl in H.
  - inversion H. exists []. done.
  - apply bind_Emitted in H as (? & s1 & H1 & H).
    apply bind_Emitted in H1 as (v & s0 & Hpop & H1).
    apply pop_Emitted in Hpop as (Hs & Hc & Hb).
    apply Hrest in H1 as (Hs1 & Hc1 & Hb1).
    apply IH in H as (popped & Hs2 & Hlen & Hc2 & Hb2).
    exists (v :: popped). rewrite Hs, <- Hs1, Hs2. simpl.
    repeat split; congruence.
Qed.

Lemma resize_length {A} (size : nat) (l : list A) : size ≤ length l → length (resize size l) = size.
Proof. intros H. unfold resize. rewrite length_drop. lia. Qed.

Lemma resize_app {A} (l1 l2 : list A) : resize (length l2) (l1 ++ l2) = l2.
Proof.
  unfold resize. rewrite length_app.
  replace (length l1 + length l2 - length l2) with (length l1) by lia.
  apply drop_app_length.
Qed.

Lemma resize_all {A} (l : list A) : resize (length l) l = l.
Proof. apply (resize_app []). Qed.

(** What a successful [branchToEndOfControlContext] did: the operand stack is
    back at the depth recorded by the innermost control context, and that of a
    reachable context held one value per result above it. *)
Lemma branchToEndOfControlContext_Emitted s s' c outer :
  controlStack s = c :: outer →
  branchToEndOfControlContext s = Emitted tt s' →
  stack s' = resize (outerStackSize c) (stack s) ∧
  controlStack s' = controlStack s ∧ branchTargetStack s' = branchTargetStack s ∧
  (isReachable c = true → length (stack s) = outerStackSize c + length (resultTypes c)).
Proof.
  intros Hcs H. unfold branchToEndOfControlContext, currentControlContext in H.
  apply bind_Emitted in H as (c' & s1 & H1 & H).
  apply bind_Emitted in H1 as (? & s0 & H0 & H1). apply get_Emitted in H0 as [-> ->].
  rewrite Hcs in H1. inversion H1. subst c' s1. clear H1.
  apply bind_Emitted in H as (? & s1 & H1 & H).
  apply bind_Emitted in H as (s2 & ? & H2 & H). apply get_Emitted in H2 as [-> ->].
  apply wavmAssert_Emitted in H as [Hdepth ->]. apply bool_decide_eq_true in Hdepth.
  destruct (isReachable c).
  - apply bind_Emitted in H1 as ([] & s2 & H1 & H2).
    apply KeepsStacks_Emitted in H2 as (Hs2 & Hc2 & Hb2); [| apply KeepsStacks_CreateBr].
    apply (forDownFrom_pops (λ resultIndex result,
             phi ← defined (endPHIs c !! resultIndex);
             value ← coerceToCanonicalType result;
             insertBlock ← currentBlock;
             addIncoming phi value insertBlock)) in H1
      as (popped & Hs & Hlen & Hc1 & Hb1).
    + rewrite Hs2 in Hdepth. rewrite Hs, Hs2, <- Hdepth. rewrite resize_app.
      repeat split; try congruence. intros _. rewrite length_app. lia.
    + intros i v. keeps.
  - inversion H1. subst. rewrite <- Hdepth, resize_all. done.
Qed.

(** [phi->getNumIncomingValues()] in the function [f]. *)
Definition numIncomingValues (f : Function) (phi : Value) : nat :=
  match phi with
  | InstValue id _ => LLVM.getNumIncomingValues id f
  | _ => 0
  end.

(** The value that [end] pushes for an end PHI node: the node, or the zero
    constant of the result type when nothing comes in. *)
Definition endResult (f : Function) (phi : Value) (resultType : ValueType) : Value :=
  if nonZero (numIncomingValues f phi) then phi else typedZeroConstants resultType.

(** The instruction [phi] is in no basic block of [f]. *)
Definition Erased (f : Function) (phi : Value) : Prop :=
  ∀ id t b bb, phi = InstValue id t → basicBlocks f !! b = Some bb →
    id ∉ bbInstructions bb.

Lemma numIncomingValues_ext f f' phi :
  instructions f = instructions f' → numIncomingValues f phi = numIncomingValues f' phi.
Proof.
  intros H. destruct phi; try reflexivity. simpl. unfold LLVM.getNumIncomingValues.
  rewrite H. reflexivity.
Qed.

Lemma endResult_ext f f' phi resultType :
  instructions f = instructions f' → endResult f phi resultType = endResult f' phi resultType.
Proof.
  intros H. unfold endResult. rewrite (numIncomingValues_ext f f' phi H). reflexivity.
Qed.

Lemma Erased_eraseFromParent_other id f phi :
  Erased f phi → Erased (LLVM.eraseFromParent id f) phi.
Proof.
  intros H id' t b bb -> Hbb. simpl in Hbb. rewrite lookup_fmap in Hbb.
  destruct (basicBlocks f !! b) as [bb0|] eqn:Hb; [| discriminate].
  injection Hbb as <-. simpl. intros Hin. apply list_elem_of_filter in Hin as [_ Hin].
  exact (H id' t b bb0 eq_refl Hb Hin).
Qed.

Lemma Erased_eraseFromParent id t f : Erased (LLVM.eraseFromParent id f) (InstValue id t).
Proof.
  intros id' t' b bb [= <- <-] Hbb. simpl in Hbb. rewrite lookup_fmap in Hbb.
  destruct (basicBlocks f !! b) as [bb0|] eqn:Hb; [| discriminate].
  injection Hbb as <-. simpl. intros Hin. apply list_elem_of_filter in Hin as [Hne _].
  done.
Qed.

(** The loop of [end] over the end PHI nodes. *)
Lemma end_results_Emitted (endPHIs : list Value) (resultTypes : TypeTuple) (count : nat) :
  ∀ (first : nat) (s s' : EmitFunctionContext),
  forUpFrom first count (λ elementIndex,
      phi ← defined (endPHIs !! elementIndex);
      numIncomingValues ← getNumIncomingValues phi;
      if nonZero numIncomingValues
      then push phi
      else
        eraseFromParent phi ;;
        resultType ← defined (resultTypes !! elementIndex);
        push (typedZeroConstants resultType)) s = Emitted tt s' →
  first + count = length endPHIs → length endPHIs = length resultTypes →
  stack s'
  = reverse (zip_with (endResult (llvmFunction s)) (drop first endPHIs) (drop first resultTypes))
    ++ stack s ∧
  controlStack s' = controlStack s ∧
  branchTargetStack s' = branchTargetStack s ∧
  instructions (llvmFunction s') = instructions (llvmFunction s) ∧
  (∀ phi, Erased (llvmFunction s) phi → Erased (llvmFunction s') phi) ∧
  (∀ phi, phi ∈ drop first endPHIs → numIncomingValues (llvmFunction s) phi = 0 →
     Erased (llvmFunction s') phi).
Proof.
  induction count as [|count IH]; intros first s s' H Hcount Hlen; simpl in H.
  - inversion H. subst s'. rewrite !drop_ge by lia. simpl.
    repeat split; try done. intros phi Hin. apply elem_of_nil in Hin. done.
  - apply bind_Emitted in H as ([] & s1 & H1 & H).
    apply bind_Emitted in H1 as (phi & s0 & Hphi & H1).
    apply defined_Emitted in Hphi as [Hphi ->].
    apply bind_Emitted in H1 as (n & s0 & Hn & H1).
    destruct (lookup_lt_is_Some_2 resultTypes first) as [resultType Htype]; [lia |].
    rewrite (drop_S _ _ _ Hphi), (drop_S _ _ _ Htype). simpl. rewrite reverse_cons.
    specialize (IH (S first) s1 s' H ltac:(lia) Hlen)
      as (Hs' & Hc' & Hb' & Hi' & Hkeep & Herased).
    destruct phi as [| | | | |id t|]; try discriminate.
    unfold getNumIncomingValues in Hn.
    apply bind_Emitted in Hn as (s2 & ? & Hget & Hn). apply get_Emitted in Hget as [-> ->].
    inversion Hn. subst n s0. clear Hn.
    assert (endResult (llvmFunction s) (InstValue id t) resultType
            = if nonZero (LLVM.getNumIncomingValues id (llvmFunction s))
              then InstValue id t else typedZeroConstants resultType) as Hresult
      by reflexivity.
    rewrite Hresult.
    destruct (nonZero (LLVM.getNumIncomingValues id (llvmFunction s))) eqn:Hnz.
    + apply modify_Emitted in H1 as ->. simpl in *.
      rewrite Hs', <- app_assoc. simpl. repeat split; try done.
      intros phi Hin Hzero. apply elem_of_cons in Hin as [->|Hin].
      * simpl in Hzero. rewrite Hzero in Hnz. discriminate.
      * apply Herased; done.
    + apply bind_Emitted in H1 as ([] & s0 & He & H1).
      apply modify_Emitted in He as ->.
      apply bind_Emitted in H1 as (resultType' & s0 & Ht & H1).
      apply defined_Emitted in Ht as [Ht ->].
      pose proof (eq_trans (eq_sym Htype) Ht) as E. injection E as <-.
      apply modify_Emitted in H1 as ->. simpl in *.
      rewrite Hs', <- app_assoc. simpl.
      split.
      { reflexivity. }
      repeat split; try done.
      * intros phi He. apply Hkeep. apply Erased_eraseFromParent_other. exact He.
      * intros phi Hin Hzero. apply elem_of_cons in Hin as [->|Hin].
        -- apply Hkeep. apply Erased_eraseFromParent.
        -- apply Herased; done.
Qed.

(** What [end] did when it completed: for each end PHI node of the closing
    control context, in order, the node itself was pushed when it had
    incoming values; when it had none it was erased from its basic block and
    the zero constant of the corresponding result type was pushed instead. *)
Lemma end_Emitted (s s' : EmitFunctionContext) (c : ControlContext)
    (outer : list ControlContext) :
  controlStack s = c :: outer →
  end_ s = Emitted tt s' →
  stack s'
  = reverse (zip_with (endResult (llvmFunction s')) (endPHIs c) (resultTypes c))
    ++ resize (outerStackSize c) (stack s) ∧
  (∀ phi, phi ∈ endPHIs c → numIncomingValues (llvmFunction s') phi = 0 →
     Erased (llvmFunction s') phi) ∧
  branchTargetStack s' = resize (outerBranchTargetStackSize c) (branchTargetStack s) ∧
  controlStack s' = outer.
Proof.
  intros Hcs H. unfold end_ in H.
  apply bind_Emitted in H as (? & s0 & H0 & H). apply get_Emitted in H0 as [-> ->].
  apply bind_Emitted in H as ([] & s0 & H0 & H). apply wavmAssert_Emitted in H0 as [_ ->].
  apply bind_Emitted in H as ([] & s1 & H1 & H).
  apply (branchToEndOfControlContext_Emitted _ _ c outer Hcs) in H1
    as (Hs1 & Hc1 & Hb1 & _).
  apply bind_Emitted in H as (c' & s0 & H0 & H). unfold currentControlContext in H0.
  apply bind_Emitted in H0 as (? & ? & Hget & H0). apply get_Emitted in Hget as [-> ->].
  rewrite Hc1, Hcs in H0. inversion H0. subst c' s0. clear H0.
  apply bind_Emitted in H as ([] & s2 & H2 & H).
  apply KeepsStacks_Emitted in H2 as (Hs2 & Hc2 & Hb2); [| keeps].
  apply bind_Emitted in H as ([] & s3 & H3 & H).
  apply KeepsStacks_Emitted in H3 as (Hs3 & Hc3 & Hb3); [| keeps].
  apply bind_Emitted in H as ([] & s4 & H4 & H).
  apply KeepsStacks_Emitted in H4 as (Hs4 & Hc4 & Hb4); [| keeps].
  apply bind_Emitted in H as ([] & s5 & H5 & H).
  apply KeepsStacks_Emitted in H5 as (Hs5 & Hc5 & Hb5); [| keeps].
  apply bind_Emitted in H as ([] & s6 & H6 & H).
  apply bind_Emitted in H as (? & s0 & H0 & H). apply get_Emitted in H0 as [-> ->].
  apply bind_Emitted in H as ([] & s0 & H0 & H). apply wavmAssert_Emitted in H0 as [_ ->].
  apply bind_Emitted in H as ([] & s7 & H7 & H). apply modify_Emitted in H7 as ->.
  apply modify_Emitted in H as ->.
  assert (stack s6
          = reverse (zip_with (endResult (llvmFunction s6)) (endPHIs c) (resultTypes c))
            ++ stack s5 ∧
          controlStack s6 = controlStack s5 ∧
          branchTargetStack s6 = branchTargetStack s5 ∧
          (∀ phi, phi ∈ endPHIs c → numIncomingValues (llvmFunction s6) phi = 0 →
             Erased (llvmFunction s6) phi)) as (Hs6 & Hc6 & Hb6 & He6).
  { destruct (nonZero (length (endPHIs c))) eqn:Hnz.
    - apply bind_Emitted in H6 as ([] & s0 & H0 & H6).
      apply wavmAssert_Emitted in H0 as [Hlen ->]. apply Nat.eqb_eq in Hlen.
      apply end_results_Emitted in H6 as (Hs6 & Hc6 & Hb6 & Hi6 & _ & He6);
        [| lia | exact Hlen].
      rewrite !drop_0 in *. split; [| split; [exact Hc6 | split; [exact Hb6 |]]].
      + rewrite Hs6. f_equal. f_equal. apply zip_with_ext; [| done | done].
        intros phi t. apply endResult_ext. symmetry. exact Hi6.
      + intros phi Hin Hzero. apply He6; [exact Hin |].
        rewrite <- Hzero. apply numIncomingValues_ext. symmetry. exact Hi6.
    - inversion H6. subst s6. destruct (endPHIs c) as [|phi phis]; [| discriminate].
      simpl. repeat split; try done. intros phi Hin. apply elem_of_nil in Hin. done. }
  simpl. rewrite Hs6, Hs5, Hs4, Hs3, Hs2, Hs1, Hb6, Hb5, Hb4, Hb3, Hb2, Hb1.
  rewrite Hc6, Hc5, Hc4, Hc3, Hc2, Hc1, Hcs. done.
Qed.


(** ** The end of a control structure *)

(** The incoming values of the PHI node [phi] of [f], in the order they
    were added. *)
Definition incomingValues (f : Function) (phi : Value) : list (Value * nat) :=
  match phi with
  | InstValue id _ =>
      match instructions f !! id with
      | Some (PHINode _ incoming) => incoming
      | _ => []
      end
  | _ => []
  end.

(** The incoming value that the PHI node at index [i] gets from [block]:
    the value at that index, when there is one. *)
Definition incomingFrom (values : list Value) (i : nat) (block : nat)
  : list (Value * nat) :=
  match values !! i with
  | Some value => [(value, block)]
  | None => []
  end.

(** [f'] has the instructions of [f] as they are, and possibly more. *)
Definition Extends (f f' : Function) : Prop :=
  nextInstruction f ≤ nextInstruction f' ∧
  ∀ id, id < nextInstruction f → instructions f' !! id = instructions f !! id.

Lemma numIncomingValues_length f phi :
  numIncomingValues f phi = length (incomingValues f phi).
Proof.
  destruct phi; try reflexivity. cbn. unfold LLVM.getNumIncomingValues.
  destruct (instructions f !! id) as [[]|]; reflexivity.
Qed.

Lemma Extends_refl f : Extends f f.
Proof. split; [lia | done]. Qed.

Lemma Extends_trans f1 f2 f3 : Extends f1 f2 → Extends f2 f3 → Extends f1 f3.
Proof.
  intros [Hn1 H1] [Hn2 H2]. split; [lia |]. intros id Hid.
  rewrite H2 by lia. apply H1. exact Hid.
Qed.

Lemma Extends_Insert i f : Extends f (Insert i f).2.
Proof. split; [simpl; lia |]. intros id Hid. simpl. apply lookup_insert_ne. lia. Qed.

Lemma Extends_same f f' :
  instructions f' = instructions f → nextInstruction f' = nextInstruction f → Extends f f'.
Proof. intros Hi Hn. split; [lia |]. intros id _. rewrite Hi. reflexivity. Qed.

Lemma Extends_Grows f f' : Extends f f' → Grows f f'.
Proof.
  intros [Hn H]. split; [exact Hn |]. intros id i Hid Hi. exists [].
  rewrite addIncomings_nil, H by exact Hid. exact Hi.
Qed.

Lemma incomingValues_Extends f f' phi :
  Extends f f' → IsPHI f phi → incomingValues f' phi = incomingValues f phi.
Proof.
  intros [_ H] (id & t & incoming & -> & Hid & Hi). cbn. rewrite H by exact Hid.
  reflexivity.
Qed.

Lemma incomingValues_ext f f' phi :
  instructions f' = instructions f → incomingValues f' phi = incomingValues f phi.
Proof. intros H. destruct phi; try reflexivity. cbn. rewrite H. reflexivity. Qed.

Lemma incomingValues_addIncoming f id t v b :
  IsPHI f (InstValue id t) →
  incomingValues (alterInstruction (addIncomingTo v b) id f) (InstValue id t)
  = incomingValues f (InstValue id t) ++ [(v, b)].
Proof.
  intros (id' & t' & incoming & [= <- <-] & Hid & Hi). cbn.
  rewrite lookup_alter_eq, Hi. reflexivity.
Qed.

Lemma incomingValues_addIncoming_other f id t v b phi :
  IsPHI f (InstValue id t) → IsPHI f phi → phi ≠ InstValue id t →
  incomingValues (alterInstruction (addIncomingTo v b) id f) phi = incomingValues f phi.
Proof.
  intros (id1 & t1 & incoming1 & [= <- <-] & Hid1 & Hi1)
    (id2 & t2 & incoming2 & -> & Hid2 & Hi2) Hne.
  cbn. destruct (decide (id = id2)) as [->|Hid].
  - rewrite Hi1 in Hi2. injection Hi2 as <- <-. contradiction.
  - rewrite lookup_alter_ne by exact Hid. reflexivity.
Qed.

Lemma incomingFrom_app_lt values value i block :
  i < length values → incomingFrom (values ++ [value]) i block = incomingFrom values i block.
Proof. intros H. unfold incomingFrom. rewrite lookup_app_l by exact H. reflexivity. Qed.

Lemma incomingFrom_app_eq values value block :
  incomingFrom (values ++ [value]) (length values) block = [(value, block)].
Proof.
  unfold incomingFrom. rewrite lookup_app_r by lia. rewrite Nat.sub_diag. reflexivity.
Qed.

Lemma incomingFrom_ge values i block :
  length values ≤ i → incomingFrom values i block = [].
Proof. intros H. unfold incomingFrom. rewrite lookup_ge_None_2 by exact H. reflexivity. Qed.

Lemma coerceToCanonicalType_extends argument s :
  ∃ value f', coerceToCanonicalType argument s = Emitted value (set_llvmFunction f' s) ∧
    Extends (llvmFunction s) f' ∧ insertBlock f' = insertBlock (llvmFunction s) ∧
    CanonicalOf f' argument value.
Proof.
  unfold coerceToCanonicalType, CanonicalOf.
  destruct (isVectorTy (getType argument)).
  - eexists _, _. split; [reflexivity |]. split; [apply Extends_Insert |].
    split; [reflexivity |]. eexists. split; [reflexivity |]. simpl. split; [lia |].
    apply lookup_insert_eq.
  - exists argument, (llvmFunction s). split; [destruct s; reflexivity |].
    split; [apply Extends_refl |]. done.
Qed.

(** The loop of [branchToEndOfControlContext] over the results, from the
    last one down: each result is popped and is added, coerced to its
    canonical type, to the PHI node at its index and to no other. *)
Lemma end_arguments_run (phis : list Value) (b : nat) (count : nat) :
  ∀ (s : EmitFunctionContext) (popped rest : list Value),
  stack s = popped ++ rest → length popped = count → count ≤ length phis →
  outerStackSizeOfInnermost s + count ≤ length (stack s) →
  (Z.of_nat (length (stack s)) < 2 ^ 64)%Z →
  insertBlock (llvmFunction s) = Some b →
  Forall (IsPHI (llvmFunction s)) phis → NoDup phis →
  ∃ f' values,
    forDownFrom count (λ argIndex,
      argument ← pop;
      phi ← defined (phis !! argIndex);
      value ← coerceToCanonicalType argument;
      insertBlock ← currentBlock;
      addIncoming phi value insertBlock) s
    = Emitted tt (set_stack rest (set_llvmFunction f' s)) ∧
    Grows (llvmFunction s) f' ∧ insertBlock f' = Some b ∧
    Forall2 (CanonicalOf f') (reverse popped) values ∧
    ∀ i phi, phis !! i = Some phi →
      incomingValues f' phi = incomingValues (llvmFunction s) phi ++ incomingFrom values i b.
Proof.
  induction count as [|count IH];
    intros s popped rest Hstack Hlen Hcount Hdepth Hsize Hb Hphis Hnodup.
  - destruct popped; [| discriminate]. exists (llvmFunction s), [].
    split; [destruct s; cbn in *; subst; reflexivity |].
    split; [apply Grows_refl |]. split; [exact Hb |]. split; [constructor |].
    intros i phi _. unfold incomingFrom. rewrite lookup_nil, app_nil_r. reflexivity.
  - destruct popped as [|argument popped]; [discriminate |]. simpl in Hlen, Hstack.
    destruct (lookup_lt_is_Some_2 phis count) as [phi Hphi]; [lia |].
    destruct (coerceToCanonicalType_extends argument (set_stack (popped ++ rest) s))
      as (value & f1 & Hrun1 & He1 & Hb1 & Hc1).
    cbn [llvmFunction set_stack] in He1, Hb1.
    pose proof (Extends_Grows _ _ He1) as Hg1.
    assert (Forall (IsPHI f1) phis) as Hphis1.
    { eapply Forall_impl; [exact Hphis |]. intros x. apply IsPHI_Grows. exact Hg1. }
    assert (IsPHI f1 phi) as HisPHI by (eapply Forall_lookup_1; eassumption).
    pose proof HisPHI as (id & t & incoming & -> & Hid & Hi).
    set (f2 := alterInstruction (addIncomingTo value b) id f1) in *.
    assert (Grows (llvmFunction s) f2) as Hg2.
    { eapply Grows_trans; [exact Hg1 | apply Grows_addIncoming]. }
    destruct (IH (set_llvmFunction f2 (set_stack (popped ++ rest) s)) popped rest)
      as (f' & values & Hrun & Hg & Hb' & Hvalues & Hall).
    + reflexivity.
    + lia.
    + lia.
    + unfold outerStackSizeOfInnermost in *. cbn [stack controlStack set_llvmFunction set_stack].
      rewrite Hstack in Hdepth. cbn [length] in Hdepth. lia.
    + cbn [stack set_llvmFunction set_stack]. rewrite Hstack in Hsize.
      cbn [length] in Hsize. lia.
    + simpl. rewrite Hb1. exact Hb.
    + simpl. eapply Forall_impl; [exact Hphis |]. intros x. apply IsPHI_Grows. exact Hg2.
    + exact Hnodup.
    + cbn [llvmFunction set_llvmFunction] in Hg, Hall.
      assert (length values = count) as Hlenv.
      { apply Forall2_length in Hvalues. rewrite length_reverse in Hvalues. lia. }
      exists f', (values ++ [value]). split.
      * cbn [forDownFrom]. run.
        rewrite (pop_run _ _ _ Hstack ltac:(lia) Hsize). run.
        rewrite Hphi. run. rewrite Hrun1. run.
        rewrite (currentBlock_run _ b) by (cbn; congruence). run.
        rewrite addIncoming_run. run.
        exact Hrun.
      * split; [eapply Grows_trans; [exact Hg2 | exact Hg] |]. split; [exact Hb' |].
        split.
        { rewrite reverse_cons. apply Forall2_app; [exact Hvalues |].
          constructor; [| constructor].
          eapply CanonicalOf_Grows; [exact Hg |].
          eapply CanonicalOf_Grows; [apply Grows_addIncoming | exact Hc1]. }
        intros i phi' Hphi'. rewrite (Hall i phi' Hphi').
        destruct (decide (i = count)) as [->|Hne].
        -- rewrite Hphi in Hphi'. injection Hphi' as <-.
           rewrite (incomingFrom_ge values) by lia. rewrite app_nil_r.
           subst f2. rewrite incomingValues_addIncoming by exact HisPHI.
           rewrite (incomingValues_Extends _ _ _ He1)
             by (eapply Forall_lookup_1; eassumption).
           rewrite <- Hlenv, incomingFrom_app_eq. reflexivity.
        -- assert (phi' ≠ InstValue id t) as Hdiff.
           { intros ->. apply Hne. eapply NoDup_lookup; eassumption. }
           subst f2. rewrite (incomingValues_addIncoming_other _ id t);
             [| exact HisPHI | eapply Forall_lookup_1; eassumption | exact Hdiff].
           rewrite (incomingValues_Extends _ _ _ He1)
             by (eapply Forall_lookup_1; eassumption).
           f_equal. unfold incomingFrom.
           destruct (decide (i < count)) as [Hlt|Hge].
           ++ rewrite lookup_app_l by lia. reflexivity.
           ++ rewrite !lookup_ge_None_2; [reflexivity | rewrite length_app; simpl; lia | lia].
Qed.

(** The loop of [end] over the arguments of an [if] that has no else
    clause: each argument is added to the PHI node at its index, as coming
    from the else block. *)
Lemma else_arguments_run (phis arguments : list Value) (elseBlock : nat) (count : nat) :
  ∀ (first : nat) (s : EmitFunctionContext),
  first + count = length phis → length arguments = length phis →
  Forall (IsPHI (llvmFunction s)) phis → NoDup phis →
  ∃ f',
    forUpFrom first count (λ argIndex,
      phi ← defined (phis !! argIndex);
      argument ← defined (arguments !! argIndex);
      addIncoming phi argument elseBlock) s
    = Emitted tt (set_llvmFunction f' s) ∧
    Grows (llvmFunction s) f' ∧ insertBlock f' = insertBlock (llvmFunction s) ∧
    ∀ i phi, phis !! i = Some phi →
      incomingValues f' phi
      = incomingValues (llvmFunction s) phi
        ++ (if decide (first ≤ i) then incomingFrom arguments i elseBlock else []).
Proof.
  induction count as [|count IH]; intros first s Hcount Hlen Hphis Hnodup.
  - exists (llvmFunction s). split; [destruct s; reflexivity |].
    split; [apply Grows_refl |]. split; [reflexivity |].
    intros i phi Hphi. apply lookup_lt_Some in Hphi.
    rewrite decide_False by lia. rewrite app_nil_r. reflexivity.
  - destruct (lookup_lt_is_Some_2 phis first) as [phi Hphi]; [lia |].
    destruct (lookup_lt_is_Some_2 arguments first) as [argument Hargument]; [lia |].
    assert (IsPHI (llvmFunction s) phi) as HisPHI by (eapply Forall_lookup_1; eassumption).
    pose proof HisPHI as (id & t & incoming & -> & Hid & Hi).
    set (f1 := alterInstruction (addIncomingTo argument elseBlock) id (llvmFunction s)).
    assert (Grows (llvmFunction s) f1) as Hg1 by apply Grows_addIncoming.
    destruct (IH (S first) (set_llvmFunction f1 s)) as (f' & Hrun & Hg & Hb & Hall).
    + lia.
    + exact Hlen.
    + simpl. eapply Forall_impl; [exact Hphis |]. intros x. apply IsPHI_Grows. exact Hg1.
    + exact Hnodup.
    + cbn [llvmFunction set_llvmFunction] in Hg, Hb, Hall.
      exists f'. split.
      * cbn [forUpFrom]. run. rewrite Hphi. run. rewrite Hargument. run.
        rewrite addIncoming_run. run. exact Hrun.
      * split; [eapply Grows_trans; eassumption |]. split; [exact Hb |].
        intros i phi' Hphi'. rewrite (Hall i phi' Hphi').
        destruct (decide (i = first)) as [->|Hne].
        -- rewrite Hphi in Hphi'. injection Hphi' as <-.
           rewrite decide_False by lia. rewrite decide_True by lia. rewrite app_nil_r.
           subst f1. rewrite incomingValues_addIncoming by exact HisPHI.
           unfold incomingFrom. rewrite Hargument. reflexivity.
        -- assert (phi' ≠ InstValue id t) as Hdiff.
           { intros ->. apply Hne. eapply NoDup_lookup; eassumption. }
           subst f1. rewrite (incomingValues_addIncoming_other _ id t);
             [| exact HisPHI | eapply Forall_lookup_1; eassumption | exact Hdiff].
           f_equal. destruct (decide (S first ≤ i)); destruct (decide (first ≤ i));
             try reflexivity; lia.
Qed.

(** The loop of [end] over the end PHI nodes completes, and leaves the
    instructions as they are. *)
Lemma end_results_run (endPHIs : list Value) (resultTypes : TypeTuple) (count : nat) :
  ∀ (first : nat) (s : EmitFunctionContext),
  first + count = length endPHIs → length endPHIs = length resultTypes →
  Forall (IsPHI (llvmFunction s)) endPHIs →
  ∃ s',
    forUpFrom first count (λ elementIndex,
      phi ← defined (endPHIs !! elementIndex);
      numIncomingValues ← getNumIncomingValues phi;
      if nonZero numIncomingValues
      then push phi
      else
        eraseFromParent phi ;;
        resultType ← defined (resultTypes !! elementIndex);
        push (typedZeroConstants resultType)) s = Emitted tt s' ∧
    instructions (llvmFunction s') = instructions (llvmFunction s) ∧
    nextInstruction (llvmFunction s') = nextInstruction (llvmFunction s) ∧
    branchTargetStack s' = branchTargetStack s.
Proof.
  induction count as [|count IH]; intros first s Hcount Hlen Hphis.
  - exists s. done.
  - destruct (lookup_lt_is_Some_2 endPHIs first) as [phi Hphi]; [lia |].
    assert (IsPHI (llvmFunction s) phi) as HisPHI by (eapply Forall_lookup_1; eassumption).
    destruct HisPHI as (id & t & incoming & -> & Hid & Hi).
    cbn [forUpFrom]. run. rewrite Hphi. run.
    unfold getNumIncomingValues. run.
    destruct (nonZero (LLVM.getNumIncomingValues id (llvmFunction s))).
    + unfold push at 1. cbv [modify]. run.
      destruct (IH (S first) (set_stack (InstValue id t :: stack s) s))
        as (s' & Hrun & Hi' & Hn' & Hb'); [lia | exact Hlen | exact Hphis |].
      exists s'. split; [exact Hrun |]. done.
    + unfold eraseFromParent. cbv [irBuilder_ modify]. run.
      match goal with
      | |- context [defined ?o] =>
          destruct o as [resultType|] eqn:Htype;
            [| apply lookup_ge_None in Htype; lia]
      end.
      run. unfold push at 1. cbv [modify].
      destruct (IH (S first)
                  (set_stack (typedZeroConstants resultType :: stack s)
                     (set_llvmFunction (LLVM.eraseFromParent id (llvmFunction s)) s)))
        as (s' & Hrun & Hi' & Hn' & Hb'); [lia | exact Hlen | |].
      * cbn [llvmFunction set_llvmFunction set_stack].
        eapply Forall_impl; [exact Hphis |].
        intros x (id' & t' & incoming' & -> & Hid' & Hi'). exists id', t', incoming'. done.
      * exists s'. split; [exact Hrun |]. done.
Qed.

Lemma endCatch_run (s : EmitFunctionContext) :
  catchStack s ≠ [] →
  HasIntrinsic s "throwException" (mkFunctionType [] [i64; i64; i32]) →
  ∃ s',
    endCatch s = Emitted tt s' ∧
    stack s' = stack s ∧ controlStack s' = controlStack s ∧
    branchTargetStack s' = branchTargetStack s ∧
    Extends (llvmFunction s) (llvmFunction s') ∧
    is_Some (insertBlock (llvmFunction s')).
Proof.
  intros Hcatch (intrinsicFunction & Hwavm & Htype).
  destruct s as [mc ft bts npl [insts blocks order n nb ib] lp cs bt st ts cts mb tb cp].
  cbn [catchStack moduleContext] in *.
  destruct cts as [|catchContext cts]; [contradiction |].
  unfold endCatch. run. cbn [catchStack length nonZero Nat.eqb negb head]. run.
  unfold loadFromUntypedPointer, CreatePtrToInt, emitThrow, CreateInBoundsGEP.
  emit_unfold. rewrite Hwavm. emit_unfold. rewrite Htype.
  rewrite bool_decide_eq_true_2 by reflexivity. emit_unfold.
  destruct ts as [|tryContext ts]; emit_unfold.
  all: eexists; split; [reflexivity |].
  all: do 3 (split; [reflexivity |]).
  all: split; [| eexists; reflexivity].
  all: split; [cbn; lia |].
  all: intros id Hid; cbn in Hid |- *; rewrite !lookup_insert_ne by lia; reflexivity.
Qed.

Lemma IsPHI_Extends f f' phi : Extends f f' → IsPHI f phi → IsPHI f' phi.
Proof. intros H. apply IsPHI_Grows, Extends_Grows, H. Qed.

Lemma Forall_IsPHI_Grows f f' phis :
  Grows f f' → Forall (IsPHI f) phis → Forall (IsPHI f') phis.
Proof. intros Hg H. eapply Forall_impl; [exact H |]. intros x. apply IsPHI_Grows. exact Hg. Qed.

(** [branchToEndOfControlContext] completes when the operand stack holds
    what the context expects: the results of a reachable context are popped
    and added to the end PHI nodes, each to the node at its index. *)
Lemma branchToEndOfControlContext_run (s : EmitFunctionContext) (c : ControlContext)
    (outer : list ControlContext) (results rest : list Value) (b : nat) :
  controlStack s = c :: outer →
  stack s = results ++ rest →
  length rest = outerStackSize c →
  length results = (if isReachable c then length (resultTypes c) else 0) →
  (Z.of_nat (length (stack s)) < 2 ^ 64)%Z →
  insertBlock (llvmFunction s) = Some b →
  length (endPHIs c) = length (resultTypes c) →
  Forall (IsPHI (llvmFunction s)) (endPHIs c) →
  NoDup (endPHIs c) →
  ∃ f' values,
    branchToEndOfControlContext s = Emitted tt (set_stack rest (set_llvmFunction f' s)) ∧
    Grows (llvmFunction s) f' ∧ insertBlock f' = Some b ∧
    Forall2 (CanonicalOf f') (reverse results) values ∧
    ∀ i phi, endPHIs c !! i = Some phi →
      incomingValues f' phi = incomingValues (llvmFunction s) phi ++ incomingFrom values i b.
Proof.
  intros Hcs Hstack Hrest Hresults Hsize Hb Hlen Hphis Hnodup.
  unfold branchToEndOfControlContext, currentControlContext. run.
  rewrite Hcs. cbn [head]. run.
  destruct (isReachable c).
  - destruct (end_arguments_run (endPHIs c) b (length (resultTypes c)) s results rest)
      as (f1 & values & Hrun & Hg & Hb1 & Hvalues & Hall);
      [exact Hstack | exact Hresults | lia
      | unfold outerStackSizeOfInnermost; rewrite Hcs, Hstack, length_app; lia
      | exact Hsize | exact Hb | exact Hphis | exact Hnodup |].
    exists (Insert (BranchInst (endBlock c)) f1).2, values.
    pose proof (Extends_Insert (BranchInst (endBlock c)) f1) as He.
    split.
    + run. rewrite Hrun. run. unfold CreateBr. run. cbv [Create irBuilder].
      cbn [llvmFunction set_stack set_llvmFunction stack Insert]. run.
      cbn [stack set_llvmFunction set_stack].
      rewrite bool_decide_eq_true_2 by exact Hrest. reflexivity.
    + split; [eapply Grows_trans; [exact Hg | apply Extends_Grows, He] |].
      split; [cbn; exact Hb1 |].
      split.
      * eapply Forall2_impl; [exact Hvalues |]. intros x y.
        apply CanonicalOf_Grows, Extends_Grows, He.
      * intros i phi Hphi. rewrite <- (Hall i phi Hphi).
        apply incomingValues_Extends; [exact He |].
        eapply IsPHI_Grows; [exact Hg |]. eapply Forall_lookup_1; eassumption.
  - destruct results; [| discriminate]. cbn [app] in Hstack.
    exists (llvmFunction s), []. split.
    + run. rewrite bool_decide_eq_true_2 by (rewrite Hstack; exact Hrest).
      destruct s; cbn in *; subst; reflexivity.
    + split; [apply Grows_refl |]. split; [exact Hb |]. split; [constructor |].
      intros i phi _. unfold incomingFrom. rewrite lookup_nil, app_nil_r. reflexivity.
Qed.

(** The dummy else clause that [end] creates for an [if] without one. *)
Lemma end_else_run (c : ControlContext) (s : EmitFunctionContext) (b : nat) :
  insertBlock (llvmFunction s) = Some b →
  Forall (IsPHI (llvmFunction s)) (endPHIs c) →
  NoDup (endPHIs c) →
  (is_Some (elseBlock c) → length (elseArgs c) = length (endPHIs c)) →
  ∃ f',
    match elseBlock c with
    | Some elseBlock =>
        moveAfterInsertBlock elseBlock ;;
        LLVMJIT.SetInsertPoint elseBlock ;;
        CreateBr (endBlock c) ;;
        wavmAssert (length (elseArgs c) =? length (endPHIs c))%nat ;;
        forUpFrom 0 (length (elseArgs c)) (λ argIndex,
          phi ← defined (endPHIs c !! argIndex);
          argument ← defined (elseArgs c !! argIndex);
          addIncoming phi argument elseBlock)
    | None => mret tt
    end s = Emitted tt (set_llvmFunction f' s) ∧
    Grows (llvmFunction s) f' ∧ is_Some (insertBlock f') ∧
    ∀ i phi, endPHIs c !! i = Some phi →
      incomingValues f' phi
      = incomingValues (llvmFunction s) phi
        ++ match elseBlock c with
           | Some elseBlock => incomingFrom (elseArgs c) i elseBlock
           | None => []
           end.
Proof.
  intros Hb Hphis Hnodup Hlen.
  destruct (elseBlock c) as [e|].
  - specialize (Hlen ltac:(eexists; reflexivity)).
    set (f0 := (Insert (BranchInst (endBlock c))
                  (LLVM.SetInsertPoint e (moveAfter e b (llvmFunction s)))).2).
    assert (Extends (llvmFunction s) f0) as He.
    { subst f0. eapply Extends_trans; [| apply Extends_Insert].
      apply Extends_same; reflexivity. }
    destruct (else_arguments_run (endPHIs c) (elseArgs c) e (length (elseArgs c)) 0
                (set_llvmFunction f0 s))
      as (f' & Hrun & Hg & Hb' & Hall);
      [simpl; lia | exact Hlen
      | cbn [llvmFunction set_llvmFunction];
        eapply Forall_IsPHI_Grows; [apply Extends_Grows, He | exact Hphis]
      | exact Hnodup |].
    cbn [llvmFunction set_llvmFunction] in Hg, Hb', Hall.
    exists f'. split.
    + unfold moveAfterInsertBlock. run. rewrite (currentBlock_run _ b) by exact Hb. run.
      cbv [irBuilder_ modify LLVMJIT.SetInsertPoint]. run. unfold CreateBr. run.
      cbv [Create irBuilder]. cbn [llvmFunction set_llvmFunction Insert]. run.
      rewrite (proj2 (Nat.eqb_eq _ _) Hlen). run. exact Hrun.
    + split; [eapply Grows_trans; [apply Extends_Grows, He | exact Hg] |].
      split; [rewrite Hb'; subst f0; cbn; eexists; reflexivity |].
      intros i phi Hphi. rewrite (Hall i phi Hphi). rewrite decide_True by lia.
      f_equal. apply incomingValues_Extends; [exact He |].
      eapply Forall_lookup_1; eassumption.
  - exists (llvmFunction s). split; [destruct s; reflexivity |].
    split; [apply Grows_refl |]. split; [rewrite Hb; eexists; reflexivity |].
    intros i phi _. rewrite app_nil_r. reflexivity.
Qed.

(** The end of a [try] or of a [catch]. *)
Lemma end_handlers_run (c : ControlContext) (s : EmitFunctionContext) :
  (type c = ControlContext.try_ → tryStack s ≠ [] ∧ catchStack s ≠ []) →
  (type c = ControlContext.catch_ →
   catchStack s ≠ [] ∧
   HasIntrinsic s "throwException" (mkFunctionType [] [i64; i64; i32])) →
  is_Some (insertBlock (llvmFunction s)) →
  ∃ s',
    match type c with
    | ControlContext.try_ => endTry
    | ControlContext.catch_ => endCatch
    | _ => mret tt
    end s = Emitted tt s' ∧
    stack s' = stack s ∧ controlStack s' = controlStack s ∧
    branchTargetStack s' = branchTargetStack s ∧
    Extends (llvmFunction s) (llvmFunction s') ∧
    is_Some (insertBlock (llvmFunction s')).
Proof.
  intros Htry Hcatch Hb.
  destruct (type c);
    try (exists s; repeat split; try apply Extends_refl; try exact Hb; done).
  - destruct (Htry eq_refl) as [Ht Hc].
    destruct (tryStack s) as [|t ts] eqn:Ets; [contradiction |].
    destruct (catchStack s) as [|cc cts] eqn:Ecs; [contradiction |].
    eexists. split.
    + unfold endTry. run. rewrite Ets. cbn [length nonZero Nat.eqb negb]. run.
      cbv [modify]. run. cbn [catchStack set_tryStack]. rewrite Ecs. reflexivity.
    + cbn. repeat split; try apply Extends_refl; try exact Hb; done.
  - destruct (Hcatch eq_refl) as [Hc Hintrinsic].
    apply endCatch_run; assumption.
Qed.

(** Whether the end PHI node [phi] of the context [c] has an incoming value
    when [end] comes to it: it had one before, or [end] adds one, which it
    does for the result of a reachable context and for the argument of an
    [if] without else clause. *)
Definition hasIncomingAtEnd (s : EmitFunctionContext) (c : ControlContext) (phi : Value)
  : bool :=
  nonZero (numIncomingValues (llvmFunction s) phi)
  || isReachable c
  || match elseBlock c with Some _ => true | None => false end.

(** C7: [end] on a control context whose operand stack holds what the
    context expects (the results of a reachable context above the operands
    that were there when it was entered) completes, and this is what it does.
    The incoming values of each end PHI node are afterwards those it had
    before, then the result popped for it (coerced to its canonical type, as
    coming from the block that was being emitted) when the context is
    reachable, then the argument of the [if] (as coming from the else block)
    when the context is an [if] without else clause; nothing else is added.
    For each end PHI node, in order, the node itself is pushed when it has
    an incoming value by then; when it has none it is erased from its basic
    block and the zero constant of the corresponding result type is pushed
    in its place.  The pushes go on top of the operands that were there when
    the context was entered; afterwards the branch target stack is cut back
    to the recorded size and the control context is popped. *)
Theorem end_pushes_phis_or_zeros (s : EmitFunctionContext) (c : ControlContext)
    (outer : list ControlContext) (results rest : list Value) (b : nat) :
  controlStack s = c :: outer →
  stack s = results ++ rest →
  length rest = outerStackSize c →
  length results = (if isReachable c then length (resultTypes c) else 0) →
  (Z.of_nat (length (stack s)) < 2 ^ 64)%Z →
  insertBlock (llvmFunction s) = Some b →
  length (endPHIs c) = length (resultTypes c) →
  Forall (IsPHI (llvmFunction s)) (endPHIs c) →
  NoDup (endPHIs c) →
  (is_Some (elseBlock c) → length (elseArgs c) = length (endPHIs c)) →
  (type c = ControlContext.try_ → tryStack s ≠ [] ∧ catchStack s ≠ []) →
  (type c = ControlContext.catch_ →
   catchStack s ≠ [] ∧
   HasIntrinsic s "throwException" (mkFunctionType [] [i64; i64; i32])) →
  outerBranchTargetStackSize c ≤ length (branchTargetStack s) →
  ∃ s' values,
    end_ s = Emitted tt s' ∧
    Forall2 (CanonicalOf (llvmFunction s')) (reverse results) values ∧
    (∀ i phi, endPHIs c !! i = Some phi →
       incomingValues (llvmFunction s') phi
       = incomingValues (llvmFunction s) phi
         ++ incomingFrom values i b
         ++ match elseBlock c with
            | Some elseBlock => incomingFrom (elseArgs c) i elseBlock
            | None => []
            end) ∧
    stack s'
    = reverse (zip_with (λ phi resultType,
                 if hasIncomingAtEnd s c phi then phi else typedZeroConstants resultType)
                 (endPHIs c) (resultTypes c))
      ++ rest ∧
    (∀ phi, phi ∈ endPHIs c → hasIncomingAtEnd s c phi = false →
       Erased (llvmFunction s') phi) ∧
    branchTargetStack s' = resize (outerBranchTargetStackSize c) (branchTargetStack s) ∧
    controlStack s' = outer.
Proof.
  intros Hcs Hstack Hrest Hresults Hsize Hb Hlen Hphis Hnodup Helse Htry Hcatch Htargets.
  destruct (branchToEndOfControlContext_run s c outer results rest b)
    as (f1 & values & HA & Hg1 & Hb1 & Hvalues & Hin1); try assumption.
  set (s1 := set_stack rest (set_llvmFunction f1 s)) in *.
  destruct (end_else_run c s1 b) as (f2 & HB & Hg2 & Hb2 & Hin2);
    [exact Hb1 | eapply Forall_IsPHI_Grows; [exact Hg1 | exact Hphis]
    | exact Hnodup | exact Helse |].
  cbn [llvmFunction s1 set_stack set_llvmFunction] in Hg2, Hin2.
  set (s2 := set_llvmFunction f2 s1) in *.
  destruct (end_handlers_run c s2) as (s3 & HC & Hs3 & Hc3 & Ht3 & He3 & [b3 Hb3]);
    [exact Htry | exact Hcatch | exact Hb2 |].
  cbn [llvmFunction stack controlStack branchTargetStack s2 s1 set_stack set_llvmFunction]
    in Hs3, Hc3, Ht3, He3.
  set (s4 := set_llvmFunction
               (LLVM.SetInsertPoint (endBlock c)
                  (moveAfter (endBlock c) b3 (llvmFunction s3))) s3).
  assert (Forall (IsPHI (llvmFunction s4)) (endPHIs c)) as Hphis4.
  { eapply Forall_IsPHI_Grows; [| exact Hphis].
    eapply Grows_trans; [exact Hg1 |]. eapply Grows_trans; [exact Hg2 |].
    eapply Grows_trans; [apply Extends_Grows, He3 |].
    apply Grows_same_instructions; reflexivity. }
  assert (∃ s5,
            (if nonZero (length (endPHIs c))
             then
               wavmAssert (length (endPHIs c) =? length (resultTypes c))%nat ;;
               forUpFrom 0 (length (endPHIs c)) (λ elementIndex,
                 phi ← defined (endPHIs c !! elementIndex);
                 numIncomingValues ← getNumIncomingValues phi;
                 if nonZero numIncomingValues
                 then push phi
                 else
                   eraseFromParent phi ;;
                   resultType ← defined (resultTypes c !! elementIndex);
                   push (typedZeroConstants resultType))
             else mret tt) s4 = Emitted tt s5 ∧
            instructions (llvmFunction s5) = instructions (llvmFunction s4) ∧
            nextInstruction (llvmFunction s5) = nextInstruction (llvmFunction s4) ∧
            branchTargetStack s5 = branchTargetStack s4) as (s5 & HE & Hi5 & Hn5 & Ht5).
  { destruct (nonZero (length (endPHIs c))); [| exists s4; done].
    destruct (end_results_run (endPHIs c) (resultTypes c) (length (endPHIs c)) 0 s4)
      as (s5 & Hrun & H5); [reflexivity | exact Hlen | exact Hphis4 |].
    exists s5. split; [| exact H5].
    run. rewrite (proj2 (Nat.eqb_eq _ _) Hlen). run. exact Hrun. }
  cbn [llvmFunction branchTargetStack s4 set_llvmFunction LLVM.SetInsertPoint moveAfter
       instructions nextInstruction] in Hi5, Hn5, Ht5.
  assert (∃ s', end_ s = Emitted tt s' ∧ llvmFunction s' = llvmFunction s5)
    as (s' & Hend & Hf').
  { eexists. split.
    - unfold end_. run. rewrite Hcs. cbn [length nonZero Nat.eqb negb]. run.
      rewrite HA. run. unfold currentControlContext. run.
      cbn [controlStack s1 set_stack set_llvmFunction]. rewrite Hcs. cbn [head]. run.
      rewrite HB. run. rewrite HC. run.
      unfold moveAfterInsertBlock. run. rewrite (currentBlock_run _ b3) by exact Hb3. run.
      cbv [irBuilder_ modify LLVMJIT.SetInsertPoint]. run.
      match goal with
      | |- context [(if nonZero _ then _ else _) ?st] => change st with s4
      end.
      rewrite HE. run.
      rewrite Ht5, Ht3. rewrite (proj2 (Nat.leb_le _ _) Htargets). run. reflexivity.
    - reflexivity. }
  exists s', values. split; [exact Hend |].
  destruct (end_Emitted s s' c outer Hcs Hend) as (Hst & Her & Hbt & Hcst).
  assert (∀ i phi, endPHIs c !! i = Some phi →
            incomingValues (llvmFunction s') phi
            = incomingValues (llvmFunction s) phi
              ++ incomingFrom values i b
              ++ match elseBlock c with
                 | Some elseBlock => incomingFrom (elseArgs c) i elseBlock
                 | None => []
                 end) as Hin.
  { intros i phi Hphi. rewrite Hf'.
    rewrite (incomingValues_ext (llvmFunction s3) (llvmFunction s5)) by exact Hi5.
    rewrite (incomingValues_Extends _ _ _ He3).
    - rewrite (Hin2 i phi Hphi), (Hin1 i phi Hphi), <- app_assoc. reflexivity.
    - eapply IsPHI_Grows; [eapply Grows_trans; [exact Hg1 | exact Hg2] |].
      eapply Forall_lookup_1; eassumption. }
  assert (Grows f1 (llvmFunction s')) as Hg'.
  { rewrite Hf'. eapply Grows_trans; [exact Hg2 |].
    eapply Grows_trans; [apply Extends_Grows, He3 |].
    apply Grows_same_instructions; assumption. }
  split; [eapply Forall2_impl; [exact Hvalues |]; intros x y;
          apply CanonicalOf_Grows; exact Hg' |].
  split; [exact Hin |].
  assert (∀ i phi, endPHIs c !! i = Some phi →
            nonZero (numIncomingValues (llvmFunction s') phi) = hasIncomingAtEnd s c phi)
    as Hkept.
  { intros i phi Hphi. rewrite numIncomingValues_length, (Hin i phi Hphi).
    unfold hasIncomingAtEnd. rewrite numIncomingValues_length.
    pose proof (lookup_lt_Some _ _ _ Hphi) as Hi.
    rewrite !length_app. unfold incomingFrom, nonZero.
    destruct (incomingValues (llvmFunction s) phi) as [|x xs]; [| reflexivity].
    cbn [length Nat.add orb Nat.eqb negb].
    apply Forall2_length in Hvalues. rewrite length_reverse in Hvalues.
    destruct (isReachable c).
    - destruct (lookup_lt_is_Some_2 values i) as [v ->]; [lia | reflexivity].
    - rewrite (lookup_ge_None_2 values i) by lia. cbn [length Nat.add orb].
      destruct (elseBlock c) as [e|]; [| reflexivity].
      destruct (lookup_lt_is_Some_2 (elseArgs c) i) as [v ->];
        [rewrite Helse by (eexists; reflexivity); lia | reflexivity]. }
  split.
  { rewrite Hst, Hstack, <- Hrest, resize_app. f_equal. f_equal.
    apply list_eq. intros i. rewrite !lookup_zip_with.
    destruct (endPHIs c !! i) as [phi|] eqn:Hphi; [| reflexivity]. cbn.
    match goal with
    | |- ?o ≫= _ = _ => destruct o as [resultType|]; [| reflexivity]
    end.
    cbn. unfold endResult. rewrite (Hkept i phi Hphi). reflexivity. }
  split.
  { intros phi Hphi Hnone. apply Her; [exact Hphi |].
    apply list_elem_of_lookup in Hphi as [i Hphi].
    rewrite <- (Hkept i phi Hphi) in Hnone. unfold nonZero in Hnone.
    apply negb_false_iff, Nat.eqb_eq in Hnone. exact Hnone. }
  split; [exact Hbt | exact Hcst].
Qed.

Lemma end_pushes_phis_or_zeros_witness :
  (∃ s',
     end_ (exampleBlockContext [Argument 0 llvmI32Type]) = Emitted tt s' ∧
     incomingValues (llvmFunction s') (InstValue 1 llvmI32Type)
     = [(Argument 0 llvmI32Type, 1)] ∧
     stack s' = [InstValue 1 llvmI32Type] ∧
     branchTargetStack s' = [BranchTarget.mk [i32] 0 []] ∧
     length (controlStack s') = 1) ∧
  (∃ s',
     end_ exampleUnreachableContext = Emitted tt s' ∧
     incomingValues (llvmFunction s') (InstValue 1 llvmI32Type) = [] ∧
     stack s' = [ConstantInt 32 0] ∧
     Erased (llvmFunction s') (InstValue 1 llvmI32Type) ∧
     branchTargetStack s' = [BranchTarget.mk [i32] 0 []] ∧
     length (controlStack s') = 1).
Proof.
  split.
  - destruct (end_pushes_phis_or_zeros (exampleBlockContext [Argument 0 llvmI32Type])
                (mkControlContext ControlContext.block 2 [InstValue 1 llvmI32Type] None []
                   [i32] 0 1 true)
                [mkControlContext ControlContext.function 0 [] None [] [i32] 0 0 true]
                [Argument 0 llvmI32Type] [] 1)
      as (s' & values & Hend & Hvalues & Hin & Hstack & Herased & Htargets & Hcontrol).
    + reflexivity.
    + reflexivity.
    + reflexivity.
    + reflexivity.
    + vm_compute. reflexivity.
    + reflexivity.
    + reflexivity.
    + repeat constructor. exists 1, llvmI32Type, []. vm_compute. repeat split. lia.
    + apply NoDup_singleton.
    + intros [e He]. discriminate He.
    + intros H. discriminate H.
    + intros H. discriminate H.
    + vm_compute. lia.
    + exists s'. split; [exact Hend |].
      apply Forall2_cons_inv_l in Hvalues as (value & values' & Hvalue & Hnil & ->).
      apply Forall2_nil_inv_l in Hnil as ->. cbn in Hvalue. subst value.
      split; [exact (Hin 0 _ eq_refl) |].
      split; [exact Hstack |]. split; [exact Htargets |].
      rewrite Hcontrol. reflexivity.
  - destruct (end_pushes_phis_or_zeros exampleUnreachableContext
                (mkControlContext ControlContext.block 2 [InstValue 1 llvmI32Type] None []
                   [i32] 0 1 false)
                [mkControlContext ControlContext.function 0 [] None [] [i32] 0 0 true]
                [] [] 1)
      as (s' & values & Hend & Hvalues & Hin & Hstack & Herased & Htargets & Hcontrol).
    + reflexivity.
    + reflexivity.
    + reflexivity.
    + reflexivity.
    + vm_compute. reflexivity.
    + reflexivity.
    + reflexivity.
    + repeat constructor. exists 1, llvmI32Type, []. vm_compute. repeat split. lia.
    + apply NoDup_singleton.
    + intros [e He]. discriminate He.
    + intros H. discriminate H.
    + intros H. discriminate H.
    + vm_compute. lia.
    + exists s'. split; [exact Hend |].
      apply Forall2_nil_inv_l in Hvalues as ->.
      split; [exact (Hin 0 _ eq_refl) |].
      split; [exact Hstack |].
      split; [apply Herased; [constructor | reflexivity] |].
      split; [exact Htargets |].
      rewrite Hcontrol. reflexivity.
Defined.

(** The end of a block whose end was never branched to: the PHI node is
    erased and the zero constant takes its place. *)
Example end_of_unreachable_block :
  ∃ s1 s',
    unreachable (exampleBlockContext []) = Emitted tt s1 ∧
    end_ s1 = Emitted tt s' ∧
    stack s' = [ConstantInt 32 0] ∧
    basicBlocks (llvmFunction s') !! 2 = Some (mkBasicBlock "blockEnd" []).
Proof.
  eexists _, _. split; [vm_compute; reflexivity |].
  split; [vm_compute; reflexivity |].
  split; vm_compute; reflexivity.
Qed.

(** ** The address of a memory access *)

(** The address computation of a memory access, as instructions numbered
    from [n]: the byte index is zero-extended to 64 bits; a non-zero offset is
    zero-extended too and added; the sum indexes the memory base pointer,
    which is loaded from its variable; the byte pointer is cast to a pointer
    to the memory type. *)
Definition addressInstructions (byteIndex : Value) (offset : Z) (memoryBase : Value)
    (memoryType : Type_) (n : nat) : list Instruction :=
  let sum :=
    if decide (offset = 0%Z)
    then [CastInst ZExt byteIndex llvmI64Type]
    else [CastInst ZExt byteIndex llvmI64Type;
          CastInst ZExt (emitLiteral 32 offset) llvmI64Type;
          BinaryOperator Add (InstValue n llvmI64Type) (InstValue (S n) llvmI64Type)] in
  let k := n + length sum in
  sum ++ [LoadInst memoryBase 0 false NotAtomic;
          GetElementPtrInst (InstValue k (getPointerElementType (getType memoryBase)))
            [InstValue (k - 1) llvmI64Type];
          CastInst BitCast (InstValue (S k) (getPointerElementType (getType memoryBase)))
            (PointerTy memoryType)].

(** The index operand of the [getelementptr] above. *)
Definition addressIndex (offset : Z) (n : nat) : Value :=
  InstValue (if decide (offset = 0%Z) then n else S (S n)) llvmI64Type.

(** The pointer the computation ends in. *)
Definition addressPointer (offset : Z) (memoryType : Type_) (n : nat) : Value :=
  InstValue (if decide (offset = 0%Z) then 3 + n else 5 + n) (PointerTy memoryType).

(** The function [f] has the instructions [code] under the numbers from
    [n]. *)
Definition HasInstructions (f : Function) (n : nat) (code : list Instruction) : Prop :=
  ∀ j instr, code !! j = Some instr → instructions f !! (n + j) = Some instr.

Lemma HasInstructions_nil f n : HasInstructions f n [].
Proof. intros j instr H. discriminate. Qed.

Lemma HasInstructions_cons f n i code :
  instructions f !! n = Some i → HasInstructions f (S n) code →
  HasInstructions f n (i :: code).
Proof.
  intros H1 H2 [|j] instr H; simpl in H.
  - injection H as <-. rewrite Nat.add_0_r. exact H1.
  - replace (n + S j) with (S n + j) by lia. apply H2. exact H.
Qed.

Definition isSExt (i : Instruction) : bool :=
  match i with CastInst SExt _ _ => true | _ => false end.

Lemma addressInstructions_never_sign_extend byteIndex offset memoryBase memoryType n :
  Forall (λ i, isSExt i = false ∧ isPHI i = false)
    (addressInstructions byteIndex offset memoryBase memoryType n).
Proof. unfold addressInstructions. destruct (decide (offset = 0%Z)); repeat constructor. Qed.

Lemma step_load_slot env id pointer a i o slot x :
  evalValue env pointer = Some (RPointer (StackSlot slot)) → slots env !! slot = Some x →
  step env id (LoadInst pointer a i o) = Next (setRegister id x env).
Proof. intros H1 H2. simpl. unfold stepLoad. rewrite H1, H2. reflexivity. Qed.

Lemma step_gep env id pointer index x y z :
  evalValue env pointer = Some x → evalValue env index = Some y →
  evalByteGEP x y = Value_ z →
  step env id (GetElementPtrInst pointer [index]) = Next (setRegister id z env).
Proof.
  intros H1 H2 H3. simpl. unfold evalOperand. rewrite H1, H2, H3. reflexivity.
Qed.

Lemma signed_small bits x : (x < 2 ^ (bits - 1))%Z → signed bits x = x.
Proof. intros H. unfold signed. apply Z.ltb_lt in H. rewrite H. reflexivity. Qed.

(** Executing the address computation: the index of the [getelementptr] is
    the sum of the unsigned byte index and the unsigned offset, and the
    pointer is that many bytes past the memory base. *)
Lemma addressInstructions_compute f n byteIndex offset memoryBase memoryType env i base slot
    jump b :
  let code := addressInstructions byteIndex offset memoryBase memoryType n in
  HasInstructions f n code →
  evalValue env byteIndex = Some (RInt 32 i) → (0 <= i < 2 ^ 32)%Z →
  (0 <= offset < 2 ^ 32)%Z →
  evalValue env memoryBase = Some (RPointer (StackSlot slot)) →
  slots env !! slot = Some (RPointer (Address base)) →
  definedBefore n byteIndex → definedBefore n memoryBase →
  ∃ env',
    execInstructions f jump b env (seq n (length code)) = Fallthrough b env' ∧
    evalValue env' (addressIndex offset n) = Some (RInt 64 (i + offset)) ∧
    evalValue env' (addressPointer offset memoryType n)
    = Some (RPointer (Address (base + i + offset))) ∧
    accesses env' = accesses env ∧ memory env' = memory env.
Proof.
  intros code Hcode Hindex Hi Hoffset Hbase Hslot Hdi Hdb.
  subst code. unfold addressInstructions, addressIndex, addressPointer in *.
  destruct (decide (offset = 0%Z)) as [->|Hnonzero]; cbn [length app seq] in *.
  - pose proof (Hcode 0 _ eq_refl) as H0. pose proof (Hcode 1 _ eq_refl) as H1.
    pose proof (Hcode 2 _ eq_refl) as H2. pose proof (Hcode 3 _ eq_refl) as H3.
    rewrite Nat.add_0_r in H0. rewrite Nat.add_1_r in *.
    replace (n + 2) with (S (S n)) in * by lia.
    replace (n + 3) with (S (S (S n))) in * by lia.
    rewrite Nat.sub_succ, Nat.sub_0_r in *.
    eexists. split.
    + erewrite exec_cons by exact H0.
      erewrite step_cast; [| exact Hindex | reflexivity].
      erewrite exec_cons by exact H1.
      erewrite step_load_slot;
        [| rewrite evalValue_setRegister by exact Hdb; exact Hbase | exact Hslot].
      erewrite exec_cons by exact H2.
      erewrite step_gep; [| solve_eval | solve_eval | reflexivity].
      erewrite exec_cons by exact H3.
      erewrite step_cast; [| solve_eval | reflexivity].
      reflexivity.
    + rewrite signed_small by (change (2 ^ (64 - 1))%Z with 9223372036854775808%Z; lia).
      split; [| split; [| split; reflexivity]].
      * cbv [evalValue setRegister registers]. map_lookup. rewrite Z.add_0_r. reflexivity.
      * cbv [evalValue setRegister registers]. map_lookup.
        rewrite Z.add_0_r. reflexivity.
  - pose proof (Hcode 0 _ eq_refl) as H0. pose proof (Hcode 1 _ eq_refl) as H1.
    pose proof (Hcode 2 _ eq_refl) as H2. pose proof (Hcode 3 _ eq_refl) as H3.
    pose proof (Hcode 4 _ eq_refl) as H4. pose proof (Hcode 5 _ eq_refl) as H5.
    rewrite Nat.add_0_r in H0. rewrite Nat.add_1_r in *.
    replace (n + 2) with (S (S n)) in * by lia.
    replace (n + 3) with (S (S (S n))) in * by lia.
    replace (n + 4) with (S (S (S (S n)))) in * by lia.
    replace (n + 5) with (S (S (S (S (S n))))) in * by lia.
    rewrite Nat.sub_succ, Nat.sub_0_r in *.
    assert (wrap 64 (i + offset mod 2 ^ 32) = i + offset)%Z as Hsum.
    { unfold wrap. rewrite (Z.mod_small offset) by lia. apply Z.mod_small.
      change (2 ^ 64)%Z with 18446744073709551616%Z.
      change (2 ^ 32)%Z with 4294967296%Z in *. lia. }
    eexists. split.
    + erewrite exec_cons by exact H0.
      erewrite step_cast; [| exact Hindex | reflexivity].
      erewrite exec_cons by exact H1.
      erewrite step_cast; [| reflexivity | reflexivity].
      erewrite exec_cons by exact H2.
      erewrite step_binary; [| solve_eval | solve_eval | reflexivity].
      erewrite exec_cons by exact H3.
      erewrite step_load_slot;
        [| rewrite !evalValue_setRegister
             by (eapply definedBefore_mono; [exact Hdb | lia]); exact Hbase
         | exact Hslot].
      erewrite exec_cons by exact H4.
      erewrite step_gep; [| solve_eval | solve_eval | reflexivity].
      erewrite exec_cons by exact H5.
      erewrite step_cast; [| solve_eval | reflexivity].
      reflexivity.
    + rewrite Hsum.
      rewrite signed_small
        by (change (2 ^ (64 - 1))%Z with 9223372036854775808%Z;
            change (2 ^ 32)%Z with 4294967296%Z in *; lia).
      split; [| split; [| split; reflexivity]].
      * cbv [evalValue setRegister registers]. map_lookup. reflexivity.
      * cbv [evalValue setRegister registers]. map_lookup.
        rewrite Z.add_assoc. reflexivity.
Qed.

(** The pointer operand of an instruction that accesses memory. *)
Definition accessPointer (i : Instruction) : option Value :=
  match i with
  | LoadInst pointer _ _ _ => Some pointer
  | StoreInst _ pointer _ _ _ => Some pointer
  | AtomicCmpXchgInst pointer _ _ _ => Some pointer
  | AtomicRMWInst _ pointer _ _ => Some pointer
  | _ => None
  end.

(** The number of operands an operator pops before the byte index. *)
Definition valueOperands (op : MemoryOperator) : nat :=
  match op with
  | LOAD_OP _ _ _ _ | ATOMIC_LOAD_OP _ _ _ _ => 0
  | STORE_OP _ _ _ _ | ATOMIC_STORE_OP _ _ _ _ | ATOMIC_RMW _ _ _ _ _ _ => 1
  | ATOMIC_CMPXCHG _ _ _ _ _ => 2
  end.

(** An instruction that addresses or accesses memory: a load, a store, an
    atomic access, the computation of an element pointer, or the cast of an
    integer to a pointer. *)
Definition isMemoryInstruction (i : Instruction) : bool :=
  match i with
  | LoadInst _ _ _ _ | StoreInst _ _ _ _ _ | AtomicCmpXchgInst _ _ _ _
  | AtomicRMWInst _ _ _ _ | GetElementPtrInst _ _ | CastInst IntToPtr _ _ => true
  | _ => false
  end.

(** The instructions of [f] are numbered below [nextInstruction f], as the
    builder numbers them. *)
Definition WellNumbered (f : Function) : Prop :=
  ∀ id, nextInstruction f ≤ id → instructions f !! id = None.

(** [f'] has the instructions of [f] as they are and keeps to the
    numbering. *)
Definition Appends (f f' : Function) : Prop :=
  Extends f f' ∧ (WellNumbered f → WellNumbered f').

Lemma Appends_refl f : Appends f f.
Proof. split; [apply Extends_refl | done]. Qed.

Lemma Appends_trans f1 f2 f3 : Appends f1 f2 → Appends f2 f3 → Appends f1 f3.
Proof.
  intros [He1 Hw1] [He2 Hw2]. split; [eapply Extends_trans; eassumption | auto].
Qed.

Lemma Appends_Insert i f : Appends f (Insert i f).2.
Proof.
  split; [apply Extends_Insert |]. intros Hw id Hid. simpl in *.
  rewrite lookup_insert_ne by lia. apply Hw. lia.
Qed.

Lemma Appends_Insert_alter g i f :
  Appends f (alterInstruction g (nextInstruction f) (Insert i f).2).
Proof.
  split.
  - split; [simpl; lia |]. intros id Hid. simpl.
    rewrite lookup_alter_ne by lia. apply lookup_insert_ne. lia.
  - intros Hw id Hid. simpl in *.
    rewrite lookup_alter_ne by lia. rewrite lookup_insert_ne by lia. apply Hw. lia.
Qed.

(** [f'] has the instructions of [f] as they are, and every instruction it
    has more satisfies [Q] (of its number and the instruction). *)
Definition Adds (Q : nat → Instruction → Prop) (f f' : Function) : Prop :=
  Appends f f' ∧
  ∀ id instr, nextInstruction f ≤ id < nextInstruction f' →
    instructions f' !! id = Some instr → Q id instr.

Lemma Adds_refl Q f : Adds Q f f.
Proof. split; [apply Appends_refl |]. intros id instr H. lia. Qed.

Lemma Adds_trans Q f1 f2 f3 : Adds Q f1 f2 → Adds Q f2 f3 → Adds Q f1 f3.
Proof.
  intros [He1 H1] [He2 H2]. split; [eapply Appends_trans; eassumption |].
  intros id instr Hid Hi. destruct (decide (id < nextInstruction f2)) as [Hlt|Hge].
  - apply H1; [lia |]. rewrite <- (proj2 (proj1 He2)) by exact Hlt. exact Hi.
  - apply H2; [lia | exact Hi].
Qed.

Lemma Adds_Insert (Q : nat → Instruction → Prop) i f :
  Q (nextInstruction f) i → Adds Q f (Insert i f).2.
Proof.
  intros HQ. split; [apply Appends_Insert |]. intros id instr Hid Hi. simpl in *.
  replace id with (nextInstruction f) in * by lia.
  rewrite lookup_insert_eq in Hi. injection Hi as <-. exact HQ.
Qed.

(** No instruction added addresses or accesses memory. *)
Definition AddsNoAccess : Function → Function → Prop :=
  Adds (λ _ instr, isMemoryInstruction instr = false).

Lemma set_llvmFunction_same s : set_llvmFunction (llvmFunction s) s = s.
Proof. destruct s. reflexivity. Qed.

(** A conversion of a value loaded or to be stored. *)
Lemma conversion_run c v t s :
  ∃ v' f',
    conversion c v t s = Emitted v' (set_llvmFunction f' s) ∧
    AddsNoAccess (llvmFunction s) f'.
Proof.
  destruct c.
  - exists v, (llvmFunction s). rewrite set_llvmFunction_same.
    split; [reflexivity | apply Adds_refl].
  - eexists _, _. split; [reflexivity |]. apply Adds_Insert. reflexivity.
  - eexists _, _. split; [reflexivity |]. apply Adds_Insert. reflexivity.
  - eexists _, _. split; [reflexivity |]. apply Adds_Insert. reflexivity.
Qed.

(** Closes a goal about the instructions added to explicit instructions. *)
Ltac added_instructions :=
  split;
  [ split;
    [ split; [cbn; lia |];
      intros id Hid; cbn in Hid |- *; rewrite !lookup_insert_ne by lia; reflexivity
    | intros Hw id Hid; cbn in Hid |- *; rewrite !lookup_insert_ne by lia;
      apply Hw; cbn; lia ]
  | intros id instr Hid Hi; cbn in Hid, Hi;
    repeat match type of Hi with
           | <[?k := _]> _ !! id = Some _ =>
               destruct (decide (id = k)) as [->|?];
                 [rewrite lookup_insert_eq in Hi; injection Hi as <-; reflexivity
                 | rewrite lookup_insert_ne in Hi by congruence]
           end;
    lia ].

(** The alignment check of an atomic access completes where the runtime has
    the trap it calls, and adds no access to memory. *)
Lemma trapIfMisalignedAtomic_run address naturalAlignmentLog2 s :
  ((0 < naturalAlignmentLog2)%Z →
   HasIntrinsic s "misalignedAtomicTrap" (mkFunctionType [] [i32])) →
  ∃ f',
    trapIfMisalignedAtomic address naturalAlignmentLog2 s
    = Emitted tt (set_llvmFunction f' s) ∧
    AddsNoAccess (llvmFunction s) f'.
Proof.
  intros Hintrinsic. unfold trapIfMisalignedAtomic.
  destruct (decide (0 < naturalAlignmentLog2)%Z) as [Hpos|Hzero].
  - destruct (Hintrinsic Hpos) as (intrinsicFunction & Hwavm & Htype).
    destruct s as [mc ft bts npl [insts blocks order n nb ib] lp cs bt st ts cts mb tb cp].
    cbn [moduleContext] in *.
    emit_unfold. rewrite Hwavm. emit_unfold. rewrite Htype.
    rewrite bool_decide_eq_true_2 by reflexivity. emit_unfold.
    destruct ts as [|tryContext ts]; emit_unfold.
    all: eexists; split; [reflexivity |].
    all: unfold AddsNoAccess, Adds; cbn [llvmFunction].
    all: added_instructions.
  - exists (llvmFunction s). rewrite set_llvmFunction_same.
    split; [reflexivity | apply Adds_refl].
Qed.

Lemma coerceByteIndexToPointer_adds byteIndex offset memoryType s :
  let n := nextInstruction (llvmFunction s) in
  let code := addressInstructions byteIndex offset (memoryBasePointerVariable s) memoryType n in
  ∃ f',
    coerceByteIndexToPointer byteIndex offset memoryType s
    = Emitted (addressPointer offset memoryType n) (set_llvmFunction f' s) ∧
    Appends (llvmFunction s) f' ∧
    nextInstruction f' = n + length code ∧
    HasInstructions f' n code.
Proof.
  destruct s as [mc ft bts npl [insts blocks order n nb ib] lp cs bt st ts cts mb tb cp].
  cbn [llvmFunction nextInstruction memoryBasePointerVariable].
  unfold coerceByteIndexToPointer, addressInstructions, addressPointer.
  destruct (decide (offset = 0%Z)) as [Hzero|Hnonzero].
  - eexists. split; [emit_unfold; reflexivity |].
    split; [| split; [cbn [length app nextInstruction]; lia |]].
    + split.
      * split; [simpl; lia |]. intros id Hid.
        simpl in *. rewrite !lookup_insert_ne by lia. reflexivity.
      * intros Hw id Hid. simpl in *. rewrite !lookup_insert_ne by lia. apply Hw.
        simpl. lia.
    + cbn [length app Nat.add]. rewrite Nat.add_1_r, Nat.sub_succ, Nat.sub_0_r.
      repeat (apply HasInstructions_cons;
              [cbn [instructions]; map_lookup; reflexivity |]).
      apply HasInstructions_nil.
  - eexists. split; [emit_unfold; reflexivity |].
    split; [| split; [cbn [length app nextInstruction]; lia |]].
    + split.
      * split; [simpl; lia |]. intros id Hid.
        simpl in *. rewrite !lookup_insert_ne by lia. reflexivity.
      * intros Hw id Hid. simpl in *. rewrite !lookup_insert_ne by lia. apply Hw.
        simpl. lia.
    + cbn [length app Nat.add].
      replace (n + 3) with (S (S (S n))) by lia. rewrite Nat.sub_succ, Nat.sub_0_r.
      repeat (apply HasInstructions_cons;
              [cbn [instructions]; map_lookup; reflexivity |]).
      apply HasInstructions_nil.
Qed.

(** What a memory operator adds to the function [f], giving [f']: the
    address computation for the byte index and the offset, numbered from
    [n], and at least one access through the pointer it computes; apart from
    the address computation, whatever else it adds that accesses memory does
    so through that pointer, and nothing else it adds addresses memory.  The
    instructions that [f] had are left as they were. *)
Definition AccessesOnlyThrough (f f' : Function) (memoryBase byteIndex : Value)
    (offset : Z) (n : nat) (memoryType : Type_) : Prop :=
  let code := addressInstructions byteIndex offset memoryBase memoryType n in
  let pointer := addressPointer offset memoryType n in
  nextInstruction f ≤ n ∧
  (∀ id, id < nextInstruction f → instructions f' !! id = instructions f !! id) ∧
  HasInstructions f' n code ∧
  (∃ access instr,
     n + length code ≤ access < nextInstruction f' ∧
     instructions f' !! access = Some instr ∧
     accessPointer instr = Some pointer) ∧
  (WellNumbered f → WellNumbered f') ∧
  ∀ id instr, nextInstruction f ≤ id < nextInstruction f' →
    instructions f' !! id = Some instr →
    n ≤ id < n + length code ∨
    accessPointer instr = Some pointer ∨
    isMemoryInstruction instr = false.

Lemma HasInstructions_Extends f f' n code :
  Extends f f' → n + length code ≤ nextInstruction f →
  HasInstructions f n code → HasInstructions f' n code.
Proof.
  intros [_ He] Hn Hcode j instr Hj. rewrite He; [apply Hcode; exact Hj |].
  apply lookup_lt_Some in Hj. lia.
Qed.

(** The stages of a memory operator: what comes before the address
    computation, the address computation, what comes between it and the
    access, the access, and what comes after. *)
Lemma AccessesOnlyThrough_intro f f1 f2 f3 f4 f5 memoryBase byteIndex offset memoryType instr :
  let n := nextInstruction f1 in
  let code := addressInstructions byteIndex offset memoryBase memoryType n in
  AddsNoAccess f f1 →
  Appends f1 f2 → nextInstruction f2 = n + length code → HasInstructions f2 n code →
  AddsNoAccess f2 f3 →
  Appends f3 f4 → nextInstruction f4 = S (nextInstruction f3) →
  instructions f4 !! nextInstruction f3 = Some instr →
  accessPointer instr = Some (addressPointer offset memoryType n) →
  AddsNoAccess f4 f5 →
  AccessesOnlyThrough f f5 memoryBase byteIndex offset n memoryType.
Proof.
  intros n code [[He1 Hw1] H1] [He2 Hw2] Hn2 Hcode [[He3 Hw3] H3] [He4 Hw4] Hn4 Hinstr
    Hpointer [[He5 Hw5] H5].
  pose proof (proj1 He1). pose proof (proj1 He2). pose proof (proj1 He3).
  pose proof (proj1 He4). pose proof (proj1 He5).
  assert (Extends f2 f5) as He25.
  { eapply Extends_trans; [exact He3 |]. eapply Extends_trans; eassumption. }
  unfold AccessesOnlyThrough. fold n code.
  split; [assumption |]. split.
  { apply (Extends_trans _ _ _ He1 (Extends_trans _ _ _ He2 He25)). }
  split; [eapply HasInstructions_Extends; [exact He25 | lia | exact Hcode] |].
  split.
  { exists (nextInstruction f3), instr. split; [lia |]. split; [| exact Hpointer].
    rewrite (proj2 He5) by lia. exact Hinstr. }
  split; [intros Hw; apply Hw5, Hw4, Hw3, Hw2, Hw1, Hw |].
  intros id i Hid Hi.
  destruct (decide (id < n)) as [?|?].
  { right. right. apply (H1 id); [lia |].
    rewrite <- (proj2 (Extends_trans _ _ _ He2 He25)) by lia. exact Hi. }
  destruct (decide (id < nextInstruction f2)) as [?|?]; [left; lia |].
  destruct (decide (id < nextInstruction f3)) as [?|?].
  { right. right. apply (H3 id); [lia |].
    rewrite <- (proj2 (Extends_trans _ _ _ He4 He5)) by lia. exact Hi. }
  destruct (decide (id = nextInstruction f3)) as [->|?].
  { right. left. rewrite (proj2 He5) in Hi by lia. rewrite Hinstr in Hi.
    injection Hi as <-. exact Hpointer. }
  right. right. apply (H5 id); [lia | exact Hi].
Qed.

(** Runs a [pop] on an operand stack whose top is known. *)
Ltac run_pop Hdepth Hsize :=
  erewrite pop_run;
  [ run
  | cbn [stack set_stack set_llvmFunction]; reflexivity
  | unfold outerStackSizeOfInnermost in *;
    cbn [stack controlStack set_stack set_llvmFunction length] in *; lia
  | cbn [stack set_stack set_llvmFunction length] in *; lia ].

(** Runs a conversion, naming the function it leaves. *)
Ltac run_conversion f H :=
  match goal with
  | |- context [conversion ?c ?v ?t ?st] =>
      let v' := fresh "converted" in
      let Hrun := fresh "Hrun" in
      destruct (conversion_run c v t st) as (v' & f & Hrun & H);
      rewrite Hrun; clear Hrun; run;
      cbn [llvmFunction set_llvmFunction set_stack] in H
  end.

Ltac run_create :=
  cbv [CreateLoad CreateStore Create irBuilder alterValue irBuilder_ modify push];
  cbn [llvmFunction set_llvmFunction set_stack Insert]; run.

Lemma EMIT_LOAD_OP_run valueTypeId llvmMemoryType naturalAlignmentLog2 c imm s byteIndex rest :
  stack s = byteIndex :: rest →
  outerStackSizeOfInnermost s + 1 ≤ length (stack s) →
  (Z.of_nat (length (stack s)) < 2 ^ 64)%Z →
  ∃ s' n,
    EMIT_LOAD_OP valueTypeId llvmMemoryType naturalAlignmentLog2 (conversion c) imm s
    = Emitted tt s' ∧
    AccessesOnlyThrough (llvmFunction s) (llvmFunction s') (memoryBasePointerVariable s)
      byteIndex (offset imm) n llvmMemoryType.
Proof.
  intros Hs Hdepth Hsize.
  destruct s as [mc ft bts npl f lp cs bt st ts cts mb tb cp].
  cbn [stack llvmFunction memoryBasePointerVariable] in *. subst st.
  unfold EMIT_LOAD_OP. run. run_pop Hdepth Hsize.
  match goal with
  | |- context [coerceByteIndexToPointer ?i ?o ?t ?st] =>
      destruct (coerceByteIndexToPointer_adds i o t st) as (f2 & Hrun & He2 & Hn2 & Hcode);
      rewrite Hrun; clear Hrun; run
  end.
  cbn [llvmFunction set_llvmFunction set_stack memoryBasePointerVariable] in *.
  run_create. run_conversion f5 H5. run_create.
  eexists _, _. split; [reflexivity |]. cbn [llvmFunction].
  eapply (AccessesOnlyThrough_intro f f f2 f2 _ f5);
    [apply Adds_refl | exact He2 | exact Hn2 | exact Hcode | apply Adds_refl
    | | | | | exact H5].
  - apply Appends_Insert_alter.
  - reflexivity.
  - cbn. rewrite lookup_alter_eq, lookup_insert_eq. reflexivity.
  - reflexivity.
Qed.

Ltac run_coerce f2 He2 Hn2 Hcode :=
  match goal with
  | |- context [coerceByteIndexToPointer ?i ?o ?t ?st] =>
      let Hrun := fresh "Hrun" in
      destruct (coerceByteIndexToPointer_adds i o t st) as (f2 & Hrun & He2 & Hn2 & Hcode);
      rewrite Hrun; clear Hrun; run;
      cbn [llvmFunction set_llvmFunction set_stack memoryBasePointerVariable] in *
  end.

Ltac run_trap Hintrinsic f H :=
  match goal with
  | |- context [trapIfMisalignedAtomic ?a ?n ?st] =>
      let Hrun := fresh "Hrun" in
      destruct (trapIfMisalignedAtomic_run a n st Hintrinsic) as (f & Hrun & H);
      rewrite Hrun; clear Hrun; run;
      cbn [llvmFunction set_llvmFunction set_stack] in H
  end.

Lemma EMIT_STORE_OP_run valueTypeId llvmMemoryType naturalAlignmentLog2 c imm s
    value byteIndex rest :
  stack s = value :: byteIndex :: rest →
  outerStackSizeOfInnermost s + 2 ≤ length (stack s) →
  (Z.of_nat (length (stack s)) < 2 ^ 64)%Z →
  ∃ s' n,
    EMIT_STORE_OP valueTypeId llvmMemoryType naturalAlignmentLog2 (conversion c) imm s
    = Emitted tt s' ∧
    AccessesOnlyThrough (llvmFunction s) (llvmFunction s') (memoryBasePointerVariable s)
      byteIndex (offset imm) n (llvmMemoryType value).
Proof.
  intros Hs Hdepth Hsize.
  destruct s as [mc ft bts npl f lp cs bt st ts cts mb tb cp].
  cbn [stack llvmFunction memoryBasePointerVariable] in *. subst st.
  unfold EMIT_STORE_OP. run. run_pop Hdepth Hsize. run_pop Hdepth Hsize.
  run_coerce f2 He2 Hn2 Hcode. run_conversion f3 H3. run_create.
  eexists _, _. split; [reflexivity |]. cbn [llvmFunction].
  eapply (AccessesOnlyThrough_intro f f f2 f3 _ _);
    [apply Adds_refl | exact He2 | exact Hn2 | exact Hcode | exact H3
    | | | | | apply Adds_refl].
  - apply Appends_Insert_alter.
  - reflexivity.
  - cbn. rewrite lookup_alter_eq, lookup_insert_eq. reflexivity.
  - reflexivity.
Qed.

Lemma EMIT_ATOMIC_LOAD_OP_run valueTypeId llvmMemoryType naturalAlignmentLog2 c imm s
    byteIndex rest :
  stack s = byteIndex :: rest →
  outerStackSizeOfInnermost s + 1 ≤ length (stack s) →
  (Z.of_nat (length (stack s)) < 2 ^ 64)%Z →
  ((0 < naturalAlignmentLog2)%Z →
   HasIntrinsic s "misalignedAtomicTrap" (mkFunctionType [] [i32])) →
  ∃ s' n,
    EMIT_ATOMIC_LOAD_OP valueTypeId llvmMemoryType naturalAlignmentLog2 (conversion c) imm s
    = Emitted tt s' ∧
    AccessesOnlyThrough (llvmFunction s) (llvmFunction s') (memoryBasePointerVariable s)
      byteIndex (offset imm) n llvmMemoryType.
Proof.
  intros Hs Hdepth Hsize Hintrinsic.
  destruct s as [mc ft bts npl f lp cs bt st ts cts mb tb cp].
  cbn [stack llvmFunction memoryBasePointerVariable] in *. subst st.
  unfold EMIT_ATOMIC_LOAD_OP. run. run_pop Hdepth Hsize.
  run_trap Hintrinsic f1 H1. run_coerce f2 He2 Hn2 Hcode.
  run_create. run_conversion f5 H5. run_create.
  eexists _, _. split; [reflexivity |]. cbn [llvmFunction].
  eapply (AccessesOnlyThrough_intro f f1 f2 f2 _ f5);
    [exact H1 | exact He2 | exact Hn2 | exact Hcode | apply Adds_refl
    | | | | | exact H5].
  - apply Appends_Insert_alter.
  - reflexivity.
  - cbn. rewrite lookup_alter_eq, lookup_insert_eq. reflexivity.
  - reflexivity.
Qed.

Lemma EMIT_ATOMIC_STORE_OP_run valueTypeId llvmMemoryType naturalAlignmentLog2 c imm s
    value byteIndex rest :
  stack s = value :: byteIndex :: rest →
  outerStackSizeOfInnermost s + 2 ≤ length (stack s) →
  (Z.of_nat (length (stack s)) < 2 ^ 64)%Z →
  ((0 < naturalAlignmentLog2)%Z →
   HasIntrinsic s "misalignedAtomicTrap" (mkFunctionType [] [i32])) →
  ∃ s' n,
    EMIT_ATOMIC_STORE_OP valueTypeId llvmMemoryType naturalAlignmentLog2 (conversion c) imm s
    = Emitted tt s' ∧
    AccessesOnlyThrough (llvmFunction s) (llvmFunction s') (memoryBasePointerVariable s)
      byteIndex (offset imm) n llvmMemoryType.
Proof.
  intros Hs Hdepth Hsize Hintrinsic.
  destruct s as [mc ft bts npl f lp cs bt st ts cts mb tb cp].
  cbn [stack llvmFunction memoryBasePointerVariable] in *. subst st.
  unfold EMIT_ATOMIC_STORE_OP. run. run_pop Hdepth Hsize. run_pop Hdepth Hsize.
  run_trap Hintrinsic f1 H1. run_coerce f2 He2 Hn2 Hcode.
  run_conversion f3 H3. run_create.
  eexists _, _. split; [reflexivity |]. cbn [llvmFunction].
  eapply (AccessesOnlyThrough_intro f f1 f2 f3 _ _);
    [exact H1 | exact He2 | exact Hn2 | exact Hcode | exact H3
    | | | | | apply Adds_refl].
  - apply Appends_Insert_alter.
  - reflexivity.
  - cbn. rewrite lookup_alter_eq, lookup_insert_eq. reflexivity.
  - reflexivity.
Qed.

Lemma EMIT_ATOMIC_CMPXCHG_run valueTypeId llvmMemoryType naturalAlignmentLog2 c1 c2 imm s
    replacement expected byteIndex rest :
  stack s = replacement :: expected :: byteIndex :: rest →
  outerStackSizeOfInnermost s + 3 ≤ length (stack s) →
  (Z.of_nat (length (stack s)) < 2 ^ 64)%Z →
  ((0 < naturalAlignmentLog2)%Z →
   HasIntrinsic s "misalignedAtomicTrap" (mkFunctionType [] [i32])) →
  ∃ s' n,
    EMIT_ATOMIC_CMPXCHG valueTypeId llvmMemoryType naturalAlignmentLog2 (conversion c1)
      (conversion c2) imm s = Emitted tt s' ∧
    AccessesOnlyThrough (llvmFunction s) (llvmFunction s') (memoryBasePointerVariable s)
      byteIndex (offset imm) n llvmMemoryType.
Proof.
  intros Hs Hdepth Hsize Hintrinsic.
  destruct s as [mc ft bts npl f lp cs bt st ts cts mb tb cp].
  cbn [stack llvmFunction memoryBasePointerVariable] in *. subst st.
  unfold EMIT_ATOMIC_CMPXCHG. run. run_pop Hdepth Hsize. run_conversion fa Ha.
  run_pop Hdepth Hsize. run_conversion fb Hb. run_pop Hdepth Hsize.
  run_trap Hintrinsic f1 H1. run_coerce f2 He2 Hn2 Hcode.
  run_create. run_conversion f5 H5. run_create.
  eexists _, _. split; [reflexivity |]. cbn [llvmFunction].
  match goal with
  | |- context [<[nextInstruction f2 := ?i]> (instructions f2)] =>
      eapply (AccessesOnlyThrough_intro f f1 f2 f2 (Insert i f2).2 f5)
  end;
    [exact (Adds_trans _ _ _ _ Ha (Adds_trans _ _ _ _ Hb H1))
    | exact He2 | exact Hn2 | exact Hcode | apply Adds_refl
    | apply Appends_Insert | reflexivity | apply lookup_insert_eq | reflexivity |].
  eapply Adds_trans; [| exact H5]. apply Adds_Insert. reflexivity.
Qed.

Lemma EMIT_ATOMIC_RMW_run valueTypeId rmwOpId llvmMemoryType naturalAlignmentLog2 c1 c2 imm s
    operand byteIndex rest :
  stack s = operand :: byteIndex :: rest →
  outerStackSizeOfInnermost s + 2 ≤ length (stack s) →
  (Z.of_nat (length (stack s)) < 2 ^ 64)%Z →
  ((0 < naturalAlignmentLog2)%Z →
   HasIntrinsic s "misalignedAtomicTrap" (mkFunctionType [] [i32])) →
  ∃ s' n,
    EMIT_ATOMIC_RMW valueTypeId rmwOpId llvmMemoryType naturalAlignmentLog2 (conversion c1)
      (conversion c2) imm s = Emitted tt s' ∧
    AccessesOnlyThrough (llvmFunction s) (llvmFunction s') (memoryBasePointerVariable s)
      byteIndex (offset imm) n llvmMemoryType.
Proof.
  intros Hs Hdepth Hsize Hintrinsic.
  destruct s as [mc ft bts npl f lp cs bt st ts cts mb tb cp].
  cbn [stack llvmFunction memoryBasePointerVariable] in *. subst st.
  unfold EMIT_ATOMIC_RMW. run. run_pop Hdepth Hsize. run_conversion fa Ha.
  run_pop Hdepth Hsize.
  run_trap Hintrinsic f1 H1. run_coerce f2 He2 Hn2 Hcode.
  run_create. run_conversion f5 H5. run_create.
  eexists _, _. split; [reflexivity |]. cbn [llvmFunction].
  match goal with
  | |- context [<[nextInstruction f2 := ?i]> (instructions f2)] =>
      eapply (AccessesOnlyThrough_intro f f1 f2 f2 (Insert i f2).2 f5)
  end;
    [exact (Adds_trans _ _ _ _ Ha H1)
    | exact He2 | exact Hn2 | exact Hcode | apply Adds_refl
    | apply Appends_Insert | reflexivity | apply lookup_insert_eq | reflexivity
    | exact H5].
Qed.

(** The atomic operators, which check the alignment of the address. *)
Definition isAtomic (op : MemoryOperator) : bool :=
  match op with
  | LOAD_OP _ _ _ _ | STORE_OP _ _ _ _ => false
  | _ => true
  end.

(** C1: the address of every memory access.  Whatever the memory operator
    (load, store, atomic load, store, compare-exchange or read-modify-write,
    with any memory type, alignment and conversions), with its operands on
    the operand stack it completes, and among the instructions it adds are
    those of the address computation for the byte index it popped and its
    static offset: the byte index is zero-extended to 64 bits, the offset,
    when there is one, is zero-extended too and added, and the sum indexes
    the memory base; none of them is a sign extension.  There is an access
    through the pointer so computed, and every other instruction the
    operator adds either accesses memory through that same pointer or does
    not address or access memory at all: no access goes through another
    address.  The instructions that were there before are left as they
    were.  Executed with any 32-bit value [i] of the byte index, the
    computation feeds [i + offset] (both unsigned) to the [getelementptr]
    and yields the pointer [base + i + offset]. *)
Theorem memory_access_zero_extends_the_address (op : MemoryOperator) (imm : LoadOrStoreImm)
    (s : EmitFunctionContext) (values rest : list Value) (byteIndex : Value) :
  stack s = values ++ byteIndex :: rest → length values = valueOperands op →
  outerStackSizeOfInnermost s + length values + 1 ≤ length (stack s) →
  (Z.of_nat (length (stack s)) < 2 ^ 64)%Z →
  (isAtomic op = true → HasIntrinsic s "misalignedAtomicTrap" (mkFunctionType [] [i32])) →
  WellNumbered (llvmFunction s) →
  ∃ (s' : EmitFunctionContext) (n : nat) (memoryType : Type_),
    let code :=
      addressInstructions byteIndex (offset imm) (memoryBasePointerVariable s) memoryType n in
    let pointer := addressPointer (offset imm) memoryType n in
    emitMemoryOperator op imm s = Emitted tt s' ∧
    nextInstruction (llvmFunction s) ≤ n ∧
    (∀ id, id < nextInstruction (llvmFunction s) →
       instructions (llvmFunction s') !! id = instructions (llvmFunction s) !! id) ∧
    HasInstructions (llvmFunction s') n code ∧
    (∀ id instr,
       n ≤ id < n + length code → instructions (llvmFunction s') !! id = Some instr →
       isSExt instr = false) ∧
    (∃ access instr,
       n + length code ≤ access < nextInstruction (llvmFunction s') ∧
       instructions (llvmFunction s') !! access = Some instr ∧
       accessPointer instr = Some pointer) ∧
    (∀ id instr,
       nextInstruction (llvmFunction s) ≤ id →
       instructions (llvmFunction s') !! id = Some instr →
       n ≤ id < n + length code ∨
       accessPointer instr = Some pointer ∨
       isMemoryInstruction instr = false) ∧
    ∀ (env : Env) (i base : Z) (slot : nat) (jump : nat → Env → Outcome) (b : nat),
      evalValue env byteIndex = Some (RInt 32 i) → (0 <= i < 2 ^ 32)%Z →
      (0 <= offset imm < 2 ^ 32)%Z →
      evalValue env (memoryBasePointerVariable s) = Some (RPointer (StackSlot slot)) →
      slots env !! slot = Some (RPointer (Address base)) →
      definedBefore (nextInstruction (llvmFunction s)) byteIndex →
      definedBefore (nextInstruction (llvmFunction s)) (memoryBasePointerVariable s) →
      ∃ env',
        execInstructions (llvmFunction s') jump b env (seq n (length code))
        = Fallthrough b env' ∧
        evalValue env' (addressIndex (offset imm) n) = Some (RInt 64 (i + offset imm)) ∧
        evalValue env' pointer = Some (RPointer (Address (base + i + offset imm))).
Proof.
  intros Hs Hlen Hdepth Hsize Hintrinsic Hnumbered.
  assert (∃ s' n memoryType,
            emitMemoryOperator op imm s = Emitted tt s' ∧
            AccessesOnlyThrough (llvmFunction s) (llvmFunction s')
              (memoryBasePointerVariable s) byteIndex (offset imm) n memoryType)
    as (s' & n & memoryType & Hrun & Haccess).
  { destruct op; cbn [valueOperands isAtomic emitMemoryOperator] in *;
      repeat (destruct values as [|? values]; try discriminate);
      cbn [app length] in Hs, Hdepth.
    - edestruct EMIT_LOAD_OP_run as (s' & n & Hrun & H); [exact Hs | lia | exact Hsize |].
      exists s', n; eexists; split; [exact Hrun | exact H].
    - edestruct EMIT_STORE_OP_run as (s' & n & Hrun & H); [exact Hs | lia | exact Hsize |].
      exists s', n; eexists; split; [exact Hrun | exact H].
    - edestruct EMIT_ATOMIC_LOAD_OP_run as (s' & n & Hrun & H);
        [exact Hs | lia | exact Hsize | intros _; exact (Hintrinsic eq_refl) |].
      exists s', n; eexists; split; [exact Hrun | exact H].
    - edestruct EMIT_ATOMIC_STORE_OP_run as (s' & n & Hrun & H);
        [exact Hs | lia | exact Hsize | intros _; exact (Hintrinsic eq_refl) |].
      exists s', n; eexists; split; [exact Hrun | exact H].
    - edestruct EMIT_ATOMIC_CMPXCHG_run as (s' & n & Hrun & H);
        [exact Hs | lia | exact Hsize | intros _; exact (Hintrinsic eq_refl) |].
      exists s', n; eexists; split; [exact Hrun | exact H].
    - edestruct EMIT_ATOMIC_RMW_run as (s' & n & Hrun & H);
        [exact Hs | lia | exact Hsize | intros _; exact (Hintrinsic eq_refl) |].
      exists s', n; eexists; split; [exact Hrun | exact H]. }
  exists s', n, memoryType. cbv zeta.
  destruct Haccess as (Hn & Hold & Hcode & Hone & Hw & Hall).
  split; [exact Hrun |]. split; [exact Hn |]. split; [exact Hold |].
  split; [exact Hcode |].
  split.
  { intros id instr Hid Hinstr.
    destruct (lookup_lt_is_Some_2
                (addressInstructions byteIndex (offset imm) (memoryBasePointerVariable s)
                   memoryType n) (id - n)) as [instr' Hj]; [lia |].
    pose proof (Hcode _ _ Hj) as Hat. replace (n + (id - n)) with id in Hat by lia.
    rewrite Hinstr in Hat. injection Hat as ->.
    pose proof (addressInstructions_never_sign_extend byteIndex (offset imm)
                  (memoryBasePointerVariable s) memoryType n) as Hnone.
    eapply Forall_lookup_1 in Hnone; [| exact Hj]. apply Hnone. }
  split; [exact Hone |].
  split.
  { intros id instr Hid Hinstr. apply (Hall id instr); [| exact Hinstr].
    split; [exact Hid |]. destruct (decide (id < nextInstruction (llvmFunction s')));
      [assumption |].
    rewrite (Hw Hnumbered id) in Hinstr by lia. discriminate Hinstr. }
  intros env i base slot jump b Hindex Hi Hoffset Hbase Hslot Hdi Hdb.
  destruct (addressInstructions_compute (llvmFunction s') n byteIndex (offset imm)
              (memoryBasePointerVariable s) memoryType env i base slot jump b)
    as (env' & Hexec & Hidx & Hptr & _); try assumption.
  - eapply definedBefore_mono; [exact Hdi | exact Hn].
  - eapply definedBefore_mono; [exact Hdb | exact Hn].
  - exists env'. done.
Qed.

Lemma memory_access_zero_extends_the_address_witness :
  (∃ s' n memoryType env',
     emitMemoryOperator (LOAD_OP i32 llvmI8Type 0 ConversionOp.sext_) (mkLoadOrStoreImm 0 16)
       (exampleContext (mkFunctionType [i32] [i32]) [Argument 0 llvmI32Type])
     = Emitted tt s' ∧
     execInstructions (llvmFunction s') (λ _ _, Undefined) 1
       (exampleEnv [RInt 32 4294967295] 65536)
       (seq n (length (addressInstructions (Argument 0 llvmI32Type) 16
                         (InstValue 0 (PointerTy llvmI8PtrType)) memoryType n)))
     = Fallthrough 1 env' ∧
     evalValue env' (addressIndex 16 n) = Some (RInt 64 4294967311) ∧
     evalValue env' (addressPointer 16 memoryType n)
     = Some (RPointer (Address 4295032847))) ∧
  (∃ s' n memoryType env',
     emitMemoryOperator
       (ATOMIC_RMW i32 RMWAdd llvmI32Type 2 ConversionOp.identity_ ConversionOp.identity_)
       (mkLoadOrStoreImm 2 0)
       (exampleContext (mkFunctionType [i32] [i32; i32])
          [Argument 1 llvmI32Type; Argument 0 llvmI32Type])
     = Emitted tt s' ∧
     execInstructions (llvmFunction s') (λ _ _, Undefined) 1
       (exampleEnv [RInt 32 2147483648; RInt 32 1] 65536)
       (seq n (length (addressInstructions (Argument 0 llvmI32Type) 0
                         (InstValue 0 (PointerTy llvmI8PtrType)) memoryType n)))
     = Fallthrough 1 env' ∧
     evalValue env' (addressIndex 0 n) = Some (RInt 64 2147483648) ∧
     evalValue env' (addressPointer 0 memoryType n)
     = Some (RPointer (Address 2147549184))).
Proof.
  split.
  - destruct (memory_access_zero_extends_the_address
                (LOAD_OP i32 llvmI8Type 0 ConversionOp.sext_) (mkLoadOrStoreImm 0 16)
                (exampleContext (mkFunctionType [i32] [i32]) [Argument 0 llvmI32Type])
                [] [] (Argument 0 llvmI32Type))
      as (s' & n & memoryType & Hrun & _ & _ & _ & _ & _ & _ & Hcompute);
      [reflexivity | reflexivity | vm_compute; lia | vm_compute; reflexivity
      | intros H; discriminate H | intros id Hid; cbn in Hid |- *; rewrite lookup_insert_ne by lia; apply lookup_empty |].
    destruct (Hcompute (exampleEnv [RInt 32 4294967295] 65536) 4294967295%Z 65536%Z 0
                (λ _ _, Undefined) 1)
      as (env' & Hexec & Hindex & Hpointer);
      [reflexivity | lia | simpl; lia | reflexivity | reflexivity | exact I | simpl; lia |].
    exists s', n, memoryType, env'. split; [exact Hrun |].
    split; [exact Hexec |]. split; [exact Hindex | exact Hpointer].
  - destruct (memory_access_zero_extends_the_address
                (ATOMIC_RMW i32 RMWAdd llvmI32Type 2 ConversionOp.identity_
                   ConversionOp.identity_)
                (mkLoadOrStoreImm 2 0)
                (exampleContext (mkFunctionType [i32] [i32; i32])
                   [Argument 1 llvmI32Type; Argument 0 llvmI32Type])
                [Argument 1 llvmI32Type] [] (Argument 0 llvmI32Type))
      as (s' & n & memoryType & Hrun & _ & _ & _ & _ & _ & _ & Hcompute);
      [reflexivity | reflexivity | vm_compute; lia | vm_compute; reflexivity
      | intros _; eexists; split; reflexivity | intros id Hid; cbn in Hid |- *; rewrite lookup_insert_ne by lia; apply lookup_empty |].
    destruct (Hcompute (exampleEnv [RInt 32 2147483648; RInt 32 1] 65536) 2147483648%Z
                65536%Z 0 (λ _ _, Undefined) 1)
      as (env' & Hexec & Hindex & Hpointer);
      [reflexivity | lia | simpl; lia | reflexivity | reflexivity | exact I | simpl; lia |].
    exists s', n, memoryType, env'. split; [exact Hrun |].
    split; [exact Hexec |]. split; [exact Hindex | exact Hpointer].
Defined.

(** ** The S-expression parser *)

Module SExpProperties.
Import Stdlib.Strings.Ascii Stdlib.Strings.String.
Import SExp.
Local Open Scope char_scope.

Definition noSymbols : SymbolIndexMap := λ _, None.

(** A text between quotes. *)
Definition quoted (text : string) : string :=
  String quote (text ++ String quote EmptyString).

Lemma parser_bind {A B} (m : Parser A) (k : A → Parser B) state :
  (m ≫= k) state =
  match m state with
  | Returned a state' => k a state'
  | Thrown e => Thrown e
  | Undefined => Undefined
  | OutOfFuel => OutOfFuel
  end.
Proof. reflexivity. Qed.

(** Runs the parser in the goal up to its next operation. *)
Ltac prun :=
  repeat first
    [ rewrite parser_bind
    | progress cbn beta iota delta [mret Parser_ret getLocus getState setState remaining peek
                                    next locus] ].

(** The canonical quiet NaN and the positive infinity of the two formats. *)
Definition canonicalNaN64 : Float64 := F64Components false 2047 (2 ^ 51).
Definition canonicalNaN32 : Float32 := F32Components false 255 (2 ^ 22).
Definition positiveInfinity64 : Float64 := F64Components false 2047 0.
Definition positiveInfinity32 : Float32 := F32Components false 255 0.

(** The locus [n] characters further on the line. *)
Definition afterCharacters (n : nat) (l : TextFileLocus) : TextFileLocus :=
  mkTextFileLocus (newlines l) (tabs l) (characters l + n).

(** A token: symbol characters up to the end of the token; the end of the
    input, which the code takes for a symbol character, is not among them. *)
Fixpoint isToken (token : string) : bool :=
  match token with
  | EmptyString => true
  | String c rest => isSymbolCharacter c && negb (c =? NUL) && isToken rest
  end.

Lemma append_cons c s1 s2 : (String c s1 ++ s2)%string = String c (s1 ++ s2)%string.
Proof. reflexivity. Qed.

Lemma append_nil s : (EmptyString ++ s)%string = s.
Proof. reflexivity. Qed.

Lemma append_assoc s1 s2 s3 : ((s1 ++ s2) ++ s3)%string = (s1 ++ (s2 ++ s3))%string.
Proof. induction s1 as [|c s1 IH]; [reflexivity |]. rewrite !append_cons, IH. reflexivity. Qed.

Lemma advance_symbol_character c rest l :
  isSymbolCharacter c = true → (c =? NUL) = false →
  advance (mkStreamState (String c rest) l)
  = Returned tt (mkStreamState rest (afterCharacters 1 l)).
Proof.
  intros Hc Hnul. unfold advance. cbn [next locus]. rewrite Hnul.
  unfold isSymbolCharacter, isWhitespace in Hc.
  destruct (c =? newline) eqn:E1; [rewrite !orb_true_r in Hc; discriminate |].
  destruct (c =? tab) eqn:E2; [rewrite orb_true_r in Hc; discriminate |].
  unfold afterCharacters. rewrite Nat.add_1_r. reflexivity.
Qed.

Lemma afterCharacters_add n m l :
  afterCharacters n (afterCharacters m l) = afterCharacters (m + n) l.
Proof. unfold afterCharacters. cbn. f_equal. lia. Qed.

(** The loop of [parseSymbol] reads a token up to the character that ends
    it. *)
Lemma parseSymbolLoop_token (token : string) :
  ∀ (fuel : nat) (text : string) (first c : ascii) (rest : string) (l : TextFileLocus),
  isToken (String first token) = true → isSymbolCharacter c = false →
  String.length token < fuel →
  parseSymbolLoop fuel text (mkStreamState (String first token ++ String c rest) l)
  = Returned (text ++ String first token)%string
      (mkStreamState (String c rest) (afterCharacters (S (String.length token)) l)).
Proof.
  induction token as [|second token IH]; intros fuel text first c rest l Htoken Hc Hfuel;
    (destruct fuel as [|fuel]; [cbn in Hfuel; lia |]);
    cbn [isToken] in Htoken; apply andb_prop in Htoken as [Hfirst Htoken];
    apply andb_prop in Hfirst as [Hsymbol Hnul]; apply negb_true_iff in Hnul.
  - cbn [parseSymbolLoop]. rewrite ?append_cons, ?append_nil. prun.
    rewrite (advance_symbol_character _ _ _ Hsymbol Hnul). prun. rewrite Hc.
    reflexivity.
  - cbn [parseSymbolLoop]. rewrite ?append_cons, ?append_nil. prun.
    rewrite (advance_symbol_character _ _ _ Hsymbol Hnul). prun.
    assert (isSymbolCharacter second = true) as Hsecond.
    { cbn [isToken] in Htoken. apply andb_prop in Htoken as [H _].
      apply andb_prop in H as [H _]. exact H. }
    rewrite Hsecond.
    rewrite <- append_cons.
    rewrite IH; [| exact Htoken | exact Hc | cbn in Hfuel; lia].
    rewrite afterCharacters_add. unfold appendChar.
    rewrite append_assoc. reflexivity.
Qed.

Lemma bind_Returned {A B} (m : Parser A) (k : A → Parser B) state b state' :
  (m ≫= k) state = Returned b state' →
  ∃ a state1, m state = Returned a state1 ∧ k a state1 = Returned b state'.
Proof.
  rewrite parser_bind. destruct (m state) as [a state1| | |]; try discriminate.
  intros H. exists a, state1. done.
Qed.

Definition isFloatOrError (node : Node) : bool :=
  match node with
  | Float _ _ _ _ | Error _ _ => true
  | _ => false
  end.

(** Whatever follows, [parseNaN] returns a floating point number or an
    error. *)
Lemma parseNaN_returns_float_or_error startLocus isNegative state node state' :
  parseNaN startLocus isNegative state = Returned node state' →
  isFloatOrError node = true.
Proof.
  unfold parseNaN. intros H.
  apply bind_Returned in H as (c & s1 & _ & H).
  destruct (c =? "(").
  - apply bind_Returned in H as (? & s2 & _ & H).
    apply bind_Returned in H as (matched & s3 & _ & H).
    destruct matched; cbn [negb] in H.
    + apply bind_Returned in H as ([n significandBits] & s4 & _ & H).
      destruct (n =? 0)%Z; [inversion H; reflexivity |].
      destruct (significandBits =? 0)%Z; [inversion H; reflexivity |].
      apply bind_Returned in H as (c' & s5 & _ & H).
      destruct (negb (c' =? ")")); inversion H; reflexivity.
    + apply bind_Returned in H as (? & s4 & _ & H). inversion H. reflexivity.
  - inversion H. reflexivity.
Qed.

(** C10, as the code has it: a symbol token that is exactly [nan] and is
    followed by a character other than an opening parenthesis (a character
    that ends the token, so not the end of the input either) is returned as a
    floating point node holding the canonical quiet NaN of both formats; a
    token that is exactly [infinity] as one holding positive infinity.
    Whatever follows a token [nan], what [parseSymbol] returns for it is a
    floating point node or an error node, never a symbol. *)
Theorem bare_nan_and_infinity_are_floats (symbolIndexMap : SymbolIndexMap)
    (parseValue : Parser (option Node)) (l : TextFileLocus) (c : ascii) (rest : string) :
  isSymbolCharacter c = false →
  (c ≠ "(" →
   parseSymbol symbolIndexMap parseValue (mkStreamState ("nan" ++ String c rest) l)
   = Returned (Float l (afterCharacters 3 l) canonicalNaN64 canonicalNaN32)
       (mkStreamState (String c rest) (afterCharacters 3 l))) ∧
  parseSymbol symbolIndexMap parseValue (mkStreamState ("infinity" ++ String c rest) l)
  = Returned (Float l (afterCharacters 8 l) positiveInfinity64 positiveInfinity32)
      (mkStreamState (String c rest) (afterCharacters 8 l)) ∧
  (∀ node state',
     parseSymbol symbolIndexMap parseValue (mkStreamState ("nan" ++ String c rest) l)
     = Returned node state' →
     isFloatOrError node = true).
Proof.
  intros Hc.
  assert (parseSymbol symbolIndexMap parseValue (mkStreamState ("nan" ++ String c rest) l)
          = parseNaN l false (mkStreamState (String c rest) (afterCharacters 3 l))) as Hnan.
  { unfold parseSymbol. prun.
    rewrite (parseSymbolLoop_token "an" _ "" "n" c rest l);
      [| reflexivity | exact Hc
       | rewrite ?append_cons, ?append_nil; cbn [String.length]; lia].
    reflexivity. }
  split; [| split].
  - intros Hparen. rewrite Hnan. unfold parseNaN. prun.
    destruct (c =? "(") eqn:E; [apply Ascii.eqb_eq in E; contradiction | reflexivity].
  - unfold parseSymbol. prun.
    rewrite (parseSymbolLoop_token "nfinity" _ "" "i" c rest l);
      [| reflexivity | exact Hc
       | rewrite ?append_cons, ?append_nil; cbn [String.length]; lia].
    reflexivity.
  - intros node state' H. rewrite Hnan in H.
    eapply parseNaN_returns_float_or_error. exact H.
Qed.

Lemma bare_nan_and_infinity_are_floats_witness :
  (")" ≠ "(" →
   parseSymbol noSymbols (parseNode noSymbols 0)
     (mkStreamState ("nan" ++ String ")" "") (mkTextFileLocus 0 0 1))
   = Returned (Float (mkTextFileLocus 0 0 1) (afterCharacters 3 (mkTextFileLocus 0 0 1))
                 canonicalNaN64 canonicalNaN32)
       (mkStreamState (String ")" "") (afterCharacters 3 (mkTextFileLocus 0 0 1)))) ∧
  parseSymbol noSymbols (parseNode noSymbols 0)
    (mkStreamState ("infinity" ++ String ")" "") (mkTextFileLocus 0 0 1))
  = Returned (Float (mkTextFileLocus 0 0 1) (afterCharacters 8 (mkTextFileLocus 0 0 1))
                positiveInfinity64 positiveInfinity32)
      (mkStreamState (String ")" "") (afterCharacters 8 (mkTextFileLocus 0 0 1))) ∧
  (∀ node state',
     parseSymbol noSymbols (parseNode noSymbols 0)
       (mkStreamState ("nan" ++ String ")" "") (mkTextFileLocus 0 0 1))
     = Returned node state' →
     isFloatOrError node = true).
Proof.
  apply (bare_nan_and_infinity_are_floats noSymbols (parseNode noSymbols 0)
           (mkTextFileLocus 0 0 1) ")" "").
  reflexivity.
Defined.

(** The token is [nan] and a payload follows it: the node is a NaN with that
    payload, not the canonical one. *)
Lemma bare_nan_with_payload_counterexample :
  parseSymbolLoop 9 "" (mkStreamState "nan(0x5) " (mkTextFileLocus 0 0 0))
  = Returned "nan"%string (mkStreamState "(0x5) " (mkTextFileLocus 0 0 3)) ∧
  parse 4 "nan(0x5) " noSymbols
  = Returned [Float (mkTextFileLocus 0 0 0) (mkTextFileLocus 0 0 8)
                (F64Components false 2047 5) (F32Components false 255 5)]
      (mkStreamState "" (mkTextFileLocus 0 0 9)) ∧
  F64Components false 2047 5 ≠ canonicalNaN64 ∧
  F32Components false 255 5 ≠ canonicalNaN32.
Proof. repeat split; try (vm_compute; reflexivity); discriminate. Qed.

(** The token [nan] at the very end of the input: the end of the input
    counts as a symbol character, and stepping over it is a fatal error. *)
Example bare_nan_at_end_of_input :
  parse 3 "nan" noSymbols
  = Returned [Error (mkTextFileLocus 0 0 3) "unexpected end of file"]
      (mkStreamState "nan" (mkTextFileLocus 0 0 0)).
Proof. vm_compute. reflexivity. Qed.

(** A payload that is not a hexadecimal number: an error node. *)
Example bare_nan_with_bad_payload :
  parse 4 "nan(foo) " noSymbols
  = Returned [Error (mkTextFileLocus 0 0 8) "expected hexadecimal NaN significand"]
      (mkStreamState "" (mkTextFileLocus 0 0 9)).
Proof. vm_compute. reflexivity. Qed.

(** *** Errors and exceptions *)

(** [parse] hands no exception on: what is thrown inside is caught. *)
Lemma parse_never_throws fuel text symbolIndexMap e :
  parse fuel text symbolIndexMap ≠ Thrown e.
Proof. unfold parse. destruct (parseNodeSequence _ _ _); discriminate. Qed.

(** A fatal error becomes the one node returned, an error node with the
    message and the locus of the exception. *)
Lemma parse_reports_fatal_error fuel text symbolIndexMap e :
  parseNodeSequence symbolIndexMap fuel (mkStreamState text (mkTextFileLocus 0 0 0))
  = Thrown e →
  ∃ state, parse fuel text symbolIndexMap
           = Returned [Error (fatalLocus e) (message e)] state.
Proof. intros H. unfold parse. rewrite H. eexists. reflexivity. Qed.

(** The number at a lone [.] consumes nothing. *)
Lemma parseNode_dot symbolIndexMap fuel l :
  parseNode symbolIndexMap (S fuel) (mkStreamState "." l)
  = Returned (Some (UnsignedInt l l 0)) (mkStreamState "." l).
Proof. vm_compute. reflexivity. Qed.

Lemma parseNodeSequence_dot symbolIndexMap l fuel :
  parseNodeSequence symbolIndexMap fuel (mkStreamState "." l) = OutOfFuel.
Proof.
  induction fuel as [|fuel IH]; [reflexivity |].
  cbn [parseNodeSequence]. rewrite parser_bind.
  destruct fuel as [|fuel]; [reflexivity |].
  rewrite parseNode_dot. rewrite parser_bind, IH. reflexivity.
Qed.

(** C9, where the code departs from it: on the input [.] the parser never
    returns.  [parseNumber] consumes nothing of it and returns an integer
    node; [parseNodeSequence] asks for the next node in the same state, again
    and again.  No amount of fuel lets [parse] return a tree or an error
    node. *)
Theorem parse_never_returns_on_dot (fuel : nat) (symbolIndexMap : SymbolIndexMap) :
  parse fuel "." symbolIndexMap = OutOfFuel.
Proof. unfold parse. rewrite parseNodeSequence_dot. reflexivity. Qed.

(** *** Recovery from a malformed string *)

Definition peekAt (state : StreamState) : ascii :=
  match next state with
  | String c _ => c
  | EmptyString => NUL
  end.

Lemma advance_returns state :
  (peekAt state =? NUL) = false →
  ∃ state', advance state = Returned tt state' ∧
    String.length (next state) = S (String.length (next state')).
Proof.
  unfold peekAt, advance. destruct state as [[|c rest] l]; cbn [next locus].
  - discriminate.
  - intros ->. destruct (c =? newline); [| destruct (c =? tab)];
      eexists; split; reflexivity.
Qed.

Lemma advancePastNextLoop_returns (c : ascii) (fuel : nat) :
  ∀ (parenthesesDepth : N) (state : StreamState),
  String.length (next state) < fuel →
  ∃ found state', advancePastNextLoop fuel c parenthesesDepth state = Returned found state' ∧
    String.length (next state') ≤ String.length (next state).
Proof.
  induction fuel as [|fuel IH]; intros depth state Hfuel; [lia |].
  cbn [advancePastNextLoop]. prun. fold (peekAt state).
  destruct (peekAt state =? NUL) eqn:Hnul; [eexists _, _; split; [reflexivity | lia] |].
  destruct (advance_returns state Hnul) as (state1 & Hadvance & Hlen).
  assert (∀ depth', ∃ found state',
            (advance ≫= λ _, advancePastNextLoop fuel c depth') state = Returned found state' ∧
            String.length (next state') ≤ String.length (next state)) as Hstep.
  { intros depth'. rewrite parser_bind, Hadvance.
    destruct (IH depth' state1) as (found & state' & Hrun & Hle); [lia |].
    exists found, state'. split; [exact Hrun | lia]. }
  destruct ((peekAt state =? c) && (depth =? 0)%N).
  { rewrite parser_bind, Hadvance. eexists _, _. split; [reflexivity |]. cbn. lia. }
  destruct (peekAt state =? "("); [apply Hstep |].
  destruct (peekAt state =? ")"); [| apply Hstep].
  destruct (depth =? 0)%N; [eexists _, _; split; [reflexivity | lia] | apply Hstep].
Qed.

Lemma advancePastNext_returns c state :
  ∃ found state', advancePastNext c state = Returned found state' ∧
    String.length (next state') ≤ String.length (next state).
Proof.
  unfold advancePastNext. prun. apply advancePastNextLoop_returns. lia.
Qed.

Lemma parseHexit_not_NUL c value : parseHexit c = Some value → (c =? NUL) = false.
Proof. destruct (Ascii.eqb_spec c NUL) as [->|]; [discriminate | reflexivity]. Qed.

(** An escape code is read without running into the end of the input; when
    there is one, the stream is left at a character to step over. *)
Lemma parseCharEscapeCode_returns state :
  ∃ escaped state', parseCharEscapeCode state = Returned escaped state' ∧
    String.length (next state') ≤ String.length (next state) ∧
    (is_Some escaped → (peekAt state' =? NUL) = false).
Proof.
  unfold parseCharEscapeCode. prun. fold (peekAt state).
  destruct (Ascii.eqb_spec (peekAt state) "n") as [E|_];
    [eexists _, _; split; [reflexivity |]; split; [lia | intros _; rewrite E; reflexivity] |].
  destruct (Ascii.eqb_spec (peekAt state) "t") as [E|_];
    [eexists _, _; split; [reflexivity |]; split; [lia | intros _; rewrite E; reflexivity] |].
  destruct (Ascii.eqb_spec (peekAt state) backslash) as [E|_];
    [eexists _, _; split; [reflexivity |]; split; [lia | intros _; rewrite E; reflexivity] |].
  destruct (Ascii.eqb_spec (peekAt state) apostrophe) as [E|_];
    [eexists _, _; split; [reflexivity |]; split; [lia | intros _; rewrite E; reflexivity] |].
  destruct (Ascii.eqb_spec (peekAt state) quote) as [E|_];
    [eexists _, _; split; [reflexivity |]; split; [lia | intros _; rewrite E; reflexivity] |].
  destruct (parseHexit (peekAt state)) as [firstValue|] eqn:Hfirst.
  - destruct (advance_returns state (parseHexit_not_NUL _ _ Hfirst))
      as (state1 & Hadvance & Hlen).
    rewrite parser_bind, Hadvance. prun. fold (peekAt state1).
    destruct (parseHexit (peekAt state1)) as [secondValue|] eqn:Hsecond.
    + eexists _, _. split; [reflexivity |]. split; [lia |]. intros _.
      eapply parseHexit_not_NUL. exact Hsecond.
    + eexists _, _. split; [reflexivity |]. split; [lia |]. intros [? ?]. discriminate.
  - eexists _, _. split; [reflexivity |]. split; [lia |]. intros [? ?]. discriminate.
Qed.

Definition isStringOrError (node : Node) : bool :=
  match node with
  | String_ _ _ _ | Error _ _ => true
  | _ => false
  end.

Lemma parseQuotedStringLoop_returns (fuel : nat) :
  ∀ (text : string) (state : StreamState),
  String.length (next state) < fuel →
  ∃ node state', parseQuotedStringLoop fuel text state = Returned node state' ∧
    isStringOrError node = true.
Proof.
  induction fuel as [|fuel IH]; intros text state Hfuel; [lia |].
  cbn [parseQuotedStringLoop]. prun. fold (peekAt state).
  destruct (peekAt state =? NUL) eqn:Hnul.
  { rewrite orb_true_r. prun.
    destruct (advancePastNext_returns quote state) as (found & state' & Hskip & _).
    rewrite Hskip. eexists _, _. split; reflexivity. }
  rewrite orb_false_r.
  destruct (peekAt state =? newline).
  { prun. destruct (advancePastNext_returns quote state) as (found & state' & Hskip & _).
    rewrite Hskip. eexists _, _. split; reflexivity. }
  destruct (advance_returns state Hnul) as (state1 & Hadvance & Hlen).
  destruct (peekAt state =? backslash).
  - rewrite parser_bind, Hadvance.
    destruct (parseCharEscapeCode_returns state1) as (escaped & state2 & Hescape & Hle & Hpeek).
    rewrite parser_bind, Hescape. destruct escaped as [escapedChar|].
    + destruct (advance_returns state2 (Hpeek ltac:(eexists; reflexivity)))
        as (state3 & Hadvance3 & Hlen3).
      rewrite parser_bind, Hadvance3. apply IH. lia.
    + prun. destruct (advancePastNext_returns quote state2) as (found & state' & Hskip & _).
      rewrite Hskip. eexists _, _. split; reflexivity.
  - rewrite parser_bind, Hadvance. destruct (peekAt state =? quote).
    + eexists _, _. split; reflexivity.
    + apply IH. lia.
Qed.

(** A quoted string, well formed or not, is read without an exception: the
    node is the string, or an error. *)
Lemma parseQuotedString_returns state :
  peekAt state = quote →
  ∃ node state', parseQuotedString state = Returned node state' ∧
    isStringOrError node = true.
Proof.
  intros Hquote. unfold parseQuotedString.
  destruct (advance_returns state) as (state1 & Hadvance & _);
    [rewrite Hquote; reflexivity |].
  rewrite parser_bind, Hadvance. prun. apply parseQuotedStringLoop_returns. lia.
Qed.

(** A bad escape: an error node, and the parser resumes after the closing
    quote. *)
Example bad_escape_is_an_error_node :
  ∃ l1 l2 l3 l4 l5 l6 l7 state,
    parse 10 ("(a " ++ quoted "x\q y" ++ " b)") noSymbols
    = Returned
        [Tree l1 l2
           [UnindexedSymbol l3 l4 "a";
            Error l5 "invalid escape code in quoted string";
            UnindexedSymbol l6 l7 "b"]]
        state.
Proof. eexists _, _, _, _, _, _, _, _. vm_compute. reflexivity. Qed.

(** An unterminated string: an error node, and the parser resumes at the
    closing parenthesis of the enclosing tree. *)
Example unterminated_string_is_an_error_node :
  ∃ l1 l2 l3 l4 l5 l6 l7 state,
    parse 10 ("((a " ++ String quote ("x" ++ String newline " (y) z) b)")) noSymbols
    = Returned
        [Tree l1 l2
           [Tree l3 l4
              [UnindexedSymbol l5 l6 "a";
               Error l7 "unexpected newline or end of file in quoted string"];
            UnindexedSymbol (mkTextFileLocus 1 0 8) (mkTextFileLocus 1 0 9) "b"]]
        state.
Proof. eexists _, _, _, _, _, _, _, _. vm_compute. reflexivity. Qed.

(** A fatal error: the whole result is one error node. *)
Example unexpected_end_of_file_is_an_error_node :
  parse 10 "(a (b c)" noSymbols
  = Returned
      [Error (mkTextFileLocus 0 0 8)
         "expected ')' following S-expression child nodes but found '('"]
      (mkStreamState "(a (b c)" (mkTextFileLocus 0 0 0)).
Proof. vm_compute. reflexivity. Qed.

(** With enough fuel a well-formed input is parsed. *)
Example parse_module :
  ∃ nodes state,
    parse 20 "(module (func (result i32) (i32.const 42)))" noSymbols = Returned nodes state ∧
    List.length nodes = 1.
Proof. eexists _, _. split; vm_compute; reflexivity. Qed.

End SExpProperties.

(** ** Integer operators *)

Lemma land_31 (r : Z) : Z.land r 31 = (r mod 32)%Z.
Proof. exact (Z.land_ones r 5 ltac:(lia)). Qed.

Lemma land_63 (r : Z) : Z.land r 63 = (r mod 64)%Z.
Proof. exact (Z.land_ones r 6 ltac:(lia)). Qed.

Lemma evalBinary_shift (op : BinaryOps) (bits l count : Z) :
  (0 <= count < bits)%Z →
  evalBinary op (RInt bits l) (RInt bits count)
  = match op with
    | Shl => Value_ (RInt bits (wrap bits (Z.shiftl l count)))
    | LShr => Value_ (RInt bits (Z.shiftr l count))
    | AShr => Value_ (RInt bits (wrap bits (Z.shiftr (signed bits l) count)))
    | _ => evalBinary op (RInt bits l) (RInt bits count)
    end.
Proof.
  intros H. destruct op; try reflexivity; simpl; rewrite Z.eqb_refl; simpl;
    rewrite (proj2 (Z.leb_gt bits count)) by lia; reflexivity.
Qed.

(** The shift operators, with the instruction each of them emits. *)
Inductive IsShift : Emit unit → ValueType → BinaryOps → Prop :=
| is_i32_shl : IsShift i32_shl i32 Shl
| is_i64_shl : IsShift i64_shl i64 Shl
| is_i32_shr_s : IsShift i32_shr_s i32 AShr
| is_i64_shr_s : IsShift i64_shr_s i64 AShr
| is_i32_shr_u : IsShift i32_shr_u i32 LShr
| is_i64_shr_u : IsShift i64_shr_u i64 LShr.

(** X1. The shift operators take the count modulo the bit width: [shl],
    [shr_s] and [shr_u] mask the count before they shift, so that the shift
    emitted never shifts by the bit width or more (which would leave its
    result undefined), and their result is the operand pushed first shifted by
    the count modulo 32 or 64: to the left, to the right with the sign bit
    copied, or to the right with zeros. *)
Theorem shifts_take_the_count_modulo_the_width (operator : Emit unit) (type : ValueType)
    (op : BinaryOps) (s : EmitFunctionContext)
    (left right : Value) (rest : list Value) (b0 : nat) (B0 : BasicBlock)
    (env : Env) (l r : Z) (fuel : nat) :
  let bits := getTypeBitWidth type in
  IsShift operator type op →
  HoldsOperands s [right; left] rest →
  EmitsInto s b0 B0 →
  evalValue env left = Some (RInt bits l) →
  evalValue env right = Some (RInt bits r) →
  ∃ s' result code,
    operator s = Emitted tt s' ∧
    stack s' = result :: rest ∧
    AppendedTo s s' b0 B0 code ∧
    TrapsOrYields (execFrom (llvmFunction s') fuel b0 env code) None result
      (RInt bits
         match op with
         | Shl => wrap bits (Z.shiftl l (r mod bits))
         | AShr => wrap bits (Z.shiftr (signed bits l) (r mod bits))
         | _ => Z.shiftr l (r mod bits)
         end).
Proof.
  intros bits Hshift Hops Hinto Hl Hr.
  open_context s Hinto Hops.
  apply Forall_cons in Hdefined as [Hright Hdefined].
  apply Forall_cons in Hdefined as [Hleft _].
  destruct Hshift; subst bits; cbn [getTypeBitWidth] in *.
  all: unfold i32_shl, i64_shl, i32_shr_s, i64_shr_s, i32_shr_u, i64_shr_u,
         emitShiftCountMask, CreateShl, CreateAShr, CreateLShr.
  all: emit_unfold; emit_pop; emit_pop.
  all: cbn [getTypeBitWidth]; norm_literals.
  all: emitted_code Hb0.
  all: exec_cast f'; exec_binary f'.
  all: erewrite exec_cons by solve_inst f'.
  all: rewrite ?land_31, ?land_63.
  all: erewrite step_binary;
         [ | solve_eval | solve_eval
           | rewrite evalBinary_shift by (apply Z.mod_pos_bound; lia); reflexivity ].
  all: rewrite exec_nil; eexists _, _; split; [reflexivity | solve_eval].
Qed.

Lemma shifts_take_the_count_modulo_the_width_witness :
  ∃ s' result code,
    i32_shl
      (exampleContext (mkFunctionType [i32] [i32; i32])
         [Argument 1 llvmI32Type; Argument 0 llvmI32Type])
    = Emitted tt s' ∧
    stack s' = [result] ∧
    AppendedTo
      (exampleContext (mkFunctionType [i32] [i32; i32])
         [Argument 1 llvmI32Type; Argument 0 llvmI32Type])
      s' 1 (mkBasicBlock "entry" [0]) code ∧
    TrapsOrYields
      (execFrom (llvmFunction s') 0 1 (exampleEnv [RInt 32 3; RInt 32 33] 65536) code)
      None result (RInt 32 6).
Proof.
  apply (shifts_take_the_count_modulo_the_width i32_shl i32 Shl
           (exampleContext (mkFunctionType [i32] [i32; i32])
              [Argument 1 llvmI32Type; Argument 0 llvmI32Type])
           (Argument 0 llvmI32Type) (Argument 1 llvmI32Type) [] 1
           (mkBasicBlock "entry" [0]) (exampleEnv [RInt 32 3; RInt 32 33] 65536) 3 33 0).
  - constructor.
  - repeat split; try (vm_compute; lia); repeat constructor.
  - repeat split; try (vm_compute; lia); vm_compute; reflexivity.
  - reflexivity.
  - reflexivity.
Defined.

(** The comparison operators, with the relation each of them decides on the
    values of its operands, read as unsigned numbers of [bits] bits. *)
Inductive IsComparison : Emit unit → ValueType → (Z → Z → Z → bool) → Prop :=
| is_i32_eq : IsComparison i32_eq i32 (λ bits l r, (l =? r)%Z)
| is_i64_eq : IsComparison i64_eq i64 (λ bits l r, (l =? r)%Z)
| is_i32_ne : IsComparison i32_ne i32 (λ bits l r, negb (l =? r)%Z)
| is_i64_ne : IsComparison i64_ne i64 (λ bits l r, negb (l =? r)%Z)
| is_i32_lt_s : IsComparison i32_lt_s i32 (λ bits l r, (signed bits l <? signed bits r)%Z)
| is_i64_lt_s : IsComparison i64_lt_s i64 (λ bits l r, (signed bits l <? signed bits r)%Z)
| is_i32_lt_u : IsComparison i32_lt_u i32 (λ bits l r, (l <? r)%Z)
| is_i64_lt_u : IsComparison i64_lt_u i64 (λ bits l r, (l <? r)%Z)
| is_i32_le_s : IsComparison i32_le_s i32 (λ bits l r, (signed bits l <=? signed bits r)%Z)
| is_i64_le_s : IsComparison i64_le_s i64 (λ bits l r, (signed bits l <=? signed bits r)%Z)
| is_i32_le_u : IsComparison i32_le_u i32 (λ bits l r, (l <=? r)%Z)
| is_i64_le_u : IsComparison i64_le_u i64 (λ bits l r, (l <=? r)%Z)
| is_i32_gt_s : IsComparison i32_gt_s i32 (λ bits l r, (signed bits r <? signed bits l)%Z)
| is_i64_gt_s : IsComparison i64_gt_s i64 (λ bits l r, (signed bits r <? signed bits l)%Z)
| is_i32_gt_u : IsComparison i32_gt_u i32 (λ bits l r, (r <? l)%Z)
| is_i64_gt_u : IsComparison i64_gt_u i64 (λ bits l r, (r <? l)%Z)
| is_i32_ge_s : IsComparison i32_ge_s i32 (λ bits l r, (signed bits r <=? signed bits l)%Z)
| is_i64_ge_s : IsComparison i64_ge_s i64 (λ bits l r, (signed bits r <=? signed bits l)%Z)
| is_i32_ge_u : IsComparison i32_ge_u i32 (λ bits l r, (r <=? l)%Z)
| is_i64_ge_u : IsComparison i64_ge_u i64 (λ bits l r, (r <=? l)%Z).

(** X2. The comparison operators push an [i32] that is 1 when the relation
    holds between the operand pushed first and the operand pushed second, and
    0 when it does not, for 32-bit and for 64-bit operands alike. *)
Theorem comparisons_yield_one_or_zero (operator : Emit unit) (type : ValueType)
    (relation : Z → Z → Z → bool) (s : EmitFunctionContext)
    (left right : Value) (rest : list Value) (b0 : nat) (B0 : BasicBlock)
    (env : Env) (l r : Z) (fuel : nat) :
  let bits := getTypeBitWidth type in
  IsComparison operator type relation →
  HoldsOperands s [right; left] rest →
  EmitsInto s b0 B0 →
  evalValue env left = Some (RInt bits l) →
  evalValue env right = Some (RInt bits r) →
  ∃ s' result code,
    operator s = Emitted tt s' ∧
    stack s' = result :: rest ∧
    getType result = llvmI32Type ∧
    AppendedTo s s' b0 B0 code ∧
    TrapsOrYields (execFrom (llvmFunction s') fuel b0 env code) None result
      (RInt 32 (if relation bits l r then 1 else 0)).
Proof.
  intros bits Hcmp Hops Hinto Hl Hr.
  open_context s Hinto Hops.
  apply Forall_cons in Hdefined as [Hright Hdefined].
  apply Forall_cons in Hdefined as [Hleft _].
  destruct Hcmp; subst bits; cbn [getTypeBitWidth] in *.
  all: unfold i32_eq, i64_eq, i32_ne, i64_ne, i32_lt_s, i64_lt_s, i32_lt_u, i64_lt_u, i32_le_s, i64_le_s, i32_le_u, i64_le_u, i32_gt_s, i64_gt_s, i32_gt_u, i64_gt_u, i32_ge_s, i64_ge_s, i32_ge_u, i64_ge_u,
         coerceBoolToI32, CreateICmpSLT, CreateICmpULT, CreateICmpSLE, CreateICmpULE, CreateICmpSGT, CreateICmpUGT, CreateICmpSGE, CreateICmpUGE, CreateICmp.
  all: emit_unfold; emit_pop; emit_pop.
  all: eexists _, _, _; split; [reflexivity|]; split; [reflexivity|];
         split; [reflexivity|].
  all: unfold AppendedTo; emit_unfold; split;
         [ map_lookup; rewrite Hb0; unfold appendToBlock;
           cbn [fmap option_fmap option_map bbName bbInstructions];
           rewrite <- ?app_assoc; reflexivity | ].
  all: match goal with |- context [execFrom ?f _ _ _ _] => set (f' := f) end;
         simpl app; rewrite execFrom_eq.
  all: exec_cmp f'; cbv beta iota.
  all: erewrite exec_cons by solve_inst f'.
  all: erewrite step_cast; [ | solve_eval | reflexivity ].
  all: rewrite exec_nil; eexists _, _; split; [reflexivity |].
  all: cbv beta iota delta [evalValue setRegister registers]; map_lookup.
  all: repeat match goal with |- context [if ?b then _ else _] => destruct b end;
         reflexivity.
Qed.

Lemma comparisons_yield_one_or_zero_witness :
  ∃ s' result code,
    i32_lt_s
      (exampleContext (mkFunctionType [i32] [i32; i32])
         [Argument 1 llvmI32Type; Argument 0 llvmI32Type])
    = Emitted tt s' ∧
    stack s' = [result] ∧
    getType result = llvmI32Type ∧
    AppendedTo
      (exampleContext (mkFunctionType [i32] [i32; i32])
         [Argument 1 llvmI32Type; Argument 0 llvmI32Type])
      s' 1 (mkBasicBlock "entry" [0]) code ∧
    TrapsOrYields
      (execFrom (llvmFunction s') 0 1
         (exampleEnv [RInt 32 4294967295; RInt 32 2] 65536) code)
      None result (RInt 32 1).
Proof.
  apply (comparisons_yield_one_or_zero i32_lt_s i32
           (λ bits l r, (signed bits l <? signed bits r)%Z)
           (exampleContext (mkFunctionType [i32] [i32; i32])
              [Argument 1 llvmI32Type; Argument 0 llvmI32Type])
           (Argument 0 llvmI32Type) (Argument 1 llvmI32Type) [] 1
           (mkBasicBlock "entry" [0])
           (exampleEnv [RInt 32 4294967295; RInt 32 2] 65536) 4294967295 2 0).
  - constructor.
  - repeat split; try (vm_compute; lia); repeat constructor.
  - repeat split; try (vm_compute; lia); vm_compute; reflexivity.
  - reflexivity.
  - reflexivity.
Defined.

(** The arithmetic and bitwise operators, with the function each of them
    computes on the values of its operands. *)
Inductive IsArithmetic : Emit unit → ValueType → (Z → Z → Z → Z) → Prop :=
| is_i32_add : IsArithmetic i32_add i32 (λ bits l r, wrap bits (l + r))%Z
| is_i64_add : IsArithmetic i64_add i64 (λ bits l r, wrap bits (l + r))%Z
| is_i32_sub : IsArithmetic i32_sub i32 (λ bits l r, wrap bits (l - r))%Z
| is_i64_sub : IsArithmetic i64_sub i64 (λ bits l r, wrap bits (l - r))%Z
| is_i32_mul : IsArithmetic i32_mul i32 (λ bits l r, wrap bits (l * r))%Z
| is_i64_mul : IsArithmetic i64_mul i64 (λ bits l r, wrap bits (l * r))%Z
| is_i32_and : IsArithmetic i32_and i32 (λ bits l r, Z.land l r)%Z
| is_i64_and : IsArithmetic i64_and i64 (λ bits l r, Z.land l r)%Z
| is_i32_or : IsArithmetic i32_or i32 (λ bits l r, Z.lor l r)%Z
| is_i64_or : IsArithmetic i64_or i64 (λ bits l r, Z.lor l r)%Z
| is_i32_xor : IsArithmetic i32_xor i32 (λ bits l r, Z.lxor l r)%Z
| is_i64_xor : IsArithmetic i64_xor i64 (λ bits l r, Z.lxor l r)%Z.

(** X3. Addition, subtraction and multiplication wrap around at the bit
    width, and subtraction takes the operand pushed second from the operand
    pushed first; the bitwise operators work on the bit patterns. *)
Theorem arithmetic_wraps_around (operator : Emit unit) (type : ValueType)
    (function : Z → Z → Z → Z) (s : EmitFunctionContext)
    (left right : Value) (rest : list Value) (b0 : nat) (B0 : BasicBlock)
    (env : Env) (l r : Z) (fuel : nat) :
  let bits := getTypeBitWidth type in
  IsArithmetic operator type function →
  HoldsOperands s [right; left] rest →
  EmitsInto s b0 B0 →
  evalValue env left = Some (RInt bits l) →
  evalValue env right = Some (RInt bits r) →
  ∃ s' result code,
    operator s = Emitted tt s' ∧
    stack s' = result :: rest ∧
    AppendedTo s s' b0 B0 code ∧
    TrapsOrYields (execFrom (llvmFunction s') fuel b0 env code) None result
      (RInt bits (function bits l r)).
Proof.
  intros bits Hop Hops Hinto Hl Hr.
  open_context s Hinto Hops.
  apply Forall_cons in Hdefined as [Hright Hdefined].
  apply Forall_cons in Hdefined as [Hleft _].
  destruct Hop; subst bits; cbn [getTypeBitWidth] in *.
  all: unfold i32_add, i64_add, i32_sub, i64_sub, i32_mul, i64_mul, i32_and, i64_and, i32_or, i64_or, i32_xor, i64_xor, CreateMul, CreateXor.
  all: emit_unfold; emit_pop; emit_pop.
  all: emitted_code Hb0.
  all: exec_binary f'.
  all: rewrite exec_nil; eexists _, _; split; [reflexivity | solve_eval].
Qed.

Lemma arithmetic_wraps_around_witness :
  ∃ s' result code,
    i32_sub
      (exampleContext (mkFunctionType [i32] [i32; i32])
         [Argument 1 llvmI32Type; Argument 0 llvmI32Type])
    = Emitted tt s' ∧
    stack s' = [result] ∧
    AppendedTo
      (exampleContext (mkFunctionType [i32] [i32; i32])
         [Argument 1 llvmI32Type; Argument 0 llvmI32Type])
      s' 1 (mkBasicBlock "entry" [0]) code ∧
    TrapsOrYields
      (execFrom (llvmFunction s') 0 1 (exampleEnv [RInt 32 2; RInt 32 3] 65536) code)
      None result (RInt 32 4294967295).
Proof.
  apply (arithmetic_wraps_around i32_sub i32 (λ bits l r, wrap bits (l - r))%Z
           (exampleContext (mkFunctionType [i32] [i32; i32])
              [Argument 1 llvmI32Type; Argument 0 llvmI32Type])
           (Argument 0 llvmI32Type) (Argument 1 llvmI32Type) [] 1
           (mkBasicBlock "entry" [0]) (exampleEnv [RInt 32 2; RInt 32 3] 65536) 2 3 0).
  - constructor.
  - repeat split; try (vm_compute; lia); repeat constructor.
  - repeat split; try (vm_compute; lia); vm_compute; reflexivity.
  - reflexivity.
  - reflexivity.
Defined.

Lemma evalBinary_unsigned_division (op : BinaryOps) (bits l r : Z) :
  (r =? 0)%Z = false →
  evalBinary op (RInt bits l) (RInt bits r)
  = match op with
    | UDiv => Value_ (RInt bits (l / r))
    | URem => Value_ (RInt bits (l mod r))
    | _ => evalBinary op (RInt bits l) (RInt bits r)
    end.
Proof.
  intros H. destruct op; try reflexivity; simpl; rewrite Z.eqb_refl; simpl;
    rewrite H; reflexivity.
Qed.

(** The unsigned division and remainder operators, with the instruction each
    of them emits. *)
Inductive IsUnsignedDivision : Emit unit → ValueType → BinaryOps → Prop :=
| is_i32_div_u : IsUnsignedDivision i32_div_u i32 UDiv
| is_i64_div_u : IsUnsignedDivision i64_div_u i64 UDiv
| is_i32_rem_u : IsUnsignedDivision i32_rem_u i32 URem
| is_i64_rem_u : IsUnsignedDivision i64_rem_u i64 URem.

(** X4. The code emitted for [div_u] and [rem_u] calls the [divideByZeroOrIntegerOverflowTrap]
    intrinsic, before the division is executed, exactly when the divisor is 0;
    for every other divisor it reaches the end of the emitted code with the
    unsigned quotient or remainder pushed on the operand stack. *)
Theorem unsigned_division_traps_on_zero (operator : Emit unit) (type : ValueType)
    (op : BinaryOps) (s : EmitFunctionContext)
    (left right : Value) (rest : list Value) (b0 : nat) (B0 : BasicBlock)
    (env : Env) (l r : Z) (fuel : nat) :
  let bits := getTypeBitWidth type in
  IsUnsignedDivision operator type op →
  HoldsOperands s [right; left] rest →
  EmitsInto s b0 B0 →
  HasIntrinsic s "divideByZeroOrIntegerOverflowTrap" (mkFunctionType [] []) →
  evalValue env left = Some (RInt bits l) →
  evalValue env right = Some (RInt bits r) →
  ∃ s' result code,
    operator s = Emitted tt s' ∧
    stack s' = result :: rest ∧
    AppendedTo s s' b0 B0 code ∧
    TrapsOrYields (execFrom (llvmFunction s') (S fuel) b0 env code)
      (if (r =? 0)%Z then Some "divideByZeroOrIntegerOverflowTrap"%string else None)
      result (RInt bits match op with UDiv => l / r | _ => l mod r end).
Proof.
  intros bits Hop Hops Hinto (fi & Hwavm & Hfi) Hl Hr.
  open_context s Hinto Hops.
  apply Forall_cons in Hdefined as [Hright Hdefined].
  apply Forall_cons in Hdefined as [Hleft _].
  destruct Hop; subst bits; cbn [getTypeBitWidth] in *.
  all: unfold i32_div_u, i64_div_u, i32_rem_u, i64_rem_u.
  all: emit_unfold; emit_pop; emit_pop; emit_intrinsic Hwavm Hfi.
  all: destruct ts as [|t ts]; emit_unfold.
  all: emitted_code Hb0.
  all: exec_cmp f'; exec_condbr f'.
  all: destruct (Z.eqb_spec r 0) as [Ez|Ez].
  all: decide_branch; enter_block f'.
  all: erewrite enterPHIs_done; [ | solve_inst f' | reflexivity ].
  all: rewrite execFrom_eq.
  all: first
    [ exec_trap f'; eexists; reflexivity
    | erewrite exec_cons by solve_inst f';
      erewrite step_binary;
      [ | solve_eval | solve_eval
        | rewrite evalBinary_unsigned_division by (apply Z.eqb_neq; lia); reflexivity ];
      rewrite exec_nil; eexists _, _; split; [ reflexivity | solve_eval ] ].
Qed.

Lemma unsigned_division_traps_on_zero_witness :
  ∃ s' result code,
    i32_rem_u
      (exampleContext (mkFunctionType [i32] [i32; i32])
         [Argument 1 llvmI32Type; Argument 0 llvmI32Type])
    = Emitted tt s' ∧
    stack s' = [result] ∧
    AppendedTo
      (exampleContext (mkFunctionType [i32] [i32; i32])
         [Argument 1 llvmI32Type; Argument 0 llvmI32Type])
      s' 1 (mkBasicBlock "entry" [0]) code ∧
    TrapsOrYields
      (execFrom (llvmFunction s') 1 1 (exampleEnv [RInt 32 4294967295; RInt 32 0] 65536) code)
      (Some "divideByZeroOrIntegerOverflowTrap"%string) result (RInt 32 (4294967295 mod 0)).
Proof.
  apply (unsigned_division_traps_on_zero i32_rem_u i32 URem
           (exampleContext (mkFunctionType [i32] [i32; i32])
              [Argument 1 llvmI32Type; Argument 0 llvmI32Type])
           (Argument 0 llvmI32Type) (Argument 1 llvmI32Type) [] 1
           (mkBasicBlock "entry" [0])
           (exampleEnv [RInt 32 4294967295; RInt 32 0] 65536) 4294967295 0 0).
  - constructor.
  - repeat split; try (vm_compute; lia); repeat constructor.
  - repeat split; try (vm_compute; lia); vm_compute; reflexivity.
  - eexists; split; reflexivity.
  - reflexivity.
  - reflexivity.
Defined.

(** X5. [eqz] pushes an [i32] that is 1 when the operand is zero and 0 when
    it is not, for a 32-bit and for a 64-bit operand alike. *)
Theorem eqz_yields_one_or_zero (type : ValueType) (s : EmitFunctionContext)
    (operand : Value) (rest : list Value) (b0 : nat) (B0 : BasicBlock)
    (env : Env) (x : Z) (fuel : nat) :
  let bits := getTypeBitWidth type in
  type = i32 ∨ type = i64 →
  HoldsOperands s [operand] rest →
  EmitsInto s b0 B0 →
  evalValue env operand = Some (RInt bits x) →
  ∃ s' result code,
    match type with i32 => i32_eqz | _ => i64_eqz end s = Emitted tt s' ∧
    stack s' = result :: rest ∧
    getType result = llvmI32Type ∧
    AppendedTo s s' b0 B0 code ∧
    TrapsOrYields (execFrom (llvmFunction s') fuel b0 env code) None result
      (RInt 32 (if (x =? 0)%Z then 1 else 0)).
Proof.
  intros bits Htype Hops Hinto Hx.
  open_context s Hinto Hops.
  apply Forall_cons in Hdefined as [Hoperand _].
  destruct Htype; subst type bits; cbn [getTypeBitWidth] in *.
  all: unfold i32_eqz, i64_eqz, coerceBoolToI32.
  all: emit_unfold; emit_pop.
  all: eexists _, _, _; split; [reflexivity|]; split; [reflexivity|];
         split; [reflexivity|].
  all: unfold AppendedTo; emit_unfold; split;
         [ map_lookup; rewrite Hb0; unfold appendToBlock;
           cbn [fmap option_fmap option_map bbName bbInstructions];
           rewrite <- ?app_assoc; reflexivity | ].
  all: match goal with |- context [execFrom ?f _ _ _ _] => set (f' := f) end;
         simpl app; rewrite execFrom_eq.
  all: exec_cmp f'; cbv beta iota.
  all: erewrite exec_cons by solve_inst f'.
  all: erewrite step_cast; [ | solve_eval | reflexivity ].
  all: rewrite exec_nil; eexists _, _; split; [reflexivity |].
  all: cbv beta iota delta [evalValue setRegister registers]; map_lookup.
  all: destruct (x =? 0)%Z; reflexivity.
Qed.

Lemma eqz_yields_one_or_zero_witness :
  ∃ s' result code,
    i64_eqz
      (exampleContext (mkFunctionType [i32] [i64]) [Argument 0 llvmI64Type])
    = Emitted tt s' ∧
    stack s' = [result] ∧
    getType result = llvmI32Type ∧
    AppendedTo
      (exampleContext (mkFunctionType [i32] [i64]) [Argument 0 llvmI64Type])
      s' 1 (mkBasicBlock "entry" [0]) code ∧
    TrapsOrYields
      (execFrom (llvmFunction s') 0 1 (exampleEnv [RInt 64 0] 65536) code)
      None result (RInt 32 1).
Proof.
  apply (eqz_yields_one_or_zero i64
           (exampleContext (mkFunctionType [i32] [i64]) [Argument 0 llvmI64Type])
           (Argument 0 llvmI64Type) [] 1
           (mkBasicBlock "entry" [0]) (exampleEnv [RInt 64 0] 65536) 0 0).
  - right; reflexivity.
  - repeat split; try (vm_compute; lia); repeat constructor.
  - repeat split; try (vm_compute; lia); vm_compute; reflexivity.
  - reflexivity.
Defined.

(** X6. [select] pops the condition, then the value for a zero condition,
    then the value for a non-zero one, and pushes a value that is the third
    popped when the condition is not zero and the second popped when it is
    zero, whatever the type of the two values. *)
Theorem select_chooses_by_the_condition (s : EmitFunctionContext)
    (condition falseValue trueValue : Value) (rest : list Value) (b0 : nat)
    (B0 : BasicBlock) (env : Env) (c : Z) (t f : RVal) (fuel : nat) :
  HoldsOperands s [condition; falseValue; trueValue] rest →
  EmitsInto s b0 B0 →
  evalValue env condition = Some (RInt 32 c) →
  evalValue env trueValue = Some t →
  evalValue env falseValue = Some f →
  ∃ s' result code,
    select s = Emitted tt s' ∧
    stack s' = result :: rest ∧
    getType result = getType trueValue ∧
    AppendedTo s s' b0 B0 code ∧
    TrapsOrYields (execFrom (llvmFunction s') fuel b0 env code) None result
      (if (c =? 0)%Z then f else t).
Proof.
  intros Hops Hinto Hc Ht Hf.
  open_context s Hinto Hops.
  apply Forall_cons in Hdefined as [Hcondition Hdefined].
  apply Forall_cons in Hdefined as [HfalseValue Hdefined].
  apply Forall_cons in Hdefined as [HtrueValue _].
  unfold select, coerceI32ToBool.
  emit_unfold. emit_pop. emit_pop. emit_pop.
  eexists _, _, _; split; [reflexivity|]; split; [reflexivity|];
    split; [reflexivity|].
  unfold AppendedTo; emit_unfold; split;
    [ map_lookup; rewrite Hb0; unfold appendToBlock;
      cbn [fmap option_fmap option_map bbName bbInstructions];
      rewrite <- ?app_assoc; reflexivity | ].
  match goal with |- context [execFrom ?f _ _ _ _] => set (f' := f) end;
    simpl app; rewrite execFrom_eq.
  exec_cmp f'. cbv beta iota. exec_select f'.
  rewrite exec_nil; eexists _, _; split; [reflexivity |].
  cbv beta iota delta [evalValue setRegister registers]; map_lookup.
  destruct (c =? 0)%Z; reflexivity.
Qed.

Lemma select_chooses_by_the_condition_witness :
  ∃ s' result code,
    select
      (exampleContext (mkFunctionType [i32] [i32; i32; i32])
         [Argument 2 llvmI32Type; Argument 1 llvmI32Type; Argument 0 llvmI32Type])
    = Emitted tt s' ∧
    stack s' = [result] ∧
    getType result = llvmI32Type ∧
    AppendedTo
      (exampleContext (mkFunctionType [i32] [i32; i32; i32])
         [Argument 2 llvmI32Type; Argument 1 llvmI32Type; Argument 0 llvmI32Type])
      s' 1 (mkBasicBlock "entry" [0]) code ∧
    TrapsOrYields
      (execFrom (llvmFunction s') 0 1
         (exampleEnv [RInt 32 10; RInt 32 20; RInt 32 0] 65536) code)
      None result (RInt 32 20).
Proof.
  apply (select_chooses_by_the_condition
           (exampleContext (mkFunctionType [i32] [i32; i32; i32])
              [Argument 2 llvmI32Type; Argument 1 llvmI32Type; Argument 0 llvmI32Type])
           (Argument 2 llvmI32Type) (Argument 1 llvmI32Type) (Argument 0 llvmI32Type)
           [] 1 (mkBasicBlock "entry" [0])
           (exampleEnv [RInt 32 10; RInt 32 20; RInt 32 0] 65536) 0
           (RInt 32 10) (RInt 32 20) 0).
  - repeat split; try (vm_compute; lia); repeat constructor.
  - repeat split; try (vm_compute; lia); vm_compute; reflexivity.
  - reflexivity.
  - reflexivity.
  - reflexivity.
Defined.

(** Rotation of the [bits]-bit number [x] by [k] bits, [0 <= k < bits]. *)
Definition rotateLeft (bits x k : Z) : Z :=
  wrap bits (Z.lor (Z.shiftl x k) (Z.shiftr x (bits - k))).

Definition rotateRight (bits x k : Z) : Z :=
  wrap bits (Z.lor (Z.shiftr x k) (Z.shiftl x (bits - k))).

Lemma wrap_lor (bits a b : Z) :
  (0 <= bits)%Z → wrap bits (Z.lor a b) = Z.lor (wrap bits a) (wrap bits b).
Proof.
  intros H. unfold wrap. rewrite <- !Z.land_ones by lia.
  apply Z.land_lor_distr_l.
Qed.

Lemma wrap_small (bits a : Z) : (0 <= a < 2 ^ bits)%Z → wrap bits a = a.
Proof. intros H. apply Z.mod_small. exact H. Qed.

Lemma shiftr_small (bits x k : Z) :
  (0 <= k)%Z → (0 <= x < 2 ^ bits)%Z → (0 <= Z.shiftr x k < 2 ^ bits)%Z.
Proof.
  intros Hk Hx. rewrite Z.shiftr_div_pow2 by lia.
  assert (0 < 2 ^ k)%Z by (apply Z.pow_pos_nonneg; lia).
  split; [apply Z.div_pos; lia |].
  apply Z.le_lt_trans with x; [| lia]. apply Z.div_le_upper_bound; nia.
Qed.

(** The count of the opposite shift of a rotation, as the emitted code
    computes it: the bit width minus the count, wrapped and masked. *)
Lemma opposite_count (bits r : Z) :
  (0 < bits)%Z → (bits | 2 ^ bits)%Z →
  (wrap bits (bits - r) mod bits = (bits - r mod bits) mod bits)%Z.
Proof.
  intros Hbits Hdiv. unfold wrap.
  rewrite Z.mod_mod_divide by exact Hdiv.
  rewrite Zminus_mod_idemp_r. reflexivity.
Qed.

Lemma rotation_left (bits l r : Z) :
  (0 < bits)%Z → (bits | 2 ^ bits)%Z → (0 <= l < 2 ^ bits)%Z →
  Z.lor (wrap bits (Z.shiftl l (r mod bits)))
    (Z.shiftr l (wrap bits (bits - r) mod bits))
  = rotateLeft bits l (r mod bits).
Proof.
  intros Hbits Hdiv Hl. rewrite opposite_count by assumption.
  pose proof (Z.mod_pos_bound r bits Hbits) as Hk.
  unfold rotateLeft. rewrite wrap_lor by lia.
  destruct (Z.eq_dec (r mod bits)%Z 0%Z) as [E|E].
  - rewrite E, Z.sub_0_r, Z_mod_same_full, Z.shiftl_0_r, Z.shiftr_0_r.
    rewrite (Z.shiftr_div_pow2 l bits), Z.div_small by lia.
    rewrite (wrap_small bits l Hl), Z.lor_diag.
    unfold wrap at 1. rewrite Z.mod_0_l by lia. rewrite Z.lor_0_r. reflexivity.
  - rewrite (Z.mod_small (bits - r mod bits)) by lia.
    rewrite (wrap_small bits (Z.shiftr _ _)) by (apply shiftr_small; lia).
    reflexivity.
Qed.

Lemma rotation_right (bits l r : Z) :
  (0 < bits)%Z → (bits | 2 ^ bits)%Z → (0 <= l < 2 ^ bits)%Z →
  Z.lor (wrap bits (Z.shiftl l (wrap bits (bits - r) mod bits)))
    (Z.shiftr l (r mod bits))
  = rotateRight bits l (r mod bits).
Proof.
  intros Hbits Hdiv Hl. rewrite opposite_count by assumption.
  pose proof (Z.mod_pos_bound r bits Hbits) as Hk.
  unfold rotateRight. rewrite wrap_lor by lia. rewrite Z.lor_comm.
  rewrite (wrap_small bits (Z.shiftr _ _)) by (apply shiftr_small; lia).
  destruct (Z.eq_dec (r mod bits)%Z 0%Z) as [E|E].
  - rewrite E, Z.sub_0_r, Z_mod_same_full, Z.shiftl_0_r, Z.shiftr_0_r.
    rewrite (wrap_small bits l Hl), Z.lor_diag.
    rewrite Z.shiftl_mul_pow2 by lia. unfold wrap. rewrite Z_mod_mult.
    rewrite Z.lor_0_r. reflexivity.
  - rewrite (Z.mod_small (bits - r mod bits)) by lia. reflexivity.
Qed.

(** The rotation operators. *)
Inductive IsRotation : (EvaluationOrder → Emit unit) → ValueType → (Z → Z → Z → Z) → Prop :=
| is_i32_rotl : IsRotation i32_rotl i32 rotateLeft
| is_i64_rotl : IsRotation i64_rotl i64 rotateLeft
| is_i32_rotr : IsRotation i32_rotr i32 rotateRight
| is_i64_rotr : IsRotation i64_rotr i64 rotateRight.

(** X7. [rotl] and [rotr] rotate the operand pushed first by the operand
    pushed second, taken modulo the bit width: the two shifts they are made
    of never shift by the bit width or more, also for a count of zero, and
    this in whichever order the two shifts are emitted. *)
Theorem rotations_rotate_modulo_the_width (operator : EvaluationOrder → Emit unit)
    (order : EvaluationOrder) (type : ValueType) (rotate : Z → Z → Z → Z)
    (s : EmitFunctionContext)
    (left right : Value) (rest : list Value) (b0 : nat) (B0 : BasicBlock)
    (env : Env) (l r : Z) (fuel : nat) :
  let bits := getTypeBitWidth type in
  IsRotation operator type rotate →
  HoldsOperands s [right; left] rest →
  EmitsInto s b0 B0 →
  evalValue env left = Some (RInt bits l) →
  evalValue env right = Some (RInt bits r) →
  (0 <= l < 2 ^ bits)%Z →
  ∃ s' result code,
    operator order s = Emitted tt s' ∧
    stack s' = result :: rest ∧
    AppendedTo s s' b0 B0 code ∧
    TrapsOrYields (execFrom (llvmFunction s') fuel b0 env code) None result
      (RInt bits (rotate bits l (r mod bits)%Z)).
Proof.
  intros bits Hrotation Hops Hinto Hl Hr Hlr.
  open_context s Hinto Hops.
  apply Forall_cons in Hdefined as [Hright Hdefined].
  apply Forall_cons in Hdefined as [Hleft _].
  destruct Hrotation; destruct order; subst bits; cbn [getTypeBitWidth] in *.
  all: unfold i32_rotl, i64_rotl, i32_rotr, i64_rotr, emitRotl, emitRotr,
         evaluateArguments, emitShiftCountMask, CreateShl, CreateLShr.
  all: emit_unfold; emit_pop; emit_pop.
  all: cbn [getTypeBitWidth fst snd]; norm_literals.
  all: emitted_code Hb0.
  all: exec_cast f'; exec_binary f'; exec_cast f'; exec_binary f'.
  all: rewrite ?land_31, ?land_63.
  all: erewrite exec_cons by solve_inst f'.
  all: erewrite step_binary;
         [ | solve_eval | solve_eval
           | rewrite evalBinary_shift by (apply Z.mod_pos_bound; lia); reflexivity ].
  all: exec_cast f'; exec_binary f'.
  all: rewrite ?land_31, ?land_63.
  all: erewrite exec_cons by solve_inst f'.
  all: erewrite step_binary;
         [ | solve_eval | solve_eval
           | rewrite evalBinary_shift by (apply Z.mod_pos_bound; lia); reflexivity ].
  all: exec_binary f'.
  all: rewrite exec_nil; eexists _, _; split; [reflexivity |].
  all: cbv beta iota delta [evalValue setRegister registers]; map_lookup.
  all: do 2 f_equal.
  all: first [ apply (rotation_left 32) | apply (rotation_left 64)
             | apply (rotation_right 32) | apply (rotation_right 64) ];
         first [ lia | assumption | idtac ].
  all: first [ exists (2 ^ 27)%Z; reflexivity | exists (2 ^ 58)%Z; reflexivity ].
Qed.

Lemma rotations_rotate_modulo_the_width_witness :
  ∃ s' result code,
    i32_rotl secondArgumentFirst
      (exampleContext (mkFunctionType [i32] [i32; i32])
         [Argument 1 llvmI32Type; Argument 0 llvmI32Type])
    = Emitted tt s' ∧
    stack s' = [result] ∧
    AppendedTo
      (exampleContext (mkFunctionType [i32] [i32; i32])
         [Argument 1 llvmI32Type; Argument 0 llvmI32Type])
      s' 1 (mkBasicBlock "entry" [0]) code ∧
    TrapsOrYields
      (execFrom (llvmFunction s') 0 1
         (exampleEnv [RInt 32 2147483649; RInt 32 33] 65536) code)
      None result (RInt 32 3).
Proof.
  apply (rotations_rotate_modulo_the_width i32_rotl secondArgumentFirst i32 rotateLeft
           (exampleContext (mkFunctionType [i32] [i32; i32])
              [Argument 1 llvmI32Type; Argument 0 llvmI32Type])
           (Argument 0 llvmI32Type) (Argument 1 llvmI32Type) [] 1
           (mkBasicBlock "entry" [0])
           (exampleEnv [RInt 32 2147483649; RInt 32 33] 65536) 2147483649 33 0).
  - constructor.
  - repeat split; try (vm_compute; lia); repeat constructor.
  - repeat split; try (vm_compute; lia); vm_compute; reflexivity.
  - reflexivity.
  - reflexivity.
  - vm_compute; split; [discriminate | reflexivity].
Defined.

(** ** Entering control structures *)

(** The PHI nodes numbered from [n] on, one per type. *)
Fixpoint phisFrom (n : nat) (types : TypeTuple) : list Value :=
  match types with
  | [] => []
  | t :: rest => InstValue n (asLLVMType t) :: phisFrom (S n) rest
  end.

(** The instructions [insts] and PHI nodes without incoming values, numbered
    from [n] on, one per type. *)
Fixpoint withPHIs (n : nat) (types : TypeTuple) (insts : gmap nat Instruction)
  : gmap nat Instruction :=
  match types with
  | [] => insts
  | t :: rest => withPHIs (S n) rest (<[n := PHINode (asLLVMType t) []]> insts)
  end.

Lemma phisFrom_length n types : length (phisFrom n types) = length types.
Proof. revert n. induction types as [|t types IH]; intros n; simpl; [done | by rewrite IH]. Qed.

Lemma phisFrom_lookup types : ∀ n i t,
  types !! i = Some t → phisFrom n types !! i = Some (InstValue (n + i) (asLLVMType t)).
Proof.
  induction types as [|t' types IH]; intros n i t H; [done |].
  destruct i as [|i]; simpl in *.
  - inversion H. by rewrite Nat.add_0_r.
  - rewrite (IH (S n) i t H). do 2 f_equal. lia.
Qed.

Lemma withPHIs_old types : ∀ n insts id,
  id < n → withPHIs n types insts !! id = insts !! id.
Proof.
  induction types as [|t types IH]; intros n insts id H; [done |].
  simpl. rewrite IH by lia. apply lookup_insert_ne. lia.
Qed.

Lemma withPHIs_new types : ∀ n insts i t,
  types !! i = Some t →
  withPHIs n types insts !! (n + i) = Some (PHINode (asLLVMType t) []).
Proof.
  induction types as [|t' types IH]; intros n insts i t H; [done |].
  destruct i as [|i]; simpl in *.
  - inversion H. subst. rewrite Nat.add_0_r, withPHIs_old by lia. apply lookup_insert_eq.
  - replace (n + S i) with (S n + i) by lia. apply IH. exact H.
Qed.

Lemma createPHIsOfTypes_run (types : TypeTuple) :
  ∀ mc ft bts npl insts blocks order n nb b lp cs bt st ts cts mb tb cp name ids,
  blocks !! b = Some (mkBasicBlock name ids) →
  createPHIsOfTypes types
    (mkEmitFunctionContext mc ft bts npl (mkFunction insts blocks order n nb (Some b))
       lp cs bt st ts cts mb tb cp)
  = Emitted (phisFrom n types)
      (mkEmitFunctionContext mc ft bts npl
         (mkFunction (withPHIs n types insts)
            (<[b := mkBasicBlock name (ids ++ seq n (length types))]> blocks)
            order (n + length types) nb (Some b))
         lp cs bt st ts cts mb tb cp).
Proof.
  induction types as [|t types IH]; intros; cbn [createPHIsOfTypes].
  - run. cbn [phisFrom withPHIs length seq]. rewrite app_nil_r, Nat.add_0_r.
    rewrite insert_id by assumption. reflexivity.
  - run. cbv [CreatePHI Create irBuilder Insert llvmFunction set_llvmFunction
              insertBlock nextInstruction instructions basicBlocks blockOrder
              nextBasicBlock moduleContext functionType branchTables nonParameterLocalTypes
              localPointers controlStack branchTargetStack stack tryStack catchStack
              memoryBasePointerVariable tableBasePointerVariable contextPointerVariable].
    rewrite run_bind.
    erewrite IH
      by (rewrite lookup_alter_eq, H; unfold appendToBlock; cbn; reflexivity).
    run. cbn [phisFrom withPHIs length seq]. do 3 f_equal.
    + rewrite insert_alter_eq. rewrite <- app_assoc. reflexivity.
    + lia.
Qed.

Lemma createPHIs_run (types : TypeTuple) mc ft bts npl insts blocks order n nb b0 lp cs bt st
    ts cts mb tb cp basicBlock name ids :
  blocks !! basicBlock = Some (mkBasicBlock name ids) →
  createPHIs basicBlock types
    (mkEmitFunctionContext mc ft bts npl (mkFunction insts blocks order n nb (Some b0))
       lp cs bt st ts cts mb tb cp)
  = Emitted (phisFrom n types)
      (mkEmitFunctionContext mc ft bts npl
         (mkFunction (withPHIs n types insts)
            (<[basicBlock := mkBasicBlock name (ids ++ seq n (length types))]> blocks)
            order (n + length types) nb (Some b0))
         lp cs bt st ts cts mb tb cp).
Proof.
  intros H. unfold createPHIs. run.
  cbv [LLVMJIT.GetInsertBlock LLVM.GetInsertBlock get mbind Emit_bind mret Emit_ret
       llvmFunction insertBlock].
  cbv [LLVMJIT.SetInsertPoint irBuilder_ modify LLVM.SetInsertPoint set_llvmFunction
       llvmFunction insertBlock nextInstruction instructions basicBlocks blockOrder
       nextBasicBlock moduleContext functionType branchTables nonParameterLocalTypes
       localPointers controlStack branchTargetStack stack tryStack catchStack
       memoryBasePointerVariable tableBasePointerVariable contextPointerVariable].
  rewrite (createPHIsOfTypes_run types _ _ _ _ _ _ _ _ _ _ _ _ _ _ _ _ _ _ _ _ _ H).
  reflexivity.
Qed.

Lemma popMultiple_run (num : nat) (s : EmitFunctionContext) :
  outerStackSizeOfInnermost s + num ≤ length (stack s) →
  (Z.of_nat (length (stack s)) < 2 ^ 64)%Z →
  popMultiple num s
  = Emitted (reverse (take num (stack s))) (set_stack (drop num (stack s)) s).
Proof.
  intros Hdepth Hsize. unfold popMultiple. run.
  rewrite bool_decide_eq_true_2 by (apply Uptr_sub_ge; lia). run.
  rewrite decide_True by lia. reflexivity.
Qed.

Lemma pushMultiple_run (values : list Value) : ∀ s,
  pushMultiple values s = Emitted tt (set_stack (reverse values ++ stack s) s).
Proof.
  induction values as [|v values IH]; intros s; cbn [pushMultiple].
  - destruct s; reflexivity.
  - run. unfold push at 1. cbv [modify]. rewrite IH. destruct s.
    cbv [set_stack stack moduleContext functionType branchTables nonParameterLocalTypes
         llvmFunction localPointers controlStack branchTargetStack tryStack catchStack
         memoryBasePointerVariable tableBasePointerVariable contextPointerVariable].
    rewrite reverse_cons, <- app_assoc. reflexivity.
Qed.

(** X8. [block] leaves the operand stack as it is (the parameters of the
    block are popped and pushed back in their order), and emits nothing in the
    current block: it creates the end block, holding one PHI node without
    incoming values per result, and records a control context and a branch
    target for it; the context starts below the parameters of the block. *)
Theorem block_enters_a_context (imm : ControlStructureImm) (blockType : FunctionType)
    (s : EmitFunctionContext) (b0 : nat) (B0 : BasicBlock) :
  let f := llvmFunction s in
  let endBlock := nextBasicBlock f in
  let endPHIs := phisFrom (nextInstruction f) (results blockType) in
  resolveBlockType imm s = Emitted blockType s →
  EmitsInto s b0 B0 →
  (∀ current, head (controlStack s) = Some current → isReachable current = true) →
  outerStackSizeOfInnermost s + length (params blockType) ≤ length (stack s) →
  (Z.of_nat (length (stack s)) < 2 ^ 64)%Z →
  ∃ s',
    block imm s = Emitted tt s' ∧
    stack s' = stack s ∧
    controlStack s'
    = mkControlContext ControlContext.block endBlock endPHIs None [] (results blockType)
        (length (stack s) - length (params blockType)) (length (branchTargetStack s)) true
      :: controlStack s ∧
    branchTargetStack s'
    = BranchTarget.mk (results blockType) endBlock endPHIs :: branchTargetStack s ∧
    insertBlock (llvmFunction s') = Some b0 ∧
    basicBlocks (llvmFunction s') !! b0 = Some B0 ∧
    basicBlocks (llvmFunction s') !! endBlock
    = Some (mkBasicBlock "blockEnd"
              (seq (nextInstruction f) (length (results blockType)))) ∧
    ∀ i t, results blockType !! i = Some t →
      instructions (llvmFunction s') !! (nextInstruction f + i)
      = Some (PHINode (asLLVMType t) []).
Proof.
  intros f endBlock endPHIs Hresolve (Hins & Hb0 & Hb0lt) Hreach Hdepth Hsize.
  subst f endBlock endPHIs.
  destruct s as [mc ft bts npl [insts blocks order n nb ib] lp cs bt st ts cts mb tb cp].
  cbn [llvmFunction stack controlStack branchTargetStack insertBlock basicBlocks
       nextBasicBlock nextInstruction] in *. subst ib.
  unfold outerStackSizeOfInnermost in Hdepth. cbn [controlStack] in Hdepth.
  eexists. split.
  - unfold block. run. rewrite Hresolve. run.
    cbv [createBasicBlock irBuilder BasicBlock_Create llvmFunction set_llvmFunction
         insertBlock nextInstruction instructions basicBlocks blockOrder
         nextBasicBlock moduleContext functionType branchTables nonParameterLocalTypes
         localPointers controlStack branchTargetStack stack tryStack catchStack
         memoryBasePointerVariable tableBasePointerVariable contextPointerVariable].
    rewrite run_bind. erewrite createPHIs_run by apply lookup_insert_eq. run.
    rewrite popMultiple_run by (unfold outerStackSizeOfInnermost; cbn [controlStack stack]; lia).
    run.
    unfold pushControlStack. run. cbn [controlStack set_stack].
    assert (match cs with
            | current :: _ => errorUnless (isReachable current)
            | [] => mret ()
            end = mret ()) as ->.
    { destruct cs as [|c cs]; [reflexivity |]. rewrite (Hreach c eq_refl). reflexivity. }
    run. cbv [modify]. unfold pushBranchTarget. cbv [modify]. run.
    rewrite pushMultiple_run. reflexivity.
  - cbn. rewrite reverse_involutive, take_drop, length_drop.
    repeat split; try reflexivity.
    + rewrite lookup_insert_ne by lia. rewrite lookup_insert_ne by lia. exact Hb0.
    + rewrite lookup_insert_eq. reflexivity.
    + intros i t Ht. apply withPHIs_new. exact Ht.
Qed.

Lemma block_enters_a_context_witness :
  ∃ s',
    block (mkControlStructureImm (oneResult i32))
      (exampleContext (mkFunctionType [i32] [i32; i32]) [Argument 0 llvmI32Type])
    = Emitted tt s' ∧
    stack s' = [Argument 0 llvmI32Type] ∧
    controlStack s'
    = [mkControlContext ControlContext.block 2 [InstValue 1 llvmI32Type] None [] [i32] 1 1
         true;
       mkControlContext ControlContext.function 0 [] None [] [i32] 0 0 true] ∧
    branchTargetStack s'
    = [BranchTarget.mk [i32] 2 [InstValue 1 llvmI32Type]; BranchTarget.mk [i32] 0 []] ∧
    insertBlock (llvmFunction s') = Some 1 ∧
    basicBlocks (llvmFunction s') !! 1 = Some (mkBasicBlock "entry" [0]) ∧
    basicBlocks (llvmFunction s') !! 2 = Some (mkBasicBlock "blockEnd" [1]) ∧
    ∀ i t, [i32] !! i = Some t →
      instructions (llvmFunction s') !! (1 + i) = Some (PHINode (asLLVMType t) []).
Proof.
  apply (block_enters_a_context (mkControlStructureImm (oneResult i32))
           (mkFunctionType [i32] [])
           (exampleContext (mkFunctionType [i32] [i32; i32]) [Argument 0 llvmI32Type])
           1 (mkBasicBlock "entry" [0])).
  - reflexivity.
  - repeat split; try (vm_compute; lia); vm_compute; reflexivity.
  - intros current H. vm_compute in H. inversion H. reflexivity.
  - vm_compute. lia.
  - vm_compute. reflexivity.
Defined.

(** The instructions [insts] whose PHI nodes numbered from [n] on have each
    gained the incoming value at the same position, from [block]. *)
Fixpoint withIncoming (n : nat) (values : list Value) (block : nat)
    (insts : gmap nat Instruction) : gmap nat Instruction :=
  match values with
  | [] => insts
  | value :: rest =>
      alter (addIncomingTo value block) n (withIncoming (S n) rest block insts)
  end.

Lemma withIncoming_other values : ∀ n block insts id,
  id < n ∨ n + length values ≤ id →
  withIncoming n values block insts !! id = insts !! id.
Proof.
  induction values as [|v values IH]; intros n block insts id H; [done |].
  simpl in *. rewrite lookup_alter_ne by lia. apply IH. lia.
Qed.

Lemma withIncoming_lookup values : ∀ n block insts i value t incoming,
  values !! i = Some value →
  insts !! (n + i) = Some (PHINode t incoming) →
  withIncoming n values block insts !! (n + i)
  = Some (PHINode t (incoming ++ [(value, block)])).
Proof.
  induction values as [|v values IH]; intros n block insts i value t incoming Hv Hi; [done |].
  destruct i as [|i]; simpl in *.
  - inversion Hv. subst. rewrite Nat.add_0_r in *. rewrite lookup_alter_eq.
    rewrite withIncoming_other by lia. rewrite Hi. reflexivity.
  - rewrite lookup_alter_ne by lia. replace (n + S i) with (S n + i) in * by lia.
    apply IH; assumption.
Qed.

Lemma withIncoming_app values : ∀ n value block insts,
  withIncoming n (values ++ [value]) block insts
  = withIncoming n values block
      (alter (addIncomingTo value block) (n + length values) insts).
Proof.
  induction values as [|v values IH]; intros n value block insts; simpl.
  - rewrite Nat.add_0_r. reflexivity.
  - rewrite IH. replace (n + S (length values)) with (S n + length values) by lia.
    reflexivity.
Qed.

(** The loop of [loop] over the parameters, from the last one down: the
    values popped become the incoming values of the parameter PHI nodes. *)
Lemma loop_parameters_run (entry : nat) (types : TypeTuple) (n : nat) (count : nat) :
  ∀ mc ft bts npl insts blocks order next nb ib lp cs bt st ts cts mb tb cp popped,
  count ≤ length types →
  length popped = count →
  match cs with [] => 0 | c :: _ => outerStackSize c end + count ≤ length (popped ++ st) →
  (Z.of_nat (length (popped ++ st)) < 2 ^ 64)%Z →
  forDownFrom count (λ elementIndex,
    phi ← defined (phisFrom n types !! elementIndex);
    value ← pop;
    entry ← defined (Some entry);
    addIncoming phi value entry)
    (mkEmitFunctionContext mc ft bts npl (mkFunction insts blocks order next nb ib)
       lp cs bt (popped ++ st) ts cts mb tb cp)
  = Emitted tt
      (mkEmitFunctionContext mc ft bts npl
         (mkFunction (withIncoming n (reverse popped) entry insts) blocks order next nb ib)
         lp cs bt st ts cts mb tb cp).
Proof.
  induction count as [|count IH]; intros * Hcount Hlen Hdepth Hsize.
  - destruct popped; [| discriminate]. reflexivity.
  - destruct popped as [|value popped]; [discriminate |]. simpl in Hlen.
    cbn [forDownFrom]. run.
    assert (is_Some (types !! count)) as [t Ht] by (apply lookup_lt_is_Some; lia).
    rewrite (phisFrom_lookup _ _ _ _ Ht). run.
    unfold pop at 1. run. unfold outerStackSizeOfInnermost. cbn [controlStack stack].
    rewrite bool_decide_eq_true_2 by (apply (Uptr_sub_ge _ _ 1); simpl in *; lia).
    run. cbn [app]. cbv [modify]. run. rewrite addIncoming_run.
    cbv [set_stack alterInstruction llvmFunction set_llvmFunction
         insertBlock nextInstruction instructions basicBlocks blockOrder
         nextBasicBlock moduleContext functionType branchTables nonParameterLocalTypes
         localPointers controlStack branchTargetStack stack tryStack catchStack
         memoryBasePointerVariable tableBasePointerVariable contextPointerVariable].
    rewrite (IH _ _ _ _ _ _ _ _ _ _ _ _ _ _ _ _ _ _ _ popped);
      [| lia | lia | simpl in *; lia | simpl in *; lia].
    do 3 f_equal. rewrite reverse_cons, withIncoming_app, length_reverse.
    do 3 f_equal. lia.
Qed.

Lemma createBasicBlock_run name mc ft bts npl insts blocks order n nb ib lp cs bt st ts cts
    mb tb cp :
  createBasicBlock name
    (mkEmitFunctionContext mc ft bts npl (mkFunction insts blocks order n nb ib)
       lp cs bt st ts cts mb tb cp)
  = Emitted nb
      (mkEmitFunctionContext mc ft bts npl
         (mkFunction insts (<[nb := mkBasicBlock name []]> blocks) (order ++ [nb]) n (S nb) ib)
         lp cs bt st ts cts mb tb cp).
Proof. reflexivity. Qed.

Lemma Create_run i t mc ft bts npl insts blocks order n nb b lp cs bt st ts cts mb tb cp :
  Create i t
    (mkEmitFunctionContext mc ft bts npl (mkFunction insts blocks order n nb (Some b))
       lp cs bt st ts cts mb tb cp)
  = Emitted (InstValue n t)
      (mkEmitFunctionContext mc ft bts npl
         (mkFunction (<[n := i]> insts) (alter (appendToBlock n) b blocks) order (S n) nb
            (Some b))
         lp cs bt st ts cts mb tb cp).
Proof. reflexivity. Qed.

Lemma SetInsertPoint_run b mc ft bts npl insts blocks order n nb ib lp cs bt st ts cts
    mb tb cp :
  LLVMJIT.SetInsertPoint b
    (mkEmitFunctionContext mc ft bts npl (mkFunction insts blocks order n nb ib)
       lp cs bt st ts cts mb tb cp)
  = Emitted tt
      (mkEmitFunctionContext mc ft bts npl (mkFunction insts blocks order n nb (Some b))
         lp cs bt st ts cts mb tb cp).
Proof. reflexivity. Qed.

Lemma GetInsertBlock_run mc ft bts npl insts blocks order n nb ib lp cs bt st ts cts
    mb tb cp :
  LLVMJIT.GetInsertBlock
    (mkEmitFunctionContext mc ft bts npl (mkFunction insts blocks order n nb ib)
       lp cs bt st ts cts mb tb cp)
  = Emitted ib
      (mkEmitFunctionContext mc ft bts npl (mkFunction insts blocks order n nb ib)
         lp cs bt st ts cts mb tb cp).
Proof. reflexivity. Qed.

Lemma pushControlStack_run type resultTypes endBlock endPHIs elseBlock elseArgs
    (s : EmitFunctionContext) :
  (∀ current, head (controlStack s) = Some current → isReachable current = true) →
  pushControlStack type resultTypes endBlock endPHIs elseBlock elseArgs s
  = Emitted tt
      (set_controlStack
         (mkControlContext type endBlock endPHIs elseBlock elseArgs resultTypes
            (length (stack s)) (length (branchTargetStack s)) true
          :: controlStack s) s).
Proof.
  intros Hreach. unfold pushControlStack. run.
  destruct (controlStack s) as [|c cs] eqn:E.
  - cbv [mret Emit_ret modify]. rewrite E. reflexivity.
  - rewrite (Hreach c eq_refl). cbv [errorUnless mret Emit_ret modify]. rewrite E.
    reflexivity.
Qed.

(** Runs the emitter in the goal through the operations on the function
    under construction. *)
Ltac run_builder :=
  repeat first
    [ rewrite run_bind
    | rewrite createBasicBlock_run
    | rewrite Create_run
    | rewrite SetInsertPoint_run
    | rewrite GetInsertBlock_run
    | progress cbn beta iota delta [mret Emit_ret get defined wavmAssert] ].

(** X9. [loop] ends the current block with a branch to the loop body, a new
    block that starts with one PHI node per parameter of the loop.  The
    arguments are popped and become the incoming values of these PHI nodes
    from the block the loop was entered from; the PHI nodes take their place
    on the operand stack, and they are the branch target of the loop: a branch
    to the loop goes back to its body, with the parameters as arguments, and
    not to its end. *)
Theorem loop_enters_through_phis (imm : ControlStructureImm) (blockType : FunctionType)
    (s : EmitFunctionContext) (b0 : nat) (B0 : BasicBlock) (arguments rest : list Value) :
  let f := llvmFunction s in
  let n := nextInstruction f in
  let loopBodyBlock := nextBasicBlock f in
  let endBlock := S loopBodyBlock in
  let parameterPHIs := phisFrom n (params blockType) in
  let endPHIs := phisFrom (n + length (params blockType)) (results blockType) in
  let branch := n + length (params blockType) + length (results blockType) in
  resolveBlockType imm s = Emitted blockType s →
  EmitsInto s b0 B0 →
  (∀ current, head (controlStack s) = Some current → isReachable current = true) →
  stack s = arguments ++ rest →
  length arguments = length (params blockType) →
  outerStackSizeOfInnermost s + length arguments ≤ length (stack s) →
  (Z.of_nat (length (stack s)) < 2 ^ 64)%Z →
  ∃ s',
    loop imm s = Emitted tt s' ∧
    stack s' = reverse parameterPHIs ++ rest ∧
    controlStack s'
    = mkControlContext ControlContext.loop endBlock endPHIs None [] (results blockType)
        (length rest) (length (branchTargetStack s)) true
      :: controlStack s ∧
    branchTargetStack s'
    = BranchTarget.mk (params blockType) loopBodyBlock parameterPHIs
      :: branchTargetStack s ∧
    insertBlock (llvmFunction s') = Some loopBodyBlock ∧
    basicBlocks (llvmFunction s') !! b0
    = Some (mkBasicBlock (bbName B0) (bbInstructions B0 ++ [branch])) ∧
    instructions (llvmFunction s') !! branch = Some (BranchInst loopBodyBlock) ∧
    basicBlocks (llvmFunction s') !! loopBodyBlock
    = Some (mkBasicBlock "loopBody" (seq n (length (params blockType)))) ∧
    ∀ i t argument,
      params blockType !! i = Some t → reverse arguments !! i = Some argument →
      instructions (llvmFunction s') !! (n + i)
      = Some (PHINode (asLLVMType t) [(argument, b0)]).
Proof.
  intros f n loopBodyBlock endBlock parameterPHIs endPHIs branch
    Hresolve (Hins & Hb0 & Hb0lt) Hreach Hstack Hlen Hdepth Hsize.
  subst f n loopBodyBlock endBlock parameterPHIs endPHIs branch.
  destruct s as [mc ft bts npl [insts blocks order n nb ib] lp cs bt st ts cts mb tb cp].
  cbn [llvmFunction stack controlStack branchTargetStack insertBlock basicBlocks
       nextBasicBlock nextInstruction] in *. subst ib st.
  unfold outerStackSizeOfInnermost in Hdepth. cbn [controlStack] in Hdepth.
  eexists. split.
  - unfold loop. run. rewrite Hresolve. run_builder.
    erewrite createPHIs_run
      by (rewrite lookup_insert_ne by lia; apply lookup_insert_eq).
    run. erewrite createPHIs_run
      by (rewrite lookup_insert_ne by lia; apply lookup_insert_eq).
    unfold CreateBr. run_builder.
    rewrite <- Hlen.
    erewrite (loop_parameters_run b0 (params blockType) n (length arguments));
      [| lia | reflexivity | lia | lia].
    run. rewrite pushControlStack_run by exact Hreach.
    run. unfold pushBranchTarget. cbv [modify]. run.
    rewrite pushMultiple_run. reflexivity.
  - cbn. rewrite <- Hlen. repeat split; try reflexivity.
    + rewrite lookup_alter_eq. rewrite !lookup_insert_ne by lia. rewrite Hb0. reflexivity.
    + rewrite withIncoming_other by (rewrite length_reverse; lia).
      apply lookup_insert_eq.
    + rewrite lookup_alter_ne by lia. rewrite lookup_insert_ne by lia.
      apply lookup_insert_eq.
    + intros i t argument Ht Hargument.
      pose proof (lookup_lt_Some _ _ _ Ht) as Hi.
      rewrite (withIncoming_lookup _ _ _ _ _ _ (asLLVMType t) [] Hargument);
        [reflexivity |].
      rewrite lookup_insert_ne by lia.
      rewrite withPHIs_old by lia. apply withPHIs_new. exact Ht.
Qed.

Lemma loop_enters_through_phis_witness :
  ∃ s',
    loop (mkControlStructureImm (functionTypeIndex 0))
      (exampleTypedContext [Argument 0 llvmI32Type])
    = Emitted tt s' ∧
    stack s' = [InstValue 1 llvmI32Type] ∧
    controlStack s'
    = [mkControlContext ControlContext.loop 3 [InstValue 2 llvmI32Type] None [] [i32] 0 1
         true;
       mkControlContext ControlContext.function 0 [] None [] [i32] 0 0 true] ∧
    branchTargetStack s'
    = [BranchTarget.mk [i32] 2 [InstValue 1 llvmI32Type]; BranchTarget.mk [i32] 0 []] ∧
    insertBlock (llvmFunction s') = Some 2 ∧
    basicBlocks (llvmFunction s') !! 1 = Some (mkBasicBlock "entry" [0; 3]) ∧
    instructions (llvmFunction s') !! 3 = Some (BranchInst 2) ∧
    basicBlocks (llvmFunction s') !! 2 = Some (mkBasicBlock "loopBody" [1]) ∧
    ∀ i t argument,
      [i32] !! i = Some t → reverse [Argument 0 llvmI32Type] !! i = Some argument →
      instructions (llvmFunction s') !! (1 + i)
      = Some (PHINode (asLLVMType t) [(argument, 1)]).
Proof.
  apply (loop_enters_through_phis (mkControlStructureImm (functionTypeIndex 0))
           (mkFunctionType [i32] [i32])
           (exampleTypedContext [Argument 0 llvmI32Type])
           1 (mkBasicBlock "entry" [0]) [Argument 0 llvmI32Type] []).
  - vm_compute. reflexivity.
  - repeat split; try (vm_compute; lia); vm_compute; reflexivity.
  - intros current H. vm_compute in H. inversion H. reflexivity.
  - reflexivity.
  - reflexivity.
  - vm_compute. lia.
  - vm_compute. reflexivity.
Defined.

(** X10. [if] pops the condition and ends the current block with a branch on
    it: run on a condition that is not zero the emitted code continues in the
    new then-block, where the emitter goes on, and on zero in the new
    else-block.  The arguments of the [if] stay on the operand stack and are
    kept, in the order they were pushed, for the else-block; the end block
    holds one PHI node per result and is the branch target of the [if]. *)
Theorem if_branches_on_the_condition (imm : ControlStructureImm) (blockType : FunctionType)
    (s : EmitFunctionContext) (b0 : nat) (B0 : BasicBlock) (condition : Value)
    (arguments rest : list Value) (env : Env) (c : Z) (fuel : nat) :
  let f := llvmFunction s in
  let n := nextInstruction f in
  let thenBlock := nextBasicBlock f in
  let elseBlock := S thenBlock in
  let endBlock := S elseBlock in
  let endPHIs := phisFrom n (results blockType) in
  let branch := n + length (results blockType) in
  resolveBlockType imm s = Emitted blockType s →
  EmitsInto s b0 B0 →
  (∀ current, head (controlStack s) = Some current → isReachable current = true) →
  stack s = condition :: arguments ++ rest →
  length arguments = length (params blockType) →
  outerStackSizeOfInnermost s + 1 + length arguments ≤ length (stack s) →
  (Z.of_nat (length (stack s)) < 2 ^ 64)%Z →
  definedBefore n condition →
  evalValue env condition = Some (RInt 32 c) →
  ∃ s',
    if_ imm s = Emitted tt s' ∧
    stack s' = arguments ++ rest ∧
    controlStack s'
    = mkControlContext ControlContext.ifThen endBlock endPHIs (Some elseBlock)
        (reverse arguments) (results blockType) (length rest)
        (length (branchTargetStack s)) true
      :: controlStack s ∧
    branchTargetStack s'
    = BranchTarget.mk (results blockType) endBlock endPHIs :: branchTargetStack s ∧
    insertBlock (llvmFunction s') = Some thenBlock ∧
    AppendedTo s s' b0 B0 [branch; S branch] ∧
    ∃ env',
      execFrom (llvmFunction s') (S fuel) b0 env [branch; S branch]
      = Fallthrough (if (c =? 0)%Z then elseBlock else thenBlock) env'.
Proof.
  intros f n thenBlock elseBlock endBlock endPHIs branch
    Hresolve (Hins & Hb0 & Hb0lt) Hreach Hstack Hlen Hdepth Hsize Hdefined Hc.
  subst f n thenBlock elseBlock endBlock endPHIs branch.
  destruct s as [mc ft bts npl [insts blocks order n nb ib] lp cs bt st ts cts mb tb cp].
  cbn [llvmFunction stack controlStack branchTargetStack insertBlock basicBlocks
       nextBasicBlock nextInstruction] in *. subst ib st.
  unfold outerStackSizeOfInnermost in Hdepth. cbn [controlStack] in Hdepth.
  cbn [length] in Hdepth, Hsize. rewrite length_app in Hdepth, Hsize.
  eexists. split; [| split; [| split; [| split; [| split; [| split]]]]].
  - unfold if_. run. rewrite Hresolve. run_builder.
    erewrite createPHIs_run by apply lookup_insert_eq.
    run. unfold pop at 1. run. unfold outerStackSizeOfInnermost. cbn [controlStack stack].
    rewrite bool_decide_eq_true_2
      by (apply (Uptr_sub_ge _ _ 1); cbn [length]; rewrite ?length_app; lia).
    run. cbv [modify]. run. unfold coerceI32ToBool, CreateICmpNE, CreateCondBr.
    cbv [set_stack llvmFunction moduleContext functionType branchTables
         nonParameterLocalTypes localPointers controlStack branchTargetStack stack tryStack
         catchStack memoryBasePointerVariable tableBasePointerVariable
         contextPointerVariable].
    run_builder. cbn [stack].
    rewrite bool_decide_eq_true_2 by (rewrite length_app; lia). run.
    rewrite popMultiple_run
      by (unfold outerStackSizeOfInnermost; cbn [controlStack stack];
          rewrite ?length_app; lia).
    run. cbv [set_stack llvmFunction moduleContext functionType branchTables
         nonParameterLocalTypes localPointers controlStack branchTargetStack stack tryStack
         catchStack memoryBasePointerVariable tableBasePointerVariable
         contextPointerVariable].
    run_builder. rewrite pushControlStack_run by exact Hreach.
    run. unfold pushBranchTarget. cbv [modify]. run.
    rewrite pushMultiple_run. reflexivity.
  - cbn. rewrite <- Hlen, take_app_length, drop_app_length, reverse_involutive. reflexivity.
  - cbn. rewrite <- Hlen, take_app_length, drop_app_length. reflexivity.
  - reflexivity.
  - reflexivity.
  - unfold AppendedTo. cbn. map_lookup. rewrite ?lookup_insert_ne by lia. rewrite Hb0.
    unfold appendToBlock. cbn. rewrite <- app_assoc. reflexivity.
  - cbn [llvmFunction set_stack set_controlStack set_branchTargetStack].
    match goal with |- context [execFrom ?f _ _ _ _] => set (f' := f) end.
    rewrite execFrom_eq.
    exec_cmp f'. exec_condbr f'. cbv beta iota.
    destruct (Z.eqb_spec c 0) as [Ez|Ez].
    + change (if negb true then 1 else 0)%Z with 0%Z. cbn [Z.eqb].
      enter_block f'. cbn [enterPHIs]. rewrite execFrom_eq, exec_nil.
      eexists. reflexivity.
    + change (if negb false then 1 else 0)%Z with 1%Z. cbn [Z.eqb].
      enter_block f'. cbn [enterPHIs]. rewrite execFrom_eq, exec_nil.
      eexists. reflexivity.
Qed.

Lemma if_branches_on_the_condition_witness :
  ∃ s',
    if_ (mkControlStructureImm (functionTypeIndex 0))
      (exampleTypedContext [Argument 1 llvmI32Type; Argument 0 llvmI32Type])
    = Emitted tt s' ∧
    stack s' = [Argument 0 llvmI32Type] ∧
    controlStack s'
    = [mkControlContext ControlContext.ifThen 4 [InstValue 1 llvmI32Type] (Some 3)
         [Argument 0 llvmI32Type] [i32] 0 1 true;
       mkControlContext ControlContext.function 0 [] None [] [i32] 0 0 true] ∧
    branchTargetStack s'
    = [BranchTarget.mk [i32] 4 [InstValue 1 llvmI32Type]; BranchTarget.mk [i32] 0 []] ∧
    insertBlock (llvmFunction s') = Some 2 ∧
    AppendedTo (exampleTypedContext [Argument 1 llvmI32Type; Argument 0 llvmI32Type]) s' 1
      (mkBasicBlock "entry" [0]) [2; 3] ∧
    ∃ env',
      execFrom (llvmFunction s') 1 1 (exampleEnv [RInt 32 7; RInt 32 0] 65536) [2; 3]
      = Fallthrough 3 env'.
Proof.
  apply (if_branches_on_the_condition (mkControlStructureImm (functionTypeIndex 0))
           (mkFunctionType [i32] [i32])
           (exampleTypedContext [Argument 1 llvmI32Type; Argument 0 llvmI32Type])
           1 (mkBasicBlock "entry" [0]) (Argument 1 llvmI32Type) [Argument 0 llvmI32Type] []
           (exampleEnv [RInt 32 7; RInt 32 0] 65536) 0 0).
  - vm_compute. reflexivity.
  - repeat split; try (vm_compute; lia); vm_compute; reflexivity.
  - intros current H. vm_compute in H. inversion H. reflexivity.
  - reflexivity.
  - reflexivity.
  - vm_compute. lia.
  - vm_compute. reflexivity.
  - exact I.
  - reflexivity.
Defined.

(** ** Branches *)

Lemma coerceToCanonicalType_blocks argument s value s' b :
  coerceToCanonicalType argument s = Emitted value s' →
  is_Some (basicBlocks (llvmFunction s) !! b) →
  is_Some (basicBlocks (llvmFunction s') !! b).
Proof.
  unfold coerceToCanonicalType. destruct (isVectorTy (getType argument)).
  - intros H. inversion H. subst. cbn. destruct (insertBlock (llvmFunction s)) as [b'|].
    + intros Hb. destruct (decide (b' = b)) as [->|Hne].
      * rewrite lookup_alter_eq. destruct Hb as [bb ->]. eexists. reflexivity.
      * rewrite lookup_alter_ne by exact Hne. exact Hb.
    + done.
  - intros H. inversion H. subst. done.
Qed.

(** The loop of [br] over the branch arguments, from the last one down: each
    argument is popped and becomes an incoming value of the PHI node at its
    index. *)
Lemma pop_arguments_run (phis : list Value) (b : nat) (count : nat) :
  ∀ (s : EmitFunctionContext) (popped rest : list Value),
  stack s = popped ++ rest → length popped = count → count ≤ length phis →
  outerStackSizeOfInnermost s + count ≤ length (stack s) →
  (Z.of_nat (length (stack s)) < 2 ^ 64)%Z →
  insertBlock (llvmFunction s) = Some b →
  is_Some (basicBlocks (llvmFunction s) !! b) →
  Forall (IsPHI (llvmFunction s)) phis →
  ∃ f',
    forDownFrom count (λ argIndex,
      argument ← pop;
      phi ← defined (phis !! argIndex);
      value ← coerceToCanonicalType argument;
      insertBlock ← currentBlock;
      addIncoming phi value insertBlock) s
    = Emitted tt (set_stack rest (set_llvmFunction f' s)) ∧
    Grows (llvmFunction s) f' ∧ insertBlock f' = Some b ∧
    is_Some (basicBlocks f' !! b) ∧
    ∀ argIndex phi argument, argIndex < count →
      phis !! argIndex = Some phi →
      popped !! (count - argIndex - 1) = Some argument →
      ∃ value, CanonicalOf f' argument value ∧ HasIncoming f' phi value b.
Proof.
  induction count as [|count IH];
    intros s popped rest Hstack Hlen Hcount Hdepth Hsize Hb Hblock Hphis.
  - destruct popped; [| discriminate]. exists (llvmFunction s).
    split; [destruct s; cbn in *; subst; reflexivity |].
    split; [apply Grows_refl |]. split; [exact Hb |]. split; [exact Hblock |].
    intros argIndex phi argument Hlt. lia.
  - destruct popped as [|argument popped]; [discriminate |]. simpl in Hlen, Hstack.
    destruct (lookup_lt_is_Some_2 phis count) as [phi Hphi]; [lia |].
    destruct (coerceToCanonicalType_run argument (set_stack (popped ++ rest) s))
      as (value & f1 & Hrun1 & Hg1 & Hb1 & Hc1).
    assert (IsPHI f1 phi) as HisPHI.
    { eapply IsPHI_Grows; [exact Hg1 |]. eapply Forall_lookup_1; eassumption. }
    destruct (addIncoming_HasIncoming f1 phi value b HisPHI) as (id & t & -> & Hinc).
    set (f2 := alterInstruction (addIncomingTo value b) id f1) in *.
    assert (Grows (llvmFunction s) f2) as Hg2.
    { eapply Grows_trans; [exact Hg1 | apply Grows_addIncoming]. }
    destruct (IH (set_llvmFunction f2 (set_stack (popped ++ rest) s)) popped rest)
      as (f' & Hrun & Hg & Hb' & Hblock' & Hall).
    + reflexivity.
    + lia.
    + lia.
    + unfold outerStackSizeOfInnermost in *. cbn [stack controlStack set_llvmFunction set_stack].
      rewrite Hstack in Hdepth. cbn [length] in Hdepth. lia.
    + cbn [stack set_llvmFunction set_stack]. rewrite Hstack in Hsize.
      cbn [length] in Hsize. lia.
    + simpl. rewrite Hb1. exact Hb.
    + cbn [llvmFunction set_llvmFunction]. subst f2. cbn [basicBlocks alterInstruction].
      eapply (coerceToCanonicalType_blocks _ _ _ _ b Hrun1). exact Hblock.
    + simpl. eapply Forall_impl; [exact Hphis |]. intros x. apply IsPHI_Grows. exact Hg2.
    + exists f'. split.
      * cbn [forDownFrom]. run.
        rewrite (pop_run _ _ _ Hstack ltac:(lia) Hsize). run.
        rewrite Hphi. run. rewrite Hrun1. run.
        rewrite (currentBlock_run _ b) by (cbn in Hb1 |- *; congruence). run.
        rewrite addIncoming_run. run.
        exact Hrun.
      * split; [eapply Grows_trans; [exact Hg2 | exact Hg] |]. split; [exact Hb' |].
        split; [exact Hblock' |].
        intros argIndex phi' argument' Hlt Hphi' Harg'.
        destruct (decide (argIndex = count)) as [->|Hne].
        -- rewrite Hphi in Hphi'. injection Hphi' as <-.
           replace (S count - count - 1) with 0 in Harg' by lia.
           injection Harg' as <-.
           exists value. split.
           ++ eapply CanonicalOf_Grows; [exact Hg |].
              eapply CanonicalOf_Grows; [apply Grows_addIncoming | exact Hc1].
           ++ eapply HasIncoming_Grows; [exact Hg | exact Hinc].
        -- apply (Hall argIndex phi' argument'); [lia | exact Hphi' |].
           replace (S count - argIndex - 1) with (S (count - argIndex - 1)) in Harg' by lia.
           exact Harg'.
Qed.

(** The control context [c], marked unreachable. *)
Definition unreachableContext (c : ControlContext) : ControlContext :=
  mkControlContext (type c) (endBlock c) (endPHIs c) (elseBlock c) (elseArgs c)
    (resultTypes c) (outerStackSize c) (outerBranchTargetStackSize c) false.

Lemma enterUnreachable_run (s : EmitFunctionContext) current outer :
  controlStack s = current :: outer →
  outerStackSize current ≤ length (stack s) →
  enterUnreachable s
  = Emitted tt
      (set_controlStack (unreachableContext current :: outer)
         (set_stack (resize (outerStackSize current) (stack s)) s)).
Proof.
  intros Hcs Hdepth. unfold enterUnreachable. run. rewrite Hcs. cbn [head]. run.
  rewrite (proj2 (Nat.leb_le _ _) Hdepth). run. cbv [modify]. run.
  unfold modifyCurrentContext. run. cbn [controlStack set_stack]. rewrite Hcs.
  reflexivity.
Qed.

(** X11. [br] pops the arguments of the branch, which become incoming values
    (from the block being emitted) of the PHI nodes of the target, each at its
    index; it ends the block with a branch to the block of the target, drops
    the operands that are left in the current control context, and marks the
    context unreachable.  The control and branch target stacks keep their
    entries. *)
Theorem br_leaves_the_context_unreachable (imm : BranchImm) (s : EmitFunctionContext)
    (arguments rest : list Value) (target : BranchTarget.t) (b : nat)
    (current : ControlContext) (outer : list ControlContext) :
  stack s = arguments ++ rest →
  controlStack s = current :: outer →
  outerStackSize current ≤ length rest →
  (Z.of_nat (length (stack s)) < 2 ^ 64)%Z →
  branchTargetStack s !! targetDepth imm = Some target →
  length (BranchTarget.params target) = length (BranchTarget.phis target) →
  length arguments = length (BranchTarget.params target) →
  insertBlock (llvmFunction s) = Some b →
  is_Some (basicBlocks (llvmFunction s) !! b) →
  Forall (IsPHI (llvmFunction s)) (BranchTarget.phis target) →
  ∃ s' branch,
    br imm s = Emitted tt s' ∧
    stack s' = resize (outerStackSize current) rest ∧
    controlStack s' = unreachableContext current :: outer ∧
    branchTargetStack s' = branchTargetStack s ∧
    instructions (llvmFunction s') !! branch
    = Some (BranchInst (BranchTarget.block target)) ∧
    (∃ bb, basicBlocks (llvmFunction s') !! b = Some bb ∧
       last (bbInstructions bb) = Some branch) ∧
    ∀ argIndex phi argument,
      BranchTarget.phis target !! argIndex = Some phi →
      reverse arguments !! argIndex = Some argument →
      ∃ value,
        CanonicalOf (llvmFunction s') argument value ∧
        HasIncoming (llvmFunction s') phi value b.
Proof.
  intros Hstack Hcs Hdepth Hsize Htarget Hphis Hlen Hb Hblock HisPHI.
  assert (length (stack s) = length arguments + length rest) as Hlength
    by (rewrite Hstack, length_app; reflexivity).
  destruct (pop_arguments_run (BranchTarget.phis target) b (length arguments) s arguments rest)
    as (f' & Hrun & Hg & Hb' & [bb Hbb] & Hall);
    [exact Hstack | reflexivity | lia
    | unfold outerStackSizeOfInnermost; rewrite Hcs; lia
    | exact Hsize | exact Hb | exact Hblock | exact HisPHI |].
  eexists. exists (nextInstruction f'). split.
  - unfold br. run. rewrite (getBranchTargetByDepth_run _ _ target) by exact Htarget. run.
    rewrite Hphis, Nat.eqb_refl. run. rewrite <- Hphis, <- Hlen. rewrite Hrun. run.
    unfold CreateBr. run. cbv [Create irBuilder].
    cbn [llvmFunction set_stack set_llvmFunction Insert]. run.
    erewrite enterUnreachable_run; [reflexivity | exact Hcs | exact Hdepth].
  - cbn. rewrite Hb'.
    assert (Grows f' (Insert (BranchInst (BranchTarget.block target)) f').2) as Hg'
      by apply Grows_Insert.
    cbn in Hg'. rewrite Hb' in Hg'.
    repeat split.
    + apply lookup_insert_eq.
    + exists (appendToBlock (nextInstruction f') bb). split.
      * rewrite lookup_alter_eq, Hbb. reflexivity.
      * unfold appendToBlock. cbn. apply last_snoc.
    + intros argIndex phi argument Hphi Hargument.
      pose proof (lookup_lt_Some _ _ _ Hargument) as Hlt. rewrite length_reverse in Hlt.
      rewrite reverse_lookup in Hargument by exact Hlt.
      destruct (Hall argIndex phi argument) as (value & Hc & Hi);
        [exact Hlt | exact Hphi
        | replace (length arguments - argIndex - 1) with (length arguments - S argIndex)
            by lia; exact Hargument |].
      exists value. split.
      * eapply CanonicalOf_Grows; [exact Hg' | exact Hc].
      * eapply HasIncoming_Grows; [exact Hg' | exact Hi].
Qed.

Lemma br_leaves_the_context_unreachable_witness :
  ∃ s' branch,
    br (mkBranchImm 0) (exampleBlockContext [Argument 0 llvmI32Type]) = Emitted tt s' ∧
    stack s' = [] ∧
    controlStack s'
    = [mkControlContext ControlContext.block 2 [InstValue 1 llvmI32Type] None [] [i32] 0 1
         false;
       mkControlContext ControlContext.function 0 [] None [] [i32] 0 0 true] ∧
    branchTargetStack s'
    = [BranchTarget.mk [i32] 2 [InstValue 1 llvmI32Type]; BranchTarget.mk [i32] 0 []] ∧
    instructions (llvmFunction s') !! branch = Some (BranchInst 2) ∧
    (∃ bb, basicBlocks (llvmFunction s') !! 1 = Some bb ∧
       last (bbInstructions bb) = Some branch) ∧
    ∀ argIndex phi argument,
      [InstValue 1 llvmI32Type] !! argIndex = Some phi →
      reverse [Argument 0 llvmI32Type] !! argIndex = Some argument →
      ∃ value,
        CanonicalOf (llvmFunction s') argument value ∧
        HasIncoming (llvmFunction s') phi value 1.
Proof.
  apply (br_leaves_the_context_unreachable (mkBranchImm 0)
           (exampleBlockContext [Argument 0 llvmI32Type]) [Argument 0 llvmI32Type] []
           (BranchTarget.mk [i32] 2 [InstValue 1 llvmI32Type]) 1
           (mkControlContext ControlContext.block 2 [InstValue 1 llvmI32Type] None [] [i32]
              0 1 true)
           [mkControlContext ControlContext.function 0 [] None [] [i32] 0 0 true]).
  - reflexivity.
  - reflexivity.
  - simpl. lia.
  - vm_compute. reflexivity.
  - reflexivity.
  - reflexivity.
  - reflexivity.
  - reflexivity.
  - vm_compute. eexists. reflexivity.
  - repeat constructor. exists 1, llvmI32Type, []. vm_compute. repeat split. lia.
Defined.

(** X12. [unreachable] emits a call to the [unreachableTrap] intrinsic: the
    code that follows it in the same control context is never reached.  The
    operands left in the context are dropped, and the context is marked
    unreachable. *)
Theorem unreachable_traps (s : EmitFunctionContext) (b0 : nat) (B0 : BasicBlock)
    (current : ControlContext) (outer : list ControlContext) (env : Env) (fuel : nat) :
  EmitsInto s b0 B0 →
  HasIntrinsic s "unreachableTrap" (mkFunctionType [] []) →
  controlStack s = current :: outer →
  outerStackSize current ≤ length (stack s) →
  ∃ s' code,
    unreachable s = Emitted tt s' ∧
    stack s' = resize (outerStackSize current) (stack s) ∧
    controlStack s' = unreachableContext current :: outer ∧
    branchTargetStack s' = branchTargetStack s ∧
    AppendedTo s s' b0 B0 code ∧
    execFrom (llvmFunction s') fuel b0 env code = Trapped "unreachableTrap" [] env.
Proof.
  intros (Hins & Hb0 & Hb0lt) (fi & Hwavm & Hfi) Hcs Hdepth.
  destruct s as [mc ft bts npl [insts blocks order n nb ib] lp cs bt st ts cts mb tb cp].
  cbn [llvmFunction stack controlStack branchTargetStack insertBlock basicBlocks
       nextBasicBlock nextInstruction moduleContext] in *. subst ib cs.
  unfold unreachable.
  emit_unfold. emit_intrinsic Hwavm Hfi.
  destruct ts as [|t ts]; emit_unfold.
  all: erewrite enterUnreachable_run; [| reflexivity | exact Hdepth].
  all: eexists _, _; split; [reflexivity |]; split; [reflexivity |];
         split; [reflexivity |]; split; [reflexivity |].
  all: unfold AppendedTo; emit_unfold; split;
         [ map_lookup; rewrite ?lookup_insert_ne by lia; rewrite Hb0; unfold appendToBlock;
           cbn [fmap option_fmap option_map bbName bbInstructions];
           rewrite <- ?app_assoc; reflexivity | ].
  all: match goal with |- context [execFrom ?f _ _ _ _] => set (f' := f) end;
         simpl app; rewrite execFrom_eq.
  all: exec_trap f'; reflexivity.
Qed.

Lemma unreachable_traps_witness :
  ∃ s' code,
    unreachable (exampleContext (mkFunctionType [i32] [i32; i32]) [Argument 0 llvmI32Type])
    = Emitted tt s' ∧
    stack s' = [] ∧
    controlStack s'
    = [mkControlContext ControlContext.function 0 [] None [] [i32] 0 0 false] ∧
    branchTargetStack s' = [BranchTarget.mk [i32] 0 []] ∧
    AppendedTo (exampleContext (mkFunctionType [i32] [i32; i32]) [Argument 0 llvmI32Type]) s'
      1 (mkBasicBlock "entry" [0]) code ∧
    execFrom (llvmFunction s') 0 1 (exampleEnv [RInt 32 7; RInt 32 2] 65536) code
    = Trapped "unreachableTrap" [] (exampleEnv [RInt 32 7; RInt 32 2] 65536).
Proof.
  apply (unreachable_traps
           (exampleContext (mkFunctionType [i32] [i32; i32]) [Argument 0 llvmI32Type])
           1 (mkBasicBlock "entry" [0])
           (mkControlContext ControlContext.function 0 [] None [] [i32] 0 0 true) []
           (exampleEnv [RInt 32 7; RInt 32 2] 65536) 0).
  - repeat split; try (vm_compute; lia); vm_compute; reflexivity.
  - eexists; split; reflexivity.
  - reflexivity.
  - simpl. lia.
Defined.

(** ** Conversions *)

(** The conversions between [i32] and [i64], with the type of the operand
    and the function each computes. *)
Inductive IsIntegerConversion : Emit unit → Z → Z → (Z → Z) → Prop :=
| is_i32_wrap_i64 : IsIntegerConversion i32_wrap_i64 64 32 (λ x, x mod 2 ^ 32)%Z
| is_i64_extend_s_i32 :
    IsIntegerConversion i64_extend_s_i32 32 64 (λ x, wrap 64 (signed 32 x))
| is_i64_extend_u_i32 : IsIntegerConversion i64_extend_u_i32 32 64 (λ x, x).

(** X13. [i32.wrap_i64] keeps the low 32 bits, [i64.extend_s_i32] extends the
    sign bit and [i64.extend_u_i32] extends with zeros. *)
Theorem integer_conversions_wrap_and_extend (operator : Emit unit) (from to : Z)
    (function : Z → Z) (s : EmitFunctionContext)
    (operand : Value) (rest : list Value) (b0 : nat) (B0 : BasicBlock)
    (env : Env) (x : Z) (fuel : nat) :
  IsIntegerConversion operator from to function →
  HoldsOperands s [operand] rest →
  EmitsInto s b0 B0 →
  evalValue env operand = Some (RInt from x) →
  ∃ s' result code,
    operator s = Emitted tt s' ∧
    stack s' = result :: rest ∧
    getType result = IntegerTy to ∧
    AppendedTo s s' b0 B0 code ∧
    TrapsOrYields (execFrom (llvmFunction s') fuel b0 env code) None result
      (RInt to (function x)).
Proof.
  intros Hop Hops Hinto Hx.
  open_context s Hinto Hops.
  apply Forall_cons in Hdefined as [Hoperand _].
  destruct Hop.
  all: unfold i32_wrap_i64, i64_extend_s_i32, i64_extend_u_i32.
  all: emit_unfold; emit_pop.
  all: eexists _, _, _; split; [reflexivity|]; split; [reflexivity|];
         split; [reflexivity|].
  all: unfold AppendedTo; emit_unfold; split;
         [ map_lookup; rewrite Hb0; unfold appendToBlock;
           cbn [fmap option_fmap option_map bbName bbInstructions];
           rewrite <- ?app_assoc; reflexivity | ].
  all: match goal with |- context [execFrom ?f _ _ _ _] => set (f' := f) end;
         simpl app; rewrite execFrom_eq.
  all: exec_cast f'.
  all: rewrite exec_nil; eexists _, _; split; [reflexivity | solve_eval].
Qed.

Lemma integer_conversions_wrap_and_extend_witness :
  ∃ s' result code,
    i64_extend_s_i32
      (exampleContext (mkFunctionType [i64] [i32]) [Argument 0 llvmI32Type])
    = Emitted tt s' ∧
    stack s' = [result] ∧
    getType result = IntegerTy 64 ∧
    AppendedTo
      (exampleContext (mkFunctionType [i64] [i32]) [Argument 0 llvmI32Type])
      s' 1 (mkBasicBlock "entry" [0]) code ∧
    TrapsOrYields
      (execFrom (llvmFunction s') 0 1 (exampleEnv [RInt 32 4294967295] 65536) code)
      None result (RInt 64 18446744073709551615).
Proof.
  apply (integer_conversions_wrap_and_extend i64_extend_s_i32 32 64
           (λ x, wrap 64 (signed 32 x))
           (exampleContext (mkFunctionType [i64] [i32]) [Argument 0 llvmI32Type])
           (Argument 0 llvmI32Type) [] 1
           (mkBasicBlock "entry" [0]) (exampleEnv [RInt 32 4294967295] 65536)
           4294967295 0).
  - constructor.
  - repeat split; try (vm_compute; lia); repeat constructor.
  - repeat split; try (vm_compute; lia); vm_compute; reflexivity.
  - reflexivity.
Defined.

(** The value of the float types whose bit pattern is [x]. *)
Definition floatOfBits (bits x : Z) : RVal :=
  if (bits =? 32)%Z then RFloat x else RDouble x.

(** X14. Reinterpreting an integer as the float of the same width and the
    result as an integer again gives the integer back: the two operators emit
    casts that keep the bit pattern, for [i32]/[f32] and for [i64]/[f64]. *)
Theorem reinterpretations_round_trip (type : ValueType) (s : EmitFunctionContext)
    (operand : Value) (rest : list Value) (b0 : nat) (B0 : BasicBlock)
    (env : Env) (x : Z) (fuel : nat) :
  let bits := getTypeBitWidth type in
  type = i32 ∨ type = i64 →
  HoldsOperands s [operand] rest →
  EmitsInto s b0 B0 →
  evalValue env operand = Some (RInt bits x) →
  ∃ s1 s' float result code,
    match type with i32 => f32_reinterpret_i32 | _ => f64_reinterpret_i64 end s
    = Emitted tt s1 ∧
    stack s1 = float :: rest ∧
    match type with i32 => i32_reinterpret_f32 | _ => i64_reinterpret_f64 end s1
    = Emitted tt s' ∧
    stack s' = result :: rest ∧
    AppendedTo s s' b0 B0 code ∧
    ∃ b env',
      execFrom (llvmFunction s') fuel b0 env code = Fallthrough b env' ∧
      evalValue env' float = Some (floatOfBits bits x) ∧
      evalValue env' result = Some (RInt bits x).
Proof.
  intros bits Htype Hops Hinto Hx.
  open_context s Hinto Hops.
  apply Forall_cons in Hdefined as [Hoperand _].
  destruct Htype; subst type bits; cbn [getTypeBitWidth] in *.
  all: unfold f32_reinterpret_i32, f64_reinterpret_i64, i32_reinterpret_f32,
         i64_reinterpret_f64.
  all: emit_unfold; emit_pop.
  all: eexists _, _, _, _, _; split; [reflexivity|]; split; [reflexivity|].
  all: emit_unfold;
         rewrite bool_decide_eq_true_2 by (apply (Uptr_sub_ge _ _ 1); cbn; lia);
         emit_unfold.
  all: split; [reflexivity|]; split; [reflexivity|].
  all: unfold AppendedTo; emit_unfold; split;
         [ map_lookup; rewrite Hb0; unfold appendToBlock;
           cbn [fmap option_fmap option_map bbName bbInstructions];
           rewrite <- ?app_assoc; reflexivity | ].
  all: match goal with |- context [execFrom ?f _ _ _ _] => set (f' := f) end;
         simpl app; rewrite execFrom_eq.
  all: exec_cast f'; exec_cast f'.
  all: rewrite exec_nil; eexists _, _; split; [reflexivity |].
  all: split; cbv beta iota delta [evalValue setRegister registers]; map_lookup;
         reflexivity.
Qed.

Lemma reinterpretations_round_trip_witness :
  ∃ s1 s' float result code,
    f32_reinterpret_i32
      (exampleContext (mkFunctionType [i32] [i32]) [Argument 0 llvmI32Type])
    = Emitted tt s1 ∧
    stack s1 = [float] ∧
    i32_reinterpret_f32 s1 = Emitted tt s' ∧
    stack s' = [result] ∧
    AppendedTo (exampleContext (mkFunctionType [i32] [i32]) [Argument 0 llvmI32Type])
      s' 1 (mkBasicBlock "entry" [0]) code ∧
    ∃ b env',
      execFrom (llvmFunction s') 0 1 (exampleEnv [RInt 32 1065353216] 65536) code
      = Fallthrough b env' ∧
      evalValue env' float = Some (RFloat 1065353216) ∧
      evalValue env' result = Some (RInt 32 1065353216).
Proof.
  apply (reinterpretations_round_trip i32
           (exampleContext (mkFunctionType [i32] [i32]) [Argument 0 llvmI32Type])
           (Argument 0 llvmI32Type) [] 1
           (mkBasicBlock "entry" [0]) (exampleEnv [RInt 32 1065353216] 65536)
           1065353216 0).
  - left; reflexivity.
  - repeat split; try (vm_compute; lia); repeat constructor.
  - repeat split; try (vm_compute; lia); vm_compute; reflexivity.
  - reflexivity.
Defined.

(** ** The operand stack *)

Lemma Uptr_sub_within (a b : nat) :
  b ≤ a → (Z.of_nat a < 2 ^ 64)%Z → Uptr_sub a b = Z.of_nat (a - b).
Proof. intros H1 H2. unfold Uptr_sub. rewrite Z.mod_small; lia. Qed.

(** X15. The operands of the enclosing control contexts are out of reach of
    [pop] and [popMultiple]: on an operand stack that is not below the depth
    the innermost context recorded, they either fail or take values pushed
    within this context only, the last pushed first, and leave the stack at or
    above the recorded depth. *)
Theorem pops_stay_within_the_context (s : EmitFunctionContext) :
  outerStackSizeOfInnermost s ≤ length (stack s) →
  (Z.of_nat (length (stack s)) < 2 ^ 64)%Z →
  (∀ value s', pop s = Emitted value s' →
     stack s = value :: stack s' ∧
     outerStackSizeOfInnermost s' = outerStackSizeOfInnermost s ∧
     outerStackSizeOfInnermost s' ≤ length (stack s')) ∧
  (∀ num values s', popMultiple num s = Emitted values s' →
     stack s = reverse values ++ stack s' ∧ length values = num ∧
     outerStackSizeOfInnermost s' = outerStackSizeOfInnermost s ∧
     outerStackSizeOfInnermost s' ≤ length (stack s')).
Proof.
  intros Hdepth Hsize. split.
  - intros value s' H. unfold pop in H.
    apply bind_Emitted in H as (s0 & s1 & H0 & H). apply get_Emitted in H0 as [-> ->].
    apply bind_Emitted in H as (? & s1 & H0 & H).
    apply wavmAssert_Emitted in H0 as [Hassert ->].
    apply bool_decide_eq_true in Hassert. rewrite Uptr_sub_within in Hassert by assumption.
    destruct (stack s) as [|result rest] eqn:Hs; [discriminate |].
    apply bind_Emitted in H as (? & s1 & H0 & H). apply modify_Emitted in H0 as ->.
    inversion H. subst. cbn in *. unfold outerStackSizeOfInnermost in *. cbn.
    repeat split. lia.
  - intros num values s' H. unfold popMultiple in H.
    apply bind_Emitted in H as (s0 & s1 & H0 & H). apply get_Emitted in H0 as [-> ->].
    apply bind_Emitted in H as (? & s1 & H0 & H).
    apply wavmAssert_Emitted in H0 as [Hassert ->].
    apply bool_decide_eq_true in Hassert. rewrite Uptr_sub_within in Hassert by assumption.
    destruct (decide (num ≤ length (stack s))) as [Hnum|]; [| discriminate].
    apply bind_Emitted in H as (? & s1 & H0 & H). apply modify_Emitted in H0 as ->.
    inversion H. subst. cbn. unfold outerStackSizeOfInnermost in *. cbn.
    rewrite reverse_involutive, take_drop, length_reverse, length_take, length_drop.
    repeat split; lia.
Qed.

Lemma pops_stay_within_the_context_witness :
  (∀ value s',
     pop (exampleBlockContext [Argument 0 llvmI32Type]) = Emitted value s' →
     stack (exampleBlockContext [Argument 0 llvmI32Type]) = value :: stack s' ∧
     outerStackSizeOfInnermost s'
     = outerStackSizeOfInnermost (exampleBlockContext [Argument 0 llvmI32Type]) ∧
     outerStackSizeOfInnermost s' ≤ length (stack s')) ∧
  (∀ num values s',
     popMultiple num (exampleBlockContext [Argument 0 llvmI32Type]) = Emitted values s' →
     stack (exampleBlockContext [Argument 0 llvmI32Type]) = reverse values ++ stack s' ∧
     length values = num ∧
     outerStackSizeOfInnermost s'
     = outerStackSizeOfInnermost (exampleBlockContext [Argument 0 llvmI32Type]) ∧
     outerStackSizeOfInnermost s' ≤ length (stack s')).
Proof.
  apply (pops_stay_within_the_context (exampleBlockContext [Argument 0 llvmI32Type])).
  - vm_compute. lia.
  - vm_compute. reflexivity.
Defined.

(** X16. [drop] does not make the check that [pop] makes: in a control
    context that holds no operand, where [pop] fails, it takes the operand of
    the enclosing context.  The stack is then below the depth the context
    recorded, and there the assertion of [pop], which is made in unsigned
    arithmetic, passes: the next [pop] takes a second operand of the enclosing
    context. *)
Theorem drop_reaches_below_the_context (s : EmitFunctionContext) (first second : Value)
    (rest : list Value) :
  stack s = first :: second :: rest →
  outerStackSizeOfInnermost s = length (stack s) →
  (Z.of_nat (length (stack s)) < 2 ^ 64)%Z →
  pop s = Failed wavmAssertFailure ∧
  (drop_ ;; pop) s = Emitted second (set_stack rest s).
Proof.
  intros Hstack Hdepth Hsize. split.
  - unfold pop. run. rewrite bool_decide_eq_false_2; [reflexivity |].
    rewrite Uptr_sub_within by lia. lia.
  - unfold drop_. run. rewrite Hstack. cbv [modify]. run.
    unfold pop. run. unfold outerStackSizeOfInnermost in *. cbn [controlStack stack set_stack].
    rewrite bool_decide_eq_true_2.
    + run. cbv [modify]. run. destruct s. reflexivity.
    + rewrite Hdepth, Hstack. unfold Uptr_sub. cbn [length].
      rewrite Hstack in Hsize. cbn [length] in Hsize.
      replace (Z.of_nat (S (length rest)) - Z.of_nat (S (S (length rest))))%Z
        with (-1)%Z by lia.
      change (-1 mod 2 ^ 64)%Z with 18446744073709551615%Z. lia.
Qed.

Lemma drop_reaches_below_the_context_witness :
  pop (set_controlStack [mkControlContext ControlContext.block 2 [] None [] [] 2 1 true]
         (exampleContext (mkFunctionType [] [i32; i32])
            [Argument 1 llvmI32Type; Argument 0 llvmI32Type]))
  = Failed wavmAssertFailure ∧
  (drop_ ;; pop)
    (set_controlStack [mkControlContext ControlContext.block 2 [] None [] [] 2 1 true]
       (exampleContext (mkFunctionType [] [i32; i32])
          [Argument 1 llvmI32Type; Argument 0 llvmI32Type]))
  = Emitted (Argument 0 llvmI32Type)
      (set_stack []
         (set_controlStack [mkControlContext ControlContext.block 2 [] None [] [] 2 1 true]
            (exampleContext (mkFunctionType [] [i32; i32])
               [Argument 1 llvmI32Type; Argument 0 llvmI32Type]))).
Proof.
  apply (drop_reaches_below_the_context
           (set_controlStack
              [mkControlContext ControlContext.block 2 [] None [] [] 2 1 true]
              (exampleContext (mkFunctionType [] [i32; i32])
                 [Argument 1 llvmI32Type; Argument 0 llvmI32Type]))
           (Argument 1 llvmI32Type) (Argument 0 llvmI32Type) []).
  - reflexivity.
  - reflexivity.
  - vm_compute. reflexivity.
Defined.

(** ** Local variables *)

(** X17. [tee_local] is [set_local] that leaves its operand on the stack: on
    a stack whose top was pushed within the current control context, where
    the [pop] of [set_local] succeeds, both emit the same instructions or fail
    alike (on a variable index that is out of range), and the states they end
    in differ by the operand only. *)
Theorem tee_local_is_set_local_keeping_the_operand (imm : GetOrSetVariableImm)
    (s : EmitFunctionContext) (operand : Value) (rest : list Value) :
  stack s = operand :: rest →
  outerStackSizeOfInnermost s + 1 ≤ length (stack s) →
  (Z.of_nat (length (stack s)) < 2 ^ 64)%Z →
  tee_local imm s
  = match set_local imm s with
    | Emitted _ s' => Emitted tt (set_stack (operand :: rest) s')
    | Failed e => Failed e
    end.
Proof.
  intros Hstack Hdepth Hsize. unfold tee_local, set_local. run.
  destruct (variableIndex imm <? length (localPointers s))%nat eqn:Hindex; run;
    [| reflexivity].
  rewrite (pop_run _ _ _ Hstack Hdepth Hsize). run.
  rewrite (getValueFromTop_run 0 s operand) by (rewrite Hstack; reflexivity). run.
  destruct (localPointers s !! variableIndex imm) as [pointer|] eqn:Hpointer; run;
    [| reflexivity].
  destruct s as [mc ft bts npl [insts blocks order n nb ib] lp cs bt st ts cts mb tb cp].
  cbn in Hstack. subst st. reflexivity.
Qed.

Lemma tee_local_is_set_local_keeping_the_operand_witness :
  tee_local (mkGetOrSetVariableImm 0)
    (set_localPointers [InstValue 0 (PointerTy llvmI32Type)]
       (exampleContext (mkFunctionType [] [i32]) [Argument 0 llvmI32Type]))
  = match set_local (mkGetOrSetVariableImm 0)
            (set_localPointers [InstValue 0 (PointerTy llvmI32Type)]
               (exampleContext (mkFunctionType [] [i32]) [Argument 0 llvmI32Type])) with
    | Emitted _ s' => Emitted tt (set_stack [Argument 0 llvmI32Type] s')
    | Failed e => Failed e
    end.
Proof.
  apply (tee_local_is_set_local_keeping_the_operand (mkGetOrSetVariableImm 0)
           (set_localPointers [InstValue 0 (PointerTy llvmI32Type)]
              (exampleContext (mkFunctionType [] [i32]) [Argument 0 llvmI32Type]))
           (Argument 0 llvmI32Type) []).
  - reflexivity.
  - vm_compute. lia.
  - vm_compute. reflexivity.
Defined.

(** ** Atomic accesses *)

(** X18. The alignment check of the atomic operators: for a natural alignment
    of [2 ^ k] bytes, [k > 0], the emitted code calls the
    [misalignedAtomicTrap] intrinsic with the address exactly when the low [k]
    bits of the address it is given are not all zero, and otherwise goes on
    in the block where the access is emitted. *)
Theorem trapIfMisalignedAtomic_checks_the_low_bits (s : EmitFunctionContext)
    (address : Value) (naturalAlignmentLog2 : Z) (b0 : nat) (B0 : BasicBlock)
    (env : Env) (a : Z) (fuel : nat) :
  EmitsInto s b0 B0 →
  HasIntrinsic s "misalignedAtomicTrap" (mkFunctionType [] [i32]) →
  definedBefore (nextInstruction (llvmFunction s)) address →
  evalValue env address = Some (RInt 32 a) →
  (0 < naturalAlignmentLog2 < 32)%Z →
  ∃ s' code,
    trapIfMisalignedAtomic address naturalAlignmentLog2 s = Emitted tt s' ∧
    stack s' = stack s ∧
    AppendedTo s s' b0 B0 code ∧
    ∃ env',
      execFrom (llvmFunction s') (S fuel) b0 env code
      = if (a mod 2 ^ naturalAlignmentLog2 =? 0)%Z
        then Fallthrough (nextBasicBlock (llvmFunction s) + 1) env'
        else Trapped "misalignedAtomicTrap" [RInt 32 a] env'.
Proof.
  intros (Hins & Hb0 & Hb0lt) (fi & Hwavm & Hfi) Hdefined Ha Hk.
  destruct s as [mc ft bts npl [insts blocks order n nb ib] lp cs bt st ts cts mb tb cp].
  cbn [llvmFunction stack controlStack branchTargetStack insertBlock basicBlocks
       nextBasicBlock nextInstruction moduleContext] in *. subst ib.
  unfold trapIfMisalignedAtomic. rewrite decide_True by lia.
  emit_unfold. emit_intrinsic Hwavm Hfi.
  assert (emitLiteral 32 (Z.shiftl 1 naturalAlignmentLog2 - 1)
          = ConstantInt 32 (Z.ones naturalAlignmentLog2)) as ->.
  { unfold emitLiteral. rewrite Z.shiftl_1_l, Z.ones_equiv, <- Z.sub_1_r.
    f_equal. apply Z.mod_small.
    assert (2 ^ naturalAlignmentLog2 < 2 ^ 32)%Z by (apply Z.pow_lt_mono_r; lia).
    assert (0 < 2 ^ naturalAlignmentLog2)%Z by (apply Z.pow_pos_nonneg; lia). lia. }
  destruct ts as [|t ts]; emit_unfold.
  all: eexists _, _; split; [reflexivity |]; split; [reflexivity |].
  all: unfold AppendedTo; emit_unfold; split;
         [ map_lookup; rewrite ?lookup_insert_ne by lia; rewrite Hb0; unfold appendToBlock;
           cbn [fmap option_fmap option_map bbName bbInstructions];
           rewrite <- ?app_assoc; reflexivity | ].
  all: match goal with |- context [execFrom ?f _ _ _ _] => set (f' := f) end;
         simpl app; rewrite execFrom_eq.
  all: exec_binary f'; exec_cmp f'; exec_condbr f'.
  all: cbv beta iota; rewrite Z.land_ones by lia.
  all: destruct (Z.eqb_spec (a mod 2 ^ naturalAlignmentLog2) 0) as [Ez|Ez].
  all: first [ rewrite Ez | rewrite (proj2 (Z.eqb_neq 0 _)) by lia ].
  all: cbn [negb Z.eqb]; cbv beta iota; enter_block f'.
  all: try (cbn [enterPHIs]; rewrite execFrom_eq, exec_nil; rewrite Nat.add_1_r;
            eexists; reflexivity).
  all: erewrite enterPHIs_done; [ | solve_inst f' | reflexivity ].
  all: rewrite execFrom_eq.
  all: erewrite exec_cons by solve_inst f'.
  all: cbn [step stepCall]; change (isTrapIntrinsic "misalignedAtomicTrap") with true;
         cbv beta iota; cbn [evalValues mapM].
  all: rewrite !evalValue_setRegister
         by (eapply definedBefore_mono; [eassumption | lia]).
  all: rewrite Ha; cbn; eexists; reflexivity.
Qed.

Lemma trapIfMisalignedAtomic_checks_the_low_bits_witness :
  ∃ s' code,
    trapIfMisalignedAtomic (Argument 0 llvmI32Type) 2
      (exampleContext (mkFunctionType [i32] [i32]) [])
    = Emitted tt s' ∧
    stack s' = [] ∧
    AppendedTo (exampleContext (mkFunctionType [i32] [i32]) []) s' 1
      (mkBasicBlock "entry" [0]) code ∧
    ∃ env',
      execFrom (llvmFunction s') 1 1 (exampleEnv [RInt 32 6] 65536) code
      = Trapped "misalignedAtomicTrap" [RInt 32 6] env'.
Proof.
  apply (trapIfMisalignedAtomic_checks_the_low_bits
           (exampleContext (mkFunctionType [i32] [i32]) [])
           (Argument 0 llvmI32Type) 2 1 (mkBasicBlock "entry" [0])
           (exampleEnv [RInt 32 6] 65536) 6 0).
  - repeat split; try (vm_compute; lia); vm_compute; reflexivity.
  - eexists; split; reflexivity.
  - exact I.
  - reflexivity.
  - lia.
Defined.

(** ** Return *)

(** Two loop bodies that agree on the states the loop goes through. *)
Lemma forDownFrom_agree (P : EmitFunctionContext → Prop) (body1 body2 : nat → Emit unit) :
  (∀ i s, P s → body1 i s = body2 i s) →
  (∀ i s a s', P s → body2 i s = Emitted a s' → P s') →
  ∀ n s, P s → forDownFrom n body1 s = forDownFrom n body2 s.
Proof.
  intros Hagree Hkeeps. induction n as [|n IH]; intros s Hs; [reflexivity |].
  cbn [forDownFrom]. rewrite !run_bind, (Hagree n s Hs).
  destruct (body2 n s) as [a s'|e] eqn:Hbody; [| reflexivity].
  apply IH. eapply Hkeeps; eassumption.
Qed.

(** X19. [return] is a branch to the end of the function: the results are
    popped and become incoming values (from the block being emitted) of the
    end PHI nodes of the outermost control context, each at its index; the
    block ends with a branch to the end block of that context, and the
    innermost context is left unreachable, without the operands it held. *)
Theorem return_branches_to_the_function_end (s : EmitFunctionContext)
    (arguments rest : list Value) (b : nat)
    (current : ControlContext) (outer : list ControlContext) (outermost : ControlContext) :
  stack s = arguments ++ rest →
  controlStack s = current :: outer →
  last (controlStack s) = Some outermost →
  outerStackSize current ≤ length rest →
  (Z.of_nat (length (stack s)) < 2 ^ 64)%Z →
  length arguments = length (results (functionType s)) →
  length arguments ≤ length (endPHIs outermost) →
  insertBlock (llvmFunction s) = Some b →
  is_Some (basicBlocks (llvmFunction s) !! b) →
  Forall (IsPHI (llvmFunction s)) (endPHIs outermost) →
  ∃ s' branch,
    return_ s = Emitted tt s' ∧
    stack s' = resize (outerStackSize current) rest ∧
    controlStack s' = unreachableContext current :: outer ∧
    branchTargetStack s' = branchTargetStack s ∧
    instructions (llvmFunction s') !! branch = Some (BranchInst (endBlock outermost)) ∧
    (∃ bb, basicBlocks (llvmFunction s') !! b = Some bb ∧
       last (bbInstructions bb) = Some branch) ∧
    ∀ argIndex phi argument,
      endPHIs outermost !! argIndex = Some phi →
      reverse arguments !! argIndex = Some argument →
      ∃ value,
        CanonicalOf (llvmFunction s') argument value ∧
        HasIncoming (llvmFunction s') phi value b.
Proof.
  intros Hstack Hcs Hlast Hdepth Hsize Hlen Hphis Hb Hblock HisPHI.
  assert (length (stack s) = length arguments + length rest) as Hlength
    by (rewrite Hstack, length_app; reflexivity).
  destruct (pop_arguments_run (endPHIs outermost) b (length arguments) s arguments rest)
    as (f' & Hrun & Hg & Hb' & [bb Hbb] & Hall);
    [exact Hstack | reflexivity | lia
    | unfold outerStackSizeOfInnermost; rewrite Hcs; lia
    | exact Hsize | exact Hb | exact Hblock | exact HisPHI |].
  eexists. exists (nextInstruction f'). split.
  - unfold return_. run. rewrite <- Hlen.
    rewrite (forDownFrom_agree (λ s0, controlStack s0 = controlStack s) _
               (λ argIndex,
                  argument ← pop;
                  phi ← defined (endPHIs outermost !! argIndex);
                  value ← coerceToCanonicalType argument;
                  insertBlock ← currentBlock;
                  addIncoming phi value insertBlock)).
    + rewrite Hrun. run. unfold outermostControlContext. run.
      cbn [controlStack set_stack set_llvmFunction]. rewrite Hlast. run.
      unfold CreateBr. run. cbv [Create irBuilder].
      cbn [llvmFunction set_stack set_llvmFunction Insert]. run.
      erewrite enterUnreachable_run; [reflexivity | exact Hcs | exact Hdepth].
    + intros i s0 Hs0. rewrite !run_bind.
      destruct (pop s0) as [argument s1|e] eqn:Hpop; [| reflexivity].
      apply pop_Emitted in Hpop as (_ & Hc1 & _).
      unfold outermostControlContext. run. rewrite Hc1, Hs0, Hlast. run. reflexivity.
    + intros i s0 a s1 Hs0 Hbody.
      apply bind_Emitted in Hbody as (argument & s2 & Hpop & Hbody).
      apply pop_Emitted in Hpop as (_ & Hc2 & _).
      apply KeepsStacks_Emitted in Hbody as (_ & Hc1 & _); [congruence | keeps].
    + reflexivity.
  - cbn. rewrite Hb'.
    assert (Grows f' (Insert (BranchInst (endBlock outermost)) f').2) as Hg'
      by apply Grows_Insert.
    cbn in Hg'. rewrite Hb' in Hg'.
    repeat split.
    + apply lookup_insert_eq.
    + exists (appendToBlock (nextInstruction f') bb). split.
      * rewrite lookup_alter_eq, Hbb. reflexivity.
      * unfold appendToBlock. cbn. apply last_snoc.
    + intros argIndex phi argument Hphi Hargument.
      pose proof (lookup_lt_Some _ _ _ Hargument) as Hlt. rewrite length_reverse in Hlt.
      rewrite reverse_lookup in Hargument by exact Hlt.
      destruct (Hall argIndex phi argument) as (value & Hc & Hi);
        [exact Hlt | exact Hphi
        | replace (length arguments - argIndex - 1) with (length arguments - S argIndex)
            by lia; exact Hargument |].
      exists value. split.
      * eapply CanonicalOf_Grows; [exact Hg' | exact Hc].
      * eapply HasIncoming_Grows; [exact Hg' | exact Hi].
Qed.

Lemma return_branches_to_the_function_end_witness :
  ∃ s' branch,
    return_ (exampleReturnContext [Argument 0 llvmI32Type]) = Emitted tt s' ∧
    stack s' = [] ∧
    controlStack s'
    = [mkControlContext ControlContext.function 0 [InstValue 1 llvmI32Type] None [] [i32]
         0 0 false] ∧
    branchTargetStack s' = [BranchTarget.mk [i32] 0 [InstValue 1 llvmI32Type]] ∧
    instructions (llvmFunction s') !! branch = Some (BranchInst 0) ∧
    (∃ bb, basicBlocks (llvmFunction s') !! 1 = Some bb ∧
       last (bbInstructions bb) = Some branch) ∧
    ∀ argIndex phi argument,
      [InstValue 1 llvmI32Type] !! argIndex = Some phi →
      reverse [Argument 0 llvmI32Type] !! argIndex = Some argument →
      ∃ value,
        CanonicalOf (llvmFunction s') argument value ∧
        HasIncoming (llvmFunction s') phi value 1.
Proof.
  apply (return_branches_to_the_function_end
           (exampleReturnContext [Argument 0 llvmI32Type]) [Argument 0 llvmI32Type] [] 1
           (mkControlContext ControlContext.function 0 [InstValue 1 llvmI32Type] None []
              [i32] 0 0 true)
           []
           (mkControlContext ControlContext.function 0 [InstValue 1 llvmI32Type] None []
              [i32] 0 0 true)).
  - reflexivity.
  - reflexivity.
  - reflexivity.
  - simpl. lia.
  - vm_compute. reflexivity.
  - reflexivity.
  - simpl. lia.
  - reflexivity.
  - vm_compute. eexists. reflexivity.
  - repeat constructor. exists 1, llvmI32Type, []. vm_compute. repeat split. lia.
Defined.

(** ** Else *)

(** X20. [else] closes the then-branch and opens the else-branch: the
    results of the then-branch are popped and become incoming values of the
    end PHI nodes, the block ends with a branch to the end block, and the
    emitter goes on in the else-block with the arguments of the [if] back on
    the operand stack, in the order [if] recorded them; the control context
    becomes a reachable [ifElse] context that has no else-block left. *)
Theorem else_restores_the_arguments (s : EmitFunctionContext)
    (thenResults rest : list Value) (b : nat) (elseBlock' : nat)
    (current : ControlContext) (outer : list ControlContext) :
  stack s = thenResults ++ rest →
  controlStack s = current :: outer →
  type current = ControlContext.ifThen →
  elseBlock current = Some elseBlock' →
  isReachable current = true →
  length rest = outerStackSize current →
  (Z.of_nat (length (stack s)) < 2 ^ 64)%Z →
  length thenResults = length (resultTypes current) →
  length thenResults ≤ length (endPHIs current) →
  insertBlock (llvmFunction s) = Some b →
  is_Some (basicBlocks (llvmFunction s) !! b) →
  Forall (IsPHI (llvmFunction s)) (endPHIs current) →
  ∃ s' branch,
    else_ s = Emitted tt s' ∧
    stack s' = reverse (elseArgs current) ++ rest ∧
    controlStack s'
    = mkControlContext ControlContext.ifElse (endBlock current) (endPHIs current) None
        (elseArgs current) (resultTypes current) (outerStackSize current)
        (outerBranchTargetStackSize current) true
      :: outer ∧
    branchTargetStack s' = branchTargetStack s ∧
    insertBlock (llvmFunction s') = Some elseBlock' ∧
    instructions (llvmFunction s') !! branch = Some (BranchInst (endBlock current)) ∧
    (∃ bb, basicBlocks (llvmFunction s') !! b = Some bb ∧
       last (bbInstructions bb) = Some branch) ∧
    ∀ resultIndex phi result,
      endPHIs current !! resultIndex = Some phi →
      reverse thenResults !! resultIndex = Some result →
      ∃ value,
        CanonicalOf (llvmFunction s') result value ∧
        HasIncoming (llvmFunction s') phi value b.
Proof.
  intros Hstack Hcs Htype Helse Hreachable Hdepth Hsize Hlen Hphis Hb Hblock HisPHI.
  assert (length (stack s) = length thenResults + length rest) as Hlength
    by (rewrite Hstack, length_app; reflexivity).
  destruct (pop_arguments_run (endPHIs current) b (length thenResults) s thenResults rest)
    as (f' & Hrun & Hg & Hb' & [bb Hbb] & Hall);
    [exact Hstack | reflexivity | lia
    | unfold outerStackSizeOfInnermost; rewrite Hcs; lia
    | exact Hsize | exact Hb | exact Hblock | exact HisPHI |].
  eexists. exists (nextInstruction f'). split.
  - unfold else_. run. rewrite Hcs. cbn [length nonZero Nat.eqb negb]. run.
    unfold branchToEndOfControlContext, currentControlContext at 1. run.
    rewrite Hcs. cbn [head]. run. rewrite Hreachable. run. rewrite <- Hlen, Hrun. run.
    unfold CreateBr. run. cbv [Create irBuilder].
    cbn [llvmFunction set_stack set_llvmFunction Insert stack]. run.
    rewrite bool_decide_eq_true_2 by exact Hdepth. run.
    unfold currentControlContext. run.
    cbn [controlStack set_stack set_llvmFunction]. rewrite Hcs. cbn [head]. run.
    rewrite Helse, Htype. run.
    unfold moveAfterInsertBlock. run.
    rewrite (currentBlock_run _ b) by (cbn; exact Hb'). run.
    cbv [irBuilder_ modify LLVMJIT.SetInsertPoint]. run.
    rewrite pushMultiple_run. unfold modifyCurrentContext. run.
    cbn [controlStack set_stack set_llvmFunction]. rewrite Hcs. reflexivity.
  - cbn. rewrite Hb'.
    assert (Grows f' (Insert (BranchInst (endBlock current)) f').2) as Hg'
      by apply Grows_Insert.
    cbn in Hg'. rewrite Hb' in Hg'.
    repeat split.
    + apply lookup_insert_eq.
    + exists (appendToBlock (nextInstruction f') bb). split.
      * rewrite lookup_alter_eq, Hbb. reflexivity.
      * unfold appendToBlock. cbn. apply last_snoc.
    + intros resultIndex phi result Hphi Hresult.
      pose proof (lookup_lt_Some _ _ _ Hresult) as Hlt. rewrite length_reverse in Hlt.
      rewrite reverse_lookup in Hresult by exact Hlt.
      destruct (Hall resultIndex phi result) as (value & Hc & Hi);
        [exact Hlt | exact Hphi
        | replace (length thenResults - resultIndex - 1)
            with (length thenResults - S resultIndex) by lia; exact Hresult |].
      exists value. split.
      * eapply CanonicalOf_Grows; [| exact Hc]. 
        destruct Hg' as [Hn Hi']. split; [exact Hn | exact Hi'].
      * eapply HasIncoming_Grows; [| exact Hi].
        destruct Hg' as [Hn Hi']. split; [exact Hn | exact Hi'].
Qed.

Lemma else_restores_the_arguments_witness :
  ∃ s' branch,
    else_ exampleIfContext = Emitted tt s' ∧
    stack s' = [Argument 0 llvmI32Type] ∧
    controlStack s'
    = [mkControlContext ControlContext.ifElse 4 [InstValue 1 llvmI32Type] None
         [Argument 0 llvmI32Type] [i32] 0 1 true;
       mkControlContext ControlContext.function 0 [] None [] [i32] 0 0 true] ∧
    branchTargetStack s'
    = [BranchTarget.mk [i32] 4 [InstValue 1 llvmI32Type]; BranchTarget.mk [i32] 0 []] ∧
    insertBlock (llvmFunction s') = Some 3 ∧
    instructions (llvmFunction s') !! branch = Some (BranchInst 4) ∧
    (∃ bb, basicBlocks (llvmFunction s') !! 2 = Some bb ∧
       last (bbInstructions bb) = Some branch) ∧
    ∀ resultIndex phi result,
      [InstValue 1 llvmI32Type] !! resultIndex = Some phi →
      reverse [Argument 0 llvmI32Type] !! resultIndex = Some result →
      ∃ value,
        CanonicalOf (llvmFunction s') result value ∧
        HasIncoming (llvmFunction s') phi value 2.
Proof.
  apply (else_restores_the_arguments exampleIfContext [Argument 0 llvmI32Type] [] 2 3
           (mkControlContext ControlContext.ifThen 4 [InstValue 1 llvmI32Type] (Some 3)
              [Argument 0 llvmI32Type] [i32] 0 1 true)
           [mkControlContext ControlContext.function 0 [] None [] [i32] 0 0 true]).
  - reflexivity.
  - reflexivity.
  - reflexivity.
  - reflexivity.
  - reflexivity.
  - reflexivity.
  - vm_compute. reflexivity.
  - reflexivity.
  - simpl. lia.
  - reflexivity.
  - vm_compute. eexists. reflexivity.
  - repeat constructor. exists 1, llvmI32Type, []. vm_compute. repeat split. lia.
Defined.

(** ** More of the S-expression parser *)

Module SExpMore.
Import Stdlib.Strings.Ascii Stdlib.Strings.String.
Import SExp SExpProperties.
Local Open Scope char_scope.

(** The locus [n] characters further on the line, counted up from [n]. *)
Definition furtherOn (n : nat) (l : TextFileLocus) : TextFileLocus :=
  mkTextFileLocus (newlines l) (tabs l) (n + characters l).

Lemma furtherOn_furtherOn n m l : furtherOn n (furtherOn m l) = furtherOn (n + m) l.
Proof. unfold furtherOn. cbn. f_equal. lia. Qed.

(** One iteration of the loop of [parseQuotedString] reads the escaped form of
    one character back. *)
Lemma parseQuotedStringLoop_escapeCharacter (c : ascii) (fuel : nat) (text tail : string)
    (l : TextFileLocus) :
  parseQuotedStringLoop (S fuel) text (mkStreamState (escapeCharacter c ++ tail) l)
  = parseQuotedStringLoop fuel (appendChar text c)
      (mkStreamState tail (furtherOn (String.length (escapeCharacter c)) l)).
Proof.
  destruct c as [[] [] [] [] [] [] [] []]; reflexivity.
Qed.

Lemma length_append (s1 s2 : string) :
  String.length (s1 ++ s2) = String.length s1 + String.length s2.
Proof.
  induction s1 as [|c s1 IH]; [reflexivity |].
  rewrite append_cons. cbn [String.length]. rewrite IH. reflexivity.
Qed.

Lemma escapeCharacter_length c : 1 ≤ String.length (escapeCharacter c).
Proof. destruct c as [[] [] [] [] [] [] [] []]; vm_compute; lia. Qed.

Lemma escapeString_length text : String.length text ≤ String.length (escapeString text).
Proof.
  induction text as [|c text IH]; [reflexivity |].
  cbn [escapeString String.length]. rewrite length_append.
  pose proof (escapeCharacter_length c). lia.
Qed.

Lemma append_empty (text : string) : (text ++ EmptyString)%string = text.
Proof. induction text as [|c text IH]; [reflexivity |]. rewrite append_cons, IH. reflexivity. Qed.

Lemma parseQuotedStringLoop_escapeString (text : string) :
  ∀ (fuel : nat) (read tail : string) (l : TextFileLocus),
  String.length text < fuel →
  parseQuotedStringLoop fuel read
    (mkStreamState (escapeString text ++ String quote tail) l)
  = Returned (String_ (furtherOn (S (String.length (escapeString text))) l)
                (furtherOn (S (String.length (escapeString text))) l) (read ++ text))
      (mkStreamState tail (furtherOn (S (String.length (escapeString text))) l)).
Proof.
  induction text as [|c text IH]; intros fuel read tail l Hfuel;
    (destruct fuel as [|fuel]; [cbn in Hfuel; lia |]).
  - rewrite append_empty. reflexivity.
  - cbn [escapeString]. rewrite append_assoc, parseQuotedStringLoop_escapeCharacter.
    rewrite IH by (cbn in Hfuel; lia).
    rewrite furtherOn_furtherOn, length_append.
    replace (S (String.length (escapeString text)) + String.length (escapeCharacter c))
      with (S (String.length (escapeCharacter c) + String.length (escapeString text)))
      by lia.
    unfold appendChar. rewrite append_assoc. reflexivity.
Qed.

(** X21: what [escapeString] writes, [parseQuotedString] reads back.  For every
    text (whatever its characters: quotes, backslashes, newlines, control
    characters, the characters from 128 on), the escaped text between quotes is
    parsed as a string node holding the text, and the parser is left after the
    closing quote. *)
Theorem parseQuotedString_reads_escapeString_back (text tail : string) (l : TextFileLocus) :
  let after := afterCharacters (2 + String.length (escapeString text)) l in
  parseQuotedString
    (mkStreamState (String quote (escapeString text ++ String quote tail)) l)
  = Returned (String_ after after text) (mkStreamState tail after).
Proof.
  intros after.
  assert (after = furtherOn (2 + String.length (escapeString text)) l) as ->.
  { unfold after, afterCharacters, furtherOn. f_equal. lia. }
  unfold parseQuotedString. rewrite parser_bind.
  change (advance (mkStreamState (String quote (escapeString text ++ String quote tail)) l))
    with (Returned tt (mkStreamState (escapeString text ++ String quote tail) (furtherOn 1 l))).
  prun. rewrite parseQuotedStringLoop_escapeString.
  - rewrite furtherOn_furtherOn.
    replace (S (String.length (escapeString text)) + 1)
      with (2 + String.length (escapeString text)) by lia.
    reflexivity.
  - rewrite length_append. pose proof (escapeString_length text). lia.
Qed.

(** *** Keywords and hexadecimal integers *)

Lemma advance_Returned state u state' :
  advance state = Returned u state' → next state = String (peekAt state) (next state').
Proof.
  unfold advance, peekAt. destruct state as [[|c rest] l]; cbn [next locus];
    [discriminate |].
  destruct (c =? NUL); [discriminate |].
  destruct (c =? newline); [| destruct (c =? tab)]; intros H; inversion H; reflexivity.
Qed.

Lemma consume_Returned state c state' :
  consume state = Returned c state' → next state = String c (next state').
Proof.
  unfold consume. intros H. apply bind_Returned in H as (c' & s1 & Hpeek & H).
  inversion Hpeek. subst c' s1. clear Hpeek.
  apply bind_Returned in H as (u & s2 & Hadvance & H). inversion H. subst.
  apply advance_Returned in Hadvance. exact Hadvance.
Qed.

Lemma parseKeywordFrom_Returned (keyword : string) :
  ∀ savedState state matched state',
  parseKeywordFrom savedState keyword state = Returned matched state' →
  if matched then next state = (keyword ++ next state')%string else state' = savedState.
Proof.
  induction keyword as [|k keyword IH]; intros savedState state matched state' H.
  - inversion H. reflexivity.
  - cbn [parseKeywordFrom] in H. apply bind_Returned in H as (c & s1 & Hconsume & H).
    apply consume_Returned in Hconsume.
    destruct (Ascii.eqb_spec c k) as [->|Hne]; cbn [negb] in H.
    + apply IH in H. destruct matched; [| exact H].
      rewrite Hconsume, H. reflexivity.
    + inversion H. reflexivity.
Qed.

(** X22: [parseKeyword] consumes the keyword or nothing.  When it returns true
    the input started with the keyword and the stream is just after it; when
    it returns false the stream is back in the state it was called in. *)
Theorem parseKeyword_consumes_the_keyword_or_nothing (keyword : string)
    (state state' : StreamState) (matched : bool) :
  parseKeyword keyword state = Returned matched state' →
  if matched then next state = (keyword ++ next state')%string else state' = state.
Proof.
  unfold parseKeyword. intros H. apply bind_Returned in H as (saved & s1 & Hget & H).
  inversion Hget. subst saved s1. apply parseKeywordFrom_Returned in H. exact H.
Qed.

Lemma parseKeyword_consumes_the_keyword_or_nothing_witness :
  next (mkStreamState "infinity)" (mkTextFileLocus 0 0 0))
  = ("infinity" ++ next (mkStreamState ")" (mkTextFileLocus 0 0 8)))%string.
Proof.
  apply (parseKeyword_consumes_the_keyword_or_nothing "infinity"
           (mkStreamState "infinity)" (mkTextFileLocus 0 0 0))
           (mkStreamState ")" (mkTextFileLocus 0 0 8)) true).
  vm_compute. reflexivity.
Defined.

(** The text consists of hexadecimal digits. *)
Fixpoint allHexits (digits : string) : bool :=
  match digits with
  | EmptyString => true
  | String c rest => isHexDigit c && allHexits rest
  end.

Lemma parseHexit_range c hexit : parseHexit c = Some hexit → (0 <= hexit <= 15)%Z.
Proof.
  destruct c as [[] [] [] [] [] [] [] []]; vm_compute; intros H; inversion H;
    split; discriminate.
Qed.

Lemma parseHexIntegerLoop_Returned (fuel : nat) :
  ∀ savedState outValue numMatchedCharacters state n value state',
  parseHexIntegerLoop fuel savedState outValue numMatchedCharacters state
  = Returned (n, value) state' →
  (0 <= outValue <= UINT64_MAX)%Z →
  (0 <= value <= UINT64_MAX)%Z ∧
  ((n = 0%Z ∧ state' = savedState) ∨
   ∃ digits,
     next state = (digits ++ next state')%string ∧ allHexits digits = true ∧
     n = (numMatchedCharacters + Z.of_nat (String.length digits))%Z ∧
     value = digitsValue 16 digits outValue ∧
     parseHexit (peekAt state') = None ∧
     (digits = EmptyString → state' = state)).
Proof.
  induction fuel as [|fuel IH];
    intros savedState outValue numMatched state n value state' H Hrange;
    [discriminate |].
  cbn [parseHexIntegerLoop] in H. apply bind_Returned in H as (c & s1 & Hpeek & H).
  inversion Hpeek. subst s1. fold (peekAt state) in H1. subst c. clear Hpeek.
  destruct (parseHexit (peekAt state)) as [hexit|] eqn:Hhexit.
  - apply bind_Returned in H as (c & s1 & Hconsume & H).
    pose proof (consume_Returned _ _ _ Hconsume) as Hnext.
    assert (c = peekAt state) as ->.
    { unfold peekAt. rewrite Hnext. reflexivity. }
    pose proof (parseHexit_range _ _ Hhexit) as Hh.
    unfold UINT64_MAX in *.
    change (2 ^ 64 - 1)%Z with 18446744073709551615%Z in *.
    change (18446744073709551615 / 16)%Z with 1152921504606846975%Z in *.
    destruct (Z.ltb_spec 1152921504606846975 outValue) as [Hover|Hfits].
    + inversion H. subst. split; [lia |]. left. done.
    + apply IH in H as (Hvalue & Hcases); [| lia].
      split; [exact Hvalue |].
      destruct Hcases as [Hrestored|(digits & Hd & Hall & Hn & Hv & Hend & _)].
      * left. exact Hrestored.
      * right. exists (String (peekAt state) digits). rewrite Hnext, Hd.
        split; [reflexivity |]. split.
        { cbn [allHexits]. unfold isHexDigit. rewrite Hhexit, Hall. reflexivity. }
        split; [cbn [String.length]; lia |]. split; [| split; [exact Hend | discriminate]].
        cbn [digitsValue]. rewrite Hhexit. exact Hv.
  - inversion H. subst. split; [exact Hrange |]. right. exists EmptyString.
    split; [reflexivity |]. split; [reflexivity |]. split; [cbn; lia |].
    split; [reflexivity |]. split; [exact Hhexit | reflexivity].
Qed.

(** X23: [parseHexInteger] counts the digits it consumed.  The value never
    exceeds 64 bits.  A count of zero (no digit, or a number that does not
    fit) leaves the stream where it was; otherwise the stream has moved over
    that many hexadecimal digits, up to a character that is not one, and the
    value is theirs. *)
Theorem parseHexInteger_counts_what_it_consumes (state state' : StreamState) (n value : Z) :
  parseHexInteger state = Returned (n, value) state' →
  (0 <= value <= UINT64_MAX)%Z ∧
  if (n =? 0)%Z then state' = state
  else ∃ digits,
         next state = (digits ++ next state')%string ∧ allHexits digits = true ∧
         n = Z.of_nat (String.length digits) ∧ value = digitsValue 16 digits 0 ∧
         parseHexit (peekAt state') = None.
Proof.
  unfold parseHexInteger. intros H. apply bind_Returned in H as (saved & s1 & Hget & H).
  inversion Hget. subst saved s1. clear Hget.
  apply bind_Returned in H as (r & s1 & Hremaining & H). inversion Hremaining. subst r s1.
  apply parseHexIntegerLoop_Returned in H as (Hvalue & Hcases); [| unfold UINT64_MAX; lia].
  split; [exact Hvalue |].
  destruct Hcases as [[-> ->]|(digits & Hd & Hall & Hn & Hv & Hend & Hsame)];
    [reflexivity |].
  destruct (Z.eqb_spec n 0) as [Hzero|_].
  - apply Hsame. destruct digits; [reflexivity | cbn [String.length] in Hn; lia].
  - exists digits. rewrite Z.add_0_l in Hn. done.
Qed.

Lemma parseHexInteger_counts_what_it_consumes_witness :
  (0 <= 255 <= UINT64_MAX)%Z ∧
  ∃ digits,
    next (mkStreamState "fF)" (mkTextFileLocus 0 0 0))
    = (digits ++ next (mkStreamState ")" (mkTextFileLocus 0 0 2)))%string ∧
    allHexits digits = true ∧ 2%Z = Z.of_nat (String.length digits) ∧
    255%Z = digitsValue 16 digits 0 ∧
    parseHexit (peekAt (mkStreamState ")" (mkTextFileLocus 0 0 2))) = None.
Proof.
  apply (parseHexInteger_counts_what_it_consumes
           (mkStreamState "fF)" (mkTextFileLocus 0 0 0))
           (mkStreamState ")" (mkTextFileLocus 0 0 2)) 2 255).
  vm_compute. reflexivity.
Defined.

(** *** Skipping ahead *)

Lemma advance_at state :
  (peekAt state =? NUL) = false →
  ∃ state', advance state = Returned tt state' ∧
    next state = String (peekAt state) (next state').
Proof.
  unfold peekAt, advance. destruct state as [[|c rest] l]; cbn [next locus].
  - discriminate.
  - intros ->. destruct (c =? newline); [| destruct (c =? tab)];
      eexists; split; reflexivity.
Qed.

Lemma advancePastNextLoop_skips (c : ascii) (fuel : nat) :
  ∀ (parenthesesDepth : N) (state : StreamState),
  String.length (next state) < fuel →
  ∃ found state' skipped,
    advancePastNextLoop fuel c parenthesesDepth state = Returned found state' ∧
    next state = (skipped ++ next state')%string ∧
    if found : bool then ∃ before, skipped = (before ++ String c EmptyString)%string
    else peekAt state' = NUL ∨ peekAt state' = ")".
Proof.
  induction fuel as [|fuel IH]; intros depth state Hfuel; [lia |].
  cbn [advancePastNextLoop]. prun. fold (peekAt state).
  destruct (Ascii.eqb_spec (peekAt state) NUL) as [Hnul|Hnul].
  { exists false, state, EmptyString. split; [reflexivity |]. split; [reflexivity |].
    left. exact Hnul. }
  apply Ascii.eqb_neq in Hnul.
  destruct (advance_at state Hnul) as (state1 & Hadvance & Hnext).
  assert (∀ depth', ∃ found state' skipped,
            (advance ≫= λ _, advancePastNextLoop fuel c depth') state
            = Returned found state' ∧
            next state = (skipped ++ next state')%string ∧
            if found : bool then ∃ before, skipped = (before ++ String c EmptyString)%string
            else peekAt state' = NUL ∨ peekAt state' = ")") as Hstep.
  { intros depth'. rewrite parser_bind, Hadvance.
    destruct (IH depth' state1) as (found & state' & skipped & Hrun & Hskipped & Hfound).
    { rewrite Hnext in Hfuel. cbn [String.length] in Hfuel. lia. }
    exists found, state', (String (peekAt state) skipped). split; [exact Hrun |].
    split; [rewrite Hnext, Hskipped; reflexivity |].
    destruct found; [| exact Hfound]. destruct Hfound as [before ->].
    exists (String (peekAt state) before). reflexivity. }
  destruct (Ascii.eqb_spec (peekAt state) c) as [Hc|_]; cbn [andb].
  - destruct (depth =? 0)%N.
    + rewrite parser_bind, Hadvance. exists true, state1, (String c EmptyString).
      split; [reflexivity |]. split; [rewrite Hnext, Hc; reflexivity |].
      exists EmptyString. reflexivity.
    + destruct (peekAt state =? "("); [apply Hstep |].
      destruct (peekAt state =? ")"); [| apply Hstep]. apply Hstep.
  - destruct (peekAt state =? "("); [apply Hstep |].
    destruct (Ascii.eqb_spec (peekAt state) ")") as [Hparen|_]; [| apply Hstep].
    destruct (depth =? 0)%N; [| apply Hstep].
    exists false, state, EmptyString. split; [reflexivity |]. split; [reflexivity |].
    right. exact Hparen.
Qed.

(** X24: [advancePastNext] always returns, having only moved forward.  When
    it returns true, the last character it stepped over is the one looked
    for; when it returns false, it has stopped at the end of the input or at
    a closing parenthesis. *)
Theorem advancePastNext_skips_forward (c : ascii) (state : StreamState) :
  ∃ found state' skipped,
    advancePastNext c state = Returned found state' ∧
    next state = (skipped ++ next state')%string ∧
    if found : bool then ∃ before, skipped = (before ++ String c EmptyString)%string
    else peekAt state' = NUL ∨ peekAt state' = ")".
Proof.
  unfold advancePastNext. prun. apply advancePastNextLoop_skips. lia.
Qed.

(** *** Symbols *)

(** X25: a symbol is looked up in the index map.  A token other than [nan]
    and [infinity], followed by a character that ends it and is not an equals
    sign, is returned as a symbol node with the index the map gives it, or as
    an unindexed symbol node holding the token when the map has none; the
    stream is left at the character that follows. *)
Theorem parseSymbol_looks_the_token_up (symbolIndexMap : SymbolIndexMap)
    (parseValue : Parser (option Node)) (l : TextFileLocus) (first : ascii)
    (token : string) (c : ascii) (rest : string) :
  let text := String first token in
  let after := afterCharacters (String.length text) l in
  isToken text = true → isSymbolCharacter c = false → c ≠ "=" →
  text ≠ "nan"%string → text ≠ "infinity"%string →
  parseSymbol symbolIndexMap parseValue (mkStreamState (text ++ String c rest) l)
  = Returned
      match symbolIndexMap text with
      | Some symbol => Symbol l after symbol
      | None => UnindexedSymbol l after text
      end
      (mkStreamState (String c rest) after).
Proof.
  intros text after Htoken Hc Hequals Hnan Hinfinity. unfold parseSymbol. prun.
  subst text. rewrite (parseSymbolLoop_token token _ EmptyString first c rest l);
    [| exact Htoken | exact Hc | rewrite length_append; cbn [String.length]; lia].
  rewrite append_nil.
  destruct (String.eqb_spec (String first token) "nan") as [E|_]; [contradiction |].
  destruct (String.eqb_spec (String first token) "infinity") as [E|_]; [contradiction |].
  prun. destruct (Ascii.eqb_spec c "=") as [E|_]; [contradiction |]. reflexivity.
Qed.

Lemma parseSymbol_looks_the_token_up_witness :
  parseSymbol (λ text, if (text =? "i32")%string then Some 7 else None)
    (parseNode noSymbols 0) (mkStreamState ("i32" ++ String ")" EmptyString) (mkTextFileLocus 0 0 1))
  = Returned (Symbol (mkTextFileLocus 0 0 1) (afterCharacters 3 (mkTextFileLocus 0 0 1)) 7)
      (mkStreamState (String ")" EmptyString) (afterCharacters 3 (mkTextFileLocus 0 0 1))).
Proof.
  apply (parseSymbol_looks_the_token_up
           (λ text, if (text =? "i32")%string then Some 7 else None)
           (parseNode noSymbols 0) (mkTextFileLocus 0 0 1) "i" "32" ")" EmptyString);
    try reflexivity; discriminate.
Defined.

Lemma advance_at_end l :
  advance (mkStreamState EmptyString l)
  = Thrown (mkFatalParseException l "unexpected end of file").
Proof. reflexivity. Qed.

Lemma parseSymbolLoop_end (token : string) :
  ∀ (fuel : nat) (text : string) (first : ascii) (l : TextFileLocus),
  isToken (String first token) = true → S (String.length token) < fuel →
  parseSymbolLoop fuel text (mkStreamState (String first token) l)
  = Thrown (mkFatalParseException (afterCharacters (S (String.length token)) l)
              "unexpected end of file").
Proof.
  induction token as [|second token IH]; intros fuel text first l Htoken Hfuel;
    (destruct fuel as [|fuel]; [cbn in Hfuel; lia |]);
    cbn [isToken] in Htoken; apply andb_prop in Htoken as [Hfirst Htoken];
    apply andb_prop in Hfirst as [Hsymbol Hnul]; apply negb_true_iff in Hnul.
  - cbn [parseSymbolLoop]. prun.
    rewrite (advance_symbol_character _ _ _ Hsymbol Hnul). prun.
    change (isSymbolCharacter NUL) with true. cbn beta iota.
    destruct fuel as [|fuel]; [cbn in Hfuel; lia |].
    cbn [parseSymbolLoop]. prun. rewrite advance_at_end. reflexivity.
  - cbn [parseSymbolLoop]. prun.
    rewrite (advance_symbol_character _ _ _ Hsymbol Hnul). prun.
    assert (isSymbolCharacter second = true) as Hsecond.
    { cbn [isToken] in Htoken. apply andb_prop in Htoken as [H _].
      apply andb_prop in H as [H _]. exact H. }
    rewrite Hsecond. rewrite IH; [| exact Htoken | cbn in Hfuel; cbn; lia].
    rewrite afterCharacters_add. reflexivity.
Qed.

(** The characters at which [parseNode] turns to [parseNumber]. *)
Definition startsNumber (c : ascii) : bool :=
  isDigit c || (c =? "+") || (c =? "-") || (c =? ".").

(** X26: a symbol that runs up to the end of the input is not returned.  The
    end of the input counts as a symbol character, so the loop of
    [parseSymbol] steps over it: for an input that is one token, [parse]
    returns the error node of the fatal error "unexpected end of file",
    located at the end of the input. *)
Theorem parse_symbol_at_end_of_input (fuel : nat) (symbolIndexMap : SymbolIndexMap)
    (first : ascii) (token : string) :
  let text := String first token in
  isToken text = true → startsNumber first = false →
  ∃ state,
    parse (S (S fuel)) text symbolIndexMap
    = Returned [Error (afterCharacters (String.length text) (mkTextFileLocus 0 0 0))
                  "unexpected end of file"] state.
Proof.
  intros text Htoken Hnumber. unfold parse. eexists.
  cbn [parseNodeSequence parseNode]. prun.
  pose proof Htoken as Hfirst. cbn [isToken] in Hfirst.
  apply andb_prop in Hfirst as [Hfirst _]. apply andb_prop in Hfirst as [Hsymbol Hnul].
  apply negb_true_iff in Hnul. subst text. cbn beta iota. rewrite Hnul.
  pose proof Hsymbol as Hs. unfold isSymbolCharacter in Hs.
  repeat (apply andb_prop in Hs as [Hs ?]).
  repeat match goal with H : negb _ = true |- _ => apply negb_true_iff in H; rewrite H end.
  fold (startsNumber first). rewrite Hnumber, Hsymbol.
  unfold parseSymbol. prun.
  rewrite parseSymbolLoop_end; [reflexivity | exact Htoken | cbn [String.length]; lia].
Qed.

Lemma parse_symbol_at_end_of_input_witness :
  ∃ state,
    parse 2 "module" noSymbols
    = Returned [Error (afterCharacters 6 (mkTextFileLocus 0 0 0)) "unexpected end of file"]
        state.
Proof.
  apply (parse_symbol_at_end_of_input 0 noSymbols "m" "odule"); reflexivity.
Defined.

(** *** Hexadecimal integers *)

Lemma isHexDigit_symbol c : isHexDigit c = true → isSymbolCharacter c = true ∧ (c =? NUL) = false.
Proof. destruct c as [[] [] [] [] [] [] [] []]; vm_compute; intros H; done. Qed.

Lemma consume_symbol_character c rest l :
  isSymbolCharacter c = true → (c =? NUL) = false →
  consume (mkStreamState (String c rest) l)
  = Returned c (mkStreamState rest (afterCharacters 1 l)).
Proof.
  intros Hc Hnul. unfold consume. prun.
  rewrite (advance_symbol_character _ _ _ Hc Hnul). reflexivity.
Qed.

Lemma digitsValue_bound (digits : string) :
  ∀ value, allHexits digits = true → (0 <= value)%Z →
  (0 <= digitsValue 16 digits value < (value + 1) * 16 ^ Z.of_nat (String.length digits))%Z.
Proof.
  induction digits as [|c digits IH]; intros value Hall Hvalue.
  - cbn. lia.
  - cbn [allHexits] in Hall. apply andb_prop in Hall as [Hc Hall].
    unfold isHexDigit in Hc. destruct (parseHexit c) as [hexit|] eqn:Hhexit; [| discriminate].
    pose proof (parseHexit_range _ _ Hhexit) as Hh.
    cbn [digitsValue String.length]. rewrite Hhexit.
    specialize (IH (value * 16 + hexit)%Z Hall ltac:(lia)).
    rewrite Nat2Z.inj_succ, Z.pow_succ_r by lia.
    assert (0 <= 16 ^ Z.of_nat (String.length digits))%Z by (apply Z.pow_nonneg; lia).
    nia.
Qed.

(** The loop of [parseHexInteger] over digits that fit. *)
Lemma parseHexIntegerLoop_digits (digits : string) :
  ∀ fuel savedState outValue numMatchedCharacters c rest l,
  allHexits digits = true → isHexDigit c = false →
  String.length digits < fuel →
  (0 <= outValue)%Z →
  ((outValue + 1) * 16 ^ Z.of_nat (String.length digits) <= 2 ^ 64)%Z →
  parseHexIntegerLoop fuel savedState outValue numMatchedCharacters
    (mkStreamState (digits ++ String c rest) l)
  = Returned ((numMatchedCharacters + Z.of_nat (String.length digits))%Z,
              digitsValue 16 digits outValue)
      (mkStreamState (String c rest) (afterCharacters (String.length digits) l)).
Proof.
  induction digits as [|d digits IH];
    intros fuel saved outValue numMatched c rest l Hall Hc Hfuel Hvalue Hfits;
    (destruct fuel as [|fuel]; [cbn in Hfuel; lia |]).
  - rewrite append_nil. cbn [parseHexIntegerLoop]. prun.
    unfold isHexDigit in Hc. destruct (parseHexit c); [discriminate |].
    cbn [String.length digitsValue]. rewrite Z.add_0_r.
    unfold afterCharacters. rewrite Nat.add_0_r. destruct l. reflexivity.
  - cbn [allHexits] in Hall. apply andb_prop in Hall as [Hd Hall].
    destruct (isHexDigit_symbol d Hd) as [Hsymbol Hnul].
    unfold isHexDigit in Hd. destruct (parseHexit d) as [hexit|] eqn:Hhexit; [| discriminate].
    pose proof (parseHexit_range _ _ Hhexit) as Hh.
    rewrite append_cons. cbn [parseHexIntegerLoop]. prun. rewrite Hhexit.
    rewrite parser_bind, (consume_symbol_character _ _ _ Hsymbol Hnul).
    cbn [String.length] in Hfits. rewrite Nat2Z.inj_succ, Z.pow_succ_r in Hfits by lia.
    assert (0 < 16 ^ Z.of_nat (String.length digits))%Z by (apply Z.pow_pos_nonneg; lia).
    unfold UINT64_MAX. change ((2 ^ 64 - 1) / 16)%Z with 1152921504606846975%Z.
    change (2 ^ 64)%Z with 18446744073709551616%Z in Hfits.
    destruct (Z.ltb_spec 1152921504606846975 outValue) as [Hover|_]; [nia |].
    rewrite IH; [| exact Hall | exact Hc | cbn in Hfuel; lia | lia |
                 change (2 ^ 64)%Z with 18446744073709551616%Z; nia].
    cbn [digitsValue String.length]. rewrite Hhexit, afterCharacters_add.
    replace (numMatched + 1 + Z.of_nat (String.length digits))%Z
      with (numMatched + Z.of_nat (S (String.length digits)))%Z by lia.
    reflexivity.
Qed.

Lemma parseKeyword_mismatch k keyword c rest l :
  (c =? NUL) = false → c ≠ k →
  parseKeyword (String k keyword) (mkStreamState (String c rest) l)
  = Returned false (mkStreamState (String c rest) l).
Proof.
  intros Hnul Hne. unfold parseKeyword. prun. cbn [parseKeywordFrom].
  destruct (advance_at (mkStreamState (String c rest) l) Hnul) as (state' & Hadvance & _).
  unfold consume. prun. rewrite Hadvance. prun.
  destruct (Ascii.eqb_spec c k) as [E|_]; [contradiction |]. reflexivity.
Qed.

Lemma parseKeywordFrom_match saved keyword rest l :
  isToken keyword = true →
  parseKeywordFrom saved keyword (mkStreamState (keyword ++ rest) l)
  = Returned true (mkStreamState rest (afterCharacters (String.length keyword) l)).
Proof.
  revert l. induction keyword as [|k keyword IH]; intros l Htoken.
  - rewrite append_nil. cbn [parseKeywordFrom String.length]. unfold afterCharacters.
    rewrite Nat.add_0_r. destruct l. reflexivity.
  - cbn [isToken] in Htoken. apply andb_prop in Htoken as [Hk Htoken].
    apply andb_prop in Hk as [Hk Hnul]. apply negb_true_iff in Hnul.
    rewrite append_cons. cbn [parseKeywordFrom]. unfold consume. prun.
    rewrite advance_symbol_character by assumption. prun.
    rewrite Ascii.eqb_refl. cbn [negb]. rewrite IH by assumption.
    cbn [String.length]. rewrite afterCharacters_add. reflexivity.
Qed.

(** X27: a hexadecimal integer.  A number written as [0x] and up to sixteen
    hexadecimal digits, followed by a character that cannot continue it, is
    returned as an unsigned integer node with the value of the digits, and
    the stream is left at the character that follows.  With a minus sign
    before it the node is a signed integer holding the two's complement of
    that value, except at [-0x8000000000000000]: there the source negates
    the least [int64], which overflows, and no result is defined. *)
Theorem parseNumber_hexadecimal_integer (isNegative : bool) (digits : string) (c : ascii)
    (rest : string) (l : TextFileLocus) :
  let sign := if isNegative then "-"%string else EmptyString in
  let after := afterCharacters (String.length sign + 2 + String.length digits) l in
  let value := digitsValue 16 digits 0 in
  allHexits digits = true → 1 ≤ String.length digits ≤ 16 →
  isHexDigit c = false → (c =? NUL) = false → c ≠ "." → c ≠ "p" → c ≠ "P" →
  parseNumber (mkStreamState (sign ++ "0x" ++ digits ++ String c rest) l)
  = if isNegative
    then if (value =? 2 ^ 63)%Z
         then Undefined
         else Returned (SignedInt after after ((- value) mod 2 ^ 64)%Z)
                (mkStreamState (String c rest) after)
    else Returned (UnsignedInt after after value) (mkStreamState (String c rest) after).
Proof.
  intros sign after value Hall Hlen Hc Hnul Hdot Hp HP. subst sign after value.
  assert (((0 + 1) * 16 ^ Z.of_nat (String.length digits) <= 2 ^ 64)%Z) as Hfits.
  { change (2 ^ 64)%Z with (16 ^ 16)%Z. rewrite Z.mul_1_l.
    apply Z.pow_le_mono_r; lia. }
  pose proof (digitsValue_bound digits 0 Hall ltac:(lia)) as Hvalue.
  assert (∀ l0, parseHexNumber l (isNegative)
                  (mkStreamState (digits ++ String c rest) l0)
                = (i64 ← negateIf isNegative (digitsValue 16 digits 0);
                   mret ((if isNegative then SignedInt else UnsignedInt)
                           (afterCharacters (String.length digits) l0)
                           (afterCharacters (String.length digits) l0) i64))
                    (mkStreamState (String c rest)
                       (afterCharacters (String.length digits) l0))) as Hhex.
  { intros l0. unfold parseHexNumber, parseHexInteger. prun.
    rewrite parseHexIntegerLoop_digits;
      [| exact Hall | exact Hc | rewrite length_append; lia | lia | exact Hfits].
    cbn beta iota. rewrite Z.add_0_l.
    destruct (Z.eqb_spec (Z.of_nat (String.length digits)) 0) as [E|_]; [lia |].
    rewrite parser_bind, (parseKeyword_mismatch "." EmptyString c rest _ Hnul Hdot). prun.
    rewrite (parseKeyword_mismatch "p" EmptyString c rest _ Hnul Hp). prun.
    rewrite (parseKeyword_mismatch "P" EmptyString c rest _ Hnul HP). prun.
    cbn [Z.eqb andb orb]. rewrite andb_false_r. cbn [negb]. cbv beta iota.
    unfold negateIf. destruct isNegative; [destruct (_ =? _)%Z |]; prun; reflexivity. }
  assert (∀ l0, parseKeyword "0x" (mkStreamState ("0x" ++ digits ++ String c rest) l0)
                = Returned true (mkStreamState (digits ++ String c rest)
                                   (afterCharacters 2 l0))) as Hprefix.
  { intros l0. unfold parseKeyword. prun. apply parseKeywordFrom_match. reflexivity. }
  assert ((asInt64 (digitsValue 16 digits 0) =? - 2 ^ 63)%Z
          = (digitsValue 16 digits 0 =? 2 ^ 63)%Z) as Hleast.
  { unfold asInt64.
    destruct (Z.ltb_spec (digitsValue 16 digits 0) (2 ^ 63)),
      (Z.eqb_spec (digitsValue 16 digits 0) (2 ^ 63)); lia. }
  destruct isNegative; rewrite ?append_cons, ?append_nil; unfold parseNumber; prun.
  - change (("-" =? "-") || ("-" =? "+")) with true. cbn iota. unfold consume. prun.
    rewrite advance_symbol_character by reflexivity. prun.
    change ("-" =? "-") with true.
    rewrite (parseKeyword_mismatch "n" "an" "0" _ _ eq_refl) by discriminate. prun.
    rewrite (parseKeyword_mismatch "i" "nfinity" "0" _ _ eq_refl) by discriminate. prun.
    change (String "0" (String "x" (digits ++ String c rest)))
      with ("0x" ++ digits ++ String c rest)%string.
    rewrite Hprefix. prun. rewrite Hhex, !afterCharacters_add.
    unfold negateIf. rewrite parser_bind, Hleast.
    destruct (digitsValue 16 digits 0 =? 2 ^ 63)%Z; reflexivity.
  - change (("0" =? "-") || ("0" =? "+")) with false. cbn iota. prun.
    rewrite (parseKeyword_mismatch "n" "an" "0" _ _ eq_refl) by discriminate. prun.
    rewrite (parseKeyword_mismatch "i" "nfinity" "0" _ _ eq_refl) by discriminate. prun.
    change (String "0" (String "x" (digits ++ String c rest)))
      with ("0x" ++ digits ++ String c rest)%string.
    rewrite Hprefix. prun. rewrite Hhex, !afterCharacters_add. reflexivity.
Qed.

Lemma parseNumber_hexadecimal_integer_witness :
  parseNumber (mkStreamState "-0x1F)" (mkTextFileLocus 0 0 0))
  = Returned (SignedInt (mkTextFileLocus 0 0 5) (mkTextFileLocus 0 0 5) (2 ^ 64 - 31))
      (mkStreamState ")" (mkTextFileLocus 0 0 5)).
Proof.
  apply (parseNumber_hexadecimal_integer true "1F" ")" EmptyString (mkTextFileLocus 0 0 0));
    first [reflexivity | discriminate | cbn; lia].
Defined.

(** The least [int64] written in hexadecimal with its minus sign: the
    negation in [parseHexNumber] overflows. *)
Example parseNumber_least_int64 :
  parseNumber (mkStreamState "-0x8000000000000000)" (mkTextFileLocus 0 0 0)) = Undefined.
Proof. vm_compute. reflexivity. Qed.

End SExpMore.

(** ** Comments *)

Module SExpComments.
Import Stdlib.Strings.Ascii Stdlib.Strings.String.
Import SExp SExpProperties SExpMore.
Local Open Scope char_scope.

(** The locus after the character [c], as [advance] counts: a newline starts
    a line, a tab counts as a tab and every other character as a character. *)
Definition locusPast (c : ascii) (l : TextFileLocus) : TextFileLocus :=
  if c =? newline then mkTextFileLocus (S (newlines l)) 0 0
  else if c =? tab then mkTextFileLocus (newlines l) (S (tabs l)) (characters l)
  else mkTextFileLocus (newlines l) (tabs l) (S (characters l)).

Fixpoint locusAfter (text : string) (l : TextFileLocus) : TextFileLocus :=
  match text with
  | EmptyString => l
  | String c rest => locusAfter rest (locusPast c l)
  end.

Lemma locusAfter_append text1 text2 l :
  locusAfter (text1 ++ text2) l = locusAfter text2 (locusAfter text1 l).
Proof.
  revert l. induction text1 as [|c text1 IH]; intros l; [reflexivity |].
  rewrite append_cons. cbn [locusAfter]. apply IH.
Qed.

Lemma advance_past c rest l :
  (c =? NUL) = false →
  advance (mkStreamState (String c rest) l) = Returned tt (mkStreamState rest (locusPast c l)).
Proof.
  intros Hnul. unfold advance, locusPast. cbn [next locus]. rewrite Hnul.
  destruct (c =? newline); [reflexivity |]. destruct (c =? tab); reflexivity.
Qed.

(** The text of a line comment: no newline, and not the end of the input. *)
Fixpoint withinLine (text : string) : bool :=
  match text with
  | EmptyString => true
  | String c rest => negb (c =? newline) && negb (c =? NUL) && withinLine rest
  end.

(** The text ends, or goes on with a newline. *)
Definition atEndOfLine (text : string) : bool :=
  match text with
  | EmptyString => true
  | String c _ => (c =? newline) || (c =? NUL)
  end.

Lemma skipLine_run (comment : string) : ∀ fuel rest l,
  withinLine comment = true → atEndOfLine rest = true →
  String.length comment < fuel →
  skipLine fuel (mkStreamState (comment ++ rest) l)
  = Returned tt (mkStreamState rest (locusAfter comment l)).
Proof.
  induction comment as [|c comment IH]; intros fuel rest l Hcomment Hrest Hfuel;
    (destruct fuel as [|fuel]; [cbn in Hfuel; lia |]).
  - rewrite append_nil. cbn [skipLine locusAfter]. prun.
    destruct rest as [|c rest]; [reflexivity |]. cbn [atEndOfLine] in Hrest.
    apply orb_true_iff in Hrest as [->| ->]; [reflexivity |].
    rewrite andb_false_r. reflexivity.
  - cbn [withinLine] in Hcomment. apply andb_prop in Hcomment as [Hc Hcomment].
    apply andb_prop in Hc as [Hnewline Hnul].
    rewrite append_cons. cbn [skipLine locusAfter]. prun.
    rewrite Hnewline, Hnul. cbn [andb]. prun.
    apply negb_true_iff in Hnul. rewrite advance_past by exact Hnul. prun.
    apply IH; [exact Hcomment | exact Hrest | cbn in Hfuel; lia].
Qed.

(** X28. A line comment is skipped: after [;;] the parser goes on at the next
    newline, or at the end of the input, whatever the comment holds:
    parentheses, quotes, semicolons. *)
Theorem line_comment_is_skipped (symbolIndexMap : SymbolIndexMap) (fuel : nat)
    (comment rest : string) (l : TextFileLocus) :
  withinLine comment = true → atEndOfLine rest = true →
  parseNode symbolIndexMap (S fuel) (mkStreamState (";;" ++ comment ++ rest) l)
  = parseNode symbolIndexMap fuel
      (mkStreamState rest (locusAfter (";;" ++ comment) l)).
Proof.
  intros Hcomment Hrest. rewrite !append_cons, append_nil.
  cbn [parseNode]. prun. change (";" =? NUL) with false. cbv beta iota.
  change (isWhitespace ";") with false. change (";" =? ";") with true. cbv beta iota.
  prun. rewrite advance_past by reflexivity. prun.
  change (negb (";" =? ";")) with false. cbv beta iota. prun.
  rewrite <- (append_cons ";" comment rest).
  rewrite (skipLine_run (String ";" comment)).
  - prun. reflexivity.
  - cbn [withinLine]. rewrite Hcomment. reflexivity.
  - exact Hrest.
  - rewrite append_cons. cbn [String.length]. rewrite length_append. lia.
Qed.

Lemma line_comment_is_skipped_witness :
  parseNode noSymbols 3
    (mkStreamState (";;" ++ " (a ; b" ++ String newline "7 ") (mkTextFileLocus 0 0 0))
  = parseNode noSymbols 2
      (mkStreamState (String newline "7 ")
         (locusAfter (";;" ++ " (a ; b") (mkTextFileLocus 0 0 0))).
Proof.
  apply (line_comment_is_skipped noSymbols 2 " (a ; b" (String newline "7 ")
           (mkTextFileLocus 0 0 0));
    reflexivity.
Defined.

(** The number on the line after the comment is what is parsed. *)
Example line_comment_then_number :
  parseNode noSymbols 3
    (mkStreamState (";;" ++ " (a ; b" ++ String newline "7 ") (mkTextFileLocus 0 0 0))
  = Returned (Some (UnsignedInt (mkTextFileLocus 1 0 1) (mkTextFileLocus 1 0 1) 7))
      (mkStreamState " " (mkTextFileLocus 1 0 1)).
Proof. vm_compute. reflexivity. Qed.

(** The text of a block comment without semicolons, parentheses or the end
    of the input. *)
Fixpoint plainComment (text : string) : bool :=
  match text with
  | EmptyString => true
  | String c rest =>
      negb (c =? ";") && negb (c =? "(") && negb (c =? ")") && negb (c =? NUL)
      && plainComment rest
  end.

Lemma advancePastNextLoop_plain (body : string) : ∀ fuel rest l,
  plainComment body = true → String.length body < fuel →
  advancePastNextLoop fuel ";" 0 (mkStreamState (body ++ String ";" rest) l)
  = Returned true (mkStreamState rest (locusAfter (body ++ ";") l)).
Proof.
  induction body as [|c body IH]; intros fuel rest l Hbody Hfuel;
    (destruct fuel as [|fuel]; [cbn in Hfuel; lia |]).
  - rewrite !append_nil. cbn [advancePastNextLoop locusAfter]. prun.
    change (";" =? NUL) with false. change (";" =? ";") with true. cbn [andb N.eqb].
    cbv beta iota. prun. rewrite advance_past by reflexivity. prun. reflexivity.
  - cbn [plainComment] in Hbody. apply andb_prop in Hbody as [Hc Hbody].
    apply andb_prop in Hc as [Hc Hnul]. apply andb_prop in Hc as [Hc Hclose].
    apply andb_prop in Hc as [Hsemicolon Hopen].
    apply negb_true_iff in Hnul, Hclose, Hopen, Hsemicolon.
    rewrite !append_cons. cbn [advancePastNextLoop locusAfter]. prun.
    rewrite Hnul, Hsemicolon, Hopen, Hclose. cbn [andb]. cbv beta iota. prun.
    rewrite advance_past by exact Hnul. prun.
    apply IH; [exact Hbody | cbn in Hfuel; lia].
Qed.

Lemma advancePastNextLoop_at_semicolon fuel rest l :
  advancePastNextLoop (S fuel) ";" 0 (mkStreamState (String ";" rest) l)
  = Returned true (mkStreamState rest (locusPast ";" l)).
Proof.
  exact (advancePastNextLoop_plain EmptyString (S fuel) rest l eq_refl ltac:(cbn; lia)).
Qed.

Lemma skipBlockComment_run (body rest : string) (l : TextFileLocus) (fuel : nat) :
  plainComment body = true →
  skipBlockComment (S (S fuel))
    (mkStreamState (String ";" (body ++ String ";" (String ")" rest))) l)
  = Returned tt
      (mkStreamState (String ")" rest) (locusAfter (String ";" (body ++ ";")) l)).
Proof.
  intros Hbody. cbn [skipBlockComment]. prun. unfold advancePastNext at 1. prun.
  cbn [String.length]. rewrite advancePastNextLoop_at_semicolon. prun. cbn [negb]. prun.
  destruct body as [|c body].
  - rewrite append_nil. prun. change (negb (";" =? ")")) with true. cbv beta iota.
    prun. unfold advancePastNext at 1. prun.
    cbn [String.length]. rewrite advancePastNextLoop_at_semicolon.
    prun. cbn [negb]. prun. change (negb (")" =? ")")) with false. cbv beta iota.
    reflexivity.
  - pose proof Hbody as Hc. cbn [plainComment] in Hc. apply andb_prop in Hc as [Hc _].
    apply andb_prop in Hc as [Hc _]. apply andb_prop in Hc as [_ Hclose].
    rewrite append_cons. prun. rewrite Hclose. cbv beta iota.
    prun. unfold advancePastNext at 1. prun.
    rewrite <- (append_cons c body).
    rewrite (advancePastNextLoop_plain (String c body))
      by (exact Hbody || (rewrite length_append; cbn; lia)).
    prun. cbn [negb]. prun. change (negb (")" =? ")")) with false. cbv beta iota.
    cbn [locusAfter]. rewrite !append_cons. cbn [locusAfter]. reflexivity.
Qed.

(** X29. A block comment is skipped: after [(;] the parser goes on behind the
    next [;)], for a comment without semicolons and parentheses.  The
    semicolon that opens the comment may close it as well: [(;)] is a
    comment. *)
Theorem block_comment_is_skipped (symbolIndexMap : SymbolIndexMap) (fuel : nat)
    (body rest : string) (l : TextFileLocus) :
  plainComment body = true →
  parseNode symbolIndexMap (S fuel) (mkStreamState ("(;" ++ body ++ ";)" ++ rest) l)
  = parseNode symbolIndexMap fuel
      (mkStreamState rest (locusAfter ("(;" ++ body ++ ";)") l)) ∧
  parseNode symbolIndexMap (S fuel) (mkStreamState ("(;)" ++ rest) l)
  = parseNode symbolIndexMap fuel (mkStreamState rest (afterCharacters 3 l)).
Proof.
  intros Hbody. split.
  - change ("(;" ++ body ++ ";)" ++ rest)%string
      with (String "(" (String ";" (body ++ String ";" (String ")" rest)))).
    cbn [parseNode]. prun. change ("(" =? NUL) with false. cbv beta iota.
    change (isWhitespace "(") with false. change ("(" =? ";") with false.
    change ("(" =? "(") with true. cbv beta iota.
    prun. rewrite advance_past by reflexivity. prun.
    change (";" =? ";") with true. cbv beta iota. prun.
    cbn [String.length]. rewrite length_append. cbn [String.length].
    replace (String.length body + 2) with (S (S (String.length body))) by lia.
    rewrite skipBlockComment_run by exact Hbody. prun.
    rewrite advance_past by reflexivity. prun.
    change ("(;" ++ body ++ ";)")%string
      with (String "(" (String ";" (body ++ String ";" (String ")" EmptyString)))).
    cbn [locusAfter]. rewrite !locusAfter_append. reflexivity.
  - change ("(;)" ++ rest)%string with (String "(" (String ";" (String ")" rest))).
    cbn [parseNode]. prun. change ("(" =? NUL) with false. cbv beta iota.
    change (isWhitespace "(") with false. change ("(" =? ";") with false.
    change ("(" =? "(") with true. cbv beta iota.
    prun. rewrite advance_past by reflexivity. prun.
    change (";" =? ";") with true. cbv beta iota. prun.
    cbn [String.length skipBlockComment]. prun.
    unfold advancePastNext at 1. prun.
    cbn [String.length]. rewrite advancePastNextLoop_at_semicolon.
    prun. cbn [negb]. prun. change (negb (")" =? ")")) with false. cbv beta iota. prun.
    rewrite advance_past by reflexivity. prun.
    do 2 f_equal. unfold afterCharacters. destruct l as [n t c]. cbn. f_equal. lia.
Qed.

Lemma block_comment_is_skipped_witness :
  parseNode noSymbols 3
    (mkStreamState ("(;" ++ " to do " ++ ";)" ++ "7 ") (mkTextFileLocus 0 0 0))
  = parseNode noSymbols 2
      (mkStreamState "7 " (locusAfter ("(;" ++ " to do " ++ ";)") (mkTextFileLocus 0 0 0))) ∧
  parseNode noSymbols 3 (mkStreamState ("(;)" ++ "7 ") (mkTextFileLocus 0 0 0))
  = parseNode noSymbols 2 (mkStreamState "7 " (afterCharacters 3 (mkTextFileLocus 0 0 0))).
Proof.
  apply (block_comment_is_skipped noSymbols 2 " to do " "7 " (mkTextFileLocus 0 0 0)).
  reflexivity.
Defined.

(** The number behind the comment is what is parsed. *)
Example block_comment_then_number :
  parseNode noSymbols 3
    (mkStreamState ("(;" ++ " to do " ++ ";)" ++ "7 ") (mkTextFileLocus 0 0 0))
  = Returned (Some (UnsignedInt (mkTextFileLocus 0 0 12) (mkTextFileLocus 0 0 12) 7))
      (mkStreamState " " (mkTextFileLocus 0 0 12)) ∧
  parseNode noSymbols 3 (mkStreamState ("(;)" ++ "7 ") (mkTextFileLocus 0 0 0))
  = Returned (Some (UnsignedInt (mkTextFileLocus 0 0 4) (mkTextFileLocus 0 0 4) 7))
      (mkStreamState " " (mkTextFileLocus 0 0 4)).
Proof. split; vm_compute; reflexivity. Qed.

(** X30. The two messages of [parseNode] about a character it did not
    expect name the character that opened the construct, not the one found:
    a semicolon that is not followed by a second one is reported as
    "found ';'" whatever follows it, and a list that is not closed where its
    children end as "found '('". *)
Theorem unexpected_character_messages_name_the_opening_character
    (symbolIndexMap : SymbolIndexMap) (fuel : nat) (rest : string)
    (children : list Node) (state' : StreamState) :
  let start := mkTextFileLocus 0 0 0 in
  ((peekAt (mkStreamState rest start) =? ";") = false →
   parse (S (S fuel)) (String ";" rest) symbolIndexMap
   = Returned
       [createError (mkTextFileLocus 0 0 1) "expected ';' following ';' but found ';'"]
       (mkStreamState (String ";" rest) start)) ∧
  ((peekAt (mkStreamState rest start) =? ";") = false →
   parseNodeSequence symbolIndexMap fuel (mkStreamState rest (mkTextFileLocus 0 0 1))
   = Returned children state' →
   (peekAt state' =? ")") = false →
   parse (S (S fuel)) (String "(" rest) symbolIndexMap
   = Returned
       [createError (locus state')
          "expected ')' following S-expression child nodes but found '('"]
       (mkStreamState (String "(" rest) start)).
Proof.
  intros start. unfold peekAt. cbn [next]. split.
  - intros Hrest. unfold parse. cbn [parseNodeSequence parseNode]. prun.
    change (";" =? NUL) with false. cbv beta iota.
    change (isWhitespace ";") with false. change (";" =? ";") with true. cbv beta iota.
    prun. rewrite advance_past by reflexivity. prun. rewrite Hrest. cbn [negb]. prun.
    reflexivity.
  - intros Hrest Hchildren Hclose. unfold parse. cbn [parseNodeSequence parseNode]. prun.
    change ("(" =? NUL) with false. cbv beta iota.
    change (isWhitespace "(") with false. change ("(" =? ";") with false.
    change ("(" =? "(") with true. cbv beta iota.
    prun. rewrite advance_past by reflexivity. prun. rewrite Hrest. prun.
    change (locusPast "(" (mkTextFileLocus 0 0 0)) with (mkTextFileLocus 0 0 1).
    rewrite Hchildren. prun. unfold peekAt in Hclose. rewrite Hclose. cbn [negb]. prun.
    reflexivity.
Qed.

Lemma unexpected_character_messages_name_the_opening_character_witness :
  parse 4 (String ";" "x") noSymbols
  = Returned
      [createError (mkTextFileLocus 0 0 1) "expected ';' following ';' but found ';'"]
      (mkStreamState (String ";" "x") (mkTextFileLocus 0 0 0)) ∧
  parse 5 (String "(" " ") noSymbols
  = Returned
      [createError (mkTextFileLocus 0 0 2)
         "expected ')' following S-expression child nodes but found '('"]
      (mkStreamState (String "(" " ") (mkTextFileLocus 0 0 0)).
Proof.
  split.
  - apply (unexpected_character_messages_name_the_opening_character noSymbols 2 "x" []
             (mkStreamState "x" (mkTextFileLocus 0 0 1))).
    reflexivity.
  - apply (unexpected_character_messages_name_the_opening_character noSymbols 3 " " []
             (mkStreamState EmptyString (mkTextFileLocus 0 0 2))).
    + reflexivity.
    + vm_compute. reflexivity.
    + reflexivity.
Defined.
End SExpComments.
